(** * ATen/native/ReduceOps.cpp: reductions, scans and their adjoints

    A shallow embedding of the validation and numeric logic of
    [aten/src/ATen/native/ReduceOps.cpp], and the properties of it that the
    specification states.

    Conventions.
    - [int64_t] values are [Z]; where the source computes on them the
      arithmetic is written out.
    - A function that can throw ([TORCH_CHECK], [TORCH_CHECK_INDEX]) returns
      [outcome]; a throw is [Raise].
    - [impl::MetaBase] is passed explicitly: [maybe_get_output ()] is an
      [option] argument, [set_output] is the returned output description.
    - Device kernels reached through a [DEFINE_DISPATCH] stub are arguments of
      the function that calls them. *)

From Stdlib Require Import ZArith List Bool Lia String SpecFloat Field QArith Qcanon.
Import ListNotations.
Open Scope Z_scope.

(** ** Exceptions *)

(** Modelled from the spec: the errors of [TORCH_CHECK] and
    [TORCH_CHECK_INDEX] (c10/util/Exception.h is not under src/): "local,
    deterministic, input-validation failures [...] surfaced directly to the
    caller". *)

Inductive Error : Type :=
| Error_ (msg : string)          (* TORCH_CHECK: c10::Error *)
| IndexError (msg : string).     (* TORCH_CHECK_INDEX: c10::IndexError *)

Inductive outcome (A : Type) : Type :=
| Ok (a : A)
| Raise (e : Error).
Arguments Ok {A} a.
Arguments Raise {A} e.

Definition bind {A B} (m : outcome A) (k : A -> outcome B) : outcome B :=
  match m with
  | Ok a => k a
  | Raise e => Raise e
  end.

Notation "x <- m ;; k" := (bind m (fun x => k))
  (at level 61, m at next level, right associativity).
Notation "m ;;; k" := (bind m (fun _ => k))
  (at level 61, right associativity).

Definition TORCH_CHECK (cond : bool) (msg : string) : outcome unit :=
  if cond then Ok tt else Raise (Error_ msg).

Definition TORCH_CHECK_INDEX (cond : bool) (msg : string) : outcome unit :=
  if cond then Ok tt else Raise (IndexError msg).

Definition is_ok {A} (m : outcome A) : bool :=
  match m with Ok _ => true | Raise _ => false end.

(** ** Scalar types, devices, tensors *)

(** Modelled from the spec: [c10::ScalarType] (c10/core/ScalarType.h is not
    under src/): the "fixed enumeration of numeric/boolean/complex scalar
    kinds" of the data model, with the names the source uses. *)
Inductive ScalarType : Type :=
| kByte | kChar | kShort | kInt | kLong
| kHalf | kFloat | kDouble | kBFloat16
| kComplexHalf | kComplexFloat | kComplexDouble
| kBool.

Definition ScalarType_eqb (a b : ScalarType) : bool :=
  match a, b with
  | kByte, kByte | kChar, kChar | kShort, kShort | kInt, kInt | kLong, kLong
  | kHalf, kHalf | kFloat, kFloat | kDouble, kDouble | kBFloat16, kBFloat16
  | kComplexHalf, kComplexHalf | kComplexFloat, kComplexFloat
  | kComplexDouble, kComplexDouble | kBool, kBool => true
  | _, _ => false
  end.

(** Modelled from the spec: the predicates on scalar kinds of
    c10/core/ScalarType.h (not under src/). *)
Definition isIntegralType (t : ScalarType) (includeBool : bool) : bool :=
  match t with
  | kByte | kChar | kShort | kInt | kLong => true
  | kBool => includeBool
  | _ => false
  end.

Definition isFloatingType (t : ScalarType) : bool :=
  match t with
  | kHalf | kFloat | kDouble | kBFloat16 => true
  | _ => false
  end.

Definition isComplexType (t : ScalarType) : bool :=
  match t with
  | kComplexHalf | kComplexFloat | kComplexDouble => true
  | _ => false
  end.

Definition toRealValueType (t : ScalarType) : ScalarType :=
  match t with
  | kComplexHalf => kHalf
  | kComplexFloat => kFloat
  | kComplexDouble => kDouble
  | _ => t
  end.

Inductive DeviceType : Type := kCPU | kCUDA | kMeta.

Inductive Layout : Type := Strided | Sparse.

Record TensorOptions : Type := mkOptions {
  dtype : ScalarType;
  device : DeviceType;
  layout : Layout
}.

(** [options.dtype(t)] *)
Definition with_dtype (o : TensorOptions) (t : ScalarType) : TensorOptions :=
  {| dtype := t; device := device o; layout := layout o |}.

(** Modelled from the spec: the array view ([at::Tensor], not under src/):
    "shape (ordered sequence of non-negative dimension sizes), [...] dtype,
    [...] device/backend tag, and a defined-or-undefined state".  A defined
    tensor holds its shape, its options and its elements in row-major order;
    an undefined [Tensor] is [None] of [option (Tensor V)]. *)
Record Tensor (V : Type) : Type := mkTensor {
  sizes : list Z;
  options : TensorOptions;
  data : list V
}.
Arguments mkTensor {V} sizes options data.
Arguments sizes {V} t.
Arguments options {V} t.
Arguments data {V} t.

Definition prodZ (l : list Z) : Z := fold_right Z.mul 1 l.

Section TensorAccessors.
Context {V : Type}.

Definition scalar_type (t : Tensor V) : ScalarType := dtype (options t).
Definition dim (t : Tensor V) : Z := Z.of_nat (List.length (sizes t)).
Definition numel (t : Tensor V) : Z := prodZ (sizes t).
Definition size (t : Tensor V) (d : Z) : Z := nth (Z.to_nat d) (sizes t) 0.
Definition is_cuda (t : Tensor V) : bool :=
  match device (options t) with kCUDA => true | _ => false end.
Definition is_cpu (t : Tensor V) : bool :=
  match device (options t) with kCPU => true | _ => false end.

(** Modelled from the spec: [t.fill_(v)] and [t.zero_()] (ATen operators,
    not under src/): every element of [t] is overwritten. *)
Definition fill_ (t : Tensor V) (v : V) : Tensor V :=
  mkTensor (sizes t) (options t) (map (fun _ => v) (data t)).
End TensorAccessors.

(** ** Dimension wrapping and reduction shapes (ATen helpers) *)

(** Modelled from the spec: [maybe_wrap_dim] (WrapDimUtils.h is not under
    src/).  "each [index is] wrapped into [0, rank) via a canonicalization
    rule: negative indices count from the end"; an index "out of
    [-rank, rank)" is an [InvalidDimension] error.  A rank-0 tensor is wrapped
    as if it had rank 1, which the scalar cases of the cumulative operators
    rely on. *)
Definition maybe_wrap_dim (d dim_post_expr : Z) : outcome Z :=
  let n := if dim_post_expr <=? 0 then 1 else dim_post_expr in
  TORCH_CHECK_INDEX ((- n <=? d) && (d <=? n - 1)) "Dimension out of range" ;;;
  Ok (if d <? 0 then d + n else d).

(** Modelled from the spec: [zero_numel_check_dims] (ReduceOpsUtils.h is not
    under src/): "reducing zero elements along a dimension for an operator
    without a defined identity" is an [EmptyReductionNoIdentity] error. *)
Definition zero_numel_check_dims {V} (self : Tensor V) (d : Z) (fn_name : string)
  : outcome unit :=
  if dim self =? 0 then
    TORCH_CHECK_INDEX ((d =? 0) || (d =? -1))
      (fn_name ++ ": Expected reduction dim -1 or 0 for scalar")%string
  else
    TORCH_CHECK_INDEX (negb (size self d =? 0))
      (fn_name ++ ": Expected reduction dim to have non-zero size.")%string.

(** Modelled from the spec: the reduction dimension set ([maybe_wrap_dims] and
    [dim_list_to_bitset] of WrapDimUtilsMulti.h, not under src/): "after
    wrapping, all indices are unique and within range; violating this is a
    usage error". *)
Fixpoint maybe_wrap_dims (dims : list Z) (ndim : Z) : outcome (list Z) :=
  match dims with
  | [] => Ok []
  | d :: ds =>
      d' <- maybe_wrap_dim d ndim ;;
      ds' <- maybe_wrap_dims ds ndim ;;
      Ok (d' :: ds')
  end.

Fixpoint has_duplicate (ds : list Z) : bool :=
  match ds with
  | [] => false
  | d :: ds' => existsb (Z.eqb d) ds' || has_duplicate ds'
  end.

Definition make_dim_mask (dims : list Z) (ndim : Z) : outcome (list Z) :=
  ds <- maybe_wrap_dims dims ndim ;;
  TORCH_CHECK (negb (has_duplicate ds))
    "dim appears multiple times in the list of dims" ;;;
  Ok ds.

(** Modelled from the spec: [get_reduction_shape] (ReduceOpsUtils.h, not under
    src/): "for each input dimension, if it is in the reduction set, output
    size is 1 if keepdim else the dimension is omitted; otherwise output size
    matches input"; the empty sequence means full reduction. *)
Definition is_reduced (mask : list Z) (i : Z) : bool :=
  match mask with
  | [] => true
  | _ => existsb (Z.eqb i) mask
  end.

Fixpoint shape_from_dim_mask (shape : list Z) (mask : list Z) (keepdim : bool) (i : Z)
  : list Z :=
  match shape with
  | [] => []
  | s :: rest =>
      let tl := shape_from_dim_mask rest mask keepdim (i + 1) in
      if is_reduced mask i then (if keepdim then 1 :: tl else tl) else s :: tl
  end.

Definition get_reduction_shape {V} (self : Tensor V) (dims : list Z) (keepdim : bool)
  : outcome (list Z) :=
  mask <- make_dim_mask dims (dim self) ;;
  Ok (shape_from_dim_mask (sizes self) mask keepdim 0).

Definition list_Z_eqb (a b : list Z) : bool :=
  (Nat.eqb (List.length a) (List.length b))
  && forallb (fun p => fst p =? snd p) (combine a b).

Definition DeviceType_eqb (a b : DeviceType) : bool :=
  match a, b with
  | kCPU, kCPU | kCUDA, kCUDA | kMeta, kMeta => true
  | _, _ => false
  end.

(** What a meta function hands to [set_output]: the shape and options of the
    output. *)
Definition OutSpec : Type := (list Z * TensorOptions)%type.

(** Modelled from the spec: [set_output] of a structured kernel (generated
    code, not under src/): "if the caller supplies an existing output view,
    the engine validates shape/dtype/device compatibility and writes in
    place; otherwise the engine [computes] the shape/dtype and [hands] back a
    freshly allocated view". *)
Definition set_output {V} (maybe_out : option (Tensor V)) (shape : list Z)
  (opts : TensorOptions) : outcome OutSpec :=
  match maybe_out with
  | None => Ok (shape, opts)
  | Some out =>
      TORCH_CHECK (ScalarType_eqb (scalar_type out) (dtype opts))
        "Expected out tensor to have the inferred dtype" ;;;
      TORCH_CHECK (DeviceType_eqb (device (options out)) (device opts))
        "Expected out tensor to be on the device of the input" ;;;
      TORCH_CHECK (list_Z_eqb (sizes out) shape)
        "Expected out tensor to have the inferred shape" ;;;
      Ok (shape, opts)
  end.

(** Modelled from the spec: [resize_reduction] (ReduceOpsUtils.h, not under
    src/): wraps the dimensions, infers the shape and sets the output. *)
Definition resize_reduction {V} (maybe_out : option (Tensor V)) (self : Tensor V)
  (dims : list Z) (keepdim : bool) (out_dtype : ScalarType) : outcome OutSpec :=
  shape <- get_reduction_shape self dims keepdim ;;
  set_output maybe_out shape (with_dtype (options self) out_dtype).

(** ** Shape/dtype inference (namespace at::native and at::meta) *)

Definition get_dtype_from_self {V} (self : Tensor V) (dtype : option ScalarType)
  (promote_integers : bool) : ScalarType :=
  match dtype with
  | Some d => d
  | None =>
      let src_type := scalar_type self in
      if promote_integers && isIntegralType src_type true then kLong
      else src_type
  end.

Definition value_or {A} (o : option A) (d : A) : A :=
  match o with Some a => a | None => d end.

Definition infer_dtype_from_optional {V} (self : Tensor V) (dims : list Z)
  (keepdim : bool) (opt_dtype : option ScalarType) (result : option (Tensor V))
  : ScalarType :=
  match result with
  | Some r => value_or opt_dtype (scalar_type r)
  | None => get_dtype_from_self self opt_dtype true
  end.

Definition optional_to_arrayref (opt : option Z) : list Z :=
  match opt with Some d => [d] | None => [] end.

Definition get_result_or_bytebool_dtype {V} (self : Tensor V)
  (result : option (Tensor V)) : ScalarType :=
  match result with
  | Some r => scalar_type r
  | None => if ScalarType_eqb (scalar_type self) kByte then kByte else kBool
  end.

Definition check_result_is_bytebool {V} (name : string) (self : Tensor V)
  (result : option (Tensor V)) : outcome unit :=
  match result with
  | Some r =>
      TORCH_CHECK
        (ScalarType_eqb (scalar_type r) kBool || ScalarType_eqb (scalar_type r) kByte)
        (name ++ " only supports bool tensor for result")%string
  | None => Ok tt
  end.

Definition allany_meta {V} (maybe_output : option (Tensor V)) (name : string)
  (self : Tensor V) (dims : list Z) (keepdim : bool) : outcome OutSpec :=
  let result := maybe_output in
  check_result_is_bytebool name self result ;;;
  let out_dtype := get_result_or_bytebool_dtype self result in
  resize_reduction maybe_output self dims keepdim out_dtype.

(** TORCH_PRECOMPUTE_META_FUNC2(all, dim): the output and the precomputed
    wrapped dimension. *)
Definition all_dim_meta {V} (maybe_output : option (Tensor V)) (self : Tensor V)
  (d : Z) (keepdim : bool) : outcome (OutSpec * Z) :=
  o <- allany_meta maybe_output "all" self [d] keepdim ;;
  d' <- maybe_wrap_dim d (dim self) ;;
  Ok (o, d').

Definition all_meta {V} (maybe_output : option (Tensor V)) (self : Tensor V)
  : outcome OutSpec :=
  allany_meta maybe_output "all" self [] false.

Definition any_dim_meta {V} (maybe_output : option (Tensor V)) (self : Tensor V)
  (d : Z) (keepdim : bool) : outcome (OutSpec * Z) :=
  o <- allany_meta maybe_output "any" self [d] keepdim ;;
  d' <- maybe_wrap_dim d (dim self) ;;
  Ok (o, d').

Definition any_meta {V} (maybe_output : option (Tensor V)) (self : Tensor V)
  : outcome OutSpec :=
  allany_meta maybe_output "any" self [] false.

Definition check_argmax_argmin {V} (name : string) (self : Tensor V)
  (dim_ : option Z) : outcome unit :=
  match dim_ with
  | Some d =>
      d' <- maybe_wrap_dim d (dim self) ;;
      zero_numel_check_dims self d' name
  | None =>
      TORCH_CHECK_INDEX (negb (numel self =? 0))
        (name ++ ": Expected reduction dim to be specified for input.numel() == 0.")%string
  end.

Definition argmax_meta {V} (maybe_output : option (Tensor V)) (self : Tensor V)
  (dim_ : option Z) (keepdim : bool) : outcome OutSpec :=
  check_argmax_argmin "argmax()" self dim_ ;;;
  resize_reduction maybe_output self (optional_to_arrayref dim_) keepdim kLong.

Definition argmin_meta {V} (maybe_output : option (Tensor V)) (self : Tensor V)
  (dim_ : option Z) (keepdim : bool) : outcome OutSpec :=
  check_argmax_argmin "argmin()" self dim_ ;;;
  resize_reduction maybe_output self (optional_to_arrayref dim_) keepdim kLong.

Definition meta_func_cum_ops {V} (maybe_output : option (Tensor V)) (name : string)
  (self : Tensor V) (d : Z) (dtype : option ScalarType) : outcome OutSpec :=
  maybe_wrap_dim d (dim self) ;;;
  let result := maybe_output in
  let out_dtype :=
    match result with
    | Some r => value_or dtype (scalar_type r)
    | None =>
        let is_integral := isIntegralType (scalar_type self) true in
        value_or dtype (if is_integral then kLong else scalar_type self)
    end in
  set_output maybe_output (sizes self) (with_dtype (options self) out_dtype).

Definition sum_dim_IntList_meta {V} (maybe_output : option (Tensor V))
  (self : Tensor V) (dims : list Z) (keepdim : bool) (opt_dtype : option ScalarType)
  : outcome OutSpec :=
  let out_dtype := infer_dtype_from_optional self dims keepdim opt_dtype maybe_output in
  resize_reduction maybe_output self dims keepdim out_dtype.

(** ** Scalars and elementwise values *)

(** IEEE 754 binary64 ([double]) and binary32 ([float]) values, with the
    operations of the standard library's executable specification. *)
Definition double : Type := spec_float.

Definition d_add : double -> double -> double := SFadd 53 1024.
Definition d_sub : double -> double -> double := SFsub 53 1024.
Definition d_mul : double -> double -> double := SFmul 53 1024.
Definition d_div : double -> double -> double := SFdiv 53 1024.
Definition d_sqrt : double -> double := SFsqrt 53 1024.
Definition d_zero : double := S754_zero false.
Definition d_nan : double := S754_nan.

(** [static_cast<double>(z)] of an [int64_t]: round to nearest even. *)
Definition d_of_int64 (z : Z) : double := binary_normalize 53 1024 z 0 false.

Definition d_isnan (x : double) : bool :=
  match x with S754_nan => true | _ => false end.
Definition d_isinf (x : double) : bool :=
  match x with S754_infinity _ => true | _ => false end.

(** Modelled from the spec: [c10::Scalar] (c10/core/Scalar.h, not under
    src/), the tagged value behind [item()] and [fill_]; [toBool] is "the
    boolean value of that element".  Writing a [Scalar] into a tensor
    converts it to the tensor's dtype.  The constants that the code of this
    file writes ([0], [1], a boolean, a NaN, the double that the kernel of
    [var] returns) are kept as written; the element of another tensor, which
    [fill_] with a tensor argument writes, goes through the conversion (see
    [fill_tensor_]). *)
Inductive Scalar : Type :=
| SInt (z : Z)
| SBool (b : bool)
| SDouble (d : double)
| SComplex (re im : double).

Definition toBool (s : Scalar) : bool :=
  match s with
  | SInt z => negb (z =? 0)
  | SBool b => b
  | SDouble d => negb (SFeqb d d_zero)
  | SComplex re im => negb (SFeqb re d_zero && SFeqb im d_zero)
  end.

Definition TensorS : Type := Tensor Scalar.

Definition zero_ (t : TensorS) : TensorS := fill_ t (SInt 0).

(** Modelled from the spec: [self.item()] (ATen operator, not under src/):
    the value of a one-element tensor. *)
Definition item (t : TensorS) : outcome Scalar :=
  match data t with
  | [x] => Ok x
  | _ => Raise (Error_ "a Tensor with several or no elements cannot be converted to Scalar")
  end.

(** Modelled from the spec: [result.fill_(self)] with a tensor argument (ATen
    operator, not under src/): "cumulative ops simply copy" a rank-0 [self];
    the element is converted to the dtype of [result] by [convert], the
    conversion between the scalar types of c10 (not under src/). *)
Definition fill_tensor_ (convert : ScalarType -> Scalar -> Scalar)
  (t value : TensorS) : outcome TensorS :=
  TORCH_CHECK (dim value =? 0)
    "fill_ only supports 0-dimension value tensor" ;;;
  v <- item value ;;
  Ok (fill_ t (convert (scalar_type t) v)).

(** Modelled from the spec: [self.to(dtype)] (ATen operator, not under src/).
    Its result is only handed to a kernel: the elements are kept as the
    [Scalar]s of [t], for the kernel to read at [ty]. *)
Definition to_ (t : TensorS) (ty : ScalarType) : TensorS :=
  mkTensor (sizes t) (with_dtype (options t) ty) (data t).

(** Modelled from the spec: the iteration plan ([TensorIterator], not under
    src/): "the resolved output shape, the common working dtype, one or more
    input/output view descriptors [...] and a total element count". *)
Record TensorIterator : Type := mkIter {
  it_output : TensorS;
  it_input : TensorS;
  it_dims : list Z;
  it_keepdim : bool
}.

Definition iter_numel (it : TensorIterator) : Z := numel (it_input it).
Definition iter_device_type (it : TensorIterator) : DeviceType :=
  device (options (it_input it)).
Definition iter_common_dtype (it : TensorIterator) : ScalarType :=
  scalar_type (it_input it).

(** Modelled from the spec: [meta::make_reduction] and
    [meta::make_reduction_from_out_ty] (ReduceOpsUtils.h, not under src/)
    build the plan; the input is cast to [in_dtype] unless it has it. *)
Definition meta_make_reduction (self result : TensorS) (dims : list Z)
  (keepdim : bool) (in_dtype : ScalarType) : TensorIterator :=
  if ScalarType_eqb (scalar_type self) in_dtype
  then mkIter result self dims keepdim
  else mkIter result (to_ self in_dtype) dims keepdim.

Definition make_reduction_from_out_ty (self result : TensorS) (dims : list Z)
  (keepdim : bool) (out_dtype : ScalarType) : TensorIterator :=
  meta_make_reduction self result dims keepdim out_dtype.

Section Kernels.
(** The contents of memory that [at::empty] hands out. *)
Variable uninitialized : Scalar.

(** The conversion of a [Scalar] to a dtype (c10, not under src/). *)
Variable convert : ScalarType -> Scalar -> Scalar.

(** Kernels behind the dispatch stubs; each returns the output tensor as the
    kernel leaves it. *)
Variable sum_stub nansum_stub and_stub or_stub
  : DeviceType -> TensorIterator -> TensorS.
Variable cumsum_stub cumprod_stub
  : DeviceType -> TensorS -> TensorS -> Z -> TensorS.

Definition empty (shape : list Z) (opts : TensorOptions) : TensorS :=
  mkTensor shape opts (repeat uninitialized (Z.to_nat (prodZ shape))).

(** Modelled from the spec: [at::native::resize_output] (Resize.h, not under
    src/): a tensor of another shape gets new storage. *)
Definition resize_output (t : TensorS) (shape : list Z) : TensorS :=
  if list_Z_eqb (sizes t) shape then t else empty shape (options t).

(** Modelled from the spec: the native [make_reduction] and
    [create_reduction_result] (ReduceOpsUtils.h, not under src/): the first
    checks the dtype of [result], resizes it and builds the plan, the second
    allocates a result of the reduction shape. *)
Definition make_reduction (name : string) (result self : TensorS)
  (dims : list Z) (keepdim : bool) (out_dtype : ScalarType)
  : outcome TensorIterator :=
  TORCH_CHECK (ScalarType_eqb (scalar_type result) out_dtype)
    (name ++ ": provided dtype must match dtype of result.")%string ;;;
  shape <- get_reduction_shape self dims keepdim ;;
  Ok (meta_make_reduction self (resize_output result shape) dims keepdim out_dtype).

Definition create_reduction_result (self : TensorS) (dims : list Z)
  (keepdim : bool) (dtype : ScalarType) : outcome TensorS :=
  shape <- get_reduction_shape self dims keepdim ;;
  Ok (empty shape (with_dtype (options self) dtype)).

(** *** sum, nansum *)

Definition get_dtype_from_result (result : option TensorS)
  (dtype : option ScalarType) : outcome ScalarType :=
  match result with
  | None => Raise (Error_ "Cannot create a new tensor inside a reduction op.")
  | Some r =>
      match dtype with
      | Some d => Ok d
      | None => Ok (scalar_type r)
      end
  end.

(** TORCH_IMPL_FUNC(sum_out) *)
Definition sum_out_impl (self : TensorS) (dims : list Z) (keepdim : bool)
  (opt_dtype : option ScalarType) (result : TensorS) : TensorS :=
  let iter := make_reduction_from_out_ty self result dims keepdim (scalar_type result) in
  if iter_numel iter =? 0 then zero_ result
  else sum_stub (iter_device_type iter) iter.

(** Modelled from the spec: the two entry points of the structured kernel
    (generated code, not under src/): [at::sum_out] runs the meta function
    on the caller's output and writes in place, [at::sum] runs it without an
    output and allocates one. *)
Definition at_sum_out (result self : TensorS) (dims : list Z) (keepdim : bool)
  (opt_dtype : option ScalarType) : outcome TensorS :=
  sum_dim_IntList_meta (Some result) self dims keepdim opt_dtype ;;;
  Ok (sum_out_impl self dims keepdim opt_dtype result).

Definition at_sum (self : TensorS) (dims : list Z) (keepdim : bool)
  (opt_dtype : option ScalarType) : outcome TensorS :=
  o <- sum_dim_IntList_meta None self dims keepdim opt_dtype ;;
  Ok (sum_out_impl self dims keepdim opt_dtype (empty (fst o) (snd o))).

(** [Tensor sum(const Tensor&, optional<ScalarType>)] *)
Definition sum (self : TensorS) (dtype : option ScalarType) : outcome TensorS :=
  at_sum self [] false dtype.

Definition nansum_out (self : TensorS) (dims : list Z) (keepdim : bool)
  (opt_dtype : option ScalarType) (result : TensorS) : outcome TensorS :=
  TORCH_CHECK (negb (isComplexType (scalar_type self)))
    "nansum does not support complex inputs" ;;;
  if isIntegralType (scalar_type self) true then
    at_sum_out result self dims keepdim opt_dtype
  else
    dtype <- get_dtype_from_result (Some result) opt_dtype ;;
    iter <- make_reduction "nansum" result self dims keepdim dtype ;;
    if iter_numel iter =? 0 then Ok (zero_ (it_output iter))
    else Ok (nansum_stub (iter_device_type iter) iter).

(** [Tensor nansum(const Tensor&, IntArrayRef, bool, optional<ScalarType>)] *)
Definition nansum (self : TensorS) (dims : list Z) (keepdim : bool)
  (opt_dtype : option ScalarType) : outcome TensorS :=
  let dtype := get_dtype_from_self self opt_dtype true in
  result <- create_reduction_result self dims keepdim dtype ;;
  nansum_out self dims keepdim (Some dtype) result.

(** [Tensor nansum(const Tensor&, optional<ScalarType>)] *)
Definition nansum_all (self : TensorS) (dtype : option ScalarType)
  : outcome TensorS :=
  nansum self [] false dtype.

(** *** all, any *)

Definition get_allany_iter (self result : TensorS) (dims : list Z)
  (keepdim : bool) : TensorIterator :=
  if is_cuda self then
    meta_make_reduction self result dims keepdim (scalar_type self)
  else
    make_reduction_from_out_ty self result dims keepdim (scalar_type result).

Definition allany_impl (identity : Z)
  (self result : TensorS) (dims : list Z) (keepdim : bool)
  (stub : DeviceType -> TensorIterator -> TensorS) : outcome TensorS :=
  if numel self =? 0 then
    Ok (fill_ result (SInt identity))
  else if numel self =? 1 then
    v <- item self ;;
    Ok (fill_ result (SBool (toBool v)))
  else
    let iter := get_allany_iter self result dims keepdim in
    Ok (stub (iter_device_type iter) iter).

Definition all_out (self : TensorS) (d : Z) (keepdim : bool) (result : TensorS) :=
  allany_impl 1 self result [d] keepdim and_stub.
Definition all_all_out (self result : TensorS) :=
  allany_impl 1 self result [] false and_stub.
Definition any_out (self : TensorS) (d : Z) (keepdim : bool) (result : TensorS) :=
  allany_impl 0 self result [d] keepdim or_stub.
Definition any_all_out (self result : TensorS) :=
  allany_impl 0 self result [] false or_stub.

(** *** cumsum, cumprod *)

Definition impl_func_cum_ops (self : TensorS) (d : Z)
  (dtype : option ScalarType) (result : TensorS)
  (stub : DeviceType -> TensorS -> TensorS -> Z -> TensorS) : outcome TensorS :=
  if dim self =? 0 then
    fill_tensor_ convert result self
  else if numel self =? 0 then
    Ok (zero_ result)
  else
    d' <- maybe_wrap_dim d (dim self) ;;
    Ok (stub (device (options self)) result (to_ self (scalar_type result)) d').

Definition cumsum_out (self : TensorS) (d : Z) (dtype : option ScalarType)
  (result : TensorS) : outcome TensorS :=
  impl_func_cum_ops self d dtype result cumsum_stub.

Definition cumprod_out (self : TensorS) (d : Z) (dtype : option ScalarType)
  (result : TensorS) : outcome TensorS :=
  impl_func_cum_ops self d dtype result cumprod_stub.

(** Modelled from the spec: the functional entry points [at::cumsum] and
    [at::cumprod] of the structured kernels (generated code): the meta
    function, a fresh output, the implementation. *)
Definition at_cumsum (self : TensorS) (d : Z) (dtype : option ScalarType)
  : outcome TensorS :=
  o <- meta_func_cum_ops None "cumsum" self d dtype ;;
  cumsum_out self d dtype (empty (fst o) (snd o)).

Definition at_cumprod (self : TensorS) (d : Z) (dtype : option ScalarType)
  : outcome TensorS :=
  o <- meta_func_cum_ops None "cumprod" self d dtype ;;
  cumprod_out self d dtype (empty (fst o) (snd o)).
End Kernels.

(** ** cummax / cummin *)

(** [c10::irange(n)]: 0, 1, ..., n-1. *)
Definition irange (n : Z) : list Z := map Z.of_nat (seq 0 (Z.to_nat n)).

(** Memory reached from a base pointer: offset to element.  [store] is the
    assignment [p[i] = v]. *)
Definition store {A} (p : Z -> A) (i : Z) (v : A) : Z -> A :=
  fun j => if j =? i then v else p j.

Section CumMaxMinHelper.
Context {T1 : Type}.
(** [isnan_] at the element type, and the comparison functor [Operation]. *)
Variable isnan_ : T1 -> bool.
Variable op : T1 -> T1 -> bool.

(** The locals [out], [idx] of the scan and the two output buffers. *)
Record scan : Type := mkScan {
  out : T1;
  idx : Z;
  values_data : Z -> T1;
  indices_data : Z -> Z
}.

(** One iteration of the loop body, at index [i]. *)
Definition cummax_cummin_body (self_data : Z -> T1)
  (self_stride values_stride indices_stride : Z) (st : scan) (i : Z) : scan :=
  let curr_elem := self_data (i * self_stride) in
  let taken := isnan_ curr_elem || (negb (isnan_ (out st)) && op curr_elem (out st)) in
  let out' := if taken then self_data (i * self_stride) else out st in
  let idx' := if taken then i else idx st in
  mkScan out' idx'
    (store (values_data st) (i * values_stride) out')
    (store (indices_data st) (i * indices_stride) idx').

(** The scan after its first [k] iterations. *)
Definition cummax_cummin_run (self_data : Z -> T1) (values_data0 : Z -> T1)
  (indices_data0 : Z -> Z) (self_stride values_stride indices_stride : Z)
  (k : Z) : scan :=
  fold_left (cummax_cummin_body self_data self_stride values_stride indices_stride)
    (irange k) (mkScan (self_data 0) 0 values_data0 indices_data0).

(** [cummax_cummin_helper]: the [int] arguments are taken as they are
    passed, without narrowing.  Returns the two output buffers. *)
Definition cummax_cummin_helper (self_data : Z -> T1) (values_data0 : Z -> T1)
  (indices_data0 : Z -> Z)
  (self_dim_size self_stride values_stride indices_stride : Z)
  : (Z -> T1) * (Z -> Z) :=
  let st := cummax_cummin_run self_data values_data0 indices_data0
              self_stride values_stride indices_stride self_dim_size in
  (values_data st, indices_data st).

(** Modelled from the spec: the data pointer of a contiguous
    one-dimensional tensor, as memory, and back. *)
Definition as_memory {A} (garbage : A) (l : list A) : Z -> A :=
  fun i => if i <? 0 then garbage else nth (Z.to_nat i) l garbage.

Definition read_memory {A} (p : Z -> A) (n : Z) : list A :=
  map p (irange n).

(** Modelled from the spec: [tensor_dim_apply3] (TensorDimApply.h, not under
    src/) on a contiguous one-dimensional [self], [values] and [indices]: one
    call of the helper ("scan maintaining running extremum and its [...]
    index"), all strides 1.
    [garbage] is what memory outside [self] holds, [values0] and [indices0]
    the contents of the outputs before the call. *)
Definition cummax_cummin_1d (garbage : T1) (values0 : Z -> T1) (indices0 : Z -> Z)
  (self : list T1) : list T1 * list Z :=
  let n := Z.of_nat (List.length self) in
  let r := cummax_cummin_helper (as_memory garbage self) values0 indices0 n 1 1 1 in
  (read_memory (fst r) n, read_memory (snd r) n).
End CumMaxMinHelper.

Arguments mkScan {T1} out idx values_data indices_data.
Arguments out {T1} s.
Arguments idx {T1} s.
Arguments values_data {T1} s.
Arguments indices_data {T1} s.

(** [cummax_helper_cpu] / [cummin_helper_cpu] at [scalar_t = int64_t]:
    [std::greater_equal] and [std::less_equal]; an integer is never NaN. *)
Definition cummax_helper_cpu_int64 (self : list Z) : list Z * list Z :=
  cummax_cummin_1d (fun _ => false) Z.geb 0 (fun _ => 0) (fun _ => 0) self.

Definition cummin_helper_cpu_int64 (self : list Z) : list Z * list Z :=
  cummax_cummin_1d (fun _ => false) Z.leb 0 (fun _ => 0) (fun _ => 0) self.

(** The same at [scalar_t = double]. *)
Definition d_ge (a b : double) : bool := SFleb b a.
Definition d_le (a b : double) : bool := SFleb a b.

Definition cummax_helper_cpu_double (self : list double) : list double * list Z :=
  cummax_cummin_1d d_isnan d_ge d_zero (fun _ => d_zero) (fun _ => 0) self.

Definition cummin_helper_cpu_double (self : list double) : list double * list Z :=
  cummax_cummin_1d d_isnan d_le d_zero (fun _ => d_zero) (fun _ => 0) self.

(** ** var / std *)

(** [int64_t] subtraction; on overflow (undefined in C++) the value wraps. *)
Definition wrap_int64 (z : Z) : Z := (z + 2 ^ 63) mod 2 ^ 64 - 2 ^ 63.
Definition int64_sub (a b : Z) : Z := wrap_int64 (a - b).

(** [static_cast<float>(x)] of a double, widened again: rounding to binary32. *)
Definition d_to_float (x : double) : double :=
  match x with
  | S754_finite s m e => binary_round 24 128 s m e
  | _ => x
  end.

(** [static_cast<double>] of the element read at a real [scalar_t]. *)
Definition as_double (s : Scalar) : double :=
  match s with
  | SDouble d => d
  | SInt z => d_of_int64 z
  | SBool b => if b then d_of_int64 1 else d_zero
  | SComplex re _ => re
  end.

(** Modelled from the spec: [at::real] and [at::imag] (ATen operators, not
    under src/): "compute var of real and imaginary parts independently". *)
Definition at_real (t : TensorS) : TensorS :=
  mkTensor (sizes t) (with_dtype (options t) (toRealValueType (scalar_type t)))
    (map (fun s => SDouble (as_double s)) (data t)).

Definition at_imag (t : TensorS) : TensorS :=
  mkTensor (sizes t) (with_dtype (options t) (toRealValueType (scalar_type t)))
    (map (fun s => match s with SComplex _ im => SDouble im | _ => SDouble d_zero end)
       (data t)).

Definition GRAIN_SIZE : Z := 32768.

Definition sub_range {A} (l : list A) (b e : Z) : list A :=
  firstn (Z.to_nat (e - b)) (skipn (Z.to_nat b) l).

(** The ranges [b, b + chunk), [b + chunk, ...) that cover [b, e). *)
Fixpoint chunks (fuel : nat) (b e chunk : Z) : list (Z * Z) :=
  match fuel with
  | O => []
  | S fuel' =>
      if e <=? b then []
      else (b, Z.min e (b + chunk)) :: chunks fuel' (b + chunk) e chunk
  end.

Section StdVar.
Variable uninitialized : Scalar.
(** [self.mean().item<double>()] goes through the sum kernel, whose order of
    summation the source does not fix. *)
Variable mean_item : TensorS -> double.
(** The number of indices the thread pool gives to one task. *)
Variable chunk : Z.
Variable std_var_stub : DeviceType -> TensorIterator -> Z -> bool -> TensorS.

(** Modelled from the spec: [at::parallel_reduce] (ATen/Parallel.h, not
    under src/): "the index range is partitioned into contiguous chunks
    above a minimum grain size; each chunk is processed independently by a
    worker producing a partial scalar accumulator; partial results are
    combined with [the] binary operator", after all of them returned. *)
Definition parallel_reduce (b e grain_size : Z) (ident : double)
  (f : Z -> Z -> double -> double) (sf : double -> double -> double) : double :=
  if e <=? b then ident
  else if (e - b <=? grain_size) || (chunk <=? 0) then f b e ident
  else
    fold_left sf
      (map (fun r => f (fst r) (snd r) ident) (chunks (Z.to_nat (e - b)) b e chunk))
      ident.

(** The lambda [reduction] of [std_var_all_cpu]: the elements of
    [begin, end) in order. *)
Definition std_var_all_reduction (self : TensorS) (mean : double)
  (b e : Z) (thread_sum : double) : double :=
  let local_mean := mean in
  let local_sum :=
    fold_left
      (fun acc x => let dx := d_sub (as_double x) local_mean in d_add acc (d_mul dx dx))
      (sub_range (data self) b e) d_zero in
  d_add thread_sum local_sum.

Definition std_var_all_sum_dx2 (self : TensorS) : double :=
  parallel_reduce 0 (numel self) GRAIN_SIZE d_zero
    (std_var_all_reduction self (mean_item self)) d_add.

Definition std_var_all_cpu (self : TensorS) (correction : Z) (take_sqrt : bool)
  : outcome double :=
  let dtype := scalar_type self in
  TORCH_CHECK (ScalarType_eqb dtype kDouble || ScalarType_eqb dtype kFloat)
    "std_var_all: Unsupported dtype" ;;;
  let sum_dx2 := std_var_all_sum_dx2 self in
  let var := d_div sum_dx2 (d_of_int64 (Z.max 0 (int64_sub (numel self) correction))) in
  let result := if take_sqrt then d_sqrt var else var in
  if ScalarType_eqb dtype kFloat then Ok (d_to_float result) else Ok result.

(** Modelled from the spec: elementwise [at::add_out] and [at::sqrt_out] on
    real tensors (ATen operators, not under src/): "sum the two variances;
    take sqrt only at the end". *)
Definition add_out (result a b : TensorS) : TensorS :=
  mkTensor (sizes a) (options result)
    (map (fun p => SDouble (d_add (as_double (fst p)) (as_double (snd p))))
       (combine (data a) (data b))).

Definition sqrt_out (result a : TensorS) : TensorS :=
  mkTensor (sizes a) (options result)
    (map (fun x => SDouble (d_sqrt (as_double x))) (data a)).

(** The body of [std_var_out]; [self_call] is the function itself at its two
    recursive calls (on the real and the imaginary part). *)
Definition std_var_out_body
  (self_call : string -> TensorS -> TensorS -> option (list Z) -> option Z ->
               bool -> bool -> outcome TensorS)
  (fname : string) (result self : TensorS) (dim_ : option (list Z))
  (correction_opt : option Z) (keepdim take_sqrt : bool) : outcome TensorS :=
  TORCH_CHECK (is_cpu self || is_cuda self)
    "std and var only supports tensors on a CPU or CUDA device" ;;;
  TORCH_CHECK (match layout (options self) with Strided => true | _ => false end)
    "std and var only supports strided layout" ;;;
  TORCH_CHECK (isFloatingType (scalar_type self) || isComplexType (scalar_type self))
    "std and var only support floating point and complex dtypes" ;;;
  if isComplexType (scalar_type self) then
    dt <- get_dtype_from_result (Some result) None ;;
    let dtype := toRealValueType dt in
    let real_in := at_real self in
    let real_out := empty uninitialized [0] (with_dtype (options self) dtype) in
    real_out <- self_call fname real_out real_in dim_ correction_opt keepdim false ;;
    let imag_in := at_imag self in
    let imag_out := empty uninitialized [0] (with_dtype (options self) dtype) in
    imag_out <- self_call fname imag_out imag_in dim_ correction_opt keepdim false ;;
    let result := add_out result real_out imag_out in
    Ok (if take_sqrt then sqrt_out result result else result)
  else
    let correction := value_or correction_opt 1 in
    dtype <- get_dtype_from_result (Some result) None ;;
    iter <- make_reduction uninitialized fname result self (value_or dim_ []) keepdim dtype ;;
    let result := it_output iter in
    if iter_numel iter =? 0 then
      Ok (fill_ result (SDouble d_nan))
    else if (numel result =? 1)
            && DeviceType_eqb (iter_device_type iter) kCPU
            && negb (ScalarType_eqb (iter_common_dtype iter) kBFloat16)
            && negb (ScalarType_eqb (iter_common_dtype iter) kHalf) then
      v <- std_var_all_cpu self correction take_sqrt ;;
      Ok (fill_ result (SDouble v))
    else
      Ok (std_var_stub (iter_device_type iter) iter correction take_sqrt).

(** [std_var_out]: the recursion is on a complex input only and its
    arguments are real, so two levels of the body are the whole function. *)
Definition std_var_out : string -> TensorS -> TensorS -> option (list Z) ->
  option Z -> bool -> bool -> outcome TensorS :=
  std_var_out_body
    (std_var_out_body
       (fun _ _ _ _ _ _ _ => Raise (Error_ "std and var: complex real part"))).

Definition options_to_value_type (opts : TensorOptions) : TensorOptions :=
  with_dtype opts (toRealValueType (dtype opts)).

(** [Tensor var(self, OptionalIntArrayRef dim, optional<int64_t> correction,
    bool keepdim)] and the same for [std]. *)
Definition var (self : TensorS) (dim_ : option (list Z)) (correction : option Z)
  (keepdim : bool) : outcome TensorS :=
  let result := empty uninitialized [0] (options_to_value_type (options self)) in
  std_var_out "var" result self dim_ correction keepdim false.

Definition std (self : TensorS) (dim_ : option (list Z)) (correction : option Z)
  (keepdim : bool) : outcome TensorS :=
  let result := empty uninitialized [0] (options_to_value_type (options self)) in
  std_var_out "std" result self dim_ correction keepdim true.

(** [Tensor var(self, bool unbiased)], [Tensor std(self, bool unbiased)] *)
Definition var_unbiased (self : TensorS) (unbiased : bool) : outcome TensorS :=
  var self None (Some (if unbiased then 1 else 0)) false.

Definition std_unbiased (self : TensorS) (unbiased : bool) : outcome TensorS :=
  std self None (Some (if unbiased then 1 else 0)) false.
End StdVar.

(** The mean of a tensor by summing its elements in order, in double
    precision: one admissible behaviour of the sum kernel. *)
Definition serial_mean_item (self : TensorS) : double :=
  d_div (fold_left (fun acc x => d_add acc (as_double x)) (data self) d_zero)
        (d_of_int64 (numel self)).

(** ** Tensors along a dimension *)

(** The tensor operators that [cumprod_backward] composes ([flip], [cumsum],
    [slice], [cat], [gather], [scatter_], [masked_select], ...) are ATen
    operators whose code is not under src/.  Each is modelled by what it
    computes on a contiguous tensor: "manipulate an opaque n-dimensional array
    view with shape/stride/dtype metadata". *)

(** A tensor of shape [outer x n x inner] (the sizes before, at and after a
    dimension) is a family of [outer * inner] lanes of length [n]: lane
    [j] holds the elements at the flat indices
    [(j / inner * n + k) * inner + j mod inner], [k < n].  The operators that
    take a [dim] argument act on each lane. *)
Section Lanes.
Context {A : Type}.
Variable dflt : A.

Definition lanes (outer n inner : nat) (l : list A) : list (list A) :=
  map (fun j =>
         map (fun k => nth ((j / inner * n + k) * inner + j mod inner)%nat l dflt)
             (seq 0 n))
      (seq 0 (outer * inner)).

Definition unlanes (outer n inner : nat) (ls : list (list A)) : list A :=
  map (fun p =>
         nth ((p / inner) mod n)%nat
             (nth (p / (inner * n) * inner + p mod inner)%nat ls []) dflt)
      (seq 0 (outer * n * inner)).
End Lanes.

Definition zip_with {A B C} (f : A -> B -> C) (l1 : list A) (l2 : list B) : list C :=
  map (fun p => f (fst p) (snd p)) (combine l1 l2).

Definition outer_size (shape : list Z) (d : Z) : nat :=
  Z.to_nat (prodZ (firstn (Z.to_nat d) shape)).
Definition dim_size_of (shape : list Z) (d : Z) : nat :=
  Z.to_nat (nth (Z.to_nat d) shape 1).
Definition inner_size (shape : list Z) (d : Z) : nat :=
  Z.to_nat (prodZ (skipn (S (Z.to_nat d)) shape)).

(** The shape with the size of dimension [d] replaced (a rank-0 shape has no
    dimension to replace). *)
Definition set_dim_size (shape : list Z) (d : Z) (n : nat) : list Z :=
  match shape with
  | [] => []
  | _ => firstn (Z.to_nat d) shape ++ Z.of_nat n :: skipn (S (Z.to_nat d)) shape
  end.

(** The shape without dimension [d]. *)
Definition drop_dim (shape : list Z) (d : Z) : list Z :=
  firstn (Z.to_nat d) shape ++ skipn (S (Z.to_nat d)) shape.

Definition tensor_lanes {A} (dflt : A) (t : Tensor A) (d : Z) : list (list A) :=
  lanes dflt (outer_size (sizes t) d) (dim_size_of (sizes t) d)
    (inner_size (sizes t) d) (data t).

(** A lane function [f] applied along dimension [d]; the new size of the
    dimension is the length [f] gives to a lane. *)
Definition along_dim {A B} (dA : A) (dB : B) (f : list A -> list B)
  (t : Tensor A) (d : Z) : Tensor B :=
  let n' := List.length (f (repeat dA (dim_size_of (sizes t) d))) in
  mkTensor (set_dim_size (sizes t) d n') (options t)
    (unlanes dB (outer_size (sizes t) d) n' (inner_size (sizes t) d)
       (map f (tensor_lanes dA t d))).

(** The same for a function of the lanes of two tensors that agree outside
    dimension [d]. *)
Definition along_dim2 {A B C} (dA : A) (dB : B) (dC : C)
  (f : list A -> list B -> list C) (a : Tensor A) (b : Tensor B) (d : Z)
  : Tensor C :=
  let n' := List.length (f (repeat dA (dim_size_of (sizes a) d))
                           (repeat dB (dim_size_of (sizes b) d))) in
  mkTensor (set_dim_size (sizes a) d n') (options a)
    (unlanes dC (outer_size (sizes a) d) n' (inner_size (sizes a) d)
       (zip_with f (tensor_lanes dA a d) (tensor_lanes dB b d))).

(** Elementwise operators on tensors of one shape. *)
Definition tmap {A B} (f : A -> B) (t : Tensor A) : Tensor B :=
  mkTensor (sizes t) (options t) (map f (data t)).

Definition tmap2 {A B C} (f : A -> B -> C) (a : Tensor A) (b : Tensor B) : Tensor C :=
  mkTensor (sizes a) (options a) (zip_with f (data a) (data b)).

(** Modelled from the spec: [at::full(shape, v, options)], so also
    [at::zeros] and [at::ones] (not under src/). *)
Definition full {A} (shape : list Z) (opts : TensorOptions) (v : A) : Tensor A :=
  mkTensor shape opts (repeat v (Z.to_nat (prodZ shape))).

(** Modelled from the spec: [t.flip(dim)] (not under src/), each lane
    reversed, as in "reverse_cumsum". *)
Definition flip {A} (dflt : A) (t : Tensor A) (d : Z) : Tensor A :=
  along_dim dflt dflt (@rev A) t d.

(** Modelled from the spec: [t.slice(dim, start, end)] and
    [t.slice(dim, start)] (not under src/). *)
Definition slice {A} (dflt : A) (t : Tensor A) (d : Z) (start : Z) (end_ : option Z)
  : Tensor A :=
  along_dim dflt dflt
    (fun l =>
       let e := match end_ with Some e => Z.to_nat e | None => List.length l end in
       skipn (Z.to_nat start) (firstn e l))
    t d.

(** Modelled from the spec: [at::cat({a, b}, dim)] (not under src/). *)
Definition cat2 {A} (dflt : A) (a b : Tensor A) (d : Z) : Tensor A :=
  along_dim2 dflt dflt dflt (@app A) a b d.

(** Modelled from the spec: [t.expand_as(other)] (not under src/) for a [t]
    of size 1 along [d] and the sizes of
    [other] elsewhere. *)
Definition expand_as {A B} (dflt : A) (t : Tensor A) (other : Tensor B) (d : Z)
  : Tensor A :=
  along_dim dflt dflt (fun l => repeat (hd dflt l) (dim_size_of (sizes other) d)) t d.

(** Modelled from the spec: [at::gather(t, dim, index)] (not under src/). *)
Definition gather {A} (dflt : A) (t : Tensor A) (d : Z) (index : Tensor Z) : Tensor A :=
  mkTensor (sizes index) (options t)
    (data (along_dim2 0 dflt dflt
             (fun idx lane => map (fun j => nth (Z.to_nat j) lane dflt) idx)
             index t d)).

Fixpoint list_set {A} (l : list A) (i : nat) (v : A) : list A :=
  match l, i with
  | [], _ => []
  | _ :: l', O => v :: l'
  | x :: l', S i' => x :: list_set l' i' v
  end.

(** Modelled from the spec: [t.scatter_(dim, index, value)] with a scalar
    [value] (not under src/). *)
Definition scatter_ {A} (dflt : A) (t : Tensor A) (d : Z) (index : Tensor Z) (value : A)
  : Tensor A :=
  along_dim2 dflt 0 dflt
    (fun lane idx => fold_left (fun acc j => list_set acc (Z.to_nat j) value) idx lane)
    t index d.

(** Modelled from the spec: [t.select(dim, k).copy_(src)] (not under src/):
    element [k] of every lane is overwritten;
    [src] has the shape of [t] without dimension [d], so its elements are in
    the order of the lanes. *)
Definition select_copy_ {A} (dflt : A) (t : Tensor A) (d : Z) (k : Z) (src : Tensor A)
  : Tensor A :=
  mkTensor (sizes t) (options t)
    (unlanes dflt (outer_size (sizes t) d) (dim_size_of (sizes t) d)
       (inner_size (sizes t) d)
       (zip_with (fun lane v => list_set lane (Z.to_nat k) v)
          (tensor_lanes dflt t d) (data src))).

(** Modelled from the spec: [t.masked_fill(mask, v)] (not under src/). *)
Definition masked_fill {A} (t : Tensor A) (mask : Tensor bool) (v : A) : Tensor A :=
  tmap2 (fun x (m : bool) => if m then v else x) t mask.

(** Modelled from the spec: [t.masked_select(mask)] (not under src/): the
    elements under a set mask bit in row-major
    order, [t] expanded along [d] to the shape of the mask when it has size 1
    there. *)
Definition masked_select {A} (dflt : A) (t : Tensor A) (mask : Tensor bool) (d : Z)
  : list A :=
  let t' := if list_Z_eqb (sizes t) (sizes mask) then t else expand_as dflt t mask d in
  map fst (filter snd (combine (data t') (data mask))).

(** Modelled from the spec: [t.masked_scatter_(mask, source)] (not under
    src/): the elements of [source] are copied
    one by one to the positions of [t] whose mask bit is set. *)
Fixpoint masked_scatter_list {A} (self : list A) (mask : list bool) (source : list A)
  : list A :=
  match self, mask with
  | x :: xs, m :: ms =>
      if m then
        match source with
        | s :: ss => s :: masked_scatter_list xs ms ss
        | [] => x :: masked_scatter_list xs ms []
        end
      else x :: masked_scatter_list xs ms source
  | _, _ => self
  end.

Definition masked_scatter_ {A} (t : Tensor A) (mask : Tensor bool) (source : list A)
  : Tensor A :=
  mkTensor (sizes t) (options t) (masked_scatter_list (data t) (data mask) source).

(** The index of the first maximum of a lane of booleans: the first [true],
    or 0 when there is none. *)
Fixpoint first_true (l : list bool) : nat :=
  match l with
  | [] => O
  | b :: l' => if b then O else if existsb (fun x => x) l' then S (first_true l') else O
  end.

(** Modelled from the spec: [std::get<1>(mask.max(dim, /*keepdim*/ true))]
    (not under src/); the source relies on the first maximum: "When there is
    no zero in the slice, max will return the index 0". *)
Definition max_indices_keepdim (mask : Tensor bool) (d : Z) : Tensor Z :=
  along_dim false 0 (fun l => [Z.of_nat (first_true l)]) mask d.

(** ** cumprod_backward *)

Section CumprodBackward.
(** The element type: real or complex numbers with their arithmetic,
    conjugation and comparison. *)
Variable F : Type.
Variables (zero one : F) (add mul sub div : F -> F -> F) (opp inv : F -> F).
Variable conj : F -> F.
Variable eqb : F -> F -> bool.

(** Modelled from the spec: the cumulative kernels ([cumsum_stub],
    [cumprod_stub], not under src/) on one lane, [y_j] the sum or product of
    [x_1 ... x_j] as the comment of [cumprod_backward] has it: an accumulator
    that starts at the neutral element. *)
Fixpoint cum_from (f : F -> F -> F) (acc : F) (l : list F) : list F :=
  match l with
  | [] => []
  | x :: l' => f acc x :: cum_from f (f acc x) l'
  end.

Definition cumsum_lane (l : list F) : list F := cum_from add zero l.
Definition cumprod_lane (l : list F) : list F := cum_from mul one l.
Definition sum_lane (l : list F) : F := fold_left add l zero.
Definition prod_lane (l : list F) : F := fold_left mul l one.

Definition cumsum (t : Tensor F) (d : Z) : Tensor F :=
  along_dim zero zero cumsum_lane t d.
Definition cumprod (t : Tensor F) (d : Z) : Tensor F :=
  along_dim zero zero cumprod_lane t d.

(** Modelled from the spec: [t.sum(dim, /*keepdim*/ true)],
    [at::prod(t, dim, true)] and
    [at::sum(t, dim)] *)
Definition sum_keepdim (t : Tensor F) (d : Z) : Tensor F :=
  along_dim zero zero (fun l => [sum_lane l]) t d.
Definition prod_keepdim (t : Tensor F) (d : Z) : Tensor F :=
  along_dim zero zero (fun l => [prod_lane l]) t d.
Definition sum_dim (t : Tensor F) (d : Z) : Tensor F :=
  mkTensor (drop_dim (sizes t) d) (options t) (data (sum_keepdim t d)).

(** Modelled from the spec: [is_zero.cumsum(dim)] on a boolean tensor (not
    under src/): the count of set bits up to each position. *)
Fixpoint count_from (acc : Z) (l : list bool) : list Z :=
  match l with
  | [] => []
  | b :: l' =>
      let acc' := acc + (if b then 1 else 0) in acc' :: count_from acc' l'
  end.

Definition cumsum_bool (t : Tensor bool) (d : Z) : Tensor Z :=
  along_dim false 0 (count_from 0) t d.

(** Modelled from the spec: [is_zero.any().item<uint8_t>()] (not under
    src/). *)
Definition any_item (t : Tensor bool) : bool := existsb (fun b => b) (data t).

Definition reversed_cumsum (w : Tensor F) (d : Z) : Tensor F :=
  flip zero (cumsum (flip zero w d) d) d.

(** The branch of [cumprod_backward] taken when the input has a zero and
    gradient mode is off. *)
Definition cumprod_backward_masked (grad input_conj output_conj w : Tensor F)
  (is_zero : Tensor bool) (d : Z) (grad_input : Tensor F) : Tensor F :=
  let cumsum_ := cumsum_bool is_zero d in
  (* case k < z1 *)
  let mask := tmap (fun c => c =? 0) cumsum_ in
  let grad_input :=
    masked_scatter_ grad_input mask
      (masked_select zero
         (tmap2 div (reversed_cumsum (masked_fill w (tmap negb mask) zero) d) input_conj)
         mask d) in
  let mask := tmap (fun c => c =? 1) cumsum_ in
  (* case k = z1 *)
  let first_zero_index := max_indices_keepdim mask d in
  let first_zero_mask :=
    tmap2 andb (scatter_ false (tmap (fun _ => false) mask) d first_zero_index true) mask in
  let mask := tmap2 (fun (m fz : bool) => m && negb fz) mask first_zero_mask in
  masked_scatter_ grad_input first_zero_mask
    (masked_select zero
       (tmap2 mul
          (sum_keepdim
             (tmap2 mul
                (cumprod (masked_fill input_conj (tmap negb mask) one) d)
                (masked_fill grad (tmap (fun c => negb (c =? 1)) cumsum_) zero))
             d)
          (masked_fill
             (gather zero output_conj d (tmap (fun i => Z.max 0 (i - 1)) first_zero_index))
             (tmap (fun i => i =? 0) first_zero_index) one))
       first_zero_mask d).

(** [omitted_products] at iteration [k] of the loop of the other branch. *)
Definition omitted_products_at (input_conj ones : Tensor F) (d dim_size k : Z)
  : Tensor F :=
  if k =? 0 then
    let prods_from_k_plus_1 := cumprod (slice zero input_conj d (k + 1) None) d in
    cat2 zero ones prods_from_k_plus_1 d
  else if k =? dim_size - 1 then
    let prods_until_k := prod_keepdim (slice zero input_conj d 0 (Some k)) d in
    prods_until_k
  else
    let prods_until_k := prod_keepdim (slice zero input_conj d 0 (Some k)) d in
    let prods_from_k_plus_1 := cumprod (slice zero input_conj d (k + 1) None) d in
    let omitted_products :=
      tmap2 mul (expand_as zero prods_until_k prods_from_k_plus_1 d) prods_from_k_plus_1 in
    cat2 zero prods_until_k omitted_products d.

(** The branch taken when the input has a zero and gradient mode is on. *)
Definition cumprod_backward_omitted (grad input input_conj : Tensor F)
  (d dim_size : Z) (grad_input : Tensor F) : outcome (Tensor F) :=
  let ones_size := set_dim_size (sizes input) d 1 in
  let ones := full ones_size (options grad) one in
  fold_left
    (fun (acc : outcome (Tensor F)) (k : Z) =>
       grad_input <- acc ;;
       let omitted_products := omitted_products_at input_conj ones d dim_size k in
       TORCH_CHECK (size omitted_products d =? dim_size - k)
         "Expected omitted_products.size(dim) == dim_size - k to be true" ;;;
       Ok (select_copy_ zero grad_input d k
             (sum_dim (tmap2 mul (slice zero grad d k None) omitted_products) d)))
    (irange dim_size) (Ok grad_input).

(** [cumprod_backward]; [grad_mode] is [at::GradMode::is_enabled()]. *)
Definition cumprod_backward (grad_mode : bool) (grad input : Tensor F) (dim_ : Z)
  (output : Tensor F) : outcome (Tensor F) :=
  if numel input <=? 1 then Ok grad
  else
    d <- maybe_wrap_dim dim_ (dim input) ;;
    let dim_size := size input d in
    if dim_size =? 1 then Ok grad
    else
      let input_conj := tmap conj input in
      let output_conj := tmap conj output in
      let w := tmap2 mul output_conj grad in
      let is_zero := tmap (fun x => eqb x zero) input in
      if negb (any_item is_zero) then
        Ok (tmap2 div (reversed_cumsum w d) input_conj)
      else
        let grad_input := full (sizes input) (options grad) zero in
        if negb grad_mode then
          Ok (cumprod_backward_masked grad input_conj output_conj w is_zero d grad_input)
        else
          cumprod_backward_omitted grad input input_conj d dim_size grad_input.
End CumprodBackward.

(** ** Predicates used in the statements *)

(** A tensor holds as many elements as its shape says. *)
Definition well_formed {V} (t : Tensor V) : Prop :=
  List.length (data t) = Z.to_nat (numel t).

(** The inputs that [argmax] and [argmin] reject. *)
Definition argmax_argmin_rejects {V} (self : Tensor V) (dim_ : option Z) : Prop :=
  match dim_ with
  | None => numel self = 0
  | Some d =>
      let n := Z.max 1 (dim self) in
      ~ (- n <= d < n)
      \/ (0 < dim self /\ size self (if d <? 0 then d + n else d) = 0)
  end.

(** The rejected inputs as the specification lists them: no dim and no
    element, or a dim that wraps to a dimension of size zero. *)
Definition argmax_argmin_rejects_listed {V} (self : Tensor V) (dim_ : option Z) : Prop :=
  match dim_ with
  | None => numel self = 0
  | Some d => exists d', maybe_wrap_dim d (dim self) = Ok d' /\ size self d' = 0
  end.

(** A kernel that leaves the output as it finds it, for the examples. *)
Definition idle_kernel : DeviceType -> TensorIterator -> TensorS :=
  fun _ it => it_output it.
Definition idle_cum_kernel : DeviceType -> TensorS -> TensorS -> Z -> TensorS :=
  fun _ result _ _ => result.

(** Modelled from the spec: the conversion of a [Scalar] to a dtype that
    [fill_] and [copy_] apply (c10/util/TypeCast.h, not under src/), as C++
    converts between arithmetic types: a floating-point number becomes an
    integer by truncation towards zero, an integer becomes the integer of
    the target width with the same low bits, a number becomes a [bool] by
    comparing it with zero, a number becomes the nearest floating-point
    number of the target precision, and a complex number gives its real
    part.  A NaN or an infinity converted to an integral type, which C++
    leaves undefined, gives 0 here. *)
Definition d_trunc (x : double) : Z :=
  match x with
  | S754_finite s m e =>
      let z := if 0 <=? e then Z.pos m * 2 ^ e else Z.pos m / 2 ^ (- e) in
      if s then - z else z
  | _ => 0
  end.

Definition int_cast (ty : ScalarType) (z : Z) : Z :=
  match ty with
  | kByte => z mod 2 ^ 8
  | kChar => (z + 2 ^ 7) mod 2 ^ 8 - 2 ^ 7
  | kShort => (z + 2 ^ 15) mod 2 ^ 16 - 2 ^ 15
  | kInt => (z + 2 ^ 31) mod 2 ^ 32 - 2 ^ 31
  | _ => wrap_int64 z
  end.

Definition round_to (ty : ScalarType) (x : double) : double :=
  match x with
  | S754_finite s m e =>
      match ty with
      | kFloat | kComplexFloat => binary_round 24 128 s m e
      | kHalf | kComplexHalf => binary_round 11 16 s m e
      | kBFloat16 => binary_round 8 128 s m e
      | _ => x
      end
  | _ => x
  end.

Definition scalar_cast (ty : ScalarType) (s : Scalar) : Scalar :=
  match ty with
  | kBool => SBool (toBool s)
  | kByte | kChar | kShort | kInt | kLong =>
      SInt (int_cast ty
              match s with
              | SInt z => z
              | SBool b => if b then 1 else 0
              | SDouble d => d_trunc d
              | SComplex re _ => d_trunc re
              end)
  | kHalf | kFloat | kDouble | kBFloat16 => SDouble (round_to ty (as_double s))
  | kComplexHalf | kComplexFloat | kComplexDouble =>
      match s with
      | SComplex re im => SComplex (round_to ty re) (round_to ty im)
      | _ => SComplex (round_to ty (as_double s)) d_zero
      end
  end.

(** The IEEE quotient of [x] by a zero of positive sign. *)
Definition quotient_by_zero (x : double) : double :=
  match x with
  | S754_nan | S754_zero _ => S754_nan
  | S754_infinity s | S754_finite s _ _ => S754_infinity s
  end.

(** The tail of [std_var_all_cpu] after the division. *)
Definition std_var_finish (ty : ScalarType) (take_sqrt : bool) (var : double) : double :=
  let result := if take_sqrt then d_sqrt var else var in
  if ScalarType_eqb ty kFloat then d_to_float result else result.

(** Shapes and dimensions that the lane view is stated for. *)
Definition nonneg_shape (shape : list Z) : Prop := Forall (fun z => 0 <= z) shape.

Definition valid_dim (shape : list Z) (d : Z) : Prop :=
  0 <= d < Z.max 1 (Z.of_nat (List.length shape)).

(** [lanes_are dflt shape d n t phi]: [t] has the shape [shape] with size [n]
    at dimension [d], and its lane [j] is [phi j]. *)
Definition lanes_are {A} (dflt : A) (shape : list Z) (d : Z) (n : nat)
  (t : Tensor A) (phi : nat -> list A) : Prop :=
  sizes t = set_dim_size shape d n
  /\ List.length (data t) = (outer_size shape d * n * inner_size shape d)%nat
  /\ (forall j, (j < outer_size shape d * inner_size shape d)%nat ->
                List.length (phi j) = n)
  /\ lanes dflt (outer_size shape d) n (inner_size shape d) (data t)
     = map phi (seq 0 (outer_size shape d * inner_size shape d)).

(** The two gradient formulas on one lane [x] of the input, with [y] the
    lane of the output and [g] the lane of [grad]. *)
Section CumprodBackwardLane.
Variable F : Type.
Variables (zero one : F) (add mul div : F -> F -> F).
Variable conj : F -> F.

(** [reversed_cumsum(conj(y) * g) / conj(x)] *)
Definition closed_form_lane (x y g : list F) : list F :=
  zip_with div
    (rev (cumsum_lane F zero add (rev (zip_with mul (map conj y) g))))
    (map conj x).

(** [omitted_products] at iteration [k], from the lane [cx] of [input_conj]. *)
Definition omitted_products_lane (cx : list F) (n k : nat) : list F :=
  if (k =? 0)%nat then
    [one] ++ cumprod_lane F one mul (skipn (k + 1) cx)
  else if (k =? n - 1)%nat then
    [prod_lane F one mul (firstn k cx)]
  else
    let prods_until_k := [prod_lane F one mul (firstn k cx)] in
    let prods_from_k_plus_1 := cumprod_lane F one mul (skipn (k + 1) cx) in
    prods_until_k
    ++ zip_with mul (repeat (hd zero prods_until_k) (List.length prods_from_k_plus_1))
         prods_from_k_plus_1.

(** [sum(grad.slice(dim, k) * omitted_products, dim)] *)
Definition omitted_grad_lane (cx g : list F) (n k : nat) : F :=
  sum_lane F zero add (zip_with mul (skipn k g) (omitted_products_lane cx n k)).

(** The sums of the suffixes of a lane. *)
Fixpoint suffix_sums (l : list F) : list F :=
  match l with
  | [] => []
  | x :: l' => add x (sum_lane F zero add l') :: suffix_sums l'
  end.
End CumprodBackwardLane.

(** ** diff *)

(** Modelled from the spec: [maybe_wrap_dim(dim, dim_post_expr, wrap_scalar)]
    (WrapDimUtils.h, not under src/) with its third argument: without
    [wrap_scalar] a tensor of rank 0 has no dimension to wrap to. *)
Definition maybe_wrap_dim_scalar (d dim_post_expr : Z) (wrap_scalar : bool)
  : outcome Z :=
  if (dim_post_expr <=? 0) && negb wrap_scalar then
    Raise (IndexError "dimension specified but tensor has no dimensions")
  else maybe_wrap_dim d dim_post_expr.

(** Modelled from the spec: [t.size(dim)] with the dimension as the caller
    gave it (TensorBase.h, not under src/): the dimension is wrapped, "an
    index out of [-rank, rank)" raises. *)
Definition size_at {V} (t : Tensor V) (d : Z) : outcome Z :=
  d' <- maybe_wrap_dim_scalar d (dim t) false ;;
  Ok (size t d').

Definition has_value {T} (o : option T) : bool :=
  match o with Some _ => true | None => false end.




Section Diff.
Context {A : Type}.
(** The value of an element that is never read, the zero of [at::zeros_like],
    and the elementwise kernels of [at::sub] and [at::logical_xor] at the
    dtype of the tensor. *)
Variable dflt : A.
Variable zero : A.
Variables sub logical_xor : A -> A -> A.

(** Modelled from the spec: [at::narrow(t, dim, start, length)]
    (TensorShape.cpp, not under src/): the checked form of [slice]. *)
Definition narrow (t : Tensor A) (d start length : Z) : outcome (Tensor A) :=
  TORCH_CHECK (0 <? dim t) "narrow() cannot be applied to a 0-dim tensor." ;;;
  cur_size <- size_at t d ;;
  start' <- (if start =? cur_size then Ok start else maybe_wrap_dim start cur_size) ;;
  TORCH_CHECK ((0 <=? length) && (start' <=? cur_size - length))
    "start + length exceeds dimension size" ;;;
  d' <- maybe_wrap_dim d (dim t) ;;
  Ok (slice dflt t d' start' (Some (start' + length))).

(** Modelled from the spec: [at::cat({a, b}, dim)] with the dimension as the
    caller gave it (not under src/). *)
Definition at_cat2 (a b : Tensor A) (d : Z) : outcome (Tensor A) :=
  d' <- maybe_wrap_dim d (dim a) ;;
  Ok (cat2 dflt a b d').

(** Modelled from the spec: [at::zeros_like(t)] and [dst.copy_(src)] for a
    [src] of the shape of [dst] (not under src/). *)
Definition zeros_like (t : Tensor A) : Tensor A := fill_ t zero.

Definition copy_ (dst src : Tensor A) : Tensor A :=
  mkTensor (sizes dst) (options dst) (data src).


Definition prepend_append_on_dim (self : Tensor A)
  (prepend append : option (Tensor A)) (d : Z) : outcome (Tensor A) :=
  match prepend, append with
  | None, None =>
      Raise (Error_ "either prepend or append must be have value")
  | None, Some a => at_cat2 self a d
  | Some p, None => at_cat2 p self d
  | Some p, Some a => ps <- at_cat2 p self d ;; at_cat2 ps a d
  end.

Definition diff_check_compatible_shape (self : Tensor A)
  (other : option (Tensor A)) (d : Z) : outcome unit :=
  match other with
  | Some o =>
      wrapped_dim <- maybe_wrap_dim_scalar d (dim self) false ;;
      TORCH_CHECK (dim o =? dim self)
        "diff expects prepend or append to be the same dimension as input" ;;;
      fold_left
        (fun acc i =>
           acc ;;;
           TORCH_CHECK ((size o i =? size self i) || (i =? wrapped_dim))
             "diff expects the shape of tensor to prepend or append to match that of input except along the differencing dimension")
        (irange (dim o)) (Ok tt)
  | None => Ok tt
  end.

Definition diff_check (self : Tensor A) (n d : Z)
  (prepend append : option (Tensor A)) : outcome unit :=
  TORCH_CHECK (1 <=? dim self)
    "diff expects input to be at least one-dimensional" ;;;
  diff_check_compatible_shape self prepend d ;;;
  diff_check_compatible_shape self append d.

(** One iteration of the loop of [diff_helper] on [result] and [out_len]. *)
Definition diff_helper_body (is_kBool : bool) (d : Z)
  (st : outcome (Tensor A * Z)) (i : Z) : outcome (Tensor A * Z) :=
  st' <- st ;;
  let result := fst st' in
  let out_len := snd st' in
  hi <- narrow result d 1 out_len ;;
  lo <- narrow result d 0 out_len ;;
  Ok (if is_kBool then tmap2 logical_xor hi lo else tmap2 sub hi lo, out_len - 1).

Definition diff_helper (self : Tensor A) (n d : Z) : outcome (Tensor A) :=
  if n =? 0 then
    Ok (copy_ (zeros_like self) self)
  else
    sz <- size_at self d ;;
    let out_len := sz - 1 in
    let is_kBool := ScalarType_eqb (scalar_type self) kBool in
    let n := if sz <=? n then sz else n in
    st <- fold_left (diff_helper_body is_kBool d) (irange n) (Ok (self, out_len)) ;;
    Ok (fst st).

Definition diff (self : Tensor A) (n d : Z) (prepend append : option (Tensor A))
  : outcome (Tensor A) :=
  diff_check self n d prepend append ;;;
  if (negb (has_value prepend) && negb (has_value append)) || (n =? 0) then
    diff_helper self n d
  else
    a <- prepend_append_on_dim self prepend append d ;;
    diff_helper a n d.


End Diff.

(** The differences of the neighbours of a lane:
    [f l_1 l_0, f l_2 l_1, ...]. *)
Definition adjacent {A} (f : A -> A -> A) (l : list A) : list A :=
  zip_with f (tl l) l.

(** A tensor that [diff] accepts in front of or behind [self] along [d]: of
    the rank of [self], and of its sizes outside the dimension. *)
Definition diff_compatible {A} (self : Tensor A) (other : option (Tensor A)) (d : Z)
  : Prop :=
  match other with
  | None => True
  | Some o =>
      - dim self <= d < dim self
      /\ dim o = dim self
      /\ forall i, 0 <= i < dim self ->
                   i <> (if d <? 0 then d + dim self else d) ->
                   size o i = size self i
  end.

(** A tensor, when there is one, with sizes that are not negative and as
    many elements as they say. *)
Definition tensor_ok {A} (o : option (Tensor A)) : Prop :=
  match o with
  | None => True
  | Some t => nonneg_shape (sizes t) /\ well_formed t
  end.

(** ** cummax / cummin: the operators *)

Section CumMaxMinOut.
(** The contents of memory that [at::empty] hands out, the conversion of a
    [Scalar] to a dtype (c10, not under src/), and the helpers behind
    [at::_cummax_helper] and [at::_cummin_helper] ([cummax_helper_cpu] and
    [cummin_helper_cpu] on the CPU); each returns [values] and [indices] as
    it leaves them. *)
Variable uninitialized : Scalar.
Variable convert : ScalarType -> Scalar -> Scalar.
Variable _cummax_helper _cummin_helper
  : TensorS -> TensorS -> TensorS -> Z -> TensorS * TensorS.




End CumMaxMinOut.

(** The position of the last NaN of a list up to position [i]. *)
Definition last_nan_upto {T1} (isnan_ : T1 -> bool) (dflt : T1) (self : list T1)
  (i j : nat) : Prop :=
  (j <= i)%nat
  /\ isnan_ (nth j self dflt) = true
  /\ forall m, (j < m <= i)%nat -> isnan_ (nth m self dflt) = false.

(** ** cpu_equal *)

Section CpuEqual.
Context {A : Type}.
(** [operator!=] at the element type [scalar_t]. *)
Variable ne : A -> A -> bool.
(** The number of elements that [for_each] hands to one call of the loop. *)
Variable chunk : Z.

(** The [for] loop of the lambda: it leaves at the first pair of elements
    that differ, with [result] set to [false]. *)
Fixpoint equal_scan (self_data other_data : list A) (result : bool) : bool :=
  match self_data, other_data with
  | x :: xs, y :: ys => if ne x y then false else equal_scan xs ys result
  | _, _ => result
  end.

(** The lambda passed to [iter.for_each], on the elements of one call;
    [result] is the flag shared by the calls. *)
Definition equal_loop (result : bool) (self_data other_data : list A) : bool :=
  if negb result then result
  else equal_scan self_data other_data result.

(** Modelled from the spec: [TensorIterator::for_each] (TensorIterator.h, not
    under src/) on two contiguous tensors of one shape: "the index range is
    partitioned into contiguous chunks above a minimum grain size", and the
    loop is called on every chunk. *)
Definition for_each (loop : bool -> list A -> list A -> bool)
  (self_data other_data : list A) (n : Z) (result : bool) : bool :=
  if (n <=? GRAIN_SIZE) || (chunk <=? 0) then loop result self_data other_data
  else
    fold_left
      (fun r rg => loop r (sub_range self_data (fst rg) (snd rg))
                          (sub_range other_data (fst rg) (snd rg)))
      (chunks (Z.to_nat n) 0 n chunk) result.

(** [AT_DISPATCH_ALL_TYPES_AND_COMPLEX_AND3(kBool, kBFloat16, kHalf, ...)]:
    every scalar type but [ComplexHalf]. *)
Definition equal_cpu_dispatches (t : ScalarType) : bool :=
  match t with
  | kComplexHalf => false
  | _ => true
  end.

(** [cpu_equal]; the tensors of the model carry no dimension names:
    [are_names_equal] is the answer of [at::namedinference::are_names_equal]
    (NamedTensorUtils.h, not under src/) for the two tensors. *)
Definition cpu_equal (are_names_equal : bool) (self other : Tensor A) : outcome bool :=
  if negb are_names_equal then Ok false
  else
  TORCH_CHECK (DeviceType_eqb (device (options self)) (device (options other)))
    "Cannot compare two tensors on different devices." ;;;
  TORCH_CHECK (ScalarType_eqb (dtype (options self)) (dtype (options other)))
    "Expected object of the scalar type of self for argument 'other'" ;;;
  if negb (list_Z_eqb (sizes self) (sizes other)) then Ok false
  else
    TORCH_CHECK (equal_cpu_dispatches (scalar_type self))
      "equal_cpu not implemented for this scalar type" ;;;
    Ok (for_each equal_loop (data self) (data other) (numel self) true).
End CpuEqual.

(** [!=] on [int64_t] and on [double]. *)
Definition int64_ne (a b : Z) : bool := negb (a =? b).
Definition d_ne (a b : double) : bool := negb (SFeqb a b).

(** The elements of two tensors are pairwise equal for [ne]. *)
Definition pairwise_equal {A} (ne : A -> A -> bool) (a b : list A) : Prop :=
  List.length a = List.length b
  /\ forall i, (i < List.length a)%nat ->
               forall dflt, ne (nth i a dflt) (nth i b dflt) = false.

(** ** trace_cpu *)

(** Modelled from the spec: [t.stride(d)] of a contiguous tensor
    (TensorImpl.h, not under src/): the product of the sizes behind [d], a
    size of zero counted as one. *)
Definition contiguous_stride {V} (t : Tensor V) (d : Z) : Z :=
  prodZ (map (Z.max 1) (skipn (S (Z.to_nat d)) (sizes t))).

(** [AT_DISPATCH_ALL_TYPES_AND_COMPLEX]: the scalar types that [trace_cpu]
    has a case for. *)
Definition trace_dispatches (t : ScalarType) : bool :=
  match t with
  | kByte | kChar | kShort | kInt | kLong
  | kFloat | kDouble | kComplexFloat | kComplexDouble => true
  | _ => false
  end.

Section Trace.
(** The dispatch fixes the element type [scalar_t] and its accumulation type
    [accscalar_t]: [acc_add] is [sum += x], [of_acc] the conversion of the
    store into [result] ([int64_t] for the integral types, [scalar_t]
    else). *)
Context {A Acc : Type}.
Variable garbage : A.
Variable acc_zero : Acc.
Variable acc_add : Acc -> A -> Acc.
Variable of_acc : Acc -> A.

Definition trace_cpu (self : Tensor A) : outcome (Tensor A) :=
  let dtype := get_dtype_from_self self None true in
  let result_options := with_dtype (options self) dtype in
  TORCH_CHECK (trace_dispatches (scalar_type self))
    "trace not implemented for this scalar type" ;;;
  let t_data := as_memory garbage (data self) in
  TORCH_CHECK (dim self =? 2) "trace: expected a matrix" ;;;
  let t_stride_0 := contiguous_stride self 0 in
  let t_stride_1 := contiguous_stride self 1 in
  let t_diag_size := Z.min (size self 0) (size self 1) in
  let sum :=
    fold_left (fun sum i => acc_add sum (t_data (i * (t_stride_0 + t_stride_1))))
      (irange t_diag_size) acc_zero in
  Ok (mkTensor [] result_options [of_acc sum]).
End Trace.

(** [trace_cpu] at [scalar_t = int64_t]: the accumulator is an [int64_t]. *)
Definition trace_cpu_int64 (self : Tensor Z) : outcome (Tensor Z) :=
  trace_cpu 0 0 (fun sum x => wrap_int64 (sum + x)) (fun sum => sum) self.

(** [trace_cpu] at [scalar_t = double]. *)
Definition trace_cpu_double (self : Tensor double) : outcome (Tensor double) :=
  trace_cpu d_zero d_zero d_add (fun sum => sum) self.

(** The diagonal of a matrix of [rows x cols] elements in row-major
    order. *)
Definition diagonal {A} (dflt : A) (rows cols : nat) (l : list A) : list A :=
  map (fun i => nth (i * cols + i) l dflt) (seq 0 (Nat.min rows cols)).

(** ** prod, mean, norm, amin, amax, aminmax: the meta functions *)

(** TORCH_META_FUNC2(prod, dim_int) *)
Definition prod_dim_int_meta {V} (maybe_output : option (Tensor V))
  (self : Tensor V) (d : Z) (keepdim : bool) (dtype : option ScalarType)
  : outcome OutSpec :=
  let out_dtype := infer_dtype_from_optional self [d] keepdim dtype maybe_output in
  resize_reduction maybe_output self [d] keepdim out_dtype.

Definition check_floating_or_complex_dtype (name : string) (dtype : ScalarType)
  : outcome unit :=
  TORCH_CHECK (isFloatingType dtype || isComplexType dtype)
    (name ++ "(): input dtype should be either floating point or complex dtypes.")%string.

(** TORCH_META_FUNC2(mean, dim) *)
Definition mean_dim_meta {V} (maybe_output : option (Tensor V))
  (self : Tensor V) (dims : list Z) (keepdim : bool) (opt_dtype : option ScalarType)
  : outcome OutSpec :=
  check_floating_or_complex_dtype "mean" (scalar_type self) ;;;
  let out_dtype := infer_dtype_from_optional self dims keepdim opt_dtype maybe_output in
  resize_reduction maybe_output self dims keepdim out_dtype.

Definition get_result_or_self_value_dtype {V} (self : Tensor V)
  (result : option (Tensor V)) (dtype : option ScalarType) : ScalarType :=
  match result with
  | Some r => scalar_type r
  | None => value_or dtype (toRealValueType (scalar_type self))
  end.

(** TORCH_META_FUNC2(norm, ScalarOpt_dim) *)
Definition norm_ScalarOpt_dim_meta {V} (maybe_output : option (Tensor V))
  (self : Tensor V) (p : option Scalar) (dims : list Z) (keepdim : bool)
  : outcome OutSpec :=
  check_floating_or_complex_dtype "norm" (scalar_type self) ;;;
  let out_dtype := get_result_or_self_value_dtype self maybe_output None in
  resize_reduction maybe_output self dims keepdim out_dtype.

(** TORCH_META_FUNC2(norm, ScalarOpt_dim_dtype) *)
Definition norm_ScalarOpt_dim_dtype_meta {V} (maybe_output : option (Tensor V))
  (self : Tensor V) (p : option Scalar) (dims : list Z) (keepdim : bool)
  (dtype : ScalarType) : outcome OutSpec :=
  check_floating_or_complex_dtype "norm" dtype ;;;
  let out_dtype := get_result_or_self_value_dtype self maybe_output (Some dtype) in
  resize_reduction maybe_output self dims keepdim out_dtype.

(** TORCH_META_FUNC(aminmax): the descriptions of the outputs 0 and 1. *)
Definition aminmax_meta {V} (maybe_min maybe_max : option (Tensor V))
  (self : Tensor V) (dim_opt : option Z) (keepdim : bool)
  : outcome (OutSpec * OutSpec) :=
  shape <-
    match dim_opt with
    | Some d0 =>
        d <- maybe_wrap_dim d0 (dim self) ;;
        zero_numel_check_dims self d "aminmax" ;;;
        get_reduction_shape self [d] keepdim
    | None =>
        TORCH_CHECK (0 <? numel self)
          "aminmax(): cannot compute aminmax over an empty dimension as the operation has no identity." ;;;
        Ok (if keepdim then repeat 1 (Z.to_nat (dim self)) else [])
    end ;;
  let options := options self in
  o0 <- set_output maybe_min shape options ;;
  o1 <- set_output maybe_max shape options ;;
  Ok (o0, o1).

(** Modelled from the spec: [zero_numel_check_dims] on a list of dimensions
    (ReduceOpsUtils.h, not under src/): "reducing zero elements along a
    dimension for an operator without a defined identity" is an error, for
    the dimensions as the caller gave them; with no dimension at all the
    reduction is over all of them. *)
Definition zero_numel_check_dims_list {V} (self : Tensor V) (dims : list Z)
  (fn_name : string) : outcome unit :=
  TORCH_CHECK (negb (Nat.eqb (List.length dims) 0))
    (fn_name ++ ": Expected reduction dim to be specified for input.numel() == 0.")%string ;;;
  fold_left
    (fun acc d =>
       acc ;;;
       if dim self =? 0 then
         TORCH_CHECK_INDEX ((d =? 0) || (d =? -1))
           (fn_name ++ ": Expected reduction dim -1 or 0 for scalar")%string
       else
         s <- size_at self d ;;
         TORCH_CHECK_INDEX (negb (s =? 0))
           (fn_name ++ ": Expected reduction dim to have non-zero size.")%string)
    dims (Ok tt).

(** TORCH_META_FUNC(amax) and TORCH_META_FUNC(amin) *)
Definition amax_meta {V} (maybe_output : option (Tensor V)) (self : Tensor V)
  (dims : list Z) (keepdim : bool) : outcome OutSpec :=
  let maybe_result := maybe_output in
  match maybe_result with
  | Some r =>
      TORCH_CHECK (ScalarType_eqb (scalar_type self) (scalar_type r))
        "Expected the dtype for input and out to match"
  | None => Ok tt
  end ;;;
  (if numel self =? 0 then zero_numel_check_dims_list self dims "amax()" else Ok tt) ;;;
  let out_dtype :=
    match maybe_result with Some r => scalar_type r | None => scalar_type self end in
  resize_reduction maybe_output self dims keepdim out_dtype.

Definition amin_meta {V} (maybe_output : option (Tensor V)) (self : Tensor V)
  (dims : list Z) (keepdim : bool) : outcome OutSpec :=
  let maybe_result := maybe_output in
  match maybe_result with
  | Some r =>
      TORCH_CHECK (ScalarType_eqb (scalar_type self) (scalar_type r))
        "Expected the dtype for input and out to match"
  | None => Ok tt
  end ;;;
  (if numel self =? 0 then zero_numel_check_dims_list self dims "amin()" else Ok tt) ;;;
  let out_dtype :=
    match maybe_result with Some r => scalar_type r | None => scalar_type self end in
  resize_reduction maybe_output self dims keepdim out_dtype.

(** ** prod, mean, norm, amin, amax, argmax, argmin: the implementations *)

(** [int64_t] multiplication; on overflow (undefined in C++) the value
    wraps. *)
Definition int64_mul (a b : Z) : Z := wrap_int64 (a * b).

(** Modelled from the spec: [self.reshape({-1})] of a contiguous tensor (not
    under src/): the same elements in one dimension. *)
Definition reshape_flat (t : TensorS) : TensorS :=
  mkTensor [numel t] (options t) (data t).

Section ReduceKernels.
(** The contents of memory that [at::empty] hands out, the kernels behind
    the dispatch stubs, and [result.div_(dim_prod)] (an ATen operator, not
    under src/). *)
Variable uninitialized : Scalar.
Variable sum_stub prod_stub mean_stub min_values_stub max_values_stub
  : DeviceType -> TensorIterator -> TensorS.
Variable norm_stub : DeviceType -> TensorIterator -> Scalar -> TensorS.
Variable div_ : TensorS -> Z -> TensorS.
(** What [sizes[_dim]] reads behind the sizes of a tensor of rank 0. *)
Variable sizes_overrun : Z.

Definition impl_func_prod (self : TensorS) (dims : list Z) (keepdim : bool)
  (dtype : option ScalarType) (result : TensorS) : TensorS :=
  let iter := make_reduction_from_out_ty self result dims keepdim (scalar_type result) in
  if iter_numel iter =? 0 then fill_ result (SInt 1)
  else prod_stub (iter_device_type iter) iter.

(** TORCH_IMPL_FUNC(prod_out) *)
Definition prod_out (self : TensorS) (d : Z) (keepdim : bool)
  (dtype : option ScalarType) (result : TensorS) : TensorS :=
  impl_func_prod self [d] keepdim dtype result.

(** [Tensor prod(const Tensor&, optional<ScalarType>)] *)
Definition prod (self : TensorS) (opt_dtype : option ScalarType) : outcome TensorS :=
  let dtype := get_dtype_from_self self opt_dtype true in
  shape <- get_reduction_shape self [] false ;;
  let result := empty uninitialized shape (with_dtype (options self) dtype) in
  Ok (impl_func_prod self [] false (Some dtype) result).

(** TORCH_IMPL_FUNC(mean_out) *)
Definition mean_out (self : TensorS) (dims : list Z) (keepdim : bool)
  (opt_dtype : option ScalarType) (result : TensorS) : outcome TensorS :=
  let dtype := scalar_type result in
  if is_cpu self then
    dim_prod <-
      (if Nat.eqb (List.length dims) 0 || (dim self =? 0) then Ok (numel self)
       else
         fold_left
           (fun acc d => dim_prod <- acc ;; s <- size_at self d ;; Ok (int64_mul dim_prod s))
           dims (Ok 1)) ;;
    r <- at_sum_out sum_stub result self dims keepdim (Some dtype) ;;
    Ok (div_ r dim_prod)
  else
    let iter := make_reduction_from_out_ty self result dims keepdim dtype in
    if iter_numel iter =? 0 then Ok (fill_ result (SDouble d_nan))
    else Ok (mean_stub (iter_device_type iter) iter).

Definition impl_func_norm (self : TensorS) (opt_p : option Scalar) (dims : list Z)
  (keepdim : bool) (opt_dtype : option ScalarType) (result : TensorS) : TensorS :=
  let p := match opt_p with Some p => p | None => SDouble (d_of_int64 2) end in
  let in_dtype := value_or opt_dtype (scalar_type self) in
  let out_dtype := scalar_type result in
  let iter :=
    if isComplexType (scalar_type self)
    then meta_make_reduction self result dims keepdim in_dtype
    else make_reduction_from_out_ty self result dims keepdim out_dtype in
  if iter_numel iter =? 0 then zero_ result
  else norm_stub (iter_device_type iter) iter p.

(** TORCH_IMPL_FUNC(norm_out), TORCH_IMPL_FUNC(norm_dtype_out) *)
Definition norm_out (self : TensorS) (p : option Scalar) (dims : list Z)
  (keepdim : bool) (result : TensorS) : TensorS :=
  impl_func_norm self p dims keepdim None result.

Definition norm_dtype_out (self : TensorS) (p : option Scalar) (dims : list Z)
  (keepdim : bool) (dtype : ScalarType) (result : TensorS) : TensorS :=
  impl_func_norm self p dims keepdim (Some dtype) result.

(** TORCH_IMPL_FUNC(amin_out), TORCH_IMPL_FUNC(amax_out) *)
Definition amin_out (self : TensorS) (dims : list Z) (keepdim : bool)
  (result : TensorS) : TensorS :=
  let iter := meta_make_reduction self result dims keepdim (scalar_type self) in
  if negb (iter_numel iter =? 0) then min_values_stub (iter_device_type iter) iter
  else result.

Definition amax_out (self : TensorS) (dims : list Z) (keepdim : bool)
  (result : TensorS) : TensorS :=
  let iter := meta_make_reduction self result dims keepdim (scalar_type self) in
  if negb (iter_numel iter =? 0) then max_values_stub (iter_device_type iter) iter
  else result.

Definition argmax_argmin_impl (self : TensorS) (dim_ : option Z) (keepdim : bool)
  (result : TensorS) (stub : DeviceType -> TensorIterator -> TensorS)
  : outcome TensorS :=
  match dim_ with
  | Some d0 =>
      _dim <- maybe_wrap_dim d0 (dim self) ;;
      let sizes := sizes self in
      if nth (Z.to_nat _dim) sizes sizes_overrun =? 1 then
        Ok (fill_ result (SInt 0))
      else
        let dims := [_dim] in
        let iter := meta_make_reduction self result dims keepdim (scalar_type self) in
        if negb (iter_numel iter =? 0) then Ok (stub (iter_device_type iter) iter)
        else Ok result
  | None =>
      let in_ := reshape_flat self in
      let keepdim := false in
      let iter := meta_make_reduction in_ result [] keepdim (scalar_type self) in
      if negb (iter_numel iter =? 0) then Ok (stub (iter_device_type iter) iter)
      else Ok result
  end.

(** Modelled from the spec: the functional entry points of the structured
    kernels (generated code, not under src/): the meta function without an
    output, a fresh output, the implementation. *)
Definition at_argmax (argmax_stub : DeviceType -> TensorIterator -> TensorS)
  (self : TensorS) (dim_ : option Z) (keepdim : bool) : outcome TensorS :=
  o <- argmax_meta None self dim_ keepdim ;;
  argmax_argmin_impl self dim_ keepdim (empty uninitialized (fst o) (snd o)) argmax_stub.

Definition at_argmin (argmin_stub : DeviceType -> TensorIterator -> TensorS)
  (self : TensorS) (dim_ : option Z) (keepdim : bool) : outcome TensorS :=
  o <- argmin_meta None self dim_ keepdim ;;
  argmax_argmin_impl self dim_ keepdim (empty uninitialized (fst o) (snd o)) argmin_stub.

Definition at_amax (self : TensorS) (dims : list Z) (keepdim : bool)
  : outcome TensorS :=
  o <- amax_meta None self dims keepdim ;;
  Ok (amax_out self dims keepdim (empty uninitialized (fst o) (snd o))).

Definition at_amin (self : TensorS) (dims : list Z) (keepdim : bool)
  : outcome TensorS :=
  o <- amin_meta None self dims keepdim ;;
  Ok (amin_out self dims keepdim (empty uninitialized (fst o) (snd o))).

Definition at_mean (self : TensorS) (dims : list Z) (keepdim : bool)
  (opt_dtype : option ScalarType) : outcome TensorS :=
  o <- mean_dim_meta None self dims keepdim opt_dtype ;;
  mean_out self dims keepdim opt_dtype (empty uninitialized (fst o) (snd o)).
End ReduceKernels.

(** How an operator came to its result: through its kernel on a plan that
    is not empty, by filling the output with a value, or with an output that
    has no element. *)
Definition written_by (stub : DeviceType -> TensorIterator -> TensorS) (r : TensorS)
  : Prop :=
  exists iter, iter_numel iter <> 0 /\ r = stub (iter_device_type iter) iter.

(** ** gradient *)

(** Modelled from the spec: [at::dim_list_to_bitset] (WrapDimUtilsMulti.h,
    not under src/): "after wrapping, all indices are unique and within
    range; violating this is a usage error". *)
Definition dim_list_to_bitset (dims : list Z) (ndims : Z) : outcome (list Z) :=
  make_dim_mask dims ndims.

Definition pre_check_gradient {V} (self : Tensor V) (spacing_size : option Z)
  (dim_ : option (list Z)) (edge_order : Z) : outcome unit :=
  TORCH_CHECK (negb (ScalarType_eqb (scalar_type self) kByte))
    "torch.gradient does not support uint8 input." ;;;
  match spacing_size, dim_ with
  | Some sz, None =>
      TORCH_CHECK ((sz =? 1) || (sz =? dim self))
        "torch.gradient expected spacing to be unspecified, a scalar or a list of length self.dim()"
  | _, _ => Ok tt
  end ;;;
  match spacing_size, dim_ with
  | Some sz, Some dims =>
      TORCH_CHECK (sz =? Z.of_nat (List.length dims))
        "torch.gradient expected spacing to be unspecified, a scalar or it's spacing and dim arguments to have the same length"
  | _, _ => Ok tt
  end ;;;
  TORCH_CHECK ((edge_order =? 1) || (edge_order =? 2))
    "torch.gradient only supports edge_order=1 and edge_order=2." ;;;
  match dim_ with
  | Some dims =>
      dim_list_to_bitset dims (dim self) ;;;
      fold_left
        (fun acc i =>
           acc ;;;
           s <- size_at self (nth (Z.to_nat i) dims 0) ;;
           TORCH_CHECK (edge_order + 1 <=? s)
             "torch.gradient expected each dimension size to be at least edge_order+1")
        (irange (Z.of_nat (List.length dims))) (Ok tt)
  | None =>
      fold_left
        (fun acc i =>
           acc ;;;
           TORCH_CHECK (edge_order + 1 <=? size self i)
             "torch.gradient expected each dimension size to be at least edge_order+1")
        (irange (dim self)) (Ok tt)
  end.

Definition gradient_dim_preprocess {V} (self : Tensor V) (dim_ : option Z) : list Z :=
  match dim_ with
  | Some d => [d]
  | None => irange (dim self)
  end.

(** Modelled from the spec: the bounds of [at::slice(t, dim, start, end)]
    (TensorShape.cpp, not under src/): negative indices count from the end,
    and both are clamped to the dimension; no [end] is the end of the
    dimension. *)
Definition slice_bounds (n start : Z) (end_ : option Z) : Z * Z :=
  let start_val := if start <? 0 then start + n else start in
  let end_val :=
    match end_ with
    | Some e => if e <? 0 then e + n else e
    | None => n
    end in
  let start_val :=
    if start_val <? 0 then 0 else if n <=? start_val then n else start_val in
  let end_val :=
    if end_val <? start_val then start_val
    else if n <=? end_val then n else end_val in
  (start_val, end_val).

Definition at_slice {A} (dflt : A) (t : Tensor A) (d start : Z) (end_ : option Z)
  : outcome (Tensor A) :=
  TORCH_CHECK (0 <? dim t) "slice() cannot be applied to a 0-dim tensor." ;;;
  d' <- maybe_wrap_dim d (dim t) ;;
  Ok (along_dim dflt dflt
        (fun l =>
           let b := slice_bounds (Z.of_nat (List.length l)) start end_ in
           skipn (Z.to_nat (fst b)) (firstn (Z.to_nat (snd b)) l))
        t d').

Section Gradient.
(** The element type with its arithmetic, and the constants [2], [1.5] and
    [0.5] of the source in it. *)
Variable F : Type.
Variables (zero : F) (add sub mul div : F -> F -> F) (opp : F -> F).
Variables (c2 c1_5 c0_5 : F).

Local Notation "a -. b" := (tmap2 sub a b) (at level 50, left associativity).
Local Notation "a +. b" := (tmap2 add a b) (at level 50, left associativity).
Local Notation "a /. s" := (tmap (fun x => div x s) a) (at level 40, left associativity).
Local Notation "s *. a" := (tmap (fun x => mul s x) a) (at level 40, left associativity).

(** One iteration of the loop of [gradient_helper_float]: the tensor that
    is appended to [result]. *)
Definition gradient_helper_float_body (self : Tensor F) (ax_dx : F)
  (dim_i : Z) (edge_order : Z) : outcome (Tensor F) :=
  direction <- maybe_wrap_dim dim_i (dim self) ;;
  s_2 <- at_slice zero self direction 2 None ;;
  s_0_m2 <- at_slice zero self direction 0 (Some (-2)) ;;
  let center := (s_2 -. s_0_m2) /. ax_dx in
  pa <-
    (if edge_order =? 1 then
       s_1_2 <- at_slice zero self direction 1 (Some 2) ;;
       s_0_1 <- at_slice zero self direction 0 (Some 1) ;;
       s_m1 <- at_slice zero self direction (-1) None ;;
       s_m2_m1 <- at_slice zero self direction (-2) (Some (-1)) ;;
       Ok (Some ((s_1_2 -. s_0_1) /. ax_dx), Some ((s_m1 -. s_m2_m1) /. ax_dx))
     else if edge_order =? 2 then
       s_0_1 <- at_slice zero self direction 0 (Some 1) ;;
       s_1_2 <- at_slice zero self direction 1 (Some 2) ;;
       s_2_3 <- at_slice zero self direction 2 (Some 3) ;;
       s_m3_m2 <- at_slice zero self direction (-3) (Some (-2)) ;;
       s_m2_m1 <- at_slice zero self direction (-2) (Some (-1)) ;;
       s_m1 <- at_slice zero self direction (-1) None ;;
       Ok (Some (((opp c1_5 *. s_0_1) +. (c2 *. s_1_2) -. (c0_5 *. s_2_3)) /. ax_dx),
           Some (((c0_5 *. s_m3_m2) -. (c2 *. s_m2_m1) +. (c1_5 *. s_m1)) /. ax_dx))
     else Ok (None, None)) ;;
  prepend_append_on_dim zero (center /. c2) (fst pa) (snd pa) direction.

Definition gradient_helper_float (self : Tensor F) (spacing : list F)
  (dims : list Z) (edge_order : Z) : outcome (list (Tensor F)) :=
  fold_left
    (fun (acc : outcome (list (Tensor F))) i =>
       result <- acc ;;
       let ax_dx := nth (Z.to_nat i) spacing zero in
       g <- gradient_helper_float_body self ax_dx (nth (Z.to_nat i) dims 0) edge_order ;;
       Ok (result ++ [g]))
    (irange (Z.of_nat (List.length dims))) (Ok []).

(** [gradient(self, ArrayRef<Scalar> spacing, IntArrayRef dim, edge_order)] *)
Definition gradient_scalarrayarray (self : Tensor F) (spacing : list F)
  (dims : list Z) (edge_order : Z) : outcome (list (Tensor F)) :=
  pre_check_gradient self (Some (Z.of_nat (List.length spacing))) (Some dims) edge_order ;;;
  gradient_helper_float self spacing dims edge_order.

(** [gradient(self, optional<Scalar> unit_size, optional<int64_t> dim,
    edge_order)]; [c1] is the spacing [1.0] taken when there is none. *)
Definition gradient_scalarint (c1 : F) (self : Tensor F) (unit_size : option F)
  (dim_ : option Z) (edge_order : Z) : outcome (list (Tensor F)) :=
  let processed_dim := gradient_dim_preprocess self dim_ in
  let spacing :=
    repeat (match unit_size with Some u => u | None => c1 end)
      (match dim_ with Some _ => 1%nat | None => Z.to_nat (dim self) end) in
  pre_check_gradient self
    (match unit_size with
     | Some _ => Some (Z.of_nat (List.length spacing))
     | None => None
     end)
    (match dim_ with Some _ => Some processed_dim | None => None end)
    edge_order ;;;
  gradient_helper_float self spacing processed_dim edge_order.

(** [gradient(self, IntArrayRef dim, edge_order)] *)
Definition gradient_array (c1 : F) (self : Tensor F) (dims : list Z) (edge_order : Z)
  : outcome (list (Tensor F)) :=
  let spacing := repeat c1 (List.length dims) in
  pre_check_gradient self (Some (Z.of_nat (List.length spacing))) (Some dims) edge_order ;;;
  gradient_helper_float self spacing dims edge_order.
End Gradient.

(** The natural number [k] in the element type: [1 + ... + 1]. *)
Fixpoint of_nat_in {F} (zero one : F) (add : F -> F -> F) (k : nat) : F :=
  match k with
  | O => zero
  | S k' => add one (of_nat_in zero one add k')
  end.

(** The inputs that [pre_check_gradient] accepts. *)
Definition gradient_accepts {V} (self : Tensor V) (spacing_size : option Z)
  (dim_ : option (list Z)) (edge_order : Z) : Prop :=
  scalar_type self <> kByte
  /\ (edge_order = 1 \/ edge_order = 2)
  /\ match dim_ with
     | None =>
         match spacing_size with
         | Some sz => sz = 1 \/ sz = dim self
         | None => True
         end
         /\ Forall (fun s => edge_order + 1 <= s) (sizes self)
     | Some dims =>
         match spacing_size with
         | Some sz => sz = Z.of_nat (List.length dims)
         | None => True
         end
         /\ (dims <> [] -> 1 <= dim self)
         /\ exists mask,
              Forall2 (fun d m => maybe_wrap_dim d (dim self) = Ok m) dims mask
              /\ NoDup mask
              /\ Forall (fun m => edge_order + 1 <= size self m) mask
     end.

(** The lanes of a tensor along a dimension, given by their elements:
    element [i] of lane [j] is [g j i]. *)
Definition lanes_fn (F : Type) (zero : F) (shape : list Z) (d : Z) (m : nat)
  (t : Tensor F) (g : nat -> nat -> F) : Prop :=
  lanes_are zero shape d m t (fun j => map (g j) (seq 0 m)).

(** ** squeeze_multiple *)

(** Modelled from the spec: [t.squeeze(dim)] (TensorShape.cpp, not under
    src/): the dimension is wrapped; a dimension of size 1 is removed, any
    other dimension, and a tensor of rank 0, is left as it is. *)
Definition at_squeeze {A} (t : Tensor A) (d : Z) : outcome (Tensor A) :=
  d' <- maybe_wrap_dim d (dim t) ;;
  Ok (if (dim t =? 0) || negb (size t d' =? 1) then t
      else mkTensor (drop_dim (sizes t) d') (options t) (data t)).

(** [dims_to_squeeze[i]]: the bit of dimension [i]. *)
Definition bitset_test (mask : list Z) (i : Z) : bool := existsb (Z.eqb i) mask.

Definition squeeze_multiple {A} (self : Tensor A) (dims : list Z) : outcome (Tensor A) :=
  let ndims := dim self in
  dims_to_squeeze <- dim_list_to_bitset dims ndims ;;
  fold_left
    (fun (acc : outcome (Tensor A)) i =>
       result <- acc ;;
       if bitset_test dims_to_squeeze i then at_squeeze result i else Ok result)
    (rev (irange ndims)) (Ok self).

(** The sizes of a shape at the dimensions, counted from [i], that are not
    in [mask]. *)
Fixpoint sizes_outside (shape : list Z) (mask : list Z) (i : Z) : list Z :=
  match shape with
  | [] => []
  | s :: rest =>
      if bitset_test mask i then sizes_outside rest mask (i + 1)
      else s :: sizes_outside rest mask (i + 1)
  end.

(** * Properties *)

(** ** Basic facts *)

Lemma ScalarType_eqb_spec a b : reflect (a = b) (ScalarType_eqb a b).
Proof. destruct a, b; constructor; congruence. Qed.

Lemma ScalarType_eqb_refl a : ScalarType_eqb a a = true.
Proof. now destruct a. Qed.

Lemma DeviceType_eqb_refl a : DeviceType_eqb a a = true.
Proof. now destruct a. Qed.

Lemma list_Z_eqb_refl l : list_Z_eqb l l = true.
Proof.
  unfold list_Z_eqb. rewrite Nat.eqb_refl. simpl.
  induction l as [|x l IH]; simpl; [reflexivity|].
  now rewrite Z.eqb_refl, IH.
Qed.

Lemma integral_not_complex t : isIntegralType t true = true -> isComplexType t = false.
Proof. now destruct t. Qed.

Lemma bind_ok {A B} (m : outcome A) (k : A -> outcome B) b :
  bind m k = Ok b -> exists a, m = Ok a /\ k a = Ok b.
Proof. destruct m as [a|e]; simpl; [eauto | discriminate]. Qed.

(** [maybe_wrap_dim] succeeds exactly on the indices of the range, and then
    returns the index counted from the front. *)
Lemma maybe_wrap_dim_ok d r :
  - Z.max 1 r <= d < Z.max 1 r ->
  maybe_wrap_dim d r = Ok (if d <? 0 then d + Z.max 1 r else d).
Proof.
  intros H. unfold maybe_wrap_dim.
  assert (Hn : (if r <=? 0 then 1 else r) = Z.max 1 r) by (destruct (Z.leb_spec r 0); lia).
  rewrite Hn.
  replace ((- Z.max 1 r <=? d) && (d <=? Z.max 1 r - 1)) with true
    by (symmetry; apply andb_true_iff; split; apply Z.leb_le; lia).
  reflexivity.
Qed.

Lemma maybe_wrap_dim_raise d r :
  ~ (- Z.max 1 r <= d < Z.max 1 r) ->
  maybe_wrap_dim d r = Raise (IndexError "Dimension out of range").
Proof.
  intros H. unfold maybe_wrap_dim.
  assert (Hn : (if r <=? 0 then 1 else r) = Z.max 1 r) by (destruct (Z.leb_spec r 0); lia).
  rewrite Hn.
  replace ((- Z.max 1 r <=? d) && (d <=? Z.max 1 r - 1)) with false; [reflexivity|].
  symmetry. apply andb_false_iff.
  destruct (Z.leb_spec (- Z.max 1 r) d); [right | left; reflexivity].
  apply Z.leb_gt. lia.
Qed.

Lemma maybe_wrap_dim_range d r d' :
  maybe_wrap_dim d r = Ok d' -> 0 <= d' < Z.max 1 r.
Proof.
  intros H.
  destruct (Z_le_dec (- Z.max 1 r) d) as [H1|H1];
    [destruct (Z_lt_dec d (Z.max 1 r)) as [H2|H2]|].
  - rewrite maybe_wrap_dim_ok in H by lia. injection H as <-.
    destruct (Z.ltb_spec d 0); lia.
  - rewrite maybe_wrap_dim_raise in H by lia. discriminate.
  - rewrite maybe_wrap_dim_raise in H by lia. discriminate.
Qed.

(** ** argmax / argmin: when the meta function raises *)

Lemma check_argmax_argmin_iff {V} name (self : Tensor V) dim_ :
  is_ok (check_argmax_argmin name self dim_) = false <-> argmax_argmin_rejects self dim_.
Proof.
  unfold check_argmax_argmin, argmax_argmin_rejects.
  destruct dim_ as [d|].
  - cbv zeta.
    destruct (Z_le_dec (- Z.max 1 (dim self)) d) as [H1|H1];
      [destruct (Z_lt_dec d (Z.max 1 (dim self))) as [H2|H2]|].
    + rewrite maybe_wrap_dim_ok by lia. simpl. unfold zero_numel_check_dims.
      assert (Hd : 0 <= dim self) by (unfold dim; lia).
      destruct (Z.eqb_spec (dim self) 0) as [E|E].
      * assert (Hd0 : d = 0 \/ d = -1) by lia.
        replace (Z.max 1 (dim self)) with 1 in * by lia.
        destruct Hd0 as [-> | ->]; simpl; split; try discriminate;
          intros [H|[H _]]; lia.
      * destruct (Z.eqb_spec (size self (if d <? 0 then d + Z.max 1 (dim self) else d)) 0)
          as [E0|E0]; simpl; split; auto; try discriminate.
        -- intros _. right. split; [lia | exact E0].
        -- intros [H|[_ H]]; [lia | contradiction].
    + rewrite maybe_wrap_dim_raise by lia. simpl. split; auto. intros _. left. lia.
    + rewrite maybe_wrap_dim_raise by lia. simpl. split; auto. intros _. left. lia.
  - unfold TORCH_CHECK_INDEX.
    destruct (Z.eqb_spec (numel self) 0); simpl; split; auto; try discriminate.
    intros; contradiction.
Qed.

(** A single valid dimension always has a reduction shape. *)
Lemma get_reduction_shape_single {V} (self : Tensor V) d keepdim :
  - Z.max 1 (dim self) <= d < Z.max 1 (dim self) ->
  exists shape, get_reduction_shape self [d] keepdim = Ok shape.
Proof.
  intros H. unfold get_reduction_shape, make_dim_mask. simpl.
  rewrite maybe_wrap_dim_ok by exact H. simpl. eauto.
Qed.

Lemma get_reduction_shape_all {V} (self : Tensor V) keepdim :
  get_reduction_shape self [] keepdim
  = Ok (shape_from_dim_mask (sizes self) [] keepdim 0).
Proof. reflexivity. Qed.

(** C4 (amended).  [argmax] and [argmin] (called without an output tensor)
    raise exactly when (a) no dim is given and the input has no element, or
    (b) the given dim wraps to a dimension of size zero, or (c) the given dim
    is outside the range of dimensions of the input; the same holds of
    [check_argmax_argmin] alone. *)
Theorem argmax_argmin_raise_iff :
  forall (V : Type) (self : Tensor V) (dim_ : option Z) (keepdim : bool),
    (is_ok (argmax_meta None self dim_ keepdim) = false
     <-> argmax_argmin_rejects self dim_)
    /\ (is_ok (argmin_meta None self dim_ keepdim) = false
        <-> argmax_argmin_rejects self dim_)
    /\ (is_ok (check_argmax_argmin "argmax()" self dim_) = false
        <-> argmax_argmin_rejects self dim_).
Proof.
  intros V self dim_ keepdim.
  assert (Hmeta : forall name,
             is_ok (check_argmax_argmin name self dim_ ;;;
                    resize_reduction None self (optional_to_arrayref dim_) keepdim kLong)
             = is_ok (check_argmax_argmin name self dim_)).
  { intros name.
    destruct (check_argmax_argmin name self dim_) as [[]|e] eqn:E; simpl; [|reflexivity].
    unfold resize_reduction. destruct dim_ as [d|]; simpl optional_to_arrayref.
    - unfold check_argmax_argmin in E.
      destruct (maybe_wrap_dim d (dim self)) as [d'|e'] eqn:Ew; [|discriminate].
      assert (Hr : - Z.max 1 (dim self) <= d < Z.max 1 (dim self)).
      { destruct (Z_le_dec (- Z.max 1 (dim self)) d) as [H1|H1];
          [destruct (Z_lt_dec d (Z.max 1 (dim self))) as [H2|H2]|]; try lia;
          rewrite maybe_wrap_dim_raise in Ew by lia; discriminate. }
      destruct (get_reduction_shape_single self d keepdim Hr) as [shape ->].
      reflexivity.
    - rewrite get_reduction_shape_all. reflexivity. }
  unfold argmax_meta, argmin_meta. rewrite !Hmeta.
  repeat split; try apply check_argmax_argmin_iff;
    intros H; apply (check_argmax_argmin_iff _ self dim_); exact H.
Qed.

(** C4, the claim as stated fails: on a 2x3 input with [dim = 5], [argmax]
    raises although the input has elements and no dimension of size zero is
    reduced. *)
Lemma argmax_out_of_range_dim_raises :
  let self := mkTensor [2; 3] (mkOptions kLong kCPU Strided) [1; 2; 3; 4; 5; 6] in
  argmax_meta None self (Some 5) false = Raise (IndexError "Dimension out of range")
  /\ check_argmax_argmin "argmax()" self (Some 5)
     = Raise (IndexError "Dimension out of range")
  /\ ~ argmax_argmin_rejects_listed self (Some 5).
Proof.
  cbv zeta. repeat split; try reflexivity.
  intros [d' [H _]]. discriminate H.
Qed.

(** ** all / any: dtype of the result *)

(** C8.  Without an output tensor the result of [all] and [any] has dtype
    [kByte] for a [kByte] input and [kBool] otherwise; an output tensor is
    accepted only with dtype [kBool] or [kByte] (and then gives its dtype to
    the result), any other is rejected with an error. *)
Theorem allany_meta_dtype :
  forall (V : Type) (name : string) (self : Tensor V) (dims : list Z) (keepdim : bool),
    (allany_meta None name self dims keepdim
     = (shape <- get_reduction_shape self dims keepdim ;;
        Ok (shape, with_dtype (options self)
                     (if ScalarType_eqb (scalar_type self) kByte then kByte else kBool))))
    /\ (forall (r : Tensor V) (o : OutSpec),
          allany_meta (Some r) name self dims keepdim = Ok o ->
          (scalar_type r = kBool \/ scalar_type r = kByte)
          /\ dtype (snd o) = scalar_type r)
    /\ (forall r : Tensor V,
          scalar_type r <> kBool -> scalar_type r <> kByte ->
          allany_meta (Some r) name self dims keepdim
          = Raise (Error_ (name ++ " only supports bool tensor for result")%string)).
Proof.
  intros V name self dims keepdim. split; [|split].
  - unfold allany_meta, resize_reduction, set_output. simpl.
    destruct (get_reduction_shape self dims keepdim); reflexivity.
  - intros r o H. unfold allany_meta, check_result_is_bytebool in H.
    destruct (ScalarType_eqb_spec (scalar_type r) kBool) as [Eb|Eb];
      destruct (ScalarType_eqb_spec (scalar_type r) kByte) as [Ey|Ey];
      simpl in H; try discriminate H.
    all: (split; [auto|]).
    all: unfold resize_reduction in H; apply bind_ok in H; destruct H as [shape [_ H]].
    all: unfold set_output in H.
    all: repeat (apply bind_ok in H; destruct H as [? [_ H]]).
    all: injection H as <-; reflexivity.
  - intros r Hb Hy. unfold allany_meta, check_result_is_bytebool.
    destruct (ScalarType_eqb_spec (scalar_type r) kBool); [contradiction|].
    destruct (ScalarType_eqb_spec (scalar_type r) kByte); [contradiction|].
    reflexivity.
Qed.

(** At concrete tensors: a [kByte] output on a [kFloat] input is accepted, a
    [kLong] output is rejected. *)
Lemma allany_meta_dtype_witness :
  let self := mkTensor [2] (mkOptions kFloat kCPU Strided) [1; 0] in
  let r := mkTensor [] (mkOptions kByte kCPU Strided) [0] in
  let bad := mkTensor [] (mkOptions kLong kCPU Strided) [0] in
  allany_meta (Some r) "all" self [] false
  = Ok (([], mkOptions kByte kCPU Strided) : OutSpec)
  /\ ((scalar_type r = kBool \/ scalar_type r = kByte)
      /\ dtype (snd (([], mkOptions kByte kCPU Strided) : OutSpec)) = scalar_type r)
  /\ allany_meta (Some bad) "all" self [] false
     = Raise (Error_ "all only supports bool tensor for result").
Proof.
  cbv zeta.
  pose proof (allany_meta_dtype Z "all"
                (mkTensor [2] (mkOptions kFloat kCPU Strided) [1; 0]) [] false)
    as [_ [Hacc Hrej]].
  split; [reflexivity|]. split.
  - apply (Hacc (mkTensor [] (mkOptions kByte kCPU Strided) [0])). reflexivity.
  - apply (Hrej (mkTensor [] (mkOptions kLong kCPU Strided) [0])); discriminate.
Defined.

(** ** sum / nansum *)

Section SumProperties.
Variable uninitialized : Scalar.
Variable sum_stub nansum_stub : DeviceType -> TensorIterator -> TensorS.

Lemma nansum_out_complex self dims keepdim opt_dtype result :
  isComplexType (scalar_type self) = true ->
  nansum_out uninitialized sum_stub nansum_stub self dims keepdim opt_dtype result
  = Raise (Error_ "nansum does not support complex inputs").
Proof. intros H. unfold nansum_out. rewrite H. reflexivity. Qed.

(** C7 (amended).  [nansum], unlike [sum], rejects complex input.  On every
    complex-dtype tensor [nansum_out] (any output tensor, dimensions, keepdim
    and dtype) and [nansum] over all elements raise "nansum does not support
    complex inputs"; [nansum] over listed dimensions returns no result
    either: it raises the same error when the dimensions are valid, and the
    error of the dimensions otherwise.  [sum] over all elements of the same
    tensor succeeds. *)
Theorem nansum_complex_raises :
  forall (self : TensorS) (dims : list Z) (keepdim : bool)
         (opt_dtype : option ScalarType) (result : TensorS),
    isComplexType (scalar_type self) = true ->
    nansum_out uninitialized sum_stub nansum_stub self dims keepdim opt_dtype result
    = Raise (Error_ "nansum does not support complex inputs")
    /\ nansum_all uninitialized sum_stub nansum_stub self opt_dtype
       = Raise (Error_ "nansum does not support complex inputs")
    /\ is_ok (nansum uninitialized sum_stub nansum_stub self dims keepdim opt_dtype)
       = false
    /\ (is_ok (get_reduction_shape self dims keepdim) = true ->
        nansum uninitialized sum_stub nansum_stub self dims keepdim opt_dtype
        = Raise (Error_ "nansum does not support complex inputs"))
    /\ is_ok (sum uninitialized sum_stub self opt_dtype) = true.
Proof.
  intros self dims keepdim opt_dtype result H.
  assert (Hfun : forall ds kd,
             is_ok (get_reduction_shape self ds kd) = true ->
             nansum uninitialized sum_stub nansum_stub self ds kd opt_dtype
             = Raise (Error_ "nansum does not support complex inputs")).
  { intros ds kd Hok. unfold nansum, create_reduction_result.
    destruct (get_reduction_shape self ds kd) as [shape|e]; [|discriminate Hok].
    cbn [bind]. now rewrite nansum_out_complex. }
  split; [now apply nansum_out_complex|].
  split; [apply Hfun; now rewrite get_reduction_shape_all|].
  split; [|split].
  - unfold nansum.
    destruct (create_reduction_result uninitialized self dims keepdim
                (get_dtype_from_self self opt_dtype true)) as [r|e]; simpl;
      [|reflexivity].
    now rewrite nansum_out_complex.
  - apply Hfun.
  - unfold sum, at_sum, sum_dim_IntList_meta, resize_reduction.
    rewrite get_reduction_shape_all. reflexivity.
Qed.

(** C9.  On an input of integral or boolean dtype [nansum] is [sum] with
    the same arguments, through both entry points. *)
Theorem nansum_integral_is_sum :
  forall (self : TensorS) (dims : list Z) (keepdim : bool)
         (opt_dtype : option ScalarType),
    isIntegralType (scalar_type self) true = true ->
    nansum uninitialized sum_stub nansum_stub self dims keepdim opt_dtype
    = at_sum uninitialized sum_stub self dims keepdim opt_dtype
    /\ nansum_all uninitialized sum_stub nansum_stub self opt_dtype
       = sum uninitialized sum_stub self opt_dtype
    /\ (forall result : TensorS,
          nansum_out uninitialized sum_stub nansum_stub self dims keepdim opt_dtype result
          = at_sum_out sum_stub result self dims keepdim opt_dtype).
Proof.
  intros self dims keepdim opt_dtype Hint.
  assert (Hout : forall dims keepdim opt_dtype result,
             nansum_out uninitialized sum_stub nansum_stub self dims keepdim opt_dtype result
             = at_sum_out sum_stub result self dims keepdim opt_dtype).
  { intros. unfold nansum_out.
    rewrite (integral_not_complex _ Hint), Hint. reflexivity. }
  assert (Hfun : forall dims keepdim,
             nansum uninitialized sum_stub nansum_stub self dims keepdim opt_dtype
             = at_sum uninitialized sum_stub self dims keepdim opt_dtype).
  { intros ds kd. unfold nansum, create_reduction_result.
    unfold at_sum, sum_dim_IntList_meta, resize_reduction. simpl infer_dtype_from_optional.
    destruct (get_reduction_shape self ds kd) as [shape|e] eqn:E; simpl;
      [|reflexivity].
    rewrite Hout. unfold at_sum_out, sum_dim_IntList_meta, resize_reduction.
    rewrite E. simpl. unfold scalar_type at 1. simpl.
    rewrite ScalarType_eqb_refl, DeviceType_eqb_refl, list_Z_eqb_refl. simpl.
    reflexivity. }
  split; [apply Hfun | split; [apply Hfun | intros; apply Hout]].
Qed.
End SumProperties.

(** At a tensor of two complex numbers. *)
Lemma nansum_complex_raises_witness :
  let self := mkTensor [2] (mkOptions kComplexDouble kCPU Strided)
                [SComplex (d_of_int64 1) (d_of_int64 2); SComplex d_nan d_zero] in
  let result := mkTensor [] (mkOptions kComplexDouble kCPU Strided) [SInt 0] in
  isComplexType (scalar_type self) = true
  /\ nansum_out (SInt 0) idle_kernel idle_kernel self [0] true None result
     = Raise (Error_ "nansum does not support complex inputs")
  /\ nansum_all (SInt 0) idle_kernel idle_kernel self None
     = Raise (Error_ "nansum does not support complex inputs")
  /\ is_ok (nansum (SInt 0) idle_kernel idle_kernel self [0] true None) = false
  /\ (is_ok (get_reduction_shape self [0] true) = true ->
      nansum (SInt 0) idle_kernel idle_kernel self [0] true None
      = Raise (Error_ "nansum does not support complex inputs"))
  /\ is_ok (sum (SInt 0) idle_kernel self None) = true.
Proof.
  cbv zeta. split; [reflexivity|].
  apply (nansum_complex_raises (SInt 0) idle_kernel idle_kernel). reflexivity.
Defined.

(** C7, the claim as stated fails: [nansum] of a complex tensor raises. *)
Lemma nansum_complex_counterexample :
  let self := mkTensor [2] (mkOptions kComplexDouble kCPU Strided)
                [SComplex (d_of_int64 1) (d_of_int64 2); SComplex d_nan d_zero] in
  isComplexType (scalar_type self) = true
  /\ nansum (SInt 0) idle_kernel idle_kernel self [] false None
     = Raise (Error_ "nansum does not support complex inputs")
  /\ nansum_all (SInt 0) idle_kernel idle_kernel self None
     = Raise (Error_ "nansum does not support complex inputs").
Proof. cbv zeta. repeat split. Qed.

(** At a tensor of three integers. *)
Lemma nansum_integral_is_sum_witness :
  let self := mkTensor [3] (mkOptions kInt kCPU Strided) [SInt 1; SInt 2; SInt 3] in
  isIntegralType (scalar_type self) true = true
  /\ nansum (SInt 0) idle_kernel idle_kernel self [0] false None
     = at_sum (SInt 0) idle_kernel self [0] false None.
Proof.
  cbv zeta. split; [reflexivity|].
  apply (nansum_integral_is_sum (SInt 0) idle_kernel idle_kernel). reflexivity.
Defined.

(** ** all / any: empty and one-element inputs *)

Lemma well_formed_one {V} (t : Tensor V) :
  numel t = 1 -> well_formed t -> exists x, data t = [x].
Proof.
  unfold well_formed. intros -> H.
  destruct (data t) as [|x [|y l]]; simpl in H; try discriminate. eauto.
Qed.

Lemma fill_data_Forall {V} (t : Tensor V) (v : V) :
  Forall (fun x => x = v) (data (fill_ t v)).
Proof. unfold fill_. simpl. apply Forall_forall. intros x Hx.
  apply in_map_iff in Hx. destruct Hx as [? [? _]]. congruence. Qed.

(** C5.  On an input without elements [all] fills its output with 1 (true)
    and [any] with 0 (false); on an input of one element both fill it with the
    boolean value of that element.  Neither case reaches the kernel, whatever
    it is, so no iteration plan is built. *)
Theorem allany_empty_and_single :
  forall (and_stub or_stub stub : DeviceType -> TensorIterator -> TensorS)
         (identity : Z) (self result : TensorS) (d : Z) (dims : list Z) (keepdim : bool),
    (numel self = 0 ->
       all_all_out and_stub self result = Ok (fill_ result (SInt 1))
       /\ any_all_out or_stub self result = Ok (fill_ result (SInt 0))
       /\ all_out and_stub self d keepdim result = Ok (fill_ result (SInt 1))
       /\ any_out or_stub self d keepdim result = Ok (fill_ result (SInt 0))
       /\ allany_impl identity self result dims keepdim stub
          = Ok (fill_ result (SInt identity))
       /\ toBool (SInt 1) = true /\ toBool (SInt 0) = false)
    /\ (numel self = 1 -> well_formed self ->
        exists x, data self = [x]
          /\ all_all_out and_stub self result = Ok (fill_ result (SBool (toBool x)))
          /\ any_all_out or_stub self result = Ok (fill_ result (SBool (toBool x)))
          /\ all_out and_stub self d keepdim result = Ok (fill_ result (SBool (toBool x)))
          /\ any_out or_stub self d keepdim result = Ok (fill_ result (SBool (toBool x)))
          /\ allany_impl identity self result dims keepdim stub
             = Ok (fill_ result (SBool (toBool x)))).
Proof.
  intros and_stub or_stub stub identity self result d dims keepdim. split.
  - intros H0. unfold all_all_out, any_all_out, all_out, any_out, allany_impl.
    rewrite H0. simpl. repeat split; reflexivity.
  - intros H1 Hwf. destruct (well_formed_one self H1 Hwf) as [x Hx].
    exists x. unfold all_all_out, any_all_out, all_out, any_out, allany_impl, item.
    rewrite H1, Hx. simpl. repeat split; reflexivity.
Qed.

(** At an empty tensor and at the one-element tensor [0.0]. *)
Lemma allany_empty_and_single_witness :
  let e := mkTensor [0] (mkOptions kFloat kCPU Strided) (@nil Scalar) in
  let s := mkTensor [1] (mkOptions kFloat kCPU Strided) [SDouble d_zero] in
  let r := mkTensor [] (mkOptions kBool kCPU Strided) [SBool false] in
  (numel e = 0
   /\ data (fill_ r (SInt 1)) = [SInt 1]
   /\ all_all_out idle_kernel e r = Ok (fill_ r (SInt 1))
   /\ any_all_out idle_kernel e r = Ok (fill_ r (SInt 0)))
  /\ (numel s = 1 /\ well_formed s
      /\ exists x, data s = [x]
           /\ all_all_out idle_kernel s r = Ok (fill_ r (SBool (toBool x)))
           /\ any_all_out idle_kernel s r = Ok (fill_ r (SBool (toBool x)))).
Proof.
  cbv zeta. split.
  - destruct (allany_empty_and_single idle_kernel idle_kernel idle_kernel 1
                (mkTensor [0] (mkOptions kFloat kCPU Strided) (@nil Scalar))
                (mkTensor [] (mkOptions kBool kCPU Strided) [SBool false])
                0 [] false) as [H _].
    destruct (H eq_refl) as (Ha & Hb & _).
    repeat split; assumption.
  - destruct (allany_empty_and_single idle_kernel idle_kernel idle_kernel 1
                (mkTensor [1] (mkOptions kFloat kCPU Strided) [SDouble d_zero])
                (mkTensor [] (mkOptions kBool kCPU Strided) [SBool false])
                0 [] false) as [_ H].
    destruct (H eq_refl eq_refl) as (x & Hx & Ha & Hb & _).
    split; [reflexivity|]. split; [reflexivity|].
    exists x. repeat split; assumption.
Defined.

(** ** cumsum / cumprod: scalar and empty inputs *)

(** C6 (amended).  [cumsum] and [cumprod] write the element of a rank-0
    input into the output converted to the dtype of the output, which for the
    operators called without an output is the [dtype] argument and, without
    one, the dtype of the input ([int64] for an input of integers or
    booleans); so the output equals the input when that conversion leaves the
    element as it is.  They fill the output with zeros for an input of rank
    at least 1 without elements; [cumprod] does the same as [cumsum] in both
    cases.  This holds of the implementation functions on an output tensor
    (of the shape of the input, for a rank-0 input) and of the two operators
    called without one, with a [dim] in range. *)
Theorem cum_ops_scalar_and_empty :
  forall (uninitialized : Scalar) (convert : ScalarType -> Scalar -> Scalar)
         (cumsum_stub cumprod_stub : DeviceType -> TensorS -> TensorS -> Z -> TensorS)
         (self result : TensorS) (d : Z) (dtype : option ScalarType),
    (dim self = 0 -> well_formed self ->
     exists x,
       data self = [x]
       /\ (well_formed result -> sizes result = sizes self ->
           let out :=
             mkTensor [] (options result) [convert (scalar_type result) x] in
           cumsum_out convert cumsum_stub self d dtype result = Ok out
           /\ cumprod_out convert cumprod_stub self d dtype result = Ok out
           /\ (convert (scalar_type result) x = x ->
               sizes out = sizes self /\ data out = data self))
       /\ (-1 <= d <= 0 ->
           let out_dtype :=
             value_or dtype
               (if isIntegralType (scalar_type self) true then kLong
                else scalar_type self) in
           let out :=
             mkTensor [] (with_dtype (options self) out_dtype) [convert out_dtype x] in
           at_cumsum uninitialized convert cumsum_stub self d dtype = Ok out
           /\ at_cumprod uninitialized convert cumprod_stub self d dtype = Ok out
           /\ (convert out_dtype x = x ->
               sizes out = sizes self /\ data out = data self)))
    /\ (0 < dim self -> numel self = 0 ->
        cumsum_out convert cumsum_stub self d dtype result = Ok (zero_ result)
        /\ cumprod_out convert cumprod_stub self d dtype result = Ok (zero_ result)
        /\ Forall (fun x => x = SInt 0) (data (zero_ result))
        /\ (- dim self <= d < dim self ->
            exists out,
              at_cumsum uninitialized convert cumsum_stub self d dtype = Ok out
              /\ at_cumprod uninitialized convert cumprod_stub self d dtype = Ok out
              /\ sizes out = sizes self
              /\ Forall (fun x => x = SInt 0) (data out))).
Proof.
  intros uninitialized convert cumsum_stub cumprod_stub self result d dtype. split.
  - intros Hd Hwf.
    assert (Hsz : sizes self = []).
    { unfold dim in Hd. destruct (sizes self); [reflexivity | simpl in Hd; lia]. }
    assert (Hn : numel self = 1) by (unfold numel; rewrite Hsz; reflexivity).
    destruct (well_formed_one self Hn Hwf) as [x Hx].
    exists x. split; [exact Hx|]. split.
    + intros Hwr Hs. cbv zeta.
      assert (Hnr : numel result = 1) by (unfold numel; rewrite Hs, Hsz; reflexivity).
      destruct (well_formed_one result Hnr Hwr) as [y Hy].
      assert (Hfill : fill_tensor_ convert result self
                      = Ok (mkTensor [] (options result)
                              [convert (scalar_type result) x])).
      { unfold fill_tensor_, item. rewrite Hd, Hx. simpl.
        unfold fill_. rewrite Hy, Hs, Hsz. reflexivity. }
      unfold cumsum_out, cumprod_out, impl_func_cum_ops.
      rewrite Hd. simpl. rewrite Hfill.
      split; [reflexivity|]. split; [reflexivity|].
      intros Hc. cbn [sizes data]. rewrite Hc, Hsz, Hx. split; reflexivity.
    + intros Hrange. cbv zeta.
      unfold at_cumsum, at_cumprod, meta_func_cum_ops.
      rewrite Hd, (maybe_wrap_dim_ok d 0) by (simpl; lia).
      cbn [bind set_output fst snd].
      unfold cumsum_out, cumprod_out, impl_func_cum_ops, fill_tensor_, item.
      rewrite Hd, Hx, Hsz. simpl.
      split; [reflexivity|]. split; [reflexivity|].
      intros Hc. rewrite Hc. split; reflexivity.
  - intros Hd Hn. unfold cumsum_out, cumprod_out, impl_func_cum_ops.
    rewrite Hn. destruct (Z.eqb_spec (dim self) 0); [lia|]. simpl.
    repeat split; try apply fill_data_Forall.
    intros Hrange.
    eexists. unfold at_cumsum, at_cumprod, meta_func_cum_ops.
    rewrite (maybe_wrap_dim_ok d (dim self)) by lia.
    cbn [bind set_output fst snd].
    unfold cumsum_out, cumprod_out, impl_func_cum_ops.
    rewrite Hn. destruct (Z.eqb_spec (dim self) 0); [lia|]. simpl.
    repeat split. apply fill_data_Forall.
Qed.

(** At the scalar tensor [7] of integers, where [cumsum] without a [dtype]
    gives the scalar [7] of dtype [int64], and at a tensor of shape
    [0 x 3]. *)
Lemma cum_ops_scalar_and_empty_witness :
  let s := mkTensor [] (mkOptions kInt kCPU Strided) [SInt 7] in
  let e := mkTensor [0; 3] (mkOptions kLong kCPU Strided) (@nil Scalar) in
  (at_cumsum (SInt 0) scalar_cast idle_cum_kernel s 0 None
   = Ok (mkTensor [] (mkOptions kLong kCPU Strided) [SInt 7])
   /\ at_cumprod (SInt 0) scalar_cast idle_cum_kernel s 0 None
      = Ok (mkTensor [] (mkOptions kLong kCPU Strided) [SInt 7]))
  /\ cumprod_out scalar_cast idle_cum_kernel e 1 None e = Ok (zero_ e).
Proof.
  cbv zeta. split.
  - destruct (cum_ops_scalar_and_empty (SInt 0) scalar_cast idle_cum_kernel
                idle_cum_kernel
                (mkTensor [] (mkOptions kInt kCPU Strided) [SInt 7])
                (mkTensor [] (mkOptions kInt kCPU Strided) [SInt 0]) 0 None)
      as [H _].
    destruct (H eq_refl eq_refl) as (x & Hx & _ & H2).
    injection Hx as <-.
    destruct (H2 ltac:(lia)) as (Hs & Hp & _).
    split; [exact Hs | exact Hp].
  - destruct (cum_ops_scalar_and_empty (SInt 0) scalar_cast idle_cum_kernel
                idle_cum_kernel
                (mkTensor [0; 3] (mkOptions kLong kCPU Strided) (@nil Scalar))
                (mkTensor [0; 3] (mkOptions kLong kCPU Strided) (@nil Scalar)) 1 None)
      as [_ H].
    destruct (H eq_refl eq_refl) as (_ & H2 & _).
    exact H2.
Defined.

(** C6, the claim as stated fails: [cumsum] of the rank-0 tensor [1.5] of
    doubles with [dtype = int64] is the rank-0 tensor [1] of dtype [int64],
    which is not equal to the input, and so is its [cumprod]. *)
Lemma cumsum_scalar_dtype_counterexample :
  let one_and_a_half := binary_normalize 53 1024 3 (-1) false in
  let self := mkTensor [] (mkOptions kDouble kCPU Strided) [SDouble one_and_a_half] in
  dim self = 0
  /\ at_cumsum (SInt 0) scalar_cast idle_cum_kernel self 0 (Some kLong)
     = Ok (mkTensor [] (mkOptions kLong kCPU Strided) [SInt 1])
  /\ at_cumprod (SInt 0) scalar_cast idle_cum_kernel self 0 (Some kLong)
     = Ok (mkTensor [] (mkOptions kLong kCPU Strided) [SInt 1])
  /\ [SInt 1] <> data self.
Proof.
  cbv zeta. split; [reflexivity|]. split; [vm_compute; reflexivity|].
  split; [vm_compute; reflexivity | discriminate].
Qed.

(** ** cumprod_backward: the early returns *)

Lemma cumprod_backward_early
  (F : Type) (zero one : F) (add mul div : F -> F -> F) (conj : F -> F)
  (eqb : F -> F -> bool) (grad_mode : bool) (grad input output : Tensor F) (dim_ : Z) :
  numel input <= 1
  \/ (exists d, maybe_wrap_dim dim_ (dim input) = Ok d /\ size input d = 1) ->
  cumprod_backward F zero one add mul div conj eqb grad_mode grad input dim_ output
  = Ok grad.
Proof.
  intros H. unfold cumprod_backward.
  destruct (Z.leb_spec (numel input) 1) as [Hn|Hn]; [reflexivity|].
  destruct H as [H | [d [Hw Hs]]]; [lia|].
  rewrite Hw. simpl. rewrite Hs. reflexivity.
Qed.

(** C10.  [cumprod_backward] returns [grad] itself when the input has at most
    one element, and when the dimension wraps to one of size 1, whatever the
    elements of the input and whatever the gradient mode. *)
Theorem cumprod_backward_returns_grad :
  forall (F : Type) (zero one : F) (add mul div : F -> F -> F) (conj : F -> F)
         (eqb : F -> F -> bool) (grad_mode : bool)
         (grad input output : Tensor F) (dim_ : Z),
    numel input <= 1
    \/ (exists d, maybe_wrap_dim dim_ (dim input) = Ok d /\ size input d = 1) ->
    cumprod_backward F zero one add mul div conj eqb grad_mode grad input dim_ output
    = Ok grad.
Proof. intros. now apply cumprod_backward_early. Qed.

(** At a 1x3 input with zeros, along dimension 0 and with gradient mode on. *)
Lemma cumprod_backward_returns_grad_witness :
  let opts := mkOptions kLong kCPU Strided in
  let input := mkTensor [1; 3] opts [0; 5; 0] in
  let grad := mkTensor [1; 3] opts [1; 2; 3] in
  (exists d, maybe_wrap_dim (-2) (dim input) = Ok d /\ size input d = 1)
  /\ cumprod_backward Z 0 1 Z.add Z.mul Z.div (fun x => x) Z.eqb true grad input (-2) input
     = Ok grad.
Proof.
  cbv zeta.
  assert (H : exists d,
             maybe_wrap_dim (-2)
               (dim (mkTensor [1; 3] (mkOptions kLong kCPU Strided) [0; 5; 0])) = Ok d
             /\ size (mkTensor [1; 3] (mkOptions kLong kCPU Strided) [0; 5; 0]) d = 1)
    by (exists 0; split; reflexivity).
  split; [exact H|].
  apply cumprod_backward_returns_grad. right. exact H.
Defined.

(** ** cummax / cummin: which index is recorded *)

Lemma irange_succ k : 0 <= k -> irange (k + 1) = irange k ++ [k].
Proof.
  intros Hk. unfold irange.
  replace (Z.to_nat (k + 1)) with (S (Z.to_nat k)) by lia.
  rewrite seq_S, map_app. simpl. now rewrite Z2Nat.id.
Qed.

Lemma irange_length n : List.length (irange n) = Z.to_nat n.
Proof. unfold irange. now rewrite length_map, length_seq. Qed.

Lemma nth_map_irange {A} (f : Z -> A) n i d :
  (i < Z.to_nat n)%nat -> nth i (map f (irange n)) d = f (Z.of_nat i).
Proof.
  intros Hi. unfold irange. rewrite map_map.
  rewrite nth_indep with (d' := f (Z.of_nat 0))
    by (now rewrite length_map, length_seq).
  rewrite (map_nth (fun x => f (Z.of_nat x)) (seq 0 (Z.to_nat n)) 0%nat i).
  now rewrite seq_nth.
Qed.

Section CumMaxMinProperties.
Context {T1 : Type}.
Variable isnan_ : T1 -> bool.
Variable op : T1 -> T1 -> bool.
(** [>=] and [<=] hold between a number and itself. *)
Hypothesis op_refl : forall x, isnan_ x = false -> op x x = true.

Variable self_data : Z -> T1.
Variable values_data0 : Z -> T1.
Variable indices_data0 : Z -> Z.
Variable self_stride values_stride indices_stride : Z.

Let run := cummax_cummin_run isnan_ op self_data values_data0 indices_data0
             self_stride values_stride indices_stride.
Let body := cummax_cummin_body isnan_ op self_data
              self_stride values_stride indices_stride.

Lemma run_succ k : 0 <= k -> run (k + 1) = body (run k) k.
Proof.
  intros Hk. unfold run, cummax_cummin_run.
  now rewrite irange_succ, fold_left_app.
Qed.

(** The element at the current index replaces the running extremum when it
    is a NaN, and when it compares [op] to a running extremum that is not. *)
Lemma body_taken st i :
  let curr := self_data (i * self_stride) in
  isnan_ curr || (negb (isnan_ (out st)) && op curr (out st)) = true ->
  out (body st i) = curr /\ idx (body st i) = i.
Proof. cbv zeta. intros H. unfold body, cummax_cummin_body. simpl. now rewrite H. Qed.

Lemma body_kept st i :
  let curr := self_data (i * self_stride) in
  isnan_ curr || (negb (isnan_ (out st)) && op curr (out st)) = false ->
  out (body st i) = out st /\ idx (body st i) = idx st /\ curr <> out st.
Proof.
  cbv zeta. intros H. unfold body, cummax_cummin_body. simpl. rewrite H.
  repeat split. intros E. rewrite <- E in H.
  apply orb_false_iff in H. destruct H as [Hn H].
  rewrite Hn, (op_refl _ Hn) in H. discriminate.
Qed.

(** After iteration [k] the recorded index is the last position up to [k]
    that holds the running extremum. *)
Lemma run_last_position (k : nat) :
  let st := run (Z.of_nat k + 1) in
  0 <= idx st <= Z.of_nat k
  /\ self_data (idx st * self_stride) = out st
  /\ forall j, idx st < j <= Z.of_nat k -> self_data (j * self_stride) <> out st.
Proof.
  cbv zeta. induction k as [|k IH].
  - change (Z.of_nat 0 + 1) with (0 + 1). rewrite (run_succ 0) by lia.
    assert (H0 : out (run 0) = self_data (0 * self_stride)) by reflexivity.
    destruct (isnan_ (self_data (0 * self_stride))
              || (negb (isnan_ (out (run 0))) && op (self_data (0 * self_stride)) (out (run 0))))
      eqn:E.
    + destruct (body_taken _ _ E) as [Ho Hi]. rewrite Ho, Hi.
      split; [simpl; lia | split; [reflexivity | intros j Hj; simpl in Hj; lia]].
    + destruct (body_kept _ _ E) as (_ & _ & Hne). now rewrite H0 in Hne.
  - replace (Z.of_nat (S k)) with (Z.of_nat k + 1) by lia.
    rewrite (run_succ (Z.of_nat k + 1)) by lia.
    destruct IH as (Hr & Hs & Hl).
    set (st := run (Z.of_nat k + 1)) in *.
    destruct (isnan_ (self_data ((Z.of_nat k + 1) * self_stride))
              || (negb (isnan_ (out st)) && op (self_data ((Z.of_nat k + 1) * self_stride)) (out st)))
      eqn:E.
    + destruct (body_taken _ _ E) as [Ho Hi]. rewrite Ho, Hi.
      split; [lia | split; [reflexivity | intros j Hj; lia]].
    + destruct (body_kept _ _ E) as (Ho & Hi & Hne). rewrite Ho, Hi.
      split; [lia | split; [assumption|]].
      intros j Hj. destruct (Z.eq_dec j (Z.of_nat k + 1)) as [->|Hjk];
        [exact Hne | apply Hl; lia].
Qed.

(** Iteration [i] leaves the running extremum and its index at offset [i]
    times the stride, and no later iteration overwrites them. *)
Lemma run_buffers (n : nat) i :
  0 <= i < Z.of_nat n ->
  (values_stride <> 0 ->
   values_data (run (Z.of_nat n)) (i * values_stride) = out (run (i + 1)))
  /\ (indices_stride <> 0 ->
      indices_data (run (Z.of_nat n)) (i * indices_stride) = idx (run (i + 1))).
Proof.
  induction n as [|n IH]; intros Hi; [lia|].
  replace (Z.of_nat (S n)) with (Z.of_nat n + 1) by lia.
  rewrite (run_succ (Z.of_nat n)) by lia.
  destruct (Z.eq_dec i (Z.of_nat n)) as [->|Hne].
  - rewrite (run_succ (Z.of_nat n)) by lia.
    unfold body, cummax_cummin_body, store. simpl. rewrite !Z.eqb_refl. auto.
  - destruct IH as [IHv IHi]; [lia|].
    unfold body, cummax_cummin_body, store. cbn [values_data indices_data].
    split; intros Hs.
    + destruct (Z.eqb_spec (i * values_stride) (Z.of_nat n * values_stride)) as [E|E];
        [apply Z.mul_reg_r in E; [contradiction | assumption] | now apply IHv].
    + destruct (Z.eqb_spec (i * indices_stride) (Z.of_nat n * indices_stride)) as [E|E];
        [apply Z.mul_reg_r in E; [contradiction | assumption] | now apply IHi].
Qed.
End CumMaxMinProperties.

Lemma as_memory_nth {A} (garbage : A) l (i : nat) :
  as_memory garbage l (Z.of_nat i) = nth i l garbage.
Proof.
  unfold as_memory. destruct (Z.ltb_spec (Z.of_nat i) 0); [lia|].
  now rewrite Nat2Z.id.
Qed.

(** C1 (amended).  In a cummax or cummin scan the comparison is [>=] or [<=]:
    an element equal to the running extremum does update the recorded index.
    At every position [i] the index output is the LATEST position up to [i]
    that holds the running extremum [values[i]]; in particular an element
    (not a NaN) equal to the extremum before it records its own position. *)
Theorem cummax_cummin_latest_index :
  forall (T1 : Type) (isnan_ : T1 -> bool) (op : T1 -> T1 -> bool)
         (garbage : T1) (values0 : Z -> T1) (indices0 : Z -> Z)
         (self : list T1) (i : nat),
    (forall x, isnan_ x = false -> op x x = true) ->
    (i < List.length self)%nat ->
    let values := fst (cummax_cummin_1d isnan_ op garbage values0 indices0 self) in
    let indices := snd (cummax_cummin_1d isnan_ op garbage values0 indices0 self) in
    let j := nth i indices (-1) in
    (0 <= j <= Z.of_nat i
     /\ nth (Z.to_nat j) self garbage = nth i values garbage
     /\ forall k, (Z.to_nat j < k <= i)%nat -> nth k self garbage <> nth i values garbage)
    /\ (isnan_ (nth i self garbage) = false ->
        (0 < i)%nat -> nth i self garbage = nth (i - 1) values garbage ->
        j = Z.of_nat i).
Proof.
  intros T1 isnan_ op garbage values0 indices0 self i op_refl Hi. cbv zeta.
  unfold cummax_cummin_1d, cummax_cummin_helper, read_memory. simpl fst. simpl snd.
  set (n := List.length self) in *.
  set (mem := as_memory garbage self).
  assert (HI : forall i0, (i0 < n)%nat ->
             nth i0 (map (indices_data
                         (cummax_cummin_run isnan_ op mem values0 indices0 1 1 1 (Z.of_nat n)))
                      (irange (Z.of_nat n))) (-1)
             = idx (cummax_cummin_run isnan_ op mem values0 indices0 1 1 1 (Z.of_nat i0 + 1))
             /\ nth i0 (map (values_data
                           (cummax_cummin_run isnan_ op mem values0 indices0 1 1 1 (Z.of_nat n)))
                        (irange (Z.of_nat n))) garbage
                = out (cummax_cummin_run isnan_ op mem values0 indices0 1 1 1 (Z.of_nat i0 + 1))).
  { intros i0 Hi0. rewrite !nth_map_irange by lia.
    destruct (run_buffers isnan_ op mem values0 indices0 1 1 1 n (Z.of_nat i0))
      as [Hv Hx]; [lia|].
    rewrite Z.mul_1_r in Hv, Hx. split; [apply Hx | apply Hv]; lia. }
  destruct (HI i Hi) as [-> ->].
  destruct (run_last_position isnan_ op op_refl mem values0 indices0 1 1 1 i)
    as (Hr & Hs & Hl).
  set (st := cummax_cummin_run isnan_ op mem values0 indices0 1 1 1 (Z.of_nat i + 1)) in *.
  rewrite Z.mul_1_r in Hs. split; [split; [exact Hr | split]|].
  - rewrite <- Hs. unfold mem. rewrite <- as_memory_nth. now rewrite Z2Nat.id by lia.
  - intros k Hk. rewrite <- as_memory_nth. fold mem.
    specialize (Hl (Z.of_nat k)). rewrite Z.mul_1_r in Hl. apply Hl. lia.
  - intros Hnan Hpos Heq.
    destruct (HI (i - 1)%nat ltac:(lia)) as [_ Hprev]. rewrite Hprev in Heq.
    replace (Z.of_nat (i - 1) + 1) with (Z.of_nat i) in Heq by lia.
    unfold st. rewrite (run_succ isnan_ op mem values0 indices0 1 1 1 (Z.of_nat i)) by lia.
    apply body_taken. rewrite Z.mul_1_r.
    replace (mem (Z.of_nat i)) with (nth i self garbage)
      by (unfold mem; now rewrite as_memory_nth).
    rewrite <- Heq, Hnan. simpl. now apply op_refl.
Qed.

(** At [cummax] of the integers [1, 1], position 1. *)
Lemma cummax_cummin_latest_index_witness :
  (forall x : Z, (fun _ : Z => false) x = false -> Z.geb x x = true)
  /\ (1 < List.length [1; 1])%nat
  /\ nth 1 (snd (cummax_helper_cpu_int64 [1; 1])) (-1) = 1.
Proof.
  assert (Hrefl : forall x : Z, (fun _ : Z => false) x = false -> Z.geb x x = true)
    by (intros x _; apply Z.geb_le; lia).
  assert (Hlen : (1 < List.length [1; 1])%nat) by (simpl; lia).
  split; [exact Hrefl | split; [exact Hlen|]].
  apply (cummax_cummin_latest_index Z (fun _ => false) Z.geb 0 (fun _ => 0) (fun _ => 0)
           [1; 1] 1%nat Hrefl Hlen); [reflexivity | lia | reflexivity].
Defined.

(** C1, the claim as stated fails: [cummax] of [1, 1] records the indices
    [0, 1], not [0, 0], and [cummin] does the same. *)
Lemma cummax_ties_counterexample :
  cummax_helper_cpu_int64 [1; 1] = ([1; 1], [0; 1])
  /\ snd (cummax_helper_cpu_int64 [1; 1]) <> [0; 0]
  /\ cummin_helper_cpu_int64 [1; 1] = ([1; 1], [0; 1]).
Proof. repeat split. discriminate. Qed.

(** ** var / std: the divisor, and a divisor of zero *)

Lemma int64_sub_exact a b :
  - 2 ^ 63 <= a - b < 2 ^ 63 -> int64_sub a b = a - b.
Proof.
  intros H. unfold int64_sub, wrap_int64.
  rewrite Z.mod_small; lia.
Qed.

Lemma d_div_zero x : d_div x (d_of_int64 0) = quotient_by_zero x.
Proof. destruct x as [s| s| |s m e]; try destruct s; reflexivity. Qed.

Lemma shape_from_dim_mask_all shape i : shape_from_dim_mask shape [] false i = [].
Proof. revert i. induction shape as [|s shape IH]; intros i; simpl; auto. Qed.

Lemma quotient_by_zero_not_finite x :
  d_isnan (quotient_by_zero x) || d_isinf (quotient_by_zero x) = true.
Proof. now destruct x. Qed.

Lemma std_var_finish_not_finite ty take_sqrt x :
  d_isnan (std_var_finish ty take_sqrt (quotient_by_zero x))
  || d_isinf (std_var_finish ty take_sqrt (quotient_by_zero x)) = true.
Proof.
  unfold std_var_finish.
  destruct x as [s| s| |s m e]; try destruct s; destruct take_sqrt;
    destruct (ScalarType_eqb ty kFloat); reflexivity.
Qed.

Section StdVarProperties.
Variable uninitialized : Scalar.
Variable mean_item : TensorS -> double.
Variable chunk : Z.
Variable std_var_stub : DeviceType -> TensorIterator -> Z -> bool -> TensorS.

(** The divisor of [std_var_all_cpu] is [max(0, N - correction)]. *)
Lemma std_var_all_cpu_divisor self correction take_sqrt :
  scalar_type self = kDouble \/ scalar_type self = kFloat ->
  - 2 ^ 63 <= numel self - correction < 2 ^ 63 ->
  std_var_all_cpu mean_item chunk self correction take_sqrt
  = Ok (std_var_finish (scalar_type self) take_sqrt
          (d_div (std_var_all_sum_dx2 mean_item chunk self)
                 (d_of_int64 (Z.max 0 (numel self - correction))))).
Proof.
  intros Hty Hr. unfold std_var_all_cpu, std_var_finish.
  rewrite (int64_sub_exact _ _ Hr).
  destruct Hty as [-> | ->]; reflexivity.
Qed.

(** A reduction over all elements of a CPU tensor of floats or doubles goes
    through [std_var_all_cpu]. *)
Lemma std_var_out_all_reduce fname self correction take_sqrt :
  scalar_type self = kDouble \/ scalar_type self = kFloat ->
  device (options self) = kCPU -> layout (options self) = Strided ->
  numel self <> 0 ->
  std_var_out uninitialized mean_item chunk std_var_stub fname
    (empty uninitialized [0] (options_to_value_type (options self)))
    self None (Some correction) false take_sqrt
  = (v <- std_var_all_cpu mean_item chunk self correction take_sqrt ;;
     Ok (mkTensor [] (options self) [SDouble v])).
Proof.
  intros Hty Hdev Hlay Hn.
  unfold std_var_out, std_var_out_body at 1.
  unfold is_cpu, is_cuda. rewrite Hdev, Hlay.
  assert (Hopt : options_to_value_type (options self) = options self).
  { unfold options_to_value_type, with_dtype. unfold scalar_type in Hty.
    destruct (options self) as [dt dv ly]. simpl in *.
    destruct Hty as [-> | ->]; reflexivity. }
  rewrite Hopt.
  assert (Hfl : isFloatingType (scalar_type self) = true)
    by (destruct Hty as [-> | ->]; reflexivity).
  assert (Hcx : isComplexType (scalar_type self) = false)
    by (destruct Hty as [-> | ->]; reflexivity).
  rewrite Hfl, Hcx. simpl TORCH_CHECK. cbn [bind orb].
  unfold get_dtype_from_result. cbn [bind value_or].
  unfold make_reduction.
  assert (Hst : scalar_type (empty uninitialized [0] (options self)) = scalar_type self)
    by reflexivity.
  rewrite Hst, ScalarType_eqb_refl. simpl TORCH_CHECK. cbn [bind].
  rewrite get_reduction_shape_all, shape_from_dim_mask_all. cbn [bind].
  unfold meta_make_reduction. rewrite ScalarType_eqb_refl.
  unfold iter_numel, iter_device_type, iter_common_dtype. cbn [it_input it_output].
  destruct (Z.eqb_spec (numel self) 0) as [E|_]; [contradiction|].
  rewrite Hdev.
  assert (Hres : resize_output uninitialized (empty uninitialized [0] (options self)) []
                 = mkTensor [] (options self) [uninitialized]) by reflexivity.
  rewrite Hres.
  replace (negb (ScalarType_eqb (scalar_type self) kBFloat16)) with true
    by (destruct Hty as [-> | ->]; reflexivity).
  replace (negb (ScalarType_eqb (scalar_type self) kHalf)) with true
    by (destruct Hty as [-> | ->]; reflexivity).
  reflexivity.
Qed.

(** C3 (amended).  For [var] and [std] over all [N >= 1] elements (no
    [dim], [keepdim = false], the result allocated by the operator) of a
    strided CPU tensor of floats or doubles, the divisor is
    [max(0, N - correction)]: the result is the sum of squared deviations
    divided by it in double arithmetic, with the square root taken for [std]
    and the rounding to [float] for a tensor of floats.  When the divisor is
    zero ([correction >= N]) no error is raised and the variance is the IEEE
    quotient by zero: NaN if the sum of squared deviations is zero or NaN, an
    infinity otherwise; neither [var] nor [std] is a finite number then. *)
Theorem var_std_zero_divisor :
  forall (self : TensorS) (correction : Z) (take_sqrt : bool),
    scalar_type self = kDouble \/ scalar_type self = kFloat ->
    device (options self) = kCPU -> layout (options self) = Strided ->
    1 <= numel self < 2 ^ 63 ->
    - 2 ^ 63 <= numel self - correction < 2 ^ 63 ->
    let sum_dx2 := std_var_all_sum_dx2 mean_item chunk self in
    let divisor := Z.max 0 (numel self - correction) in
    let quotient := d_div sum_dx2 (d_of_int64 divisor) in
    let v := std_var_finish (scalar_type self) false quotient in
    let s := std_var_finish (scalar_type self) true quotient in
    Z.max 0 (int64_sub (numel self) correction) = divisor
    /\ std_var_all_cpu mean_item chunk self correction take_sqrt
       = Ok (std_var_finish (scalar_type self) take_sqrt quotient)
    /\ var uninitialized mean_item chunk std_var_stub self None (Some correction) false
       = Ok (mkTensor [] (options self) [SDouble v])
    /\ std uninitialized mean_item chunk std_var_stub self None (Some correction) false
       = Ok (mkTensor [] (options self) [SDouble s])
    /\ (numel self <= correction ->
        divisor = 0
        /\ quotient = quotient_by_zero sum_dx2
        /\ d_isnan v || d_isinf v = true
        /\ d_isnan s || d_isinf s = true
        /\ (d_isnan sum_dx2 || SFeqb sum_dx2 d_zero = true -> d_isnan v = true)
        /\ (d_isnan sum_dx2 || SFeqb sum_dx2 d_zero = false -> d_isinf v = true)).
Proof.
  intros self correction take_sqrt Hty Hdev Hlay Hn Hr. cbv zeta.
  pose proof (fun ts => std_var_all_cpu_divisor self correction ts Hty Hr) as Hall.
  split; [now rewrite (int64_sub_exact _ _ Hr)|].
  split; [apply Hall|].
  split; [unfold var; rewrite std_var_out_all_reduce by (auto; lia);
          rewrite Hall; reflexivity|].
  split; [unfold std; rewrite std_var_out_all_reduce by (auto; lia);
          rewrite Hall; reflexivity|].
  intros Hc.
  replace (Z.max 0 (numel self - correction)) with 0 by lia.
  rewrite d_div_zero.
  split; [reflexivity|]. split; [reflexivity|].
  split; [apply std_var_finish_not_finite|].
  split; [apply std_var_finish_not_finite|].
  clear Hall. unfold std_var_finish.
  split; intros Hz;
    destruct (std_var_all_sum_dx2 mean_item chunk self) as [s0| s0| |s0 m e];
    try destruct s0; try discriminate Hz;
    destruct (ScalarType_eqb (scalar_type self) kFloat); reflexivity.
Qed.
End StdVarProperties.

(** At the doubles [1.0, 2.0] with [correction = 2]. *)
Lemma var_std_zero_divisor_witness :
  let self := mkTensor [2] (mkOptions kDouble kCPU Strided)
                [SDouble (d_of_int64 1); SDouble (d_of_int64 2)] in
  Z.max 0 (int64_sub (numel self) 2) = Z.max 0 (numel self - 2)
  /\ var (SInt 0) serial_mean_item 0 (fun _ it _ _ => it_output it) self None (Some 2) false
     = Ok (mkTensor [] (options self)
             [SDouble (std_var_finish kDouble false
                         (d_div (std_var_all_sum_dx2 serial_mean_item 0 self)
                            (d_of_int64 (Z.max 0 (numel self - 2)))))]).
Proof.
  cbv zeta.
  destruct (var_std_zero_divisor (SInt 0) serial_mean_item 0
              (fun _ it _ _ => it_output it)
              (mkTensor [2] (mkOptions kDouble kCPU Strided)
                 [SDouble (d_of_int64 1); SDouble (d_of_int64 2)])
              2 false (or_introl eq_refl) eq_refl eq_refl)
    as (H1 & _ & H3 & _).
  - unfold numel; simpl; lia.
  - unfold numel; simpl; lia.
  - split; [exact H1 | exact H3].
Defined.

(** C3, the claim as stated fails: the variance of [1.0, 2.0] with
    [correction = 2] (divisor zero) is +infinity, not NaN, and so is its
    standard deviation. *)
Lemma var_zero_divisor_counterexample :
  let self := mkTensor [2] (mkOptions kDouble kCPU Strided)
                [SDouble (d_of_int64 1); SDouble (d_of_int64 2)] in
  Z.max 0 (int64_sub (numel self) 2) = 0
  /\ var (SInt 0) serial_mean_item 0 (fun _ it _ _ => it_output it) self None (Some 2) false
     = Ok (mkTensor [] (mkOptions kDouble kCPU Strided) [SDouble (S754_infinity false)])
  /\ std (SInt 0) serial_mean_item 0 (fun _ it _ _ => it_output it) self None (Some 2) false
     = Ok (mkTensor [] (mkOptions kDouble kCPU Strided) [SDouble (S754_infinity false)])
  /\ d_isnan (S754_infinity false) = false.
Proof. cbv zeta. repeat split; vm_compute; reflexivity. Qed.

(** ** Lanes: the two views of a tensor are inverse to each other *)

Section LaneFacts.
Context {A : Type}.
Variable dflt : A.

Lemma divmod_pair q r i : (r < i)%nat -> ((q * i + r) / i = q /\ (q * i + r) mod i = r)%nat.
Proof.
  intros Hr. split; symmetry.
  - apply (Nat.div_unique _ i q r); lia.
  - apply (Nat.mod_unique _ i q r); lia.
Qed.

Lemma lanes_length o n i (l : list A) : List.length (lanes dflt o n i l) = (o * i)%nat.
Proof. unfold lanes. now rewrite length_map, length_seq. Qed.

Lemma unlanes_length o n i (ls : list (list A)) :
  List.length (unlanes dflt o n i ls) = (o * n * i)%nat.
Proof. unfold unlanes. now rewrite length_map, length_seq. Qed.

Lemma nth_lanes_lane o n i (l : list A) j :
  (j < o * i)%nat ->
  nth j (lanes dflt o n i l) []
  = map (fun k => nth ((j / i * n + k) * i + j mod i)%nat l dflt) (seq 0 n).
Proof.
  intros Hj. unfold lanes.
  rewrite nth_indep with (d' := (fun j => map (fun k => nth ((j / i * n + k) * i + j mod i)%nat l dflt) (seq 0 n)) 0%nat)
    by (now rewrite length_map, length_seq).
  rewrite (map_nth (fun j => map (fun k => nth ((j / i * n + k) * i + j mod i)%nat l dflt) (seq 0 n))).
  now rewrite seq_nth.
Qed.

Lemma lanes_lane_length o n i (l : list A) :
  Forall (fun x => List.length x = n) (lanes dflt o n i l).
Proof.
  apply Forall_forall. intros x Hx. unfold lanes in Hx.
  apply in_map_iff in Hx. destruct Hx as [j [<- _]].
  now rewrite length_map, length_seq.
Qed.

Lemma nth_lanes o n i (l : list A) j k :
  (j < o * i)%nat -> (k < n)%nat ->
  nth k (nth j (lanes dflt o n i l) []) dflt
  = nth ((j / i * n + k) * i + j mod i)%nat l dflt.
Proof.
  intros Hj Hk. rewrite nth_lanes_lane by exact Hj.
  rewrite nth_indep with (d' := (fun k => nth ((j / i * n + k) * i + j mod i)%nat l dflt) 0%nat)
    by (now rewrite length_map, length_seq).
  rewrite (map_nth (fun k => nth ((j / i * n + k) * i + j mod i)%nat l dflt)).
  now rewrite seq_nth.
Qed.

Lemma nth_unlanes o n i (ls : list (list A)) p :
  (p < o * n * i)%nat ->
  nth p (unlanes dflt o n i ls) dflt
  = nth ((p / i) mod n)%nat (nth (p / (i * n) * i + p mod i)%nat ls []) dflt.
Proof.
  intros Hp. unfold unlanes.
  rewrite nth_indep with
    (d' := (fun p => nth ((p / i) mod n)%nat (nth (p / (i * n) * i + p mod i)%nat ls []) dflt) 0%nat)
    by (now rewrite length_map, length_seq).
  rewrite (map_nth (fun p => nth ((p / i) mod n)%nat (nth (p / (i * n) * i + p mod i)%nat ls []) dflt)).
  now rewrite seq_nth.
Qed.

(** The flat index of element [k] of lane [j], and back. *)
Lemma lane_index_bound o n i j k :
  (j < o * i)%nat -> (k < n)%nat -> ((j / i * n + k) * i + j mod i < o * n * i)%nat.
Proof.
  intros Hj Hk.
  assert (Hi : (0 < i)%nat) by nia.
  assert (Hq : (j / i < o)%nat) by (apply Nat.Div0.div_lt_upper_bound; nia).
  assert (Hm : (j mod i < i)%nat) by (apply Nat.mod_upper_bound; lia).
  nia.
Qed.

Lemma lane_index_inv o n i j k :
  (j < o * i)%nat -> (k < n)%nat ->
  let p := ((j / i * n + k) * i + j mod i)%nat in
  ((p / i) mod n = k /\ p / (i * n) * i + p mod i = j)%nat.
Proof.
  intros Hj Hk. cbv zeta.
  assert (Hi : (0 < i)%nat) by nia.
  assert (Hm : (j mod i < i)%nat) by (apply Nat.mod_upper_bound; lia).
  destruct (divmod_pair (j / i * n + k) (j mod i) i Hm) as [Hd Hr].
  destruct (divmod_pair (j / i) k n Hk) as [Hd2 Hr2].
  rewrite <- Nat.Div0.div_div, Hd, Hr, Hr2, Hd2.
  split; [reflexivity|].
  pose proof (Nat.div_mod_eq j i). lia.
Qed.

Lemma flat_index_inv o n i p :
  (p < o * n * i)%nat ->
  let j := (p / (i * n) * i + p mod i)%nat in
  let k := ((p / i) mod n)%nat in
  (j < o * i /\ k < n /\ (j / i * n + k) * i + j mod i = p)%nat.
Proof.
  intros Hp. cbv zeta.
  assert (Hi : (0 < i)%nat) by nia.
  assert (Hn : (0 < n)%nat) by nia.
  assert (Hm : (p mod i < i)%nat) by (apply Nat.mod_upper_bound; lia).
  assert (Hq : (p / (i * n) < o)%nat) by (apply Nat.Div0.div_lt_upper_bound; nia).
  destruct (divmod_pair (p / (i * n)) (p mod i) i Hm) as [Hd Hr].
  rewrite Hd, Hr.
  split; [nia|]. split; [apply Nat.mod_upper_bound; lia|].
  rewrite <- Nat.Div0.div_div.
  pose proof (Nat.div_mod_eq (p / i) n). pose proof (Nat.div_mod_eq p i). nia.
Qed.

Lemma lanes_unlanes o n i (ls : list (list A)) :
  List.length ls = (o * i)%nat ->
  Forall (fun x => List.length x = n) ls ->
  lanes dflt o n i (unlanes dflt o n i ls) = ls.
Proof.
  intros Hlen Hall.
  apply (nth_ext _ _ [] []); [now rewrite lanes_length|].
  intros j Hj. rewrite lanes_length in Hj.
  assert (Hlj : List.length (nth j ls []) = n).
  { rewrite Forall_forall in Hall. apply Hall, nth_In. lia. }
  rewrite nth_lanes_lane by exact Hj.
  apply (nth_ext _ _ dflt dflt); [now rewrite length_map, length_seq|].
  intros k Hk. rewrite length_map, length_seq in Hk.
  rewrite nth_indep with (d' := (fun k => nth ((j / i * n + k) * i + j mod i)%nat
                                           (unlanes dflt o n i ls) dflt) 0%nat)
    by (now rewrite length_map, length_seq).
  rewrite (map_nth (fun k => nth ((j / i * n + k) * i + j mod i)%nat
                              (unlanes dflt o n i ls) dflt)).
  rewrite seq_nth by exact Hk. simpl.
  rewrite nth_unlanes by (now apply lane_index_bound).
  destruct (lane_index_inv o n i j k Hj Hk) as [-> ->]. reflexivity.
Qed.

Lemma unlanes_lanes o n i (l : list A) :
  List.length l = (o * n * i)%nat ->
  unlanes dflt o n i (lanes dflt o n i l) = l.
Proof.
  intros Hlen.
  apply (nth_ext _ _ dflt dflt); [now rewrite unlanes_length|].
  intros p Hp. rewrite unlanes_length in Hp.
  rewrite nth_unlanes by exact Hp.
  destruct (flat_index_inv o n i p Hp) as (Hj & Hk & Hpk).
  rewrite nth_lanes by assumption. now rewrite Hpk.
Qed.

(** Lanes of length 1 are the elements themselves. *)
Lemma unlanes_singletons o i (ls : list (list A)) :
  List.length ls = (o * i)%nat ->
  unlanes dflt o 1 i ls = map (fun l => nth 0 l dflt) ls.
Proof.
  intros Hlen.
  apply (nth_ext _ _ dflt dflt); [now rewrite unlanes_length, length_map, Hlen, Nat.mul_1_r|].
  intros p Hp. rewrite unlanes_length in Hp.
  rewrite nth_unlanes by exact Hp.
  assert (Hi : (0 < i)%nat) by nia.
  rewrite Nat.mod_1_r, Nat.mul_1_r.
  replace (p / i * i + p mod i)%nat with p by (pose proof (Nat.div_mod_eq p i); lia).
  symmetry.
  rewrite nth_indep with (d' := (fun l => nth 0 l dflt) []) by (rewrite length_map; lia).
  apply (map_nth (fun l => nth 0 l dflt)).
Qed.
End LaneFacts.

Lemma nth_zip_with {A B C} (f : A -> B -> C) (a : list A) (b : list B) dA dB dC p :
  (p < List.length a)%nat -> (p < List.length b)%nat ->
  nth p (zip_with f a b) dC = f (nth p a dA) (nth p b dB).
Proof.
  revert b p. induction a as [|x a IH]; intros [|y b] p Ha Hb; simpl in *; try lia.
  destruct p as [|p]; [reflexivity|]. apply IH; lia.
Qed.

Lemma zip_with_length {A B C} (f : A -> B -> C) (a : list A) (b : list B) :
  List.length (zip_with f a b) = Nat.min (List.length a) (List.length b).
Proof. unfold zip_with. now rewrite length_map, length_combine. Qed.

Lemma zip_with_map_seq {A B C} (f : A -> B -> C) (g : nat -> A) (h : nat -> B) s n :
  zip_with f (map g (seq s n)) (map h (seq s n)) = map (fun j => f (g j) (h j)) (seq s n).
Proof.
  revert s. induction n as [|n IH]; intros s; [reflexivity|].
  simpl. unfold zip_with in *. simpl. now rewrite IH.
Qed.

Lemma nth_map_seq {A} (g : nat -> A) n j d :
  (j < n)%nat -> nth j (map g (seq 0 n)) d = g j.
Proof.
  intros Hj. rewrite nth_indep with (d' := g 0%nat) by (now rewrite length_map, length_seq).
  rewrite (map_nth g). now rewrite seq_nth.
Qed.

Lemma map_seq_ext {A} (g h : nat -> A) n :
  (forall j, (j < n)%nat -> g j = h j) -> map g (seq 0 n) = map h (seq 0 n).
Proof.
  intros H. apply map_ext_in. intros j Hj. apply in_seq in Hj. apply H. lia.
Qed.

Lemma lanes_zip_with {A B C} (dA : A) (dB : B) (dC : C) (f : A -> B -> C) o n i a b :
  List.length a = (o * n * i)%nat -> List.length b = (o * n * i)%nat ->
  lanes dC o n i (zip_with f a b)
  = zip_with (zip_with f) (lanes dA o n i a) (lanes dB o n i b).
Proof.
  intros Ha Hb. unfold lanes. rewrite zip_with_map_seq.
  apply map_seq_ext. intros j Hj. rewrite zip_with_map_seq.
  apply map_seq_ext. intros k Hk.
  pose proof (lane_index_bound o n i j k Hj Hk).
  apply nth_zip_with; lia.
Qed.

Lemma lanes_map {A B} (dA : A) (dB : B) (f : A -> B) o n i a :
  List.length a = (o * n * i)%nat ->
  lanes dB o n i (map f a) = map (map f) (lanes dA o n i a).
Proof.
  intros Ha. unfold lanes. rewrite map_map.
  apply map_seq_ext. intros j Hj. rewrite map_map.
  apply map_seq_ext. intros k Hk.
  pose proof (lane_index_bound o n i j k Hj Hk).
  rewrite nth_indep with (d' := f dA) by (rewrite length_map; lia).
  apply map_nth.
Qed.

Lemma lanes_repeat {A} (dflt v : A) o n i :
  lanes dflt o n i (repeat v (o * n * i)) = map (fun _ => repeat v n) (seq 0 (o * i)).
Proof.
  unfold lanes. apply map_seq_ext. intros j Hj.
  apply (nth_ext _ _ dflt dflt); [now rewrite length_map, length_seq, repeat_length|].
  intros k Hk. rewrite length_map, length_seq in Hk.
  rewrite nth_map_seq by exact Hk.
  pose proof (lane_index_bound o n i j k Hj Hk).
  rewrite !nth_repeat_lt by lia. reflexivity.
Qed.

(** ** Shapes split at a dimension *)

Lemma prodZ_app a b : prodZ (a ++ b) = prodZ a * prodZ b.
Proof.
  induction a as [|x a IH].
  - change (prodZ b = 1 * prodZ b). lia.
  - change (x * prodZ (a ++ b) = x * prodZ a * prodZ b). rewrite IH. lia.
Qed.

Lemma prodZ_nonneg s : nonneg_shape s -> 0 <= prodZ s.
Proof.
  induction 1 as [|x l Hx Hl IH]; [unfold prodZ; simpl; lia|].
  change (0 <= x * prodZ l). nia.
Qed.

Lemma nonneg_firstn s k : nonneg_shape s -> nonneg_shape (firstn k s).
Proof.
  unfold nonneg_shape. intros H. revert k.
  induction H as [|x l Hx Hl IH]; intros [|k]; simpl; auto.
Qed.

Lemma nonneg_skipn s k : nonneg_shape s -> nonneg_shape (skipn k s).
Proof.
  unfold nonneg_shape. intros H. revert k.
  induction H as [|x l Hx Hl IH]; intros [|k]; simpl; auto.
Qed.

Lemma shape_nil_dec (s : list Z) : {s = []} + {s <> []}.
Proof. destruct s; [left; reflexivity | right; discriminate]. Qed.

Lemma nonempty_length (s : list Z) : s <> [] -> (0 < List.length s)%nat.
Proof. destruct s; [contradiction | simpl; lia]. Qed.

Section ShapeAtDim.
Variable shape : list Z.
Variable d : Z.
Hypothesis Hnn : nonneg_shape shape.
Hypothesis Hvd : valid_dim shape d.

Lemma dim_lt_rank : shape <> [] -> (Z.to_nat d < List.length shape)%nat.
Proof.
  intros Hne. pose proof (nonempty_length _ Hne). unfold valid_dim in Hvd. lia.
Qed.

Lemma shape_parts :
  shape <> [] ->
  shape = firstn (Z.to_nat d) shape ++ nth (Z.to_nat d) shape 1 :: skipn (S (Z.to_nat d)) shape
  /\ 0 <= nth (Z.to_nat d) shape 1.
Proof.
  intros Hne. pose proof (dim_lt_rank Hne) as Hlen.
  split.
  - symmetry. apply firstn_skipn_middle.
    rewrite (nth_error_nth' shape 1 Hlen). reflexivity.
  - pose proof Hnn as H. unfold nonneg_shape in H. rewrite Forall_forall in H.
    apply H, nth_In, Hlen.
Qed.

Lemma shape_split :
  Z.to_nat (prodZ shape)
  = (outer_size shape d * dim_size_of shape d * inner_size shape d)%nat.
Proof.
  unfold outer_size, dim_size_of, inner_size.
  destruct (shape_nil_dec shape) as [E|E].
  - rewrite E. destruct (Z.to_nat d); reflexivity.
  - destruct (shape_parts E) as [Hs Hx].
    rewrite Hs at 1. rewrite prodZ_app.
    change (prodZ (nth (Z.to_nat d) shape 1 :: skipn (S (Z.to_nat d)) shape))
      with (nth (Z.to_nat d) shape 1 * prodZ (skipn (S (Z.to_nat d)) shape)).
    pose proof (prodZ_nonneg _ (nonneg_firstn _ (Z.to_nat d) Hnn)).
    pose proof (prodZ_nonneg _ (nonneg_skipn _ (S (Z.to_nat d)) Hnn)).
    rewrite !Z2Nat.inj_mul by nia. lia.
Qed.

Lemma set_dim_size_same : set_dim_size shape d (dim_size_of shape d) = shape.
Proof.
  destruct (shape_nil_dec shape) as [E|E]; [rewrite E; reflexivity|].
  destruct (shape_parts E) as [Hs Hx].
  unfold set_dim_size, dim_size_of. rewrite Z2Nat.id by exact Hx.
  rewrite <- Hs. destruct shape; [contradiction | reflexivity].
Qed.

Lemma firstn_set_dim n :
  shape <> [] ->
  firstn (Z.to_nat d) (firstn (Z.to_nat d) shape ++ Z.of_nat n :: skipn (S (Z.to_nat d)) shape)
  = firstn (Z.to_nat d) shape
  /\ nth (Z.to_nat d)
       (firstn (Z.to_nat d) shape ++ Z.of_nat n :: skipn (S (Z.to_nat d)) shape) 1
     = Z.of_nat n
  /\ skipn (S (Z.to_nat d))
       (firstn (Z.to_nat d) shape ++ Z.of_nat n :: skipn (S (Z.to_nat d)) shape)
     = skipn (S (Z.to_nat d)) shape.
Proof.
  intros Hne. pose proof (dim_lt_rank Hne) as Hlen.
  assert (Hf : List.length (firstn (Z.to_nat d) shape) = Z.to_nat d)
    by (rewrite length_firstn; lia).
  repeat split.
  - rewrite firstn_app, Hf, Nat.sub_diag. simpl firstn at 2. rewrite app_nil_r.
    now rewrite firstn_firstn, Nat.min_id.
  - rewrite app_nth2 by lia. rewrite Hf, Nat.sub_diag. reflexivity.
  - rewrite skipn_app, Hf.
    rewrite skipn_all2 by lia.
    replace (S (Z.to_nat d) - Z.to_nat d)%nat with 1%nat by lia. reflexivity.
Qed.

Lemma set_dim_size_nonempty n :
  shape <> [] ->
  set_dim_size shape d n
  = firstn (Z.to_nat d) shape ++ Z.of_nat n :: skipn (S (Z.to_nat d)) shape.
Proof. intros Hne. unfold set_dim_size. destruct shape; [contradiction | reflexivity]. Qed.

Lemma set_dim_size_parts n :
  shape <> [] \/ n = 1%nat ->
  outer_size (set_dim_size shape d n) d = outer_size shape d
  /\ dim_size_of (set_dim_size shape d n) d = n
  /\ inner_size (set_dim_size shape d n) d = inner_size shape d.
Proof.
  intros Hn. unfold outer_size, dim_size_of, inner_size.
  destruct (shape_nil_dec shape) as [E|E].
  - destruct Hn as [Hn | ->]; [contradiction|].
    rewrite E. destruct (Z.to_nat d); auto.
  - rewrite (set_dim_size_nonempty n E).
    destruct (firstn_set_dim n E) as (-> & -> & ->).
    repeat split. lia.
Qed.

Lemma set_dim_size_twice n m :
  set_dim_size (set_dim_size shape d n) d m = set_dim_size shape d m.
Proof.
  destruct (shape_nil_dec shape) as [E|E]; [rewrite E; reflexivity|].
  rewrite (set_dim_size_nonempty n E), (set_dim_size_nonempty m E).
  destruct (firstn_set_dim n E) as (H1 & H2 & H3).
  unfold set_dim_size.
  destruct (firstn (Z.to_nat d) shape ++ Z.of_nat n :: skipn (S (Z.to_nat d)) shape)
    as [|y r] eqn:E2; [destruct (firstn (Z.to_nat d) shape); discriminate|].
  now rewrite H1, H3.
Qed.
End ShapeAtDim.

(** ** The operators along a dimension, lane by lane *)

Lemma map_nth_seq {A} (l : list A) d :
  map (fun j => nth j l d) (seq 0 (List.length l)) = l.
Proof.
  apply (nth_ext _ _ d d); [now rewrite length_map, length_seq|].
  intros j Hj. rewrite length_map, length_seq in Hj. now rewrite nth_map_seq.
Qed.

Lemma list_set_length {A} (l : list A) k v : List.length (list_set l k v) = List.length l.
Proof. revert k. induction l as [|x l IH]; intros [|k]; simpl; auto. Qed.

Section LanesAre.
Variable shape : list Z.
Variable d : Z.
Hypothesis Hnn : nonneg_shape shape.
Hypothesis Hvd : valid_dim shape d.

Local Abbreviation o := (outer_size shape d).
Local Abbreviation i := (inner_size shape d).

Lemma prodZ_set_dim_size n :
  shape <> [] \/ n = 1%nat ->
  Z.to_nat (prodZ (set_dim_size shape d n)) = (o * n * i)%nat.
Proof.
  intros Hn. unfold o, i, outer_size, inner_size.
  destruct (shape_nil_dec shape) as [E|E].
  - destruct Hn as [Hn | ->]; [contradiction|]. rewrite E.
    destruct (Z.to_nat d); reflexivity.
  - rewrite (set_dim_size_nonempty shape d Hnn Hvd n E), prodZ_app.
    change (prodZ (Z.of_nat n :: skipn (S (Z.to_nat d)) shape))
      with (Z.of_nat n * prodZ (skipn (S (Z.to_nat d)) shape)).
    pose proof (prodZ_nonneg _ (nonneg_firstn _ (Z.to_nat d) Hnn)).
    pose proof (prodZ_nonneg _ (nonneg_skipn _ (S (Z.to_nat d)) Hnn)).
    rewrite !Z2Nat.inj_mul by nia. lia.
Qed.

Lemma lanes_are_tensor_lanes {A} (dflt : A) n t phi :
  shape <> [] \/ n = 1%nat ->
  lanes_are dflt shape d n t phi ->
  tensor_lanes dflt t d = map phi (seq 0 (o * i)).
Proof.
  intros Hn (Hs & _ & _ & HL). unfold tensor_lanes. rewrite Hs.
  destruct (set_dim_size_parts shape d Hnn Hvd n Hn) as (-> & -> & ->). exact HL.
Qed.

Lemma lanes_are_of_shaped {A} (dflt : A) t :
  sizes t = shape -> List.length (data t) = Z.to_nat (prodZ shape) ->
  lanes_are dflt shape d (dim_size_of shape d) t
    (fun j => nth j (tensor_lanes dflt t d) []).
Proof.
  intros Hs Hl. unfold lanes_are.
  rewrite (set_dim_size_same shape d Hnn Hvd).
  rewrite (shape_split shape d Hnn Hvd) in Hl.
  unfold tensor_lanes. rewrite Hs.
  repeat split; try assumption.
  - intros j Hj.
    pose proof (lanes_lane_length dflt o (dim_size_of shape d) i (data t)) as HF.
    rewrite Forall_forall in HF. apply HF, nth_In. now rewrite lanes_length.
  - pose proof (map_nth_seq (lanes dflt o (dim_size_of shape d) i (data t)) []) as H.
    rewrite lanes_length in H. symmetry. exact H.
Qed.

Lemma lanes_are_change {A} (dflt : A) n t phi psi :
  (forall j, (j < o * i)%nat -> phi j = psi j) ->
  lanes_are dflt shape d n t phi -> lanes_are dflt shape d n t psi.
Proof.
  intros Hx (Hs & Hl & Hn & HL). unfold lanes_are.
  repeat split; try assumption.
  - intros j Hj. rewrite <- Hx by exact Hj. now apply Hn.
  - rewrite HL. now apply map_seq_ext.
Qed.

Lemma lanes_are_ext {A} (dflt : A) n a b phi psi :
  (forall j, (j < o * i)%nat -> phi j = psi j) ->
  lanes_are dflt shape d n a phi -> lanes_are dflt shape d n b psi ->
  sizes a = sizes b /\ data a = data b.
Proof.
  intros Hx (Hsa & Hla & _ & HLa) (Hsb & Hlb & _ & HLb).
  split; [congruence|].
  rewrite <- (unlanes_lanes dflt o n i (data a) Hla).
  rewrite <- (unlanes_lanes dflt o n i (data b) Hlb).
  rewrite HLa, HLb. f_equal. now apply map_seq_ext.
Qed.

Lemma lanes_are_along_dim {A B} (dA : A) (dB : B) (f : list A -> list B) n n' t phi :
  shape <> [] \/ n = 1%nat -> shape <> [] \/ n' = 1%nat ->
  (forall l, List.length l = n -> List.length (f l) = n') ->
  lanes_are dA shape d n t phi ->
  lanes_are dB shape d n' (along_dim dA dB f t d) (fun j => f (phi j)).
Proof.
  intros Hn Hn' Hf Ht.
  pose proof (lanes_are_tensor_lanes dA n t phi Hn Ht) as HL.
  destruct Ht as (Hs & Hl & Hp & _).
  unfold along_dim, lanes_are. cbn [sizes data]. rewrite HL, Hs.
  destruct (set_dim_size_parts shape d Hnn Hvd n Hn) as (-> & -> & ->).
  rewrite (Hf (repeat dA n)) by apply repeat_length.
  rewrite set_dim_size_twice by assumption.
  repeat split.
  - apply unlanes_length.
  - intros j Hj. apply Hf, Hp, Hj.
  - rewrite lanes_unlanes; [apply map_map | now rewrite !length_map, length_seq |].
    apply Forall_forall. intros x Hx. rewrite map_map in Hx.
    apply in_map_iff in Hx. destruct Hx as [j [<- Hj]]. apply in_seq in Hj.
    apply Hf, Hp. lia.
Qed.

Lemma lanes_are_along_dim2 {A B C} (dA : A) (dB : B) (dC : C)
  (f : list A -> list B -> list C) na nb n' a b phi psi :
  shape <> [] \/ na = 1%nat -> shape <> [] \/ nb = 1%nat ->
  shape <> [] \/ n' = 1%nat ->
  (forall la lb, List.length la = na -> List.length lb = nb ->
                 List.length (f la lb) = n') ->
  lanes_are dA shape d na a phi -> lanes_are dB shape d nb b psi ->
  lanes_are dC shape d n' (along_dim2 dA dB dC f a b d) (fun j => f (phi j) (psi j)).
Proof.
  intros Hna Hnb Hn' Hf Ha Hb.
  pose proof (lanes_are_tensor_lanes dA na a phi Hna Ha) as HLa.
  pose proof (lanes_are_tensor_lanes dB nb b psi Hnb Hb) as HLb.
  destruct Ha as (Hsa & Hla & Hpa & _). destruct Hb as (Hsb & Hlb & Hpb & _).
  unfold along_dim2, lanes_are. cbn [sizes data]. rewrite HLa, HLb, Hsa, Hsb.
  destruct (set_dim_size_parts shape d Hnn Hvd na Hna) as (-> & -> & ->).
  destruct (set_dim_size_parts shape d Hnn Hvd nb Hnb) as (_ & -> & _).
  rewrite (Hf (repeat dA na) (repeat dB nb)) by apply repeat_length.
  rewrite set_dim_size_twice by assumption.
  rewrite zip_with_map_seq.
  repeat split.
  - apply unlanes_length.
  - intros j Hj. apply Hf; [apply Hpa | apply Hpb]; exact Hj.
  - rewrite lanes_unlanes; [reflexivity | now rewrite length_map, length_seq |].
    apply Forall_forall. intros x Hx.
    apply in_map_iff in Hx. destruct Hx as [j [<- Hj]]. apply in_seq in Hj.
    apply Hf; [apply Hpa | apply Hpb]; lia.
Qed.

Lemma lanes_are_tmap2 {A B C} (dA : A) (dB : B) (dC : C) (g : A -> B -> C) n a b phi psi :
  lanes_are dA shape d n a phi -> lanes_are dB shape d n b psi ->
  lanes_are dC shape d n (tmap2 g a b) (fun j => zip_with g (phi j) (psi j)).
Proof.
  intros (Hsa & Hla & Hpa & HLa) (Hsb & Hlb & Hpb & HLb).
  unfold tmap2, lanes_are. cbn [sizes data].
  repeat split.
  - exact Hsa.
  - rewrite zip_with_length. lia.
  - intros j Hj. rewrite zip_with_length, Hpa, Hpb by exact Hj. lia.
  - rewrite (lanes_zip_with dA dB dC g o n i _ _ Hla Hlb), HLa, HLb.
    apply zip_with_map_seq.
Qed.

Lemma lanes_are_tmap {A B} (dA : A) (dB : B) (g : A -> B) n a phi :
  lanes_are dA shape d n a phi ->
  lanes_are dB shape d n (tmap g a) (fun j => map g (phi j)).
Proof.
  intros (Hsa & Hla & Hpa & HLa).
  unfold tmap, lanes_are. cbn [sizes data].
  repeat split.
  - exact Hsa.
  - now rewrite length_map.
  - intros j Hj. rewrite length_map. now apply Hpa.
  - rewrite (lanes_map dA dB g o n i _ Hla), HLa. apply map_map.
Qed.

Lemma lanes_are_full {A} (dflt : A) n opts v :
  shape <> [] \/ n = 1%nat ->
  lanes_are dflt shape d n (full (set_dim_size shape d n) opts v) (fun _ => repeat v n).
Proof.
  intros Hn. unfold full, lanes_are. cbn [sizes data].
  rewrite (prodZ_set_dim_size n Hn).
  repeat split.
  - apply repeat_length.
  - intros j _. apply repeat_length.
  - apply lanes_repeat.
Qed.

Lemma lanes_are_select_copy {A} (dflt : A) n t phi k (src : Tensor A) :
  shape <> [] \/ n = 1%nat ->
  List.length (data src) = (o * i)%nat ->
  lanes_are dflt shape d n t phi ->
  lanes_are dflt shape d n (select_copy_ dflt t d k src)
    (fun j => list_set (phi j) (Z.to_nat k) (nth j (data src) dflt)).
Proof.
  intros Hn Hsrc Ht.
  pose proof (lanes_are_tensor_lanes dflt n t phi Hn Ht) as HL.
  destruct Ht as (Hs & Hl & Hp & _).
  unfold select_copy_, lanes_are. cbn [sizes data]. rewrite HL, Hs.
  destruct (set_dim_size_parts shape d Hnn Hvd n Hn) as (-> & -> & ->).
  assert (Hz : zip_with (fun (lane : list A) (v : A) => list_set lane (Z.to_nat k) v)
                 (map phi (seq 0 (o * i))) (data src)
               = map (fun j => list_set (phi j) (Z.to_nat k) (nth j (data src) dflt))
                   (seq 0 (o * i))).
  { transitivity (zip_with (fun (lane : list A) (v : A) => list_set lane (Z.to_nat k) v)
                    (map phi (seq 0 (o * i)))
                    (map (fun j => nth j (data src) dflt) (seq 0 (o * i)))).
    - f_equal. rewrite <- Hsrc. symmetry. apply map_nth_seq.
    - apply zip_with_map_seq. }
  rewrite Hz.
  repeat split.
  - apply unlanes_length.
  - intros j Hj. rewrite list_set_length. now apply Hp.
  - rewrite lanes_unlanes; [reflexivity | now rewrite length_map, length_seq |].
    apply Forall_forall. intros x Hx.
    apply in_map_iff in Hx. destruct Hx as [j [<- Hj]]. apply in_seq in Hj.
    rewrite list_set_length. apply Hp. lia.
Qed.

(** A reduction of each lane to one element, read without the dimension. *)
Lemma lanes_are_reduce_data {A B} (dA : A) (dB : B) (g : list A -> B) n t phi :
  shape <> [] \/ n = 1%nat ->
  lanes_are dA shape d n t phi ->
  data (along_dim dA dB (fun l => [g l]) t d) = map (fun j => g (phi j)) (seq 0 (o * i)).
Proof.
  intros Hn Ht.
  pose proof (lanes_are_tensor_lanes dA n t phi Hn Ht) as HL.
  destruct Ht as (Hs & Hl & Hp & _).
  unfold along_dim. cbn [sizes data]. rewrite HL, Hs.
  destruct (set_dim_size_parts shape d Hnn Hvd n Hn) as (-> & -> & ->).
  cbn [List.length]. rewrite unlanes_singletons by (now rewrite !length_map, length_seq).
  rewrite !map_map. reflexivity.
Qed.
End LanesAre.

(** ** cumprod_backward on one lane: the closed form is the sum over the
    omitted products *)


Lemma zip_with_app {A B C} (f : A -> B -> C) a1 a2 b1 b2 :
  List.length a1 = List.length b1 ->
  zip_with f (a1 ++ a2) (b1 ++ b2) = zip_with f a1 b1 ++ zip_with f a2 b2.
Proof.
  revert b1. induction a1 as [|x a1 IH]; intros [|y b1] H; simpl in *; try discriminate.
  - reflexivity.
  - unfold zip_with in *. simpl. f_equal. apply IH. lia.
Qed.

Lemma zip_with_cons {A B C} (f : A -> B -> C) x a y b :
  zip_with f (x :: a) (y :: b) = f x y :: zip_with f a b.
Proof. reflexivity. Qed.

Lemma zip_with_repeat_l {A B C} (f : A -> B -> C) c (b : list B) :
  zip_with f (repeat c (List.length b)) b = map (f c) b.
Proof. induction b as [|y b IH]; [reflexivity|]. simpl. rewrite zip_with_cons. now rewrite IH. Qed.

Section FieldLanes.
Variable F : Type.
Variables (zero one : F) (add mul sub div : F -> F -> F) (opp inv : F -> F).
Variable conj : F -> F.
Hypothesis Fth : field_theory zero one add mul sub opp div inv eq.
(** Conjugation is multiplicative and keeps 1 and the nonzero elements. *)
Hypothesis conj_mul : forall a b, conj (mul a b) = mul (conj a) (conj b).
Hypothesis conj_one : conj one = one.
Hypothesis conj_nonzero : forall a, a <> zero -> conj a <> zero.

Add Field Ffield : Fth.

Local Abbreviation csum := (sum_lane F zero add).
Local Abbreviation cprod := (prod_lane F one mul).
Local Abbreviation cumF := (cum_from F).

Lemma cum_from_length f a l : List.length (cumF f a l) = List.length l.
Proof. revert a. induction l as [|x l IH]; intros a; simpl; auto. Qed.

Lemma cum_from_app f a l1 l2 :
  cumF f a (l1 ++ l2) = cumF f a l1 ++ cumF f (fold_left f l1 a) l2.
Proof. revert a. induction l1 as [|x l1 IH]; intros a; simpl; [reflexivity|]. now rewrite IH. Qed.

Lemma cum_from_mul_scale c a l :
  cumF mul (mul c a) l = map (mul c) (cumF mul a l).
Proof.
  revert a. induction l as [|x l IH]; intros a; simpl; [reflexivity|].
  replace (mul (mul c a) x) with (mul c (mul a x)) by ring. now rewrite IH.
Qed.

Lemma cum_from_conj a l :
  map conj (cumF mul a l) = cumF mul (conj a) (map conj l).
Proof.
  revert a. induction l as [|x l IH]; intros a; simpl; [reflexivity|].
  now rewrite IH, conj_mul.
Qed.

Lemma fold_add_acc a l : fold_left add l a = add a (csum l).
Proof.
  unfold sum_lane. revert a. induction l as [|x l IH]; intros a; simpl; [ring|].
  rewrite (IH (add a x)), (IH (add zero x)). ring.
Qed.

Lemma sum_cons x l : csum (x :: l) = add x (csum l).
Proof. unfold sum_lane at 1. simpl. rewrite fold_add_acc. ring. Qed.

Lemma sum_app l1 l2 : csum (l1 ++ l2) = add (csum l1) (csum l2).
Proof.
  induction l1 as [|x l1 IH].
  - change (csum l2 = add zero (csum l2)). ring.
  - rewrite <- app_comm_cons, !sum_cons, IH. ring.
Qed.

Lemma sum_rev l : csum (rev l) = csum l.
Proof.
  induction l as [|x l IH]; [reflexivity|]. simpl rev.
  rewrite sum_app, !sum_cons, IH. change (csum []) with zero. ring.
Qed.

Lemma sum_scale_l c q g :
  csum (zip_with mul (map (mul c) q) g) = mul c (csum (zip_with mul q g)).
Proof.
  revert g. induction q as [|x q IH]; intros [|y g];
    try (change (zero = mul c zero); ring).
  change (csum (mul (mul c x) y :: zip_with mul (map (mul c) q) g)
          = mul c (csum (mul x y :: zip_with mul q g))).
  rewrite !sum_cons, IH. ring.
Qed.

Lemma sum_scale_r c q g :
  csum (zip_with mul g (map (mul c) q)) = mul c (csum (zip_with mul q g)).
Proof.
  revert g. induction q as [|x q IH]; intros [|y g];
    try (change (zero = mul c zero); ring).
  change (csum (mul y (mul c x) :: zip_with mul g (map (mul c) q))
          = mul c (csum (mul x y :: zip_with mul q g))).
  rewrite !sum_cons, IH. ring.
Qed.

(** [flip], [cumsum], [flip] is the sums of the suffixes. *)
Lemma cumsum_lane_snoc l x :
  cumsum_lane F zero add (l ++ [x]) = cumsum_lane F zero add l ++ [add (csum l) x].
Proof. unfold cumsum_lane. rewrite cum_from_app. reflexivity. Qed.

Lemma reversed_cumsum_lane l :
  rev (cumsum_lane F zero add (rev l)) = suffix_sums F zero add l.
Proof.
  induction l as [|x l IH]; [reflexivity|]. simpl.
  rewrite cumsum_lane_snoc, rev_app_distr, IH, sum_rev. simpl.
  f_equal. ring.
Qed.

Lemma suffix_sums_length l : List.length (suffix_sums F zero add l) = List.length l.
Proof. induction l; simpl; auto. Qed.

Lemma suffix_sums_nth_app l1 l2 :
  nth (List.length l1) (suffix_sums F zero add (l1 ++ l2)) zero
  = nth 0 (suffix_sums F zero add l2) zero.
Proof. induction l1 as [|x l1 IH]; [reflexivity|]. simpl. exact IH. Qed.

Lemma prod_lane_fold l : fold_left mul l one = cprod l.
Proof. reflexivity. Qed.

(** Element [k] of the closed form, at a lane split around position [k]. *)
Lemma closed_form_lane_at x1 xk x2 g1 gk g2 :
  List.length g1 = List.length x1 -> List.length g2 = List.length x2 ->
  let x := x1 ++ xk :: x2 in
  let p := cprod (map conj x1) in
  nth (List.length x1)
      (closed_form_lane F zero add mul div conj x (cumprod_lane F one mul x)
         (g1 ++ gk :: g2)) zero
  = div (add (mul (mul p (conj xk)) gk)
             (mul (mul p (conj xk))
                  (csum (zip_with mul (cumprod_lane F one mul (map conj x2)) g2))))
        (conj xk).
Proof.
  intros Hg1 Hg2. cbv zeta. unfold closed_form_lane.
  rewrite reversed_cumsum_lane.
  rewrite (nth_zip_with _ _ _ zero zero zero).
  2:{ unfold cumprod_lane.
      rewrite suffix_sums_length, zip_with_length, !length_map, cum_from_length,
        !length_app. simpl. lia. }
  2:{ rewrite length_map, length_app. simpl. lia. }
  f_equal.
  - unfold cumprod_lane. rewrite cum_from_conj, conj_one, map_app. simpl map.
    rewrite cum_from_app. simpl cum_from. rewrite prod_lane_fold.
    rewrite zip_with_app by (rewrite cum_from_length, length_map; lia).
    rewrite zip_with_cons.
    replace (List.length x1)
      with (List.length (zip_with mul (cum_from F mul one (map conj x1)) g1))
      by (rewrite zip_with_length, cum_from_length, length_map; lia).
    rewrite suffix_sums_nth_app. simpl.
    f_equal. rewrite <- sum_scale_l, <- cum_from_mul_scale.
    replace (mul (mul (cprod (map conj x1)) (conj xk)) one)
      with (mul (cprod (map conj x1)) (conj xk)) by ring.
    reflexivity.
  - rewrite map_app. simpl map.
    replace (List.length x1) with (List.length (map conj x1)) by apply length_map.
    apply nth_middle.
Qed.

(** The omitted products of the loop, whichever of its three branches is
    taken. *)
Lemma omitted_products_lane_eq cx1 cxk cx2 :
  let cx := cx1 ++ cxk :: cx2 in
  let p := cprod cx1 in
  omitted_products_lane F zero one mul cx (List.length cx) (List.length cx1)
  = p :: map (mul p) (cumprod_lane F one mul cx2).
Proof.
  cbv zeta. unfold omitted_products_lane.
  assert (Hs : skipn (List.length cx1 + 1) (cx1 ++ cxk :: cx2) = cx2).
  { replace (List.length cx1 + 1)%nat with (List.length (cx1 ++ [cxk]))
      by (rewrite length_app; reflexivity).
    change (cx1 ++ cxk :: cx2) with (cx1 ++ [cxk] ++ cx2).
    rewrite app_assoc, skipn_app, skipn_all, Nat.sub_diag. reflexivity. }
  assert (Hf : firstn (List.length cx1) (cx1 ++ cxk :: cx2) = cx1).
  { rewrite firstn_app, firstn_all, Nat.sub_diag. simpl. apply app_nil_r. }
  rewrite Hs, Hf.
  destruct (Nat.eqb_spec (List.length cx1) 0) as [E0|E0].
  - destruct cx1; [|discriminate]. simpl.
    f_equal. unfold cumprod_lane. rewrite <- cum_from_mul_scale.
    f_equal. ring.
  - destruct (Nat.eqb_spec (List.length cx1) (List.length (cx1 ++ cxk :: cx2) - 1))
      as [E1|E1].
    + rewrite length_app in E1. simpl in E1.
      destruct cx2; [reflexivity | simpl in E1; lia].
    + cbv zeta. simpl hd. rewrite zip_with_repeat_l. reflexivity.
Qed.

Lemma omitted_grad_lane_at cx1 cxk cx2 g1 gk g2 :
  List.length g1 = List.length cx1 ->
  let cx := cx1 ++ cxk :: cx2 in
  let p := cprod cx1 in
  omitted_grad_lane F zero one add mul cx (g1 ++ gk :: g2) (List.length cx)
    (List.length cx1)
  = add (mul gk p)
        (mul p (csum (zip_with mul (cumprod_lane F one mul cx2) g2))).
Proof.
  intros Hg1. cbv zeta. unfold omitted_grad_lane.
  rewrite omitted_products_lane_eq.
  replace (skipn (List.length cx1) (g1 ++ gk :: g2)) with (gk :: g2).
  2:{ rewrite <- Hg1, skipn_app, skipn_all, Nat.sub_diag. reflexivity. }
  rewrite zip_with_cons, sum_cons, sum_scale_r. reflexivity.
Qed.

(** On a lane without zeros, every element of the closed form is the sum
    over the omitted products. *)
Lemma closed_form_is_omitted_at x g k :
  Forall (fun a => a <> zero) x ->
  List.length g = List.length x -> (k < List.length x)%nat ->
  nth k (closed_form_lane F zero add mul div conj x (cumprod_lane F one mul x) g) zero
  = omitted_grad_lane F zero one add mul (map conj x) g (List.length x) k.
Proof.
  intros Hnz Hg Hk.
  assert (Hx : x = firstn k x ++ nth k x zero :: skipn (S k) x).
  { symmetry. apply firstn_skipn_middle. now rewrite (nth_error_nth' x zero Hk). }
  assert (Hgs : g = firstn k g ++ nth k g zero :: skipn (S k) g).
  { symmetry. apply firstn_skipn_middle. rewrite (nth_error_nth' g zero); [reflexivity | lia]. }
  assert (Hl1 : List.length (firstn k x) = k) by (rewrite length_firstn; lia).
  assert (Hl2 : List.length (firstn k g) = List.length (firstn k x))
    by (rewrite !length_firstn; lia).
  assert (Hl3 : List.length (skipn (S k) g) = List.length (skipn (S k) x))
    by (rewrite !length_skipn; lia).
  assert (Hxk : conj (nth k x zero) <> zero).
  { apply conj_nonzero. rewrite Forall_forall in Hnz. apply Hnz, nth_In, Hk. }
  set (x1 := firstn k x) in *. set (xk := nth k x zero) in *.
  set (x2 := skipn (S k) x) in *.
  set (g1 := firstn k g) in *. set (gk := nth k g zero) in *.
  set (g2 := skipn (S k) g) in *.
  clearbody x1 xk x2 g1 gk g2. clear Hnz Hg Hk. subst x g k.
  rewrite (closed_form_lane_at x1 xk x2 g1 gk g2) by lia.
  rewrite map_app. simpl map.
  replace (List.length (x1 ++ xk :: x2))
    with (List.length (map conj x1 ++ conj xk :: map conj x2))
    by (rewrite !length_app; simpl; now rewrite !length_map).
  replace (List.length x1) with (List.length (map conj x1)) by apply length_map.
  rewrite (omitted_grad_lane_at (map conj x1) (conj xk) (map conj x2) g1 gk g2)
    by (rewrite length_map; lia).
  field. exact Hxk.
Qed.
End FieldLanes.

(** ** cumprod_backward on tensors *)

Lemma list_set_app_r {A} (a b : list A) v :
  list_set (a ++ b) (List.length a) v = a ++ list_set b 0 v.
Proof. induction a as [|x a IH]; simpl; [destruct b; reflexivity | now rewrite IH]. Qed.

Lemma fold_list_set_prefix {A} (r : nat -> A) m (l : list A) :
  (m <= List.length l)%nat ->
  fold_left (fun lane k => list_set lane k (r k)) (seq 0 m) l
  = map r (seq 0 m) ++ skipn m l.
Proof.
  induction m as [|m IH]; intros Hm; [reflexivity|].
  rewrite seq_S, fold_left_app, map_app. simpl fold_left. simpl map.
  rewrite IH by lia.
  pose proof (list_set_app_r (map r (seq 0 m)) (skipn m l) (r m)) as H.
  rewrite length_map, length_seq in H. rewrite H, <- app_assoc. f_equal.
  destruct (skipn m l) as [|x rest] eqn:E.
  - assert (H0 : List.length (skipn m l) = 0%nat) by (now rewrite E).
    rewrite length_skipn in H0. lia.
  - change (r m :: rest = r m :: skipn (S m) l). f_equal.
    replace (skipn (S m) l) with (skipn 1 (skipn m l)) by apply (skipn_skipn 1 m l).
    now rewrite E.
Qed.

Lemma fold_list_set_all {A} (r : nat -> A) n (v : A) :
  fold_left (fun lane k => list_set lane k (r k)) (seq 0 n) (repeat v n)
  = map r (seq 0 n).
Proof.
  rewrite fold_list_set_prefix by (rewrite repeat_length; lia).
  rewrite skipn_all2 by (rewrite repeat_length; lia). apply app_nil_r.
Qed.

Lemma lanes_Forall {A} (dflt : A) (P : A -> Prop) o n i (l : list A) j :
  List.length l = (o * n * i)%nat -> Forall P l -> (j < o * i)%nat ->
  Forall P (nth j (lanes dflt o n i l) []).
Proof.
  intros Hl HP Hj. rewrite nth_lanes_lane by exact Hj.
  apply Forall_forall. intros x Hx. apply in_map_iff in Hx.
  destruct Hx as [k [<- Hk]]. apply in_seq in Hk.
  rewrite Forall_forall in HP. apply HP, nth_In.
  pose proof (lane_index_bound o n i j k Hj ltac:(lia)). lia.
Qed.

Lemma existsb_false_Forall {A} (f : A -> bool) (l : list A) :
  Forall (fun x => f x = false) l -> existsb f l = false.
Proof. induction 1 as [|x l Hx Hl IH]; simpl; [reflexivity | now rewrite Hx, IH]. Qed.

Section CumprodBackwardTensors.
Variable F : Type.
Variables (zero one : F) (add mul sub div : F -> F -> F) (opp inv : F -> F).
Variable conj : F -> F.
Variable eqb : F -> F -> bool.
Hypothesis Fth : field_theory zero one add mul sub opp div inv eq.
Hypothesis conj_mul : forall a b, conj (mul a b) = mul (conj a) (conj b).
Hypothesis conj_one : conj one = one.
Hypothesis conj_nonzero : forall a, a <> zero -> conj a <> zero.
Hypothesis eqb_zero : forall a, eqb a zero = true <-> a = zero.

Add Field Ffield2 : Fth.

Variable grad input : Tensor F.
Variable d : Z.
Hypothesis Hnn : nonneg_shape (sizes input).
Hypothesis Hvd : valid_dim (sizes input) d.
Hypothesis Hwf : well_formed input.
Hypothesis Hgs : sizes grad = sizes input.
Hypothesis Hgwf : well_formed grad.
Hypothesis Hnz : Forall (fun a => a <> zero) (data input).

Local Abbreviation shape := (sizes input).
Local Abbreviation o := (outer_size (sizes input) d).
Local Abbreviation i := (inner_size (sizes input) d).
Local Abbreviation n := (dim_size_of (sizes input) d).
Local Abbreviation X := (fun j => nth j (tensor_lanes zero input d) []).
Local Abbreviation G := (fun j => nth j (tensor_lanes zero grad d) []).
Local Abbreviation output := (cumprod F zero one mul input d).
Local Abbreviation input_conj := (tmap conj input).
Local Abbreviation closed :=
  (tmap2 div
     (reversed_cumsum F zero add (tmap2 mul (tmap conj output) grad) d)
     (tmap conj input)).

Lemma n_side : shape <> [] \/ n = 1%nat.
Proof.
  destruct (shape_nil_dec shape) as [E|E]; [right | left; exact E].
  unfold dim_size_of. rewrite E. destruct (Z.to_nat d); reflexivity.
Qed.

Lemma input_lanes : lanes_are zero shape d n input X.
Proof. apply lanes_are_of_shaped; auto. Qed.

Lemma grad_lanes : lanes_are zero shape d n grad G.
Proof.
  pose proof (lanes_are_of_shaped shape d Hnn Hvd zero grad) as H.
  unfold tensor_lanes in *. rewrite Hgs in *. apply H; [reflexivity|].
  unfold well_formed, numel in Hgwf. now rewrite Hgs in Hgwf.
Qed.

Lemma X_nonzero j : (j < o * i)%nat -> Forall (fun a => a <> zero) (X j).
Proof.
  intros Hj. unfold tensor_lanes. apply lanes_Forall; auto.
  rewrite <- (shape_split shape d Hnn Hvd). exact Hwf.
Qed.

Lemma X_length j : (j < o * i)%nat -> List.length (X j) = n.
Proof. intros Hj. destruct input_lanes as (_ & _ & H & _). now apply H. Qed.

Lemma G_length j : (j < o * i)%nat -> List.length (G j) = n.
Proof. intros Hj. destruct grad_lanes as (_ & _ & H & _). now apply H. Qed.

Lemma input_conj_lanes : lanes_are zero shape d n input_conj (fun j => map conj (X j)).
Proof. apply lanes_are_tmap with (dA := zero); auto. apply input_lanes. Qed.

Lemma closed_lanes :
  lanes_are zero shape d n closed
    (fun j => closed_form_lane F zero add mul div conj (X j)
                (cumprod_lane F one mul (X j)) (G j)).
Proof.
  pose proof n_side as Hn.
  unfold closed_form_lane.
  apply (lanes_are_tmap2 shape d zero zero zero div n _ _
           (fun j => rev (cumsum_lane F zero add
                            (rev (zip_with mul (map conj (cumprod_lane F one mul (X j))) (G j)))))
           (fun j => map conj (X j))); [|apply input_conj_lanes].
  unfold reversed_cumsum, flip, cumsum.
  apply (lanes_are_along_dim shape d Hnn Hvd zero zero (@rev F) n n _
           (fun j => cumsum_lane F zero add
                       (rev (zip_with mul (map conj (cumprod_lane F one mul (X j))) (G j)))));
    auto; [intros l Hl; now rewrite length_rev|].
  apply (lanes_are_along_dim shape d Hnn Hvd zero zero (cumsum_lane F zero add) n n _
           (fun j => rev (zip_with mul (map conj (cumprod_lane F one mul (X j))) (G j))));
    auto; [intros l Hl; unfold cumsum_lane; now rewrite cum_from_length|].
  apply (lanes_are_along_dim shape d Hnn Hvd zero zero (@rev F) n n _
           (fun j => zip_with mul (map conj (cumprod_lane F one mul (X j))) (G j)));
    auto; [intros l Hl; now rewrite length_rev|].
  apply (lanes_are_tmap2 shape d zero zero zero mul n _ _
           (fun j => map conj (cumprod_lane F one mul (X j))) G); [|apply grad_lanes].
  apply (lanes_are_tmap shape d zero zero conj n _
           (fun j => cumprod_lane F one mul (X j))).
  unfold cumprod.
  apply (lanes_are_along_dim shape d Hnn Hvd zero zero (cumprod_lane F one mul) n n _ X);
    auto; [intros l Hl; unfold cumprod_lane; now rewrite cum_from_length|].
  apply input_lanes.
Qed.
(** Lanes of at most one element: the closed form is [grad] itself. *)
Lemma closed_is_grad_small :
  (n <= 1)%nat \/ (o * i = 0)%nat ->
  sizes closed = sizes grad /\ data closed = data grad.
Proof.
  intros Hsmall.
  apply (lanes_are_ext shape d zero n closed grad
           (fun j => closed_form_lane F zero add mul div conj (X j)
                       (cumprod_lane F one mul (X j)) (G j)) G);
    [| apply closed_lanes | apply grad_lanes].
  intros j Hj. destruct Hsmall as [Hsmall | Hsmall]; [|lia].
  pose proof (X_length j Hj) as HX. pose proof (G_length j Hj) as HG.
  pose proof (X_nonzero j Hj) as HZ.
  destruct (nth j (tensor_lanes zero input d) []) as [|x [|x' xs]];
    destruct (nth j (tensor_lanes zero grad d) []) as [|g [|g' gs]];
    simpl in HX, HG; try lia; try reflexivity.
  unfold closed_form_lane, cumprod_lane, cumsum_lane. simpl.
  unfold zip_with. simpl. f_equal.
  rewrite conj_mul, conj_one. field.
  apply conj_nonzero. now inversion HZ.
Qed.

Hypothesis Hne : shape <> [].

Lemma size_as_nat : size input d = Z.of_nat n.
Proof.
  unfold size, dim_size_of.
  pose proof (dim_lt_rank shape d Hvd Hne) as Hlt.
  destruct (shape_parts shape d Hnn Hvd Hne) as [_ Hx].
  rewrite (nth_indep shape 0 1 Hlt). now rewrite Z2Nat.id.
Qed.

Lemma size_set_dim {A} (t : Tensor A) m :
  sizes t = set_dim_size shape d m -> size t d = Z.of_nat m.
Proof.
  intros Hs. unfold size. rewrite Hs, (set_dim_size_nonempty shape d Hnn Hvd m Hne).
  pose proof (dim_lt_rank shape d Hvd Hne) as Hlt.
  destruct (firstn_set_dim shape d Hvd m Hne) as (_ & H & _).
  etransitivity; [|exact H]. apply nth_indep.
  rewrite length_app, length_firstn. simpl. lia.
Qed.

Lemma slice_from_lanes m t phi k :
  lanes_are zero shape d m t phi ->
  lanes_are zero shape d (m - k) (slice zero t d (Z.of_nat k) None)
    (fun j => skipn k (phi j)).
Proof.
  intros Ht. unfold slice.
  apply (lanes_are_change shape d zero (m - k) _
           (fun j => (fun l => skipn (Z.to_nat (Z.of_nat k)) (firstn (List.length l) l)) (phi j))).
  - intros j Hj. cbv beta. now rewrite Nat2Z.id, firstn_all.
  - apply (lanes_are_along_dim shape d Hnn Hvd zero zero
             (fun l : list F => skipn (Z.to_nat (Z.of_nat k)) (firstn (List.length l) l))
             m (m - k) t phi); auto.
    intros l Hl. rewrite Nat2Z.id, firstn_all, length_skipn. lia.
Qed.

Lemma slice_to_lanes m t phi k :
  (k <= m)%nat ->
  lanes_are zero shape d m t phi ->
  lanes_are zero shape d k (slice zero t d 0 (Some (Z.of_nat k)))
    (fun j => firstn k (phi j)).
Proof.
  intros Hk Ht. unfold slice.
  apply (lanes_are_change shape d zero k _
           (fun j => (fun l => skipn (Z.to_nat 0) (firstn (Z.to_nat (Z.of_nat k)) l)) (phi j))).
  - intros j Hj. cbv beta. now rewrite Nat2Z.id.
  - apply (lanes_are_along_dim shape d Hnn Hvd zero zero
             (fun l : list F => skipn (Z.to_nat 0) (firstn (Z.to_nat (Z.of_nat k)) l))
             m k t phi); auto.
    intros l Hl. rewrite Nat2Z.id. simpl skipn. rewrite length_firstn. lia.
Qed.

Lemma cumprod_lanes m t phi :
  lanes_are zero shape d m t phi ->
  lanes_are zero shape d m (cumprod F zero one mul t d)
    (fun j => cumprod_lane F one mul (phi j)).
Proof.
  intros Ht. unfold cumprod.
  apply (lanes_are_along_dim shape d Hnn Hvd zero zero (cumprod_lane F one mul)
           m m t phi); auto.
  intros l Hl. unfold cumprod_lane. now rewrite cum_from_length.
Qed.

Lemma prod_keepdim_lanes m t phi :
  lanes_are zero shape d m t phi ->
  lanes_are zero shape d 1 (prod_keepdim F zero one mul t d)
    (fun j => [prod_lane F one mul (phi j)]).
Proof.
  intros Ht. unfold prod_keepdim.
  apply (lanes_are_along_dim shape d Hnn Hvd zero zero
           (fun l : list F => [prod_lane F one mul l]) m 1 t phi); auto.
Qed.

Lemma cat2_lanes ma mb a b phi psi :
  lanes_are zero shape d ma a phi -> lanes_are zero shape d mb b psi ->
  lanes_are zero shape d (ma + mb) (cat2 zero a b d) (fun j => phi j ++ psi j).
Proof.
  intros Ha Hb. unfold cat2.
  apply (lanes_are_along_dim2 shape d Hnn Hvd zero zero zero (@app F)
           ma mb (ma + mb) a b phi psi); auto.
  intros la lb Hla Hlb. rewrite length_app. lia.
Qed.

Lemma omitted_products_at_lanes k :
  (k < n)%nat ->
  lanes_are zero shape d (n - k)
    (omitted_products_at F zero one mul input_conj
       (full (set_dim_size shape d 1) (options grad) one) d (Z.of_nat n) (Z.of_nat k))
    (fun j => omitted_products_lane F zero one mul (map conj (X j)) n k).
Proof.
  intros Hk. unfold omitted_products_at, omitted_products_lane.
  pose proof input_conj_lanes as Hc.
  destruct (Z.eqb_spec (Z.of_nat k) 0) as [E0|E0];
    destruct (Nat.eqb_spec k 0) as [E0'|E0']; try lia.
  - (* k = 0 *)
    replace (n - k)%nat with (1 + (n - (k + 1)))%nat by lia.
    apply cat2_lanes.
    + apply (lanes_are_full shape d Hnn Hvd zero 1 (options grad) one). auto.
    + apply cumprod_lanes.
      replace (Z.of_nat k + 1) with (Z.of_nat (k + 1)) by lia.
      now apply slice_from_lanes.
  - destruct (Z.eqb_spec (Z.of_nat k) (Z.of_nat n - 1)) as [E1|E1];
      destruct (Nat.eqb_spec k (n - 1)) as [E1'|E1']; try lia.
    + (* k = n - 1 *)
      replace (n - k)%nat with 1%nat by lia.
      apply (prod_keepdim_lanes k). apply (slice_to_lanes n); [lia | exact Hc].
    + (* 0 < k < n - 1 *)
      cbv zeta.
      replace (n - k)%nat with (1 + (n - (k + 1)))%nat by lia.
      assert (Hpu : lanes_are zero shape d 1
                      (prod_keepdim F zero one mul
                         (slice zero input_conj d 0 (Some (Z.of_nat k))) d)
                      (fun j => [prod_lane F one mul (firstn k (map conj (X j)))])).
      { apply (prod_keepdim_lanes k). apply (slice_to_lanes n); [lia | exact Hc]. }
      assert (Hpf : lanes_are zero shape d (n - (k + 1))
                      (cumprod F zero one mul
                         (slice zero input_conj d (Z.of_nat k + 1) None) d)
                      (fun j => cumprod_lane F one mul (skipn (k + 1) (map conj (X j))))).
      { apply cumprod_lanes.
        replace (Z.of_nat k + 1) with (Z.of_nat (k + 1)) by lia.
        now apply slice_from_lanes. }
      apply cat2_lanes; [exact Hpu|].
      apply (lanes_are_tmap2 shape d zero zero zero mul (n - (k + 1)) _ _
               (fun j => repeat (hd zero [prod_lane F one mul (firstn k (map conj (X j)))])
                           (List.length (cumprod_lane F one mul
                                           (skipn (k + 1) (map conj (X j))))))
               (fun j => cumprod_lane F one mul (skipn (k + 1) (map conj (X j)))));
        [|exact Hpf].
      unfold expand_as.
      destruct Hpf as (Hsf & _ & Hlf & _).
      rewrite Hsf.
      destruct (set_dim_size_parts shape d Hnn Hvd (n - (k + 1)) (or_introl Hne))
        as (_ & -> & _).
      apply (lanes_are_change shape d zero (n - (k + 1)) _
               (fun j => (fun l => repeat (hd zero l) (n - (k + 1)))
                           [prod_lane F one mul (firstn k (map conj (X j)))])).
      * intros j Hj. cbv beta. now rewrite (Hlf j Hj).
      * apply (lanes_are_along_dim shape d Hnn Hvd zero zero
                 (fun l : list F => repeat (hd zero l) (n - (k + 1))) 1 (n - (k + 1)) _
                 (fun j => [prod_lane F one mul (firstn k (map conj (X j)))]));
          auto.
        intros l Hl. apply repeat_length.
Qed.
Local Abbreviation ones := (full (set_dim_size shape d 1) (options grad) one).
Let loop_body : outcome (Tensor F) -> Z -> outcome (Tensor F) :=
  fun (acc : outcome (Tensor F)) (k : Z) =>
    grad_input <- acc ;;
    let omitted_products :=
      omitted_products_at F zero one mul input_conj ones d (Z.of_nat n) k in
    TORCH_CHECK (size omitted_products d =? Z.of_nat n - k)
      "Expected omitted_products.size(dim) == dim_size - k to be true" ;;;
    Ok (select_copy_ zero grad_input d k
          (sum_dim F zero add
             (tmap2 mul (slice zero grad d k None) omitted_products) d)).

Lemma loop_body_step t phi k :
  (k < n)%nat ->
  lanes_are zero shape d n t phi ->
  exists t',
    loop_body (Ok t) (Z.of_nat k) = Ok t'
    /\ lanes_are zero shape d n t'
         (fun j => list_set (phi j) k
                     (omitted_grad_lane F zero one add mul (map conj (X j)) (G j) n k)).
Proof.
  intros Hk Ht.
  pose proof (omitted_products_at_lanes k Hk) as Hop.
  set (OP := omitted_products_at F zero one mul input_conj ones d (Z.of_nat n) (Z.of_nat k))
    in *.
  assert (Hsz : (size OP d =? Z.of_nat n - Z.of_nat k) = true).
  { destruct Hop as (Hs & _). rewrite (size_set_dim OP (n - k) Hs).
    apply Z.eqb_eq. lia. }
  set (src := sum_dim F zero add (tmap2 mul (slice zero grad d (Z.of_nat k) None) OP) d).
  exists (select_copy_ zero t d (Z.of_nat k) src).
  split.
  - unfold loop_body. cbv beta zeta. fold OP. cbn [bind]. rewrite Hsz. reflexivity.
  - assert (Hsrc : data src
                   = map (fun j => omitted_grad_lane F zero one add mul
                                     (map conj (X j)) (G j) n k)
                       (seq 0 (o * i))).
    { unfold src, sum_dim, sum_keepdim. cbn [data].
      apply (lanes_are_reduce_data shape d Hnn Hvd zero zero (sum_lane F zero add)
               (n - k) _
               (fun j => zip_with mul (skipn k (G j))
                           (omitted_products_lane F zero one mul (map conj (X j)) n k)));
        auto.
      apply (lanes_are_tmap2 shape d zero zero zero mul (n - k) _ _
               (fun j => skipn k (G j))
               (fun j => omitted_products_lane F zero one mul (map conj (X j)) n k));
        [|exact Hop].
      apply slice_from_lanes. apply grad_lanes. }
    apply (lanes_are_change shape d zero n _
             (fun j => list_set (phi j) (Z.to_nat (Z.of_nat k)) (nth j (data src) zero))).
    + intros j Hj. rewrite Nat2Z.id, Hsrc. f_equal.
      now rewrite nth_map_seq.
    + apply lanes_are_select_copy; auto.
      rewrite Hsrc. now rewrite length_map, length_seq.
Qed.

Lemma omitted_loop ks :
  forall t phi,
    (forall k, In k ks -> (k < n)%nat) ->
    lanes_are zero shape d n t phi ->
    exists t',
      fold_left loop_body (map Z.of_nat ks) (Ok t) = Ok t'
      /\ lanes_are zero shape d n t'
           (fun j => fold_left
                       (fun lane k =>
                          list_set lane k
                            (omitted_grad_lane F zero one add mul (map conj (X j)) (G j) n k))
                       ks (phi j)).
Proof.
  induction ks as [|k ks IH]; intros t phi Hks Ht.
  - exists t. split; [reflexivity | exact Ht].
  - destruct (loop_body_step t phi k (Hks k (or_introl eq_refl)) Ht) as (t1 & Hstep & Ht1).
    destruct (IH t1 _ (fun k' Hk' => Hks k' (or_intror Hk')) Ht1) as (t' & Hfold & Ht').
    exists t'. split; [|exact Ht'].
    change (fold_left loop_body (map Z.of_nat ks) (loop_body (Ok t) (Z.of_nat k)) = Ok t').
    rewrite Hstep. exact Hfold.
Qed.

(** The branch of the omitted products gives, without zeros in the input,
    the closed form. *)
Lemma omitted_is_closed :
  exists r2,
    cumprod_backward_omitted F zero one add mul grad input input_conj d (size input d)
      (full shape (options grad) zero) = Ok r2
    /\ sizes r2 = sizes closed /\ data r2 = data closed.
Proof.
  assert (H0 : lanes_are zero shape d n (full shape (options grad) zero)
                 (fun _ => repeat zero n)).
  { pose proof (lanes_are_full shape d Hnn Hvd zero n (options grad) zero n_side) as H.
    now rewrite (set_dim_size_same shape d Hnn Hvd) in H. }
  destruct (omitted_loop (seq 0 n) _ _ (fun k Hk => proj2 (proj1 (in_seq _ _ _) Hk)) H0)
    as (r2 & Hfold & Hr2).
  exists r2. split.
  - unfold cumprod_backward_omitted. rewrite size_as_nat.
    unfold irange. rewrite Nat2Z.id. exact Hfold.
  - apply (lanes_are_ext shape d zero n r2 closed _ _) with (2 := Hr2) (3 := closed_lanes).
    intros j Hj. cbv beta. rewrite fold_list_set_all.
    pose proof (X_length j Hj) as HX. pose proof (G_length j Hj) as HG.
    apply (nth_ext _ _ zero zero).
    + rewrite length_map, length_seq. unfold closed_form_lane.
      rewrite zip_with_length, length_rev. unfold cumsum_lane.
      rewrite cum_from_length, length_rev, zip_with_length, !length_map.
      unfold cumprod_lane. rewrite cum_from_length. lia.
    + intros k Hk. rewrite length_map, length_seq in Hk.
      rewrite nth_map_seq by exact Hk.
      rewrite <- HX.
      symmetry.
      apply (closed_form_is_omitted_at F zero one add mul sub div opp inv conj
               Fth conj_mul conj_one conj_nonzero); auto; try lia.
      now apply X_nonzero.
Qed.
End CumprodBackwardTensors.

Lemma any_item_no_zero {F} (zero : F) (eqb : F -> F -> bool) (t : Tensor F) :
  (forall a, eqb a zero = true <-> a = zero) ->
  Forall (fun a => a <> zero) (data t) ->
  any_item (tmap (fun x => eqb x zero) t) = false.
Proof.
  intros Heqb Hnz. unfold any_item, tmap. cbn [data].
  apply existsb_false_Forall. apply Forall_forall. intros b Hb.
  apply in_map_iff in Hb. destruct Hb as [x [<- Hx]].
  rewrite Forall_forall in Hnz. specialize (Hnz x Hx).
  destruct (eqb x zero) eqn:E; [|reflexivity].
  apply Heqb in E. contradiction.
Qed.

(** C2 (amended).  In exact arithmetic (the numbers are the elements of a
    field with a multiplicative conjugation): on an input without zeros, with
    [output] its cumulative product, [cumprod_backward] returns the closed
    form [reversed_cumsum(conj(output) * grad, dim) / conj(input)] (in the two
    early returns [grad], which has the same elements), and the branch of the
    omitted products, run on the same input, gives a tensor with the same
    elements. *)
Theorem cumprod_backward_closed_form_agrees :
  forall (F : Type) (zero one : F) (add mul sub div : F -> F -> F)
         (opp inv conj : F -> F) (eqb : F -> F -> bool),
    field_theory zero one add mul sub opp div inv eq ->
    (forall a b, conj (mul a b) = mul (conj a) (conj b)) ->
    conj one = one ->
    (forall a, a <> zero -> conj a <> zero) ->
    (forall a, eqb a zero = true <-> a = zero) ->
    forall (grad_mode : bool) (grad input : Tensor F) (dim_ d : Z),
      nonneg_shape (sizes input) -> well_formed input ->
      sizes grad = sizes input -> well_formed grad ->
      maybe_wrap_dim dim_ (dim input) = Ok d ->
      Forall (fun a => a <> zero) (data input) ->
      let output := cumprod F zero one mul input d in
      let closed :=
        tmap2 div (reversed_cumsum F zero add (tmap2 mul (tmap conj output) grad) d)
          (tmap conj input) in
      (exists r,
         cumprod_backward F zero one add mul div conj eqb grad_mode grad input dim_ output
         = Ok r
         /\ sizes r = sizes closed /\ data r = data closed)
      /\ (1 < numel input -> size input d <> 1 ->
          cumprod_backward F zero one add mul div conj eqb grad_mode grad input dim_ output
          = Ok closed
          /\ exists r2,
               cumprod_backward_omitted F zero one add mul grad input (tmap conj input)
                 d (size input d) (full (sizes input) (options grad) zero) = Ok r2
               /\ sizes r2 = sizes closed /\ data r2 = data closed).
Proof.
  intros F zero one add mul sub div opp inv conj eqb Fth conj_mul conj_one conj_nonzero
    eqb_zero grad_mode grad input dim_ d Hnn Hwf Hgs Hgwf Hwrap Hnz. cbv zeta.
  assert (Hvd : valid_dim (sizes input) d) by (exact (maybe_wrap_dim_range _ _ _ Hwrap)).
  pose proof (any_item_no_zero zero eqb input eqb_zero Hnz) as Hany.
  pose proof (shape_split (sizes input) d Hnn Hvd) as Hsplit.
  assert (Hne : 1 < numel input -> sizes input <> []).
  { intros H E. unfold numel in H. rewrite E in H. unfold prodZ in H. simpl in H. lia. }
  assert (Hbranch : 1 < numel input -> size input d <> 1 ->
            cumprod_backward F zero one add mul div conj eqb grad_mode grad input dim_
              (cumprod F zero one mul input d)
            = Ok (tmap2 div
                    (reversed_cumsum F zero add
                       (tmap2 mul (tmap conj (cumprod F zero one mul input d)) grad) d)
                    (tmap conj input))).
  { intros H1 H2. unfold cumprod_backward.
    destruct (Z.leb_spec (numel input) 1); [lia|].
    rewrite Hwrap. cbn [bind].
    destruct (Z.eqb_spec (size input d) 1); [contradiction|].
    rewrite Hany. reflexivity. }
  split.
  - destruct (Z.leb_spec (numel input) 1) as [Hn1|Hn1].
    + exists grad. rewrite cumprod_backward_early by (left; exact Hn1).
      destruct (closed_is_grad_small F zero one add mul sub div opp inv conj Fth conj_mul
                  conj_one conj_nonzero grad input d Hnn Hvd Hwf Hgs Hgwf Hnz)
        as [Hs Hd]; [|split; [reflexivity | split; congruence]].
      unfold numel in Hn1.
      destruct (le_lt_dec (dim_size_of (sizes input) d) 1) as [Hle|Hgt]; [left; exact Hle|].
      right. nia.
    + destruct (Z.eq_dec (size input d) 1) as [Hs1|Hs1].
      * exists grad.
        rewrite cumprod_backward_early by (right; exists d; split; assumption).
        destruct (closed_is_grad_small F zero one add mul sub div opp inv conj Fth conj_mul
                    conj_one conj_nonzero grad input d Hnn Hvd Hwf Hgs Hgwf Hnz)
          as [Hs Hd]; [|split; [reflexivity | split; congruence]].
        left.
        pose proof (size_as_nat F input d Hnn Hvd (Hne Hn1)) as Hsz.
        lia.
      * eexists. split; [apply Hbranch; assumption | split; reflexivity].
  - intros H1 H2. split; [now apply Hbranch|].
    apply (omitted_is_closed F zero one add mul sub div opp inv conj Fth conj_mul
             conj_one conj_nonzero grad input d Hnn Hvd Hwf Hgs Hgwf Hnz (Hne H1)).
Qed.

Lemma Qc_eq_bool_zero (a : Qc) :
  Qc_eq_bool a (Q2Qc (Qmake 0 1)) = true <-> a = Q2Qc (Qmake 0 1).
Proof.
  split; [apply Qc_eq_bool_correct|].
  intros ->. unfold Qc_eq_bool.
  destruct (Qc_eq_dec (Q2Qc (Qmake 0 1)) (Q2Qc (Qmake 0 1))); [reflexivity | contradiction].
Qed.

(** Over the rationals (conjugation is the identity), at the input [2, 3]. *)
Lemma cumprod_backward_closed_form_agrees_witness :
  let opts := mkOptions kDouble kCPU Strided in
  let input := mkTensor [2] opts [Q2Qc (Qmake 2 1); Q2Qc (Qmake 3 1)] in
  let grad := mkTensor [2] opts [Q2Qc (Qmake 1 1); Q2Qc (Qmake 1 1)] in
  let output := cumprod Qc (Q2Qc (Qmake 0 1)) (Q2Qc (Qmake 1 1)) Qcmult input 0 in
  let closed :=
    tmap2 Qcdiv
      (reversed_cumsum Qc (Q2Qc (Qmake 0 1)) Qcplus
         (tmap2 Qcmult (tmap (fun x => x) output) grad) 0)
      (tmap (fun x => x) input) in
  Forall (fun a => a <> Q2Qc (Qmake 0 1)) (data input)
  /\ maybe_wrap_dim (-1) (dim input) = Ok 0
  /\ exists r,
       cumprod_backward Qc (Q2Qc (Qmake 0 1)) (Q2Qc (Qmake 1 1)) Qcplus Qcmult Qcdiv
         (fun x => x) Qc_eq_bool true grad input (-1) output = Ok r
       /\ sizes r = sizes closed /\ data r = data closed.
Proof.
  cbv zeta.
  assert (Hnz : Forall (fun a => a <> Q2Qc (Qmake 0 1))
                  (data (mkTensor [2] (mkOptions kDouble kCPU Strided)
                           [Q2Qc (Qmake 2 1); Q2Qc (Qmake 3 1)])))
    by (repeat constructor; intro H; discriminate H).
  assert (Hw : maybe_wrap_dim (-1)
                 (dim (mkTensor [2] (mkOptions kDouble kCPU Strided)
                         [Q2Qc (Qmake 2 1); Q2Qc (Qmake 3 1)])) = Ok 0)
    by reflexivity.
  split; [exact Hnz | split; [exact Hw|]].
  apply (cumprod_backward_closed_form_agrees Qc (Q2Qc (Qmake 0 1)) (Q2Qc (Qmake 1 1))
           Qcplus Qcmult Qcminus Qcdiv Qcopp Qcinv (fun x => x) Qc_eq_bool
           Qcft (fun a b => eq_refl) eq_refl (fun a H => H)
           Qc_eq_bool_zero
           true
           (mkTensor [2] (mkOptions kDouble kCPU Strided)
              [Q2Qc (Qmake 1 1); Q2Qc (Qmake 1 1)])
           (mkTensor [2] (mkOptions kDouble kCPU Strided)
              [Q2Qc (Qmake 2 1); Q2Qc (Qmake 3 1)])
           (-1) 0);
    [ repeat constructor; lia | reflexivity | reflexivity | reflexivity
    | exact Hw | exact Hnz ].
Defined.

(** C2, the claim as stated fails in floating point: on the doubles
    [2^-700, 2^-700, 2^700, 2^700], none of them zero, with a gradient of
    ones, the cumulative product underflows to zero from the second position
    on; the closed form, which [cumprod_backward] returns, holds 1 at
    position 0, the sum of the omitted products holds [2^700] there. *)
Lemma cumprod_backward_double_counterexample :
  let p2 := fun e : Z => binary_normalize 53 1024 1 e false in
  let opts := mkOptions kDouble kCPU Strided in
  let input := mkTensor [4] opts [p2 (-700); p2 (-700); p2 700; p2 700] in
  let grad := mkTensor [4] opts (repeat (d_of_int64 1) 4) in
  let output := cumprod double d_zero (d_of_int64 1) d_mul input 0 in
  Forall (fun x => SFeqb x d_zero = false) (data input)
  /\ data output = [p2 (-700); d_zero; d_zero; d_zero]
  /\ cumprod_backward double d_zero (d_of_int64 1) d_add d_mul d_div (fun x => x) SFeqb
       true grad input 0 output
     = Ok (mkTensor [4] opts [d_of_int64 1; d_zero; d_zero; d_zero])
  /\ cumprod_backward_omitted double d_zero (d_of_int64 1) d_add d_mul grad input input
       0 4 (full [4] opts d_zero)
     = Ok (mkTensor [4] opts [p2 700; S754_infinity false; d_zero; d_zero])
  /\ SFeqb (d_of_int64 1) (p2 700) = false.
Proof.
  cbv zeta. split; [repeat constructor|].
  repeat split; vm_compute; reflexivity.
Qed.

(** ** diff *)

Lemma size_set_dim_size (shape : list Z) (d : Z) (n : nat) :
  nonneg_shape shape -> valid_dim shape d -> shape <> [] ->
  nth (Z.to_nat d) (set_dim_size shape d n) 0 = Z.of_nat n
  /\ List.length (set_dim_size shape d n) = List.length shape.
Proof.
  intros Hnn Hvd Hne.
  pose proof (dim_lt_rank shape d Hvd Hne) as Hlt.
  rewrite (set_dim_size_nonempty shape d Hnn Hvd n Hne). split.
  - rewrite app_nth2; rewrite length_firstn; [|lia].
    replace (Z.to_nat d - Nat.min (Z.to_nat d) (List.length shape))%nat with 0%nat by lia.
    reflexivity.
  - rewrite length_app, length_firstn, length_cons, length_skipn. lia.
Qed.

Lemma lanes_are_same {A} (dflt : A) shape d n (a b : Tensor A) phi :
  sizes a = sizes b -> data a = data b ->
  lanes_are dflt shape d n a phi -> lanes_are dflt shape d n b phi.
Proof. unfold lanes_are. intros <- <-. auto. Qed.

Lemma adjacent_length {A} (f : A -> A -> A) l :
  List.length (adjacent f l) = (List.length l - 1)%nat.
Proof.
  unfold adjacent. rewrite zip_with_length. destruct l; simpl; lia.
Qed.

Lemma zip_with_firstn_r {A B C} (f : A -> B -> C) a b :
  zip_with f a (firstn (List.length a) b) = zip_with f a b.
Proof.
  revert b. induction a as [|x a IH]; intros [|y b]; simpl; try reflexivity.
  unfold zip_with in *. simpl. now rewrite IH.
Qed.

Lemma iter_adjacent_length {A} (f : A -> A -> A) k l :
  List.length (Nat.iter k (adjacent f) l) = (List.length l - k)%nat.
Proof.
  induction k as [|k IH]; simpl; [lia|]. rewrite adjacent_length, IH. lia.
Qed.

Section DiffProperties.
Context {A : Type}.
Variables (dflt zero : A) (sub logical_xor : A -> A -> A).
Variable shape : list Z.
Variable d : Z.
Hypothesis Hnn : nonneg_shape shape.
Hypothesis Hne : shape <> [].
Hypothesis Hd : - Z.of_nat (List.length shape) <= d < Z.of_nat (List.length shape).

Local Abbreviation d' := (if d <? 0 then d + Z.of_nat (List.length shape) else d).

Lemma wrapped_valid : valid_dim shape d'.
Proof.
  unfold valid_dim. pose proof (nonempty_length _ Hne).
  destruct (Z.ltb_spec d 0); lia.
Qed.

Lemma rank_set_dim n (t : Tensor A) :
  sizes t = set_dim_size shape d' n ->
  dim t = Z.of_nat (List.length shape) /\ size t d' = Z.of_nat n.
Proof.
  intros Hs. unfold dim, size. rewrite Hs.
  destruct (size_set_dim_size shape d' n Hnn wrapped_valid Hne) as [H1 H2].
  now rewrite H1, H2.
Qed.

Lemma wrap_dim_of (t : Tensor A) n :
  sizes t = set_dim_size shape d' n ->
  maybe_wrap_dim d (dim t) = Ok d'
  /\ size_at t d = Ok (Z.of_nat n).
Proof.
  intros Hs. destruct (rank_set_dim n t Hs) as [Hr Hz].
  pose proof (nonempty_length _ Hne) as Hl.
  assert (Hw : maybe_wrap_dim d (dim t) = Ok d').
  { rewrite maybe_wrap_dim_ok by (rewrite Hr; lia). rewrite Hr.
    now replace (Z.max 1 (Z.of_nat (List.length shape))) with (Z.of_nat (List.length shape)) by lia. }
  split; [exact Hw|].
  unfold size_at, maybe_wrap_dim_scalar.
  replace (dim t <=? 0) with false by (symmetry; apply Z.leb_gt; lia).
  simpl. rewrite Hw. simpl. now rewrite Hz.
Qed.

(** [narrow] inside the bounds of the dimension succeeds and cuts every
    lane. *)
Lemma narrow_lanes (t : Tensor A) n phi (start len : nat) :
  (start + len <= n)%nat ->
  lanes_are dflt shape d' n t phi ->
  exists t',
    narrow dflt t d (Z.of_nat start) (Z.of_nat len) = Ok t'
    /\ options t' = options t
    /\ lanes_are dflt shape d' len t'
         (fun j => skipn start (firstn (start + len) (phi j))).
Proof.
  intros Hb Ht. pose proof Ht as (Hs & _).
  destruct (rank_set_dim n t Hs) as [Hr Hz].
  destruct (wrap_dim_of t n Hs) as [Hw Hsz].
  pose proof (nonempty_length _ Hne) as Hl.
  eexists. split; [|split].
  - unfold narrow.
    replace (0 <? dim t) with true by (symmetry; apply Z.ltb_lt; lia).
    simpl. rewrite Hsz. simpl.
    assert (Hst : (if Z.of_nat start =? Z.of_nat n then Ok (Z.of_nat start)
                   else maybe_wrap_dim (Z.of_nat start) (Z.of_nat n))
                  = Ok (Z.of_nat start)).
    { destruct (Z.eqb_spec (Z.of_nat start) (Z.of_nat n)); [reflexivity|].
      rewrite maybe_wrap_dim_ok by lia.
      now replace (Z.of_nat start <? 0) with false by (symmetry; apply Z.ltb_ge; lia). }
    rewrite Hst. simpl.
    replace ((0 <=? Z.of_nat len) && (Z.of_nat start <=? Z.of_nat n - Z.of_nat len))
      with true by (symmetry; apply andb_true_iff; split; apply Z.leb_le; lia).
    simpl. rewrite Hw. simpl. reflexivity.
  - reflexivity.
  - unfold slice.
    replace (Z.to_nat (Z.of_nat start + Z.of_nat len)) with (start + len)%nat by lia.
    rewrite Nat2Z.id.
    apply (lanes_are_along_dim shape d' Hnn wrapped_valid dflt dflt
             (fun l => skipn start (firstn (start + len) l)) n len t phi);
      auto.
    intros l Hlen. rewrite length_skipn, length_firstn. lia.
Qed.

Local Abbreviation op_of b := (if b then logical_xor else sub).

(** The two [narrow]s of one iteration and their elementwise combination. *)
Lemma narrow_pair (f : A -> A -> A) (t : Tensor A) m phi :
  lanes_are dflt shape d' (S m) t phi ->
  exists hi lo,
    narrow dflt t d 1 (Z.of_nat m) = Ok hi
    /\ narrow dflt t d 0 (Z.of_nat m) = Ok lo
    /\ options hi = options t
    /\ lanes_are dflt shape d' m (tmap2 f hi lo) (fun j => adjacent f (phi j)).
Proof.
  intros Ht.
  destruct (narrow_lanes t (S m) phi 1 m ltac:(lia) Ht) as (hi & Hhi & Hoh & Lhi).
  destruct (narrow_lanes t (S m) phi 0 m ltac:(lia) Ht) as (lo & Hlo & Hol & Llo).
  pose proof (lanes_are_tmap2 shape d' dflt dflt dflt f m hi lo _ _ Lhi Llo) as Lr.
  exists hi, lo. split; [exact Hhi|]. split; [exact Hlo|]. split; [exact Hoh|].
  eapply lanes_are_change; [|exact Lr].
  intros j Hj. cbv beta.
  destruct Ht as (_ & _ & Hlen & _). specialize (Hlen j Hj).
  unfold adjacent. simpl (0 + m)%nat. simpl (skipn 0 _).
  replace (skipn 1 (firstn (1 + m) (phi j))) with (tl (phi j)).
  - replace m with (List.length (tl (phi j))) at 1
      by (destruct (phi j); simpl in *; lia).
    apply zip_with_firstn_r.
  - rewrite firstn_all2 by lia. now destruct (phi j).
Qed.

(** One iteration of the loop of [diff_helper] takes the differences of the
    neighbours in every lane. *)
Lemma diff_helper_body_lanes (is_kBool : bool) (t : Tensor A) m phi i :
  lanes_are dflt shape d' (S m) t phi ->
  exists t',
    diff_helper_body dflt sub logical_xor is_kBool d (Ok (t, Z.of_nat m)) i
    = Ok (t', Z.of_nat m - 1)
    /\ options t' = options t
    /\ lanes_are dflt shape d' m t' (fun j => adjacent (op_of is_kBool) (phi j)).
Proof.
  intros Ht.
  destruct (narrow_pair (op_of is_kBool) t m phi Ht) as (hi & lo & Hhi & Hlo & Hoh & Lr).
  exists (tmap2 (op_of is_kBool) hi lo). split; [|split].
  - unfold diff_helper_body. simpl bind.
    rewrite Hhi. simpl bind. rewrite Hlo. simpl bind.
    destruct is_kBool; reflexivity.
  - simpl. exact Hoh.
  - exact Lr.
Qed.

(** The loop after [k] iterations, started on a dimension of size [n]. *)
Lemma diff_helper_loop (is_kBool : bool) (k : nat) :
  forall (t : Tensor A) n phi,
    (k <= n)%nat ->
    lanes_are dflt shape d' n t phi ->
    exists t',
      fold_left (diff_helper_body dflt sub logical_xor is_kBool d)
        (irange (Z.of_nat k)) (Ok (t, Z.of_nat n - 1))
      = Ok (t', Z.of_nat n - 1 - Z.of_nat k)
      /\ options t' = options t
      /\ lanes_are dflt shape d' (n - k) t'
           (fun j => Nat.iter k (adjacent (op_of is_kBool)) (phi j)).
Proof.
  induction k as [|k IH]; intros t n phi Hk Ht.
  - exists t. simpl. rewrite Z.sub_0_r, Nat.sub_0_r. auto.
  - destruct (IH t n phi ltac:(lia) Ht) as (t1 & H1 & Ho1 & L1).
    replace (Z.of_nat (S k)) with (Z.of_nat k + 1) by lia.
    rewrite irange_succ by lia. rewrite fold_left_app. simpl fold_left.
    rewrite H1.
    replace (n - k)%nat with (S (n - S k)) in L1 by lia.
    replace (Z.of_nat n - 1 - Z.of_nat k) with (Z.of_nat (n - S k)) by lia.
    destruct (diff_helper_body_lanes is_kBool t1 (n - S k) _ (Z.of_nat k) L1)
      as (t2 & H2 & Ho2 & L2).
    exists t2. rewrite H2. split; [f_equal; f_equal; lia|].
    split; [congruence|]. exact L2.
Qed.

(** [diff_helper] on a tensor whose lanes along the dimension are known. *)
Lemma diff_helper_on (t : Tensor A) sz phi (n : Z) :
  0 <= n ->
  lanes_are dflt shape d' sz t phi ->
  exists t',
    diff_helper dflt zero sub logical_xor t n d = Ok t'
    /\ options t' = options t
    /\ lanes_are dflt shape d' (sz - Nat.min (Z.to_nat n) sz) t'
         (fun j => Nat.iter (Nat.min (Z.to_nat n) sz)
                     (adjacent (op_of (ScalarType_eqb (scalar_type t) kBool)))
                     (phi j)).
Proof.
  intros Hn Lt. unfold diff_helper.
  destruct (Z.eqb_spec n 0) as [->|Hn0].
  - eexists. split; [reflexivity|]. split; [reflexivity|].
    change (Z.to_nat 0) with 0%nat. rewrite Nat.min_0_l, Nat.sub_0_r.
    eapply lanes_are_same; [| |exact Lt]; reflexivity.
  - pose proof Lt as (Hs & _).
    destruct (wrap_dim_of t sz Hs) as [_ Hsz].
    rewrite Hsz. simpl bind.
    set (k := Nat.min (Z.to_nat n) sz).
    assert (Hk : (if Z.of_nat sz <=? n then Z.of_nat sz else n) = Z.of_nat k).
    { unfold k. destruct (Z.leb_spec (Z.of_nat sz) n); lia. }
    rewrite Hk.
    destruct (diff_helper_loop (ScalarType_eqb (scalar_type t) kBool) k t sz _
                ltac:(unfold k; lia) Lt) as (t' & Ht & Ho & Lt').
    rewrite Ht. simpl. exists t'. auto.
Qed.

(** What a lane description says of the tensor itself. *)
Lemma lanes_are_facts (t : Tensor A) sz phi :
  lanes_are dflt shape d' sz t phi ->
  sizes t = set_dim_size shape d' sz
  /\ well_formed t
  /\ tensor_lanes dflt t d' = map phi (seq 0 (outer_size shape d' * inner_size shape d')).
Proof.
  intros Lt. pose proof Lt as (Hs & Hl & _). split; [exact Hs|]. split.
  - unfold well_formed, numel. rewrite Hs, Hl.
    symmetry. apply prodZ_set_dim_size; auto using wrapped_valid.
  - apply (lanes_are_tensor_lanes shape d' Hnn wrapped_valid dflt sz t phi); auto.
Qed.
End DiffProperties.

Lemma tensor_lanes_length {A} (dflt : A) (t : Tensor A) d :
  List.length (tensor_lanes dflt t d)
  = (outer_size (sizes t) d * inner_size (sizes t) d)%nat.
Proof. unfold tensor_lanes, lanes. now rewrite length_map, length_seq. Qed.

Lemma lanes_are_map_lanes {A} (dflt : A) shape d n (t self : Tensor A) f :
  nonneg_shape shape -> valid_dim shape d -> shape <> [] ->
  sizes self = shape ->
  lanes_are dflt shape d n t (fun j => f (nth j (tensor_lanes dflt self d) [])) ->
  tensor_lanes dflt t d = map f (tensor_lanes dflt self d).
Proof.
  intros Hnn Hvd Hne Hs Ht.
  rewrite (lanes_are_tensor_lanes shape d Hnn Hvd dflt n t _ (or_introl Hne) Ht).
  pose proof (map_nth_seq (tensor_lanes dflt self d) []) as E.
  rewrite tensor_lanes_length, Hs in E.
  rewrite <- E at 1. now rewrite map_map.
Qed.


(** A well-formed tensor of rank at least 1, seen along one of its
    dimensions. *)
Lemma self_lanes {A} (dflt : A) (self : Tensor A) (d : Z) :
  nonneg_shape (sizes self) -> well_formed self ->
  1 <= dim self -> - dim self <= d < dim self ->
  let d' := if d <? 0 then d + Z.of_nat (List.length (sizes self)) else d in
  sizes self <> []
  /\ - Z.of_nat (List.length (sizes self)) <= d < Z.of_nat (List.length (sizes self))
  /\ valid_dim (sizes self) d'
  /\ lanes_are dflt (sizes self) d' (dim_size_of (sizes self) d') self
       (fun j => nth j (tensor_lanes dflt self d') []).
Proof.
  intros Hnn Hwf Hrank Hd. cbv zeta. unfold dim in *.
  assert (Hne : sizes self <> []).
  { intros E. rewrite E in Hrank. simpl in Hrank. lia. }
  assert (Hvd : valid_dim (sizes self)
                  (if d <? 0 then d + Z.of_nat (List.length (sizes self)) else d))
    by (apply wrapped_valid; auto).
  split; [exact Hne|]. split; [lia|]. split; [exact Hvd|].
  apply lanes_are_of_shaped; auto.
Qed.

(** X1.  [diff_helper] along a valid dimension never raises; the size of the
    dimension drops by [n], but not below zero, and every lane of the result
    is the lane of the input after [min n size] rounds of differences of
    neighbours ([logical_xor] of neighbours for a tensor of booleans). *)
Theorem diff_helper_differences :
  forall (A : Type) (dflt zero : A) (sub logical_xor : A -> A -> A)
         (self : Tensor A) (n d : Z),
    nonneg_shape (sizes self) -> well_formed self ->
    1 <= dim self -> - dim self <= d < dim self -> 0 <= n ->
    let d' := if d <? 0 then d + dim self else d in
    let sz := dim_size_of (sizes self) d' in
    let k := Nat.min (Z.to_nat n) sz in
    let op := if ScalarType_eqb (scalar_type self) kBool then logical_xor else sub in
    exists t,
      diff_helper dflt zero sub logical_xor self n d = Ok t
      /\ options t = options self
      /\ sizes t = set_dim_size (sizes self) d' (sz - k)
      /\ well_formed t
      /\ tensor_lanes dflt t d'
         = map (Nat.iter k (adjacent op)) (tensor_lanes dflt self d').
Proof.
  intros A dflt zero sub logical_xor self n d Hnn Hwf Hrank Hd Hn. cbv zeta.
  destruct (self_lanes dflt self d Hnn Hwf Hrank Hd) as (Hne & Hd' & Hvd & L0).
  unfold dim in *.
  destruct (diff_helper_on dflt zero sub logical_xor (sizes self) d Hnn Hne Hd'
              self _ _ n Hn L0) as (t & Ht & Ho & Lt).
  exists t. split; [exact Ht|]. split; [exact Ho|].
  destruct (lanes_are_facts dflt (sizes self) d Hnn Hne Hd' t _ _ Lt) as (Hs & Hw & _).
  split; [exact Hs|]. split; [exact Hw|].
  exact (lanes_are_map_lanes dflt (sizes self) _ _ t self _ Hnn Hvd Hne eq_refl Lt).
Qed.

(** For the list [1, 2, 4, 7, 0]: one round of differences, [1, 2, 3, -7]. *)
Lemma diff_helper_differences_witness :
  let self := mkTensor [5] (mkOptions kLong kCPU Strided) [1; 2; 4; 7; 0] in
  exists t,
    diff_helper 0 0 Z.sub Z.lxor self 1 0 = Ok t
    /\ options t = options self
    /\ sizes t = [4]
    /\ well_formed t
    /\ tensor_lanes 0 t 0 = [[1; 2; 3; -7]].
Proof.
  cbv zeta.
  apply (diff_helper_differences Z 0 0 Z.sub Z.lxor
           (mkTensor [5] (mkOptions kLong kCPU Strided) [1; 2; 4; 7; 0]) 1 0).
  - repeat constructor; lia.
  - reflexivity.
  - unfold dim; simpl; lia.
  - unfold dim; simpl; lia.
  - lia.
Defined.

(** X2.  differences compose: [n1] rounds followed by [n2] rounds are
    [n1 + n2] rounds, also when the rounds exhaust the dimension. *)
Theorem diff_helper_compose :
  forall (A : Type) (dflt zero : A) (sub logical_xor : A -> A -> A)
         (self : Tensor A) (n1 n2 d : Z),
    nonneg_shape (sizes self) -> well_formed self ->
    1 <= dim self -> - dim self <= d < dim self -> 0 <= n1 -> 0 <= n2 ->
    exists t1 t2 t,
      diff_helper dflt zero sub logical_xor self n1 d = Ok t1
      /\ diff_helper dflt zero sub logical_xor t1 n2 d = Ok t2
      /\ diff_helper dflt zero sub logical_xor self (n1 + n2) d = Ok t
      /\ sizes t2 = sizes t /\ options t2 = options t /\ data t2 = data t.
Proof.
  intros A dflt zero sub logical_xor self n1 n2 d Hnn Hwf Hrank Hd Hn1 Hn2.
  destruct (self_lanes dflt self d Hnn Hwf Hrank Hd) as (Hne & Hd' & Hvd & L0).
  set (shape := sizes self) in *.
  set (d' := if d <? 0 then d + Z.of_nat (List.length shape) else d) in *.
  set (sz := dim_size_of shape d') in *.
  destruct (diff_helper_on dflt zero sub logical_xor shape d Hnn Hne Hd'
              self _ _ n1 Hn1 L0) as (t1 & Ht1 & Ho1 & L1).
  destruct (diff_helper_on dflt zero sub logical_xor shape d Hnn Hne Hd'
              t1 _ _ n2 Hn2 L1) as (t2 & Ht2 & Ho2 & L2).
  destruct (diff_helper_on dflt zero sub logical_xor shape d Hnn Hne Hd'
              self _ _ (n1 + n2) ltac:(lia) L0) as (t & Ht & Ho & L).
  exists t1, t2, t. split; [exact Ht1|]. split; [exact Ht2|]. split; [exact Ht|].
  set (k1 := Nat.min (Z.to_nat n1) sz) in *.
  set (k2 := Nat.min (Z.to_nat n2) (sz - k1)) in *.
  set (k := Nat.min (Z.to_nat (n1 + n2)) sz) in *.
  assert (Hk : k = (k2 + k1)%nat) by (unfold k, k1, k2; lia).
  replace (sz - k1 - k2)%nat with (sz - k)%nat in L2 by lia.
  assert (Hty : scalar_type t1 = scalar_type self) by (unfold scalar_type; now rewrite Ho1).
  rewrite Hty in L2.
  assert (Hs : sizes t2 = sizes t /\ data t2 = data t).
  { eapply lanes_are_ext; [|exact L2|exact L].
    intros j _. cbv beta. rewrite Hk, Nat.iter_add. reflexivity. }
  destruct Hs as [Hs Hdata].
  split; [exact Hs|]. split; [congruence | exact Hdata].
Qed.

Lemma diff_helper_compose_witness :
  let self := mkTensor [5] (mkOptions kLong kCPU Strided) [1; 2; 4; 7; 0] in
  exists t1 t2 t,
    diff_helper 0 0 Z.sub Z.lxor self 1 0 = Ok t1
    /\ diff_helper 0 0 Z.sub Z.lxor t1 2 0 = Ok t2
    /\ diff_helper 0 0 Z.sub Z.lxor self (1 + 2) 0 = Ok t
    /\ sizes t2 = sizes t /\ options t2 = options t /\ data t2 = data t.
Proof.
  cbv zeta.
  apply (diff_helper_compose Z 0 0 Z.sub Z.lxor
           (mkTensor [5] (mkOptions kLong kCPU Strided) [1; 2; 4; 7; 0]) 1 2 0).
  - repeat constructor; lia.
  - reflexivity.
  - unfold dim; simpl; lia.
  - unfold dim; simpl; lia.
  - lia.
  - lia.
Defined.

Lemma adjacent_cum_from {F} (add sub : F -> F -> F) :
  (forall a b, sub (add a b) a = b) ->
  forall l a, zip_with sub (cum_from F add a l) (a :: cum_from F add a l) = l.
Proof.
  intros Hsub. induction l as [|y l IH]; intros a; [reflexivity|].
  cbn [cum_from]. rewrite zip_with_cons, Hsub. f_equal. apply IH.
Qed.

(** X3.  [diff] undoes [cumsum]: one round of differences of the cumulative
    sums along a dimension gives back the input without its first element
    along that dimension. *)
Theorem diff_of_cumsum :
  forall (F : Type) (zero : F) (add sub logical_xor : F -> F -> F)
         (self : Tensor F) (d : Z),
    (forall a b, sub (add a b) a = b) ->
    scalar_type self <> kBool ->
    nonneg_shape (sizes self) -> well_formed self ->
    1 <= dim self -> - dim self <= d < dim self ->
    let d' := if d <? 0 then d + dim self else d in
    1 <= size self d' ->
    exists r s,
      diff_helper zero zero sub logical_xor (cumsum F zero add self d') 1 d = Ok r
      /\ narrow zero self d 1 (size self d' - 1) = Ok s
      /\ sizes r = sizes s /\ data r = data s.
Proof.
  intros F zero add sub logical_xor self d Hsub Hty Hnn Hwf Hrank Hd. cbv zeta.
  intros Hsz.
  destruct (self_lanes zero self d Hnn Hwf Hrank Hd) as (Hne & Hd' & Hvd & L0).
  unfold dim in *.
  set (shape := sizes self) in *.
  set (d' := if d <? 0 then d + Z.of_nat (List.length shape) else d) in *.
  set (sz := dim_size_of shape d') in *.
  assert (Hsize : size self d' = Z.of_nat sz).
  { destruct (rank_set_dim shape d Hnn Hne Hd' sz self) as [_ H];
      [symmetry; apply set_dim_size_same; auto | exact H]. }
  rewrite Hsize in *.
  destruct sz as [|m] eqn:Esz; [lia|].
  assert (Lc : lanes_are zero shape d' (S m) (cumsum F zero add self d')
                 (fun j => cumsum_lane F zero add (nth j (tensor_lanes zero self d') []))).
  { unfold cumsum.
    apply (lanes_are_along_dim shape d' Hnn Hvd zero zero _ (S m) (S m) self _); auto.
    intros l Hl. unfold cumsum_lane. now rewrite cum_from_length. }
  destruct (diff_helper_on zero zero sub logical_xor shape d Hnn Hne Hd'
              (cumsum F zero add self d') _ _ 1 ltac:(lia) Lc) as (r & Hr & _ & Lr).
  destruct (narrow_lanes zero shape d Hnn Hne Hd' self (S m) _ 1 m ltac:(lia) L0)
    as (s & Hs & _ & Ls).
  exists r, s. split; [exact Hr|]. split.
  - replace (Z.of_nat (S m) - 1) with (Z.of_nat m) by lia. exact Hs.
  - change (Nat.min (Z.to_nat 1) (S m)) with 1%nat in Lr.
    replace (S m - 1)%nat with m in Lr by lia.
    eapply lanes_are_ext; [|exact Lr|exact Ls].
    intros j Hj. cbv beta.
    destruct L0 as (_ & _ & Hlen & _). specialize (Hlen j Hj). cbv beta in Hlen.
    assert (Hb : ScalarType_eqb (scalar_type (cumsum F zero add self d')) kBool = false).
    { change (scalar_type (cumsum F zero add self d')) with (scalar_type self).
      destruct (ScalarType_eqb_spec (scalar_type self) kBool); [contradiction | reflexivity]. }
    rewrite Hb. simpl Nat.iter.
    rewrite firstn_all2 by lia.
    destruct (nth j (tensor_lanes zero self d') []) as [|x l]; [reflexivity|].
    unfold adjacent, cumsum_lane. cbn [cum_from tl skipn].
    apply adjacent_cum_from. exact Hsub.
Qed.

Lemma diff_of_cumsum_witness :
  let self := mkTensor [4] (mkOptions kLong kCPU Strided) [3; 1; 4; 1] in
  exists r s,
    diff_helper 0 0 Z.sub Z.lxor (cumsum Z 0 Z.add self 0) 1 0 = Ok r
    /\ narrow 0 self 0 1 (size self 0 - 1) = Ok s
    /\ sizes r = sizes s /\ data r = data s.
Proof.
  cbv zeta.
  apply (diff_of_cumsum Z 0 Z.add Z.sub Z.lxor
           (mkTensor [4] (mkOptions kLong kCPU Strided) [3; 1; 4; 1]) 0).
  - intros a b. lia.
  - discriminate.
  - repeat constructor; lia.
  - reflexivity.
  - unfold dim; simpl; lia.
  - unfold dim; simpl; lia.
  - unfold size; simpl; lia.
Defined.





(** *** When [diff] raises *)

Lemma fold_checks (c : Z -> bool) msg l :
  fold_left (fun acc i => acc ;;; TORCH_CHECK (c i) msg) l (Ok tt) = Ok tt
  <-> forall i, In i l -> c i = true.
Proof.
  assert (Hraise : forall l e,
             fold_left (fun acc i => acc ;;; TORCH_CHECK (c i) msg) l (Raise e)
             = Raise e).
  { induction l0 as [|x l0 IH]; intros e; simpl; auto. }
  induction l as [|x l IH]; simpl.
  - split; [intros _ i [] | reflexivity].
  - unfold TORCH_CHECK at 2. destruct (c x) eqn:E.
    + rewrite IH. split; [intros H i [->|Hi]; auto | intros H i Hi; apply H; auto].
    + rewrite Hraise. split; [discriminate|].
      intros H. rewrite (H x (or_introl eq_refl)) in E. discriminate.
Qed.

Lemma In_irange i n : In i (irange n) <-> 0 <= i < n.
Proof.
  unfold irange. rewrite in_map_iff. split.
  - intros (k & <- & Hk). apply in_seq in Hk. lia.
  - intros H. exists (Z.to_nat i). split; [lia|]. apply in_seq. lia.
Qed.

Lemma maybe_wrap_dim_scalar_ok d r :
  1 <= r ->
  (exists d', maybe_wrap_dim_scalar d r false = Ok d') <-> - r <= d < r.
Proof.
  intros Hr. unfold maybe_wrap_dim_scalar.
  replace (r <=? 0) with false by (symmetry; apply Z.leb_gt; lia). simpl.
  split.
  - intros (d' & H). destruct (Z_le_dec (- r) d); [destruct (Z_lt_dec d r)|]; try lia;
      rewrite maybe_wrap_dim_raise in H by lia; discriminate.
  - intros H. rewrite maybe_wrap_dim_ok by lia. eauto.
Qed.

Lemma diff_check_compatible_shape_iff {A} (self : Tensor A) other d :
  1 <= dim self ->
  diff_check_compatible_shape self other d = Ok tt <-> diff_compatible self other d.
Proof.
  intros Hrank. destruct other as [o|]; simpl; [|tauto].
  unfold maybe_wrap_dim_scalar.
  replace (dim self <=? 0) with false by (symmetry; apply Z.leb_gt; lia). simpl.
  destruct (Z_le_dec (- dim self) d) as [H1|H1];
    [destruct (Z_lt_dec d (dim self)) as [H2|H2]|].
  - rewrite maybe_wrap_dim_ok by lia. simpl.
    replace (Z.max 1 (dim self)) with (dim self) by lia.
    unfold TORCH_CHECK at 1.
    destruct (Z.eqb_spec (dim o) (dim self)) as [E|E]; simpl.
    + rewrite fold_checks. split.
      * intros H. split; [lia|]. split; [exact E|].
        intros i Hi Hne. specialize (H i). rewrite In_irange, E in H.
        specialize (H Hi). apply orb_true_iff in H. destruct H as [H|H]; lia.
      * intros (_ & _ & H) i Hi. apply In_irange in Hi. rewrite E in Hi.
        apply orb_true_iff.
        destruct (Z.eq_dec i (if d <? 0 then d + dim self else d)) as [->|Hne];
          [right; apply Z.eqb_refl | left; apply Z.eqb_eq; auto].
    + split; [discriminate | intros (_ & H & _); contradiction].
  - rewrite maybe_wrap_dim_raise by lia. simpl.
    split; [discriminate | intros (H & _); lia].
  - rewrite maybe_wrap_dim_raise by lia. simpl.
    split; [discriminate | intros (H & _); lia].
Qed.

Lemma diff_check_iff {A} (self : Tensor A) n d p a :
  diff_check self n d p a = Ok tt
  <-> 1 <= dim self /\ diff_compatible self p d /\ diff_compatible self a d.
Proof.
  unfold diff_check. unfold TORCH_CHECK at 1.
  destruct (Z.leb_spec 1 (dim self)) as [H|H]; simpl.
  - rewrite <- !diff_check_compatible_shape_iff by exact H.
    destruct (diff_check_compatible_shape self p d) as [[]|e]; simpl.
    + tauto.
    + split; [discriminate | intros (_ & H1 & _); discriminate].
  - split; [discriminate | intros (H1 & _); lia].
Qed.

(** Two lists that agree outside position [k]. *)
Lemma same_except (l1 l2 : list Z) k :
  List.length l1 = List.length l2 -> (k < List.length l1)%nat ->
  (forall i, (i < List.length l1)%nat -> i <> k -> nth i l1 0 = nth i l2 0) ->
  l1 = firstn k l2 ++ nth k l1 0 :: skipn (S k) l2.
Proof.
  revert l1 l2. induction k as [|k IH]; intros [|x l1] [|y l2] Hl Hk H;
    simpl in *; try lia.
  - f_equal. apply (nth_ext _ _ 0 0); [lia|].
    intros i Hi. apply (H (S i)); lia.
  - f_equal; [apply (H 0%nat); lia|].
    apply IH; [lia | lia |]. intros i Hi Hne. apply (H (S i)); lia.
Qed.

Lemma lanes_are_rebase {A} (dflt : A) shape d n m (t : Tensor A) phi :
  nonneg_shape shape -> valid_dim shape d -> shape <> [] ->
  lanes_are dflt (set_dim_size shape d n) d m t phi ->
  lanes_are dflt shape d m t phi.
Proof.
  intros Hnn Hvd Hne. unfold lanes_are.
  rewrite set_dim_size_twice by auto.
  destruct (set_dim_size_parts shape d Hnn Hvd n (or_introl Hne)) as (-> & _ & ->).
  auto.
Qed.

Lemma nonneg_set_dim_size shape d n :
  nonneg_shape shape -> nonneg_shape (set_dim_size shape d n).
Proof.
  intros Hnn. unfold set_dim_size. destruct shape as [|s shape]; [constructor|].
  unfold nonneg_shape in *. apply Forall_app. split.
  - apply nonneg_firstn. exact Hnn.
  - constructor; [lia|]. apply nonneg_skipn. exact Hnn.
Qed.

Section DiffWithNeighbours.
Context {A : Type}.
Variables (dflt zero : A) (sub logical_xor : A -> A -> A).
Variable shape : list Z.
Variable d : Z.
Hypothesis Hnn : nonneg_shape shape.
Hypothesis Hne : shape <> [].
Hypothesis Hd : - Z.of_nat (List.length shape) <= d < Z.of_nat (List.length shape).

Local Abbreviation d' := (if d <? 0 then d + Z.of_nat (List.length shape) else d).

(** A tensor of the sizes of [shape] outside the dimension, seen along the
    dimension. *)
Lemma other_lanes (o : Tensor A) :
  nonneg_shape (sizes o) -> well_formed o ->
  dim o = Z.of_nat (List.length shape) ->
  (forall i, 0 <= i < Z.of_nat (List.length shape) -> i <> d' ->
             size o i = nth (Z.to_nat i) shape 0) ->
  lanes_are dflt shape d' (dim_size_of (sizes o) d') o
    (fun j => nth j (tensor_lanes dflt o d') []).
Proof.
  intros Hon Howf Hrank Hsame.
  pose proof (wrapped_valid shape d Hne Hd) as Hvd.
  pose proof (dim_lt_rank shape d' Hvd Hne) as Hlt.
  assert (Hlen : List.length (sizes o) = List.length shape) by (unfold dim in Hrank; lia).
  assert (Hso : sizes o = set_dim_size shape d' (dim_size_of (sizes o) d')).
  { rewrite (set_dim_size_nonempty shape d' Hnn Hvd _ Hne).
    unfold dim_size_of.
    assert (Hk : 0 <= nth (Z.to_nat d') (sizes o) 1).
    { apply (proj1 (Forall_forall _ _) Hon). apply nth_In. lia. }
    rewrite Z2Nat.id by exact Hk.
    rewrite (nth_indep (sizes o) 1 0) by lia.
    apply same_except; [exact Hlen | lia |].
    intros i Hi Hik. specialize (Hsame (Z.of_nat i)).
    unfold size in Hsame. rewrite Nat2Z.id in Hsame. apply Hsame; lia. }
  assert (Hvo : valid_dim (sizes o) d').
  { unfold valid_dim in *. rewrite Hlen. exact Hvd. }
  pose proof (lanes_are_of_shaped (sizes o) d' Hon Hvo dflt o eq_refl Howf) as L.
  rewrite Hso in L at 1.
  apply (lanes_are_rebase dflt shape d' _ _ o _ Hnn Hvd Hne) in L.
  exact L.
Qed.

Lemma at_cat2_lanes (a b : Tensor A) na nb phi psi :
  lanes_are dflt shape d' na a phi -> lanes_are dflt shape d' nb b psi ->
  exists c,
    at_cat2 dflt a b d = Ok c
    /\ options c = options a
    /\ lanes_are dflt shape d' (na + nb) c (fun j => phi j ++ psi j).
Proof.
  intros La Lb. pose proof La as (Hs & _).
  destruct (wrap_dim_of shape d Hnn Hne Hd a na Hs) as [Hw _].
  pose proof (wrapped_valid shape d Hne Hd) as Hvd.
  exists (cat2 dflt a b d'). split; [|split].
  - unfold at_cat2. rewrite Hw. reflexivity.
  - reflexivity.
  - unfold cat2.
    apply (lanes_are_along_dim2 shape d' Hnn Hvd dflt dflt dflt (@app A) na nb (na + nb)
             a b phi psi); auto.
    intros la lb Hla Hlb. rewrite length_app. lia.
Qed.

(** With [n >= 1] and a dimension in range, [diff_helper] succeeds on what
    [prepend_append_on_dim] builds from compatible tensors. *)
Lemma diff_with_neighbours (self : Tensor A) (p a : option (Tensor A)) n sz phi :
  1 <= n ->
  lanes_are dflt shape d' sz self phi ->
  match p with
  | Some o => exists m psi, lanes_are dflt shape d' m o psi
  | None => True
  end ->
  match a with
  | Some o => exists m psi, lanes_are dflt shape d' m o psi
  | None => True
  end ->
  has_value p || has_value a = true ->
  exists c t,
    prepend_append_on_dim dflt self p a d = Ok c
    /\ diff_helper dflt zero sub logical_xor c n d = Ok t.
Proof.
  intros Hn Ls Hp Ha Hsome.
  assert (Hfin : forall c m chi, lanes_are dflt shape d' m c chi ->
             exists t, diff_helper dflt zero sub logical_xor c n d = Ok t).
  { intros c m chi Lc.
    destruct (diff_helper_on dflt zero sub logical_xor shape d Hnn Hne Hd c m chi n
                ltac:(lia) Lc) as (t & Ht & _). eauto. }
  destruct p as [p|], a as [a|]; simpl in Hsome; try discriminate.
  - destruct Hp as (mp & psi & Lp). destruct Ha as (ma & chi & La).
    destruct (at_cat2_lanes p self _ _ _ _ Lp Ls) as (ps & Hps & _ & Lps).
    destruct (at_cat2_lanes ps a _ _ _ _ Lps La) as (c & Hc & _ & Lc).
    destruct (Hfin c _ _ Lc) as (t & Ht).
    exists c, t. split; [|exact Ht]. simpl. rewrite Hps. simpl. exact Hc.
  - destruct Hp as (mp & psi & Lp).
    destruct (at_cat2_lanes p self _ _ _ _ Lp Ls) as (c & Hc & _ & Lc).
    destruct (Hfin c _ _ Lc) as (t & Ht).
    exists c, t. split; [exact Hc | exact Ht].
  - destruct Ha as (ma & chi & La).
    destruct (at_cat2_lanes self a _ _ _ _ Ls La) as (c & Hc & _ & Lc).
    destruct (Hfin c _ _ Lc) as (t & Ht).
    exists c, t. split; [exact Hc | exact Ht].
Qed.
End DiffWithNeighbours.

Lemma compatible_lanes {A} (dflt : A) (self : Tensor A) (o : option (Tensor A)) d :
  nonneg_shape (sizes self) -> sizes self <> [] ->
  tensor_ok o -> diff_compatible self o d ->
  match o with
  | Some o =>
      exists m psi,
        lanes_are dflt (sizes self)
          (if d <? 0 then d + Z.of_nat (List.length (sizes self)) else d) m o psi
  | None => True
  end.
Proof.
  intros Hnn Hne Hok Hc. destruct o as [o|]; [|exact I].
  destruct Hok as [Hon Howf]. destruct Hc as (Hd & Hrank & Hsame).
  unfold dim in Hd, Hrank, Hsame.
  eexists _, _.
  apply (other_lanes dflt (sizes self) d Hnn Hne Hd o Hon Howf); [exact Hrank|].
  intros i Hi Hik. apply Hsame; assumption.
Qed.

(** X5.  [diff] raises in exactly three cases: a tensor of rank 0; a tensor to
    prepend or append that has another rank than the input, or another size
    outside the dimension, or comes with a dimension out of range; and, for
    [n <> 0], a dimension out of range.  The number of rounds [n] is never
    checked, and with [n = 0] and nothing to prepend or append neither is the
    dimension. *)
Theorem diff_succeeds_iff :
  forall (A : Type) (dflt zero : A) (sub logical_xor : A -> A -> A)
         (self : Tensor A) (n d : Z) (prepend append : option (Tensor A)),
    nonneg_shape (sizes self) -> well_formed self ->
    tensor_ok prepend -> tensor_ok append -> 0 <= n ->
    (exists t, diff dflt zero sub logical_xor self n d prepend append = Ok t)
    <-> (1 <= dim self
         /\ diff_compatible self prepend d
         /\ diff_compatible self append d
         /\ (n = 0 \/ - dim self <= d < dim self)).
Proof.
  intros A dflt zero sub logical_xor self n d p a Hnn Hwf Hpok Haok Hn. split.
  - intros (t & Ht). unfold diff in Ht.
    apply bind_ok in Ht. destruct Ht as ([] & Hchk & Ht).
    pose proof (proj1 (diff_check_iff self n d p a) Hchk) as (Hrank & Hp & Ha).
    split; [exact Hrank|]. split; [exact Hp|]. split; [exact Ha|].
    destruct (Z.eq_dec n 0) as [Hn0|Hn0]; [left; exact Hn0 | right].
    destruct p as [p|]; [exact (proj1 Hp)|].
    destruct a as [a|]; [exact (proj1 Ha)|].
    simpl in Ht. unfold diff_helper in Ht.
    replace (n =? 0) with false in Ht by (symmetry; apply Z.eqb_neq; exact Hn0).
    apply bind_ok in Ht. destruct Ht as (sz & Hsz & _).
    unfold size_at in Hsz. apply bind_ok in Hsz. destruct Hsz as (d1 & Hd1 & _).
    apply (maybe_wrap_dim_scalar_ok d (dim self) Hrank). eauto.
  - intros (Hrank & Hp & Ha & Hnd).
    unfold diff. rewrite (proj2 (diff_check_iff self n d p a)) by auto.
    simpl bind.
    destruct (Z.eqb_spec n 0) as [Hn0|Hn0].
    + rewrite orb_true_r. unfold diff_helper. rewrite Hn0. simpl. eauto.
    + rewrite orb_false_r.
      assert (Hd : - dim self <= d < dim self).
      { destruct Hnd as [?|?]; [contradiction | assumption]. }
      destruct (self_lanes dflt self d Hnn Hwf Hrank Hd) as (Hne & Hd' & Hvd & L0).
      destruct (negb (has_value p) && negb (has_value a)) eqn:E.
      * destruct (diff_helper_on dflt zero sub logical_xor (sizes self) d Hnn Hne Hd'
                    self _ _ n Hn L0) as (t & Ht & _). eauto.
      * destruct (diff_with_neighbours dflt zero sub logical_xor (sizes self) d
                    Hnn Hne Hd' self p a n _ _ ltac:(lia) L0
                    (compatible_lanes dflt self p d Hnn Hne Hpok Hp)
                    (compatible_lanes dflt self a d Hnn Hne Haok Ha))
          as (c & t & Hc & Ht).
        { destruct p, a; simpl in *; auto; discriminate. }
        rewrite Hc. simpl. eauto.
Qed.

(** At [2] prepended to [5, 9]: the differences [3, 4]. *)
Lemma diff_succeeds_iff_witness :
  let self := mkTensor [2] (mkOptions kLong kCPU Strided) [5; 9] in
  let pre := mkTensor [1] (mkOptions kLong kCPU Strided) [2] in
  (exists t, diff 0 0 Z.sub Z.lxor self 1 0 (Some pre) None = Ok t)
  <-> (1 <= dim self
       /\ diff_compatible self (Some pre) 0
       /\ diff_compatible self None 0
       /\ (1 = 0 \/ - dim self <= 0 < dim self)).
Proof.
  cbv zeta.
  apply (diff_succeeds_iff Z 0 0 Z.sub Z.lxor
           (mkTensor [2] (mkOptions kLong kCPU Strided) [5; 9]) 1 0
           (Some (mkTensor [1] (mkOptions kLong kCPU Strided) [2])) None).
  - repeat constructor; lia.
  - reflexivity.
  - split; [repeat constructor; lia | reflexivity].
  - exact I.
  - lia.
Defined.

(** X6.  with [n = 0], [diff] returns a copy of the input: the tensors to
    prepend and append are checked and then left out. *)
Theorem diff_zero_rounds :
  forall (A : Type) (dflt zero : A) (sub logical_xor : A -> A -> A)
         (self : Tensor A) (d : Z) (prepend append : option (Tensor A)) (t : Tensor A),
    diff dflt zero sub logical_xor self 0 d prepend append = Ok t ->
    sizes t = sizes self /\ options t = options self /\ data t = data self.
Proof.
  intros A dflt zero sub logical_xor self d p a t H. unfold diff in H.
  apply bind_ok in H. destruct H as (_ & _ & H).
  rewrite orb_true_r in H. unfold diff_helper in H. simpl in H.
  injection H as <-. auto.
Qed.

Lemma diff_zero_rounds_witness :
  let self := mkTensor [2] (mkOptions kLong kCPU Strided) [5; 9] in
  let pre := mkTensor [1] (mkOptions kLong kCPU Strided) [2] in
  let t := mkTensor [2] (mkOptions kLong kCPU Strided) [5; 9] in
  diff 0 0 Z.sub Z.lxor self 0 0 (Some pre) None = Ok t
  /\ sizes t = sizes self /\ options t = options self /\ data t = data self.
Proof.
  cbv zeta. split; [reflexivity|].
  apply (diff_zero_rounds Z 0 0 Z.sub Z.lxor
           (mkTensor [2] (mkOptions kLong kCPU Strided) [5; 9]) 0
           (Some (mkTensor [1] (mkOptions kLong kCPU Strided) [2])) None).
  reflexivity.
Defined.

(** ** cummax / cummin: the running extremum *)

Section CumMaxMinScan.
Context {T1 : Type}.
Variable isnan_ : T1 -> bool.
Variable op : T1 -> T1 -> bool.
Variable garbage : T1.
Variable values0 : Z -> T1.
Variable indices0 : Z -> Z.
Variable self : list T1.

Local Abbreviation mem := (as_memory garbage self).
Local Abbreviation run := (cummax_cummin_run isnan_ op mem values0 indices0 1 1 1).

(** Position [i] of the outputs holds the locals [out] and [idx] after
    iteration [i]. *)
Lemma cummax_cummin_1d_nth (i : nat) :
  (i < List.length self)%nat ->
  nth i (fst (cummax_cummin_1d isnan_ op garbage values0 indices0 self)) garbage
  = out (run (Z.of_nat i + 1))
  /\ nth i (snd (cummax_cummin_1d isnan_ op garbage values0 indices0 self)) (-1)
     = idx (run (Z.of_nat i + 1)).
Proof.
  intros Hi. unfold cummax_cummin_1d, cummax_cummin_helper, read_memory.
  simpl fst. simpl snd.
  rewrite !nth_map_irange by lia.
  destruct (run_buffers isnan_ op mem values0 indices0 1 1 1 (List.length self) (Z.of_nat i))
    as [Hv Hx]; [lia|].
  rewrite Z.mul_1_r in Hv, Hx. split; [apply Hv | apply Hx]; lia.
Qed.

Lemma cummax_cummin_1d_length :
  List.length (fst (cummax_cummin_1d isnan_ op garbage values0 indices0 self))
  = List.length self
  /\ List.length (snd (cummax_cummin_1d isnan_ op garbage values0 indices0 self))
     = List.length self.
Proof.
  unfold cummax_cummin_1d, read_memory, irange. simpl.
  rewrite !length_map, !length_seq. lia.
Qed.

Lemma run_step (k : nat) :
  run (Z.of_nat (S k) + 1)
  = cummax_cummin_body isnan_ op mem 1 1 1 (run (Z.of_nat k + 1)) (Z.of_nat (S k)).
Proof.
  replace (Z.of_nat (S k) + 1) with ((Z.of_nat k + 1) + 1) by lia.
  rewrite run_succ by lia. f_equal. lia.
Qed.

Lemma run_first :
  out (run (Z.of_nat 0 + 1)) = mem 0 /\ idx (run (Z.of_nat 0 + 1)) = 0.
Proof.
  change (Z.of_nat 0 + 1) with (0 + 1). rewrite run_succ by lia.
  unfold cummax_cummin_body. cbn [out idx]. change (0 * 1) with 0.
  split; match goal with |- context [if ?c then _ else _] => destruct c end;
    reflexivity.
Qed.

(** Without NaNs, for a comparison that is total and transitive on the
    values that are not NaN: the running extremum compares [op] to every
    element met so far. *)
Hypothesis op_total :
  forall x y, isnan_ x = false -> isnan_ y = false -> op x y = true \/ op y x = true.
Hypothesis op_trans :
  forall x y z, isnan_ x = false -> isnan_ y = false -> isnan_ z = false ->
                op x y = true -> op y z = true -> op x z = true.

Lemma run_dominates (k : nat) :
  (forall m, (m <= k)%nat -> isnan_ (nth m self garbage) = false) ->
  isnan_ (out (run (Z.of_nat k + 1))) = false
  /\ forall m, (m <= k)%nat -> op (out (run (Z.of_nat k + 1))) (nth m self garbage) = true.
Proof.
  induction k as [|k IH]; intros Hnan.
  - destruct run_first as [Ho _]. rewrite Ho.
    change 0 with (Z.of_nat 0). rewrite as_memory_nth.
    assert (H0 : isnan_ (nth 0 self garbage) = false) by (apply Hnan; lia).
    split; [exact H0|].
    intros m Hm. replace m with 0%nat by lia.
    destruct (op_total _ _ H0 H0); assumption.
  - destruct IH as [IHn IHd]; [intros m Hm; apply Hnan; lia|].
    rewrite run_step. set (st := run (Z.of_nat k + 1)) in *.
    unfold cummax_cummin_body. cbn [out]. rewrite Z.mul_1_r, as_memory_nth.
    assert (Hk : isnan_ (nth (S k) self garbage) = false) by (apply Hnan; lia).
    rewrite Hk. rewrite IHn. simpl.
    destruct (op (nth (S k) self garbage) (out st)) eqn:E.
    + split; [exact Hk|].
      intros m Hm. destruct (Nat.eq_dec m (S k)) as [->|Hne].
      * destruct (op_total _ _ Hk Hk); assumption.
      * apply (op_trans _ (out st) _ Hk IHn); [apply Hnan; lia | exact E | apply IHd; lia].
    + split; [exact IHn|].
      intros m Hm. destruct (Nat.eq_dec m (S k)) as [->|Hne].
      * destruct (op_total _ _ IHn Hk) as [H|H]; [exact H | congruence].
      * apply IHd; lia.
Qed.
End CumMaxMinScan.

(** A NaN replaces the running value, and nothing but a NaN replaces a
    NaN. *)
Section CumMaxMinNaN.
Context {T1 : Type}.
Variable isnan_ : T1 -> bool.
Variable op : T1 -> T1 -> bool.
Variable garbage : T1.
Variable values0 : Z -> T1.
Variable indices0 : Z -> Z.
Variable self : list T1.

Local Abbreviation mem := (as_memory garbage self).
Local Abbreviation run := (cummax_cummin_run isnan_ op mem values0 indices0 1 1 1).

Lemma run_nan (k : nat) :
  forall p, (p <= k)%nat -> isnan_ (nth p self garbage) = true ->
  isnan_ (out (run (Z.of_nat k + 1))) = true
  /\ exists j, idx (run (Z.of_nat k + 1)) = Z.of_nat j
               /\ (p <= j)%nat
               /\ last_nan_upto isnan_ garbage self k j.
Proof.
  induction k as [|k IH]; intros p Hp Hnan.
  - assert (p = 0%nat) by lia. subst p.
    destruct (run_first isnan_ op garbage values0 indices0 self) as [Ho Hi].
    rewrite Ho, Hi. change 0 with (Z.of_nat 0). rewrite as_memory_nth.
    split; [exact Hnan|]. exists 0%nat. split; [reflexivity|]. split; [lia|].
    split; [lia|]. split; [exact Hnan|]. intros m Hm. lia.
  - rewrite run_step. set (st := run (Z.of_nat k + 1)) in *.
    unfold cummax_cummin_body. cbn [out idx]. rewrite Z.mul_1_r, as_memory_nth.
    destruct (isnan_ (nth (S k) self garbage)) eqn:E.
    + simpl. rewrite E. split; [reflexivity|].
      exists (S k). split; [reflexivity|]. split; [lia|].
      split; [lia|]. split; [exact E|]. intros m Hm. lia.
    + assert (Hpk : (p <= k)%nat).
      { destruct (Nat.eq_dec p (S k)) as [->|]; [congruence | lia]. }
      destruct (IH p Hpk Hnan) as (Hn & j & Hj & Hpj & Hjk & Hjn & Hlast).
      rewrite Hn. simpl. split; [exact Hn|].
      exists j. split; [exact Hj|]. split; [exact Hpj|].
      split; [lia|]. split; [exact Hjn|].
      intros m Hm. destruct (Nat.eq_dec m (S k)) as [->|Hne]; [exact E | apply Hlast; lia].
Qed.
End CumMaxMinNaN.

(** [>=] and [<=] on doubles are total and transitive on the values that
    are not NaN. *)
Ltac compare_cases :=
  repeat match goal with
         | H : context [Z.compare ?a ?b] |- _ =>
             destruct (Z.compare_spec a b); try subst; simpl in H; try discriminate H
         | H : context [Pos.compare_cont Eq ?a ?b] |- _ =>
             change (Pos.compare_cont Eq a b) with (Pos.compare a b) in H;
             destruct (Pos.compare_spec a b); try subst; simpl in H; try discriminate H
         | |- context [Z.compare ?a ?b] =>
             destruct (Z.compare_spec a b); try subst; simpl
         | |- context [Pos.compare_cont Eq ?a ?b] =>
             change (Pos.compare_cont Eq a b) with (Pos.compare a b);
             destruct (Pos.compare_spec a b); try subst; simpl
         end.

Lemma SFleb_total (x y : double) :
  d_isnan x = false -> d_isnan y = false -> SFleb x y = true \/ SFleb y x = true.
Proof.
  destruct x as [sx|sx| |sx mx ex], y as [sy|sy| |sy my ey]; intros Hx Hy;
    try discriminate; unfold SFleb; simpl;
    try destruct sx; try destruct sy; auto;
    compare_cases; auto; lia.
Qed.

Lemma SFleb_trans (x y z : double) :
  SFleb x y = true -> SFleb y z = true -> SFleb x z = true.
Proof.
  destruct x as [sx|sx| |sx mx ex], y as [sy|sy| |sy my ey], z as [sz|sz| |sz mz ez];
    unfold SFleb; simpl; intros Hxy Hyz;
    try destruct sx; try destruct sy; try destruct sz;
    try discriminate; try reflexivity;
    compare_cases; try reflexivity; try lia.
Qed.

(** X7.  [cummax] and [cummin] compute the running extremum: on an input
    without NaNs, with a comparison that is total and transitive on the
    values that are not NaN ([>=] and [<=] on integers, and on
    floating-point numbers, where a NaN compares to nothing), the value at
    every position compares to each element up to that position. *)
Theorem cummax_cummin_running_extremum :
  forall (T1 : Type) (isnan_ : T1 -> bool) (op : T1 -> T1 -> bool)
         (garbage : T1) (values0 : Z -> T1) (indices0 : Z -> Z)
         (self : list T1),
    (forall x y, isnan_ x = false -> isnan_ y = false ->
                 op x y = true \/ op y x = true) ->
    (forall x y z, isnan_ x = false -> isnan_ y = false -> isnan_ z = false ->
                   op x y = true -> op y z = true -> op x z = true) ->
    (forall m, (m < List.length self)%nat -> isnan_ (nth m self garbage) = false) ->
    let values := fst (cummax_cummin_1d isnan_ op garbage values0 indices0 self) in
    List.length values = List.length self
    /\ forall i m, (m <= i < List.length self)%nat ->
         op (nth i values garbage) (nth m self garbage) = true.
Proof.
  intros T1 isnan_ op garbage values0 indices0 self Htot Htrans Hnan. cbv zeta.
  split; [apply cummax_cummin_1d_length|].
  intros i m Hm.
  destruct (cummax_cummin_1d_nth isnan_ op garbage values0 indices0 self i ltac:(lia))
    as [-> _].
  apply (run_dominates isnan_ op garbage values0 indices0 self Htot Htrans i);
    [intros q Hq; apply Hnan; lia | lia].
Qed.

(** At [cummax] of the doubles [1, 3, 2, -inf, 4], with the IEEE [>=]: the
    values dominate the elements met so far. *)
Lemma cummax_cummin_running_extremum_witness :
  let self := [d_of_int64 1; d_of_int64 3; d_of_int64 2; S754_infinity true;
               d_of_int64 4] in
  let values := fst (cummax_helper_cpu_double self) in
  List.length values = 5%nat
  /\ forall i m, (m <= i < 5)%nat -> d_ge (nth i values d_zero) (nth m self d_zero) = true.
Proof.
  cbv zeta.
  apply (cummax_cummin_running_extremum double d_isnan d_ge d_zero (fun _ => d_zero)
           (fun _ => 0)
           [d_of_int64 1; d_of_int64 3; d_of_int64 2; S754_infinity true; d_of_int64 4]).
  - intros x y Hx Hy. unfold d_ge. destruct (SFleb_total x y Hx Hy); auto.
  - intros x y z _ _ _ Hxy Hyz. unfold d_ge in *. exact (SFleb_trans z y x Hyz Hxy).
  - intros m Hm. do 5 (destruct m as [|m]; [reflexivity|]). simpl in Hm. lia.
Defined.

(** X8.  a NaN is sticky: from the first NaN of the input onwards every value
    is a NaN, and the index recorded at a position is that of the last NaN up
    to the position. *)
Theorem cummax_cummin_nan_propagates :
  forall (T1 : Type) (isnan_ : T1 -> bool) (op : T1 -> T1 -> bool)
         (garbage : T1) (values0 : Z -> T1) (indices0 : Z -> Z)
         (self : list T1) (p i : nat),
    (p <= i < List.length self)%nat ->
    isnan_ (nth p self garbage) = true ->
    let values := fst (cummax_cummin_1d isnan_ op garbage values0 indices0 self) in
    let indices := snd (cummax_cummin_1d isnan_ op garbage values0 indices0 self) in
    isnan_ (nth i values garbage) = true
    /\ exists j, nth i indices (-1) = Z.of_nat j
                 /\ (p <= j)%nat
                 /\ last_nan_upto isnan_ garbage self i j.
Proof.
  intros T1 isnan_ op garbage values0 indices0 self p i Hi Hnan. cbv zeta.
  destruct (cummax_cummin_1d_nth isnan_ op garbage values0 indices0 self i ltac:(lia))
    as [-> ->].
  apply (run_nan isnan_ op garbage values0 indices0 self i p); [lia | exact Hnan].
Qed.

(** At [cummax] of the doubles [1, NaN, 2]: position 2 holds a NaN and the
    index 1. *)
Lemma cummax_cummin_nan_propagates_witness :
  let one := d_of_int64 1 in
  let two := d_of_int64 2 in
  let self := [one; d_nan; two] in
  d_isnan (nth 2 (fst (cummax_helper_cpu_double self)) d_zero) = true
  /\ exists j, nth 2 (snd (cummax_helper_cpu_double self)) (-1) = Z.of_nat j
               /\ (1 <= j)%nat
               /\ last_nan_upto d_isnan d_zero self 2 j.
Proof.
  cbv zeta.
  apply (cummax_cummin_nan_propagates double d_isnan d_ge d_zero (fun _ => d_zero)
           (fun _ => 0) [d_of_int64 1; d_nan; d_of_int64 2] 1 2).
  - simpl; lia.
  - reflexivity.
Defined.

(** *** The operators *)




Section CumMaxMinOperators.
Variable uninitialized : Scalar.
Variable convert : ScalarType -> Scalar -> Scalar.
Variable helper : TensorS -> TensorS -> TensorS -> Z -> TensorS * TensorS.
Variable self : TensorS.
Variable d : Z.
Hypothesis Hwf : well_formed self.

Local Abbreviation values0 := (empty uninitialized (sizes self) (options self)).
Local Abbreviation indices0 :=
  (empty uninitialized (sizes self) (with_dtype (options self) kLong)).

End CumMaxMinOperators.



(** ** cpu_equal *)

Lemma list_Z_eqb_eq a b : list_Z_eqb a b = true <-> a = b.
Proof.
  split; [|intros ->; apply list_Z_eqb_refl].
  unfold list_Z_eqb. intros H. apply andb_true_iff in H. destruct H as [Hl H].
  apply Nat.eqb_eq in Hl. revert b Hl H.
  induction a as [|x a IH]; intros [|y b] Hl H; simpl in *; try lia; [reflexivity|].
  apply andb_true_iff in H. destruct H as [Hxy H]. apply Z.eqb_eq in Hxy.
  f_equal; [exact Hxy | apply IH; [lia | exact H]].
Qed.

Lemma firstn_plus {A} (l : list A) a b :
  firstn (a + b) l = firstn a l ++ firstn b (skipn a l).
Proof.
  revert l. induction a as [|a IH]; intros [|x l]; simpl; try reflexivity.
  - now rewrite firstn_nil.
  - now rewrite IH.
Qed.

Lemma sub_range_split {A} (l : list A) b m e :
  0 <= b <= m -> m <= e ->
  sub_range l b e = sub_range l b m ++ sub_range l m e.
Proof.
  intros Hb He. unfold sub_range.
  replace (Z.to_nat (e - b)) with (Z.to_nat (m - b) + Z.to_nat (e - m))%nat by lia.
  rewrite firstn_plus. f_equal.
  rewrite skipn_skipn. f_equal. f_equal. lia.
Qed.

Lemma sub_range_all {A} (l : list A) :
  sub_range l 0 (Z.of_nat (List.length l)) = l.
Proof.
  unfold sub_range. simpl. rewrite Z.sub_0_r, Nat2Z.id. apply firstn_all.
Qed.

Lemma sub_range_length {A} (l : list A) b e :
  0 <= b <= e -> e <= Z.of_nat (List.length l) ->
  List.length (sub_range l b e) = Z.to_nat (e - b).
Proof.
  intros Hb He. unfold sub_range. rewrite length_firstn, length_skipn. lia.
Qed.

Section CpuEqualProperties.
Context {A : Type}.
Variable ne : A -> A -> bool.

(** The scan of two lists of one length: [result], unless a pair differs. *)
Lemma equal_scan_app a1 b1 a2 b2 r :
  List.length a1 = List.length b1 ->
  equal_scan ne (a1 ++ a2) (b1 ++ b2) r
  = if equal_scan ne a1 b1 true then equal_scan ne a2 b2 r else false.
Proof.
  revert b1. induction a1 as [|x a1 IH]; intros [|y b1] Hl; simpl in *; try lia.
  - reflexivity.
  - destruct (ne x y); [reflexivity | apply IH; lia].
Qed.

Lemma equal_scan_false a b : equal_scan ne a b false = false.
Proof.
  revert b. induction a as [|x a IH]; intros [|y b]; simpl; auto.
  destruct (ne x y); auto.
Qed.

Lemma equal_loop_scan r a b :
  equal_loop ne r a b = if r then equal_scan ne a b true else false.
Proof. unfold equal_loop. destruct r; reflexivity. Qed.

Lemma equal_scan_true a b :
  List.length a = List.length b ->
  equal_scan ne a b true = true <-> pairwise_equal ne a b.
Proof.
  revert b. induction a as [|x a IH]; intros [|y b] Hl; simpl in *; try lia.
  - split; [intros _; split; [reflexivity | intros i Hi; simpl in Hi; lia] | reflexivity].
  - destruct (ne x y) eqn:E.
    + split; [discriminate|]. intros [_ H].
      specialize (H 0%nat ltac:(simpl; lia) x). simpl in H. congruence.
    + rewrite IH by lia. unfold pairwise_equal. simpl. split.
      * intros [_ H]. split; [lia|]. intros [|i] Hi dflt; [exact E | apply H; lia].
      * intros [_ H]. split; [lia|]. intros i Hi dflt. apply (H (S i)). lia.
Qed.

(** The calls of the loop on the chunks of [b, e) amount to one scan of the
    range. *)
Lemma fold_chunks (self_data other_data : list A) chunk (fuel : nat) :
  forall b e r,
    1 <= chunk -> 0 <= b -> e <= Z.of_nat (List.length self_data) ->
    List.length self_data = List.length other_data ->
    (Z.to_nat (e - b) <= fuel)%nat ->
    fold_left
      (fun r rg => equal_loop ne r (sub_range self_data (fst rg) (snd rg))
                                   (sub_range other_data (fst rg) (snd rg)))
      (chunks fuel b e chunk) r
    = if r then equal_scan ne (sub_range self_data b e) (sub_range other_data b e) true
      else false.
Proof.
  induction fuel as [|fuel IH]; intros b e r Hc Hb He Hl Hf.
  - simpl. assert (e <= b) by lia.
    unfold sub_range. replace (Z.to_nat (e - b)) with 0%nat by lia. simpl.
    now destruct r.
  - simpl. destruct (Z.leb_spec e b) as [Heb|Heb].
    + simpl. unfold sub_range. replace (Z.to_nat (e - b)) with 0%nat by lia. simpl.
      now destruct r.
    + simpl fold_left. rewrite IH by lia. rewrite equal_loop_scan.
      destruct r; [|reflexivity].
      destruct (Z.leb_spec (b + chunk) e) as [Hm|Hm].
      * rewrite Z.min_r by lia.
        rewrite (sub_range_split self_data b (b + chunk) e) by lia.
        rewrite (sub_range_split other_data b (b + chunk) e) by lia.
        rewrite equal_scan_app; [reflexivity|].
        rewrite !sub_range_length by lia. reflexivity.
      * rewrite Z.min_l by lia.
        assert (Hemp : forall l : list A, sub_range l (b + chunk) e = []).
        { intros l. unfold sub_range.
          replace (Z.to_nat (e - (b + chunk))) with 0%nat by lia. reflexivity. }
        rewrite !Hemp. simpl.
        now destruct (equal_scan ne (sub_range self_data b e) (sub_range other_data b e) true).
Qed.

Lemma for_each_equal_loop chunk (self_data other_data : list A) :
  List.length self_data = List.length other_data ->
  for_each chunk (equal_loop ne) self_data other_data
    (Z.of_nat (List.length self_data)) true
  = equal_scan ne self_data other_data true.
Proof.
  intros Hl. unfold for_each.
  destruct ((Z.of_nat (List.length self_data) <=? GRAIN_SIZE) || (chunk <=? 0)) eqn:E.
  - reflexivity.
  - apply orb_false_iff in E. destruct E as [_ E]. apply Z.leb_gt in E.
    rewrite fold_chunks by lia.
    rewrite sub_range_all. rewrite Hl at 1. now rewrite sub_range_all.
Qed.
End CpuEqualProperties.

Lemma cpu_equal_cases :
  forall (A : Type) (ne : A -> A -> bool) (chunk : Z) (self other : Tensor A),
    well_formed self -> well_formed other ->
    nonneg_shape (sizes self) ->
    (is_ok (cpu_equal ne chunk true self other) = false
     <-> device (options self) <> device (options other)
         \/ dtype (options self) <> dtype (options other)
         \/ (sizes self = sizes other /\ scalar_type self = kComplexHalf))
    /\ (cpu_equal ne chunk true self other = Ok true
        <-> device (options self) = device (options other)
            /\ dtype (options self) = dtype (options other)
            /\ scalar_type self <> kComplexHalf
            /\ sizes self = sizes other
            /\ pairwise_equal ne (data self) (data other)).
Proof.
  intros A ne chunk self other Hwf Hwo Hnn.
  unfold cpu_equal. cbn [negb].
  assert (Hdev : DeviceType_eqb (device (options self)) (device (options other)) = true
                 <-> device (options self) = device (options other)).
  { destruct (device (options self)), (device (options other)); simpl;
      split; congruence. }
  destruct (DeviceType_eqb (device (options self)) (device (options other))) eqn:Ed.
  2:{ simpl. split.
      - split; [intros _; left; intros H; apply Hdev in H; discriminate | reflexivity].
      - split; [discriminate | intros (H & _); apply Hdev in H; discriminate]. }
  pose proof (proj1 Hdev eq_refl) as Hd. simpl bind.
  destruct (ScalarType_eqb_spec (dtype (options self)) (dtype (options other))) as [Et|Et].
  2:{ simpl. split.
      - split; [intros _; right; left; exact Et | reflexivity].
      - split; [discriminate | intros (_ & H & _); contradiction]. }
  simpl bind.
  destruct (list_Z_eqb (sizes self) (sizes other)) eqn:Es.
  2:{ simpl. assert (Hs : sizes self <> sizes other).
      { intros H. apply list_Z_eqb_eq in H. congruence. }
      split.
      - split; [discriminate|]. intros [H|[H|[H _]]]; contradiction.
      - split; [discriminate | intros (_ & _ & _ & H & _); contradiction]. }
  apply list_Z_eqb_eq in Es. simpl negb. cbv iota.
  assert (Hc : equal_cpu_dispatches (scalar_type self) = true
               <-> scalar_type self <> kComplexHalf).
  { destruct (scalar_type self); simpl; split; congruence. }
  destruct (equal_cpu_dispatches (scalar_type self)) eqn:Ec.
  2:{ simpl. assert (scalar_type self = kComplexHalf).
      { destruct (scalar_type self); simpl in Ec; congruence. }
      split.
      - split; [intros _; right; right; auto | reflexivity].
      - split; [discriminate | intros (_ & _ & H' & _); contradiction]. }
  pose proof (proj1 Hc eq_refl) as Hch. simpl bind.
  assert (Hlen : List.length (data self) = List.length (data other)).
  { unfold well_formed, numel in *. rewrite Hwf, Hwo, Es. reflexivity. }
  assert (Hnum : numel self = Z.of_nat (List.length (data self))).
  { unfold well_formed in Hwf. rewrite Hwf. unfold numel.
    rewrite Z2Nat.id; [reflexivity|]. apply prodZ_nonneg. exact Hnn. }
  rewrite Hnum, (for_each_equal_loop ne chunk _ _ Hlen).
  split.
  - simpl. split; [discriminate|]. intros [H|[H|[_ H]]]; contradiction.
  - split.
    + intros H. injection H as H. apply (equal_scan_true ne _ _ Hlen) in H. auto.
    + intros (_ & _ & _ & _ & H). f_equal. apply (equal_scan_true ne _ _ Hlen). exact H.
Qed.

(** X10.  [cpu_equal] first compares the dimension names of the two tensors:
    tensors with different names are unequal, whatever their devices, dtypes
    and elements.  With equal names it raises exactly when the devices or
    the dtypes differ, or when tensors of one shape hold [ComplexHalf];
    tensors of different shapes are unequal without their elements being
    looked at; otherwise the answer is [true] exactly when no pair of
    elements at the same position differs, whatever the chunks of the
    iteration are. *)
Theorem cpu_equal_iff :
  forall (A : Type) (ne : A -> A -> bool) (chunk : Z) (are_names_equal : bool)
         (self other : Tensor A),
    well_formed self -> well_formed other ->
    nonneg_shape (sizes self) ->
    (are_names_equal = false -> cpu_equal ne chunk are_names_equal self other = Ok false)
    /\ (is_ok (cpu_equal ne chunk are_names_equal self other) = false
        <-> are_names_equal = true
            /\ (device (options self) <> device (options other)
                \/ dtype (options self) <> dtype (options other)
                \/ (sizes self = sizes other /\ scalar_type self = kComplexHalf)))
    /\ (cpu_equal ne chunk are_names_equal self other = Ok true
        <-> are_names_equal = true
            /\ device (options self) = device (options other)
            /\ dtype (options self) = dtype (options other)
            /\ scalar_type self <> kComplexHalf
            /\ sizes self = sizes other
            /\ pairwise_equal ne (data self) (data other)).
Proof.
  intros A ne chunk are_names_equal self other Hwf Hwo Hnn.
  destruct are_names_equal.
  - destruct (cpu_equal_cases A ne chunk self other Hwf Hwo Hnn) as [Hraise Htrue].
    split; [discriminate|]. split.
    + rewrite Hraise. tauto.
    + rewrite Htrue. tauto.
  - split; [reflexivity|]. split.
    + split; [discriminate | intros [H _]; discriminate H].
    + split; [discriminate | intros [H _]; discriminate H].
Qed.

(** Two tensors of equal names that differ in their second element. *)
Lemma cpu_equal_iff_witness :
  let a := mkTensor [2] (mkOptions kLong kCPU Strided) [1; 2] in
  let b := mkTensor [2] (mkOptions kLong kCPU Strided) [1; 3] in
  cpu_equal int64_ne 1 true a b = Ok true
  <-> true = true
      /\ device (options a) = device (options b)
      /\ dtype (options a) = dtype (options b)
      /\ scalar_type a <> kComplexHalf
      /\ sizes a = sizes b
      /\ pairwise_equal int64_ne (data a) (data b).
Proof.
  cbv zeta.
  apply (cpu_equal_iff Z int64_ne 1 true
           (mkTensor [2] (mkOptions kLong kCPU Strided) [1; 2])
           (mkTensor [2] (mkOptions kLong kCPU Strided) [1; 3])).
  - reflexivity.
  - reflexivity.
  - repeat constructor; lia.
Defined.

Lemma SFeqb_self x : SFeqb x x = negb (d_isnan x).
Proof.
  unfold SFeqb. destruct x as [s|s| |s m e]; simpl; try reflexivity.
  - now destruct s.
  - destruct s; rewrite Z.compare_refl, ?Pos.compare_cont_refl, ?Pos.compare_refl;
      reflexivity.
Qed.

(** X11.  on doubles [!=] is the IEEE comparison, so a tensor, whose names
    are equal to themselves, is equal to itself only if it holds no NaN. *)
Theorem cpu_equal_self_nan :
  forall (chunk : Z) (are_names_equal : bool) (self : Tensor double),
    well_formed self -> nonneg_shape (sizes self) ->
    scalar_type self <> kComplexHalf ->
    cpu_equal d_ne chunk are_names_equal self self = Ok true
    <-> are_names_equal = true /\ Forall (fun x => d_isnan x = false) (data self).
Proof.
  intros chunk are_names_equal self Hwf Hnn Hty.
  destruct are_names_equal;
    [|split; [discriminate | intros [H _]; discriminate H]].
  destruct (cpu_equal_cases double d_ne chunk self self Hwf Hwf Hnn) as [_ H].
  rewrite H. rewrite Forall_forall. split.
  - intros (_ & _ & _ & _ & _ & Hp). split; [reflexivity|]. intros x Hx.
    destruct (In_nth _ _ d_zero Hx) as (i & Hi & <-).
    specialize (Hp i Hi d_zero). unfold d_ne in Hp. rewrite SFeqb_self in Hp.
    now destruct (d_isnan (nth i (data self) d_zero)).
  - intros [_ Hall]. repeat split; auto.
    intros i Hi dflt. unfold d_ne. rewrite SFeqb_self.
    rewrite (Hall (nth i (data self) dflt)); [reflexivity | now apply nth_In].
Qed.

Lemma cpu_equal_self_nan_witness :
  let self := mkTensor [2] (mkOptions kDouble kCPU Strided) [d_of_int64 1; d_nan] in
  cpu_equal d_ne 1 true self self = Ok true
  <-> true = true /\ Forall (fun x => d_isnan x = false) (data self).
Proof.
  cbv zeta.
  apply (cpu_equal_self_nan 1 true
           (mkTensor [2] (mkOptions kDouble kCPU Strided) [d_of_int64 1; d_nan])).
  - reflexivity.
  - repeat constructor; lia.
  - discriminate.
Defined.

(** ** trace_cpu *)

Lemma fold_left_map {A B C} (f : A -> B -> A) (g : C -> B) l a :
  fold_left f (map g l) a = fold_left (fun a c => f a (g c)) l a.
Proof. revert a. induction l as [|x l IH]; intros a; simpl; auto. Qed.

Lemma fold_left_ext_in {A B} (f g : A -> B -> A) l a :
  (forall a x, In x l -> f a x = g a x) -> fold_left f l a = fold_left g l a.
Proof.
  revert a. induction l as [|x l IH]; intros a H; simpl; [reflexivity|].
  rewrite H by (left; reflexivity). apply IH. intros a' y Hy. apply H. now right.
Qed.

Section TraceProperties.
Context {A Acc : Type}.
Variable garbage : A.
Variable acc_zero : Acc.
Variable acc_add : Acc -> A -> Acc.
Variable of_acc : Acc -> A.

(** On a matrix [trace_cpu] adds up the diagonal, from the first row on. *)
Lemma trace_cpu_matrix (self : Tensor A) (rows cols : nat) :
  sizes self = [Z.of_nat rows; Z.of_nat cols] ->
  trace_dispatches (scalar_type self) = true ->
  trace_cpu garbage acc_zero acc_add of_acc self
  = Ok (mkTensor []
          (with_dtype (options self) (get_dtype_from_self self None true))
          [of_acc (fold_left acc_add (diagonal garbage rows cols (data self)) acc_zero)]).
Proof.
  intros Hs Hd. unfold trace_cpu. rewrite Hd. simpl bind.
  unfold dim, size, contiguous_stride. rewrite Hs. simpl bind.
  cbn [nth Z.to_nat skipn map prodZ fold_right List.length].
  change (Z.to_nat 0) with 0%nat. change (Z.to_nat 1) with 1%nat.
  cbn [nth skipn map prodZ fold_right].
  do 2 f_equal. f_equal. f_equal.
  unfold diagonal, irange. rewrite fold_left_map.
  replace (Z.to_nat (Z.min (Z.of_nat rows) (Z.of_nat cols))) with (Nat.min rows cols) by lia.
  rewrite fold_left_map.
  apply fold_left_ext_in. intros a i Hi. apply in_seq in Hi. f_equal.
  replace (Z.of_nat i * (Z.max 1 (Z.of_nat cols) * 1 + 1))
    with (Z.of_nat (i * cols + i)) by (rewrite Z.max_r by lia; nia).
  apply as_memory_nth.
Qed.
End TraceProperties.

Lemma diagonal_in_bounds rows cols i :
  (i < Nat.min rows cols)%nat -> (i * cols + i < rows * cols)%nat.
Proof. intros H. nia. Qed.

(** X12.  [trace_cpu] raises for a scalar type without a case in the dispatch
    and, checked after that, for a tensor that is not a matrix.  On a matrix
    it returns a tensor of rank 0 (of dtype [int64] for the integral types)
    holding the sum of the elements at the row-major positions
    [i * cols + i], [i < min rows cols], all of which lie inside the
    tensor. *)
Theorem trace_cpu_diagonal :
  forall (A Acc : Type) (garbage : A) (acc_zero : Acc) (acc_add : Acc -> A -> Acc)
         (of_acc : Acc -> A) (self : Tensor A),
    (trace_dispatches (scalar_type self) = false ->
     trace_cpu garbage acc_zero acc_add of_acc self
     = Raise (Error_ "trace not implemented for this scalar type"))
    /\ (trace_dispatches (scalar_type self) = true -> dim self <> 2 ->
        trace_cpu garbage acc_zero acc_add of_acc self
        = Raise (Error_ "trace: expected a matrix"))
    /\ (forall rows cols : nat,
          trace_dispatches (scalar_type self) = true ->
          sizes self = [Z.of_nat rows; Z.of_nat cols] ->
          well_formed self ->
          trace_cpu garbage acc_zero acc_add of_acc self
          = Ok (mkTensor []
                  (with_dtype (options self)
                     (if isIntegralType (scalar_type self) true then kLong
                      else scalar_type self))
                  [of_acc (fold_left acc_add (diagonal garbage rows cols (data self))
                             acc_zero)])
          /\ forall i, (i < Nat.min rows cols)%nat ->
                       (i * cols + i < List.length (data self))%nat).
Proof.
  intros A Acc garbage acc_zero acc_add of_acc self. split; [|split].
  - intros H. unfold trace_cpu. rewrite H. reflexivity.
  - intros H Hd. unfold trace_cpu. rewrite H. simpl.
    replace (dim self =? 2) with false by (symmetry; apply Z.eqb_neq; exact Hd).
    reflexivity.
  - intros rows cols H Hs Hwf. split.
    + apply trace_cpu_matrix; assumption.
    + intros i Hi. unfold well_formed, numel in Hwf. rewrite Hwf, Hs. simpl.
      pose proof (diagonal_in_bounds rows cols i Hi). lia.
Qed.

Lemma trace_cpu_diagonal_witness :
  let self := mkTensor [2; 3] (mkOptions kInt kCPU Strided) [1; 2; 3; 4; 5; 6] in
  trace_cpu_int64 self = Ok (mkTensor [] (mkOptions kLong kCPU Strided) [6]).
Proof.
  cbv zeta.
  destruct (trace_cpu_diagonal Z Z 0 0 (fun sum x => wrap_int64 (sum + x)) (fun sum => sum)
              (mkTensor [2; 3] (mkOptions kInt kCPU Strided) [1; 2; 3; 4; 5; 6]))
    as (_ & _ & H).
  destruct (H 2%nat 3%nat eq_refl eq_refl eq_refl) as [Ht _].
  exact Ht.
Defined.

(** *** The 64-bit accumulator *)

Lemma wrap_int64_add_l a b : wrap_int64 (wrap_int64 a + b) = wrap_int64 (a + b).
Proof.
  unfold wrap_int64. f_equal.
  replace ((a + 2 ^ 63) mod 2 ^ 64 - 2 ^ 63 + b + 2 ^ 63)
    with ((a + 2 ^ 63) mod 2 ^ 64 + b) by lia.
  rewrite Zplus_mod_idemp_l. f_equal. lia.
Qed.

Lemma fold_wrap_sum l a :
  fold_left (fun sum x => wrap_int64 (sum + x)) l (wrap_int64 a)
  = wrap_int64 (fold_left Z.add l a).
Proof.
  revert a. induction l as [|x l IH]; intros a; simpl; [reflexivity|].
  rewrite wrap_int64_add_l. apply IH.
Qed.

Lemma wrap_int64_small z : - 2 ^ 63 <= z < 2 ^ 63 -> wrap_int64 z = z.
Proof. intros H. unfold wrap_int64. rewrite Z.mod_small; lia. Qed.

(** X13.  the trace of a matrix of integers is the sum of its diagonal,
    reduced to 64 bits once: the wrap-around of the accumulator at every
    addition does not change the result, and a sum that fits is exact. *)
Theorem trace_cpu_int64_sum :
  forall (self : Tensor Z) (rows cols : nat),
    trace_dispatches (scalar_type self) = true ->
    sizes self = [Z.of_nat rows; Z.of_nat cols] ->
    let total := fold_left Z.add (diagonal 0 rows cols (data self)) 0 in
    exists t,
      trace_cpu_int64 self = Ok t
      /\ sizes t = [] /\ data t = [wrap_int64 total]
      /\ (- 2 ^ 63 <= total < 2 ^ 63 -> data t = [total]).
Proof.
  intros self rows cols Hd Hs. cbv zeta.
  eexists. split; [apply (trace_cpu_matrix 0 0 _ _ self rows cols Hs Hd)|].
  split; [reflexivity|]. simpl data.
  pose proof (fold_wrap_sum (diagonal 0 rows cols (data self)) 0) as E.
  change (wrap_int64 0) with 0 in E. rewrite E.
  split; [reflexivity|]. intros H. now rewrite wrap_int64_small.
Qed.

Lemma trace_cpu_int64_sum_witness :
  let self := mkTensor [2; 2] (mkOptions kLong kCPU Strided) [2 ^ 62; 0; 0; 2 ^ 62] in
  exists t,
    trace_cpu_int64 self = Ok t
    /\ sizes t = [] /\ data t = [- 2 ^ 63].
Proof.
  cbv zeta.
  destruct (trace_cpu_int64_sum
              (mkTensor [2; 2] (mkOptions kLong kCPU Strided) [2 ^ 62; 0; 0; 2 ^ 62])
              2 2 eq_refl eq_refl) as (t & Ht & Hs & Hd & _).
  exists t. split; [exact Ht|]. split; [exact Hs|]. exact Hd.
Defined.

(** ** argmax / argmin, amax / amin: what ends up in the output *)

Lemma meta_make_reduction_same (self result : TensorS) dims keepdim :
  meta_make_reduction self result dims keepdim (scalar_type self)
  = mkIter result self dims keepdim.
Proof. unfold meta_make_reduction. now rewrite ScalarType_eqb_refl. Qed.

Lemma empty_no_element u shape opts :
  prodZ shape = 0 -> data (empty u shape opts) = [].
Proof. intros H. unfold empty. simpl. now rewrite H. Qed.

Lemma fill_empty u shape opts v :
  fill_ (empty u shape opts) v
  = mkTensor shape opts (repeat v (Z.to_nat (prodZ shape))).
Proof. unfold fill_, empty. simpl. f_equal. apply map_repeat. Qed.

(** The shape of a reduction of a tensor without elements along dimensions
    that are not empty has no element either. *)
Lemma reduced_shape_zero (mask : list Z) keepdim :
  mask <> [] ->
  forall shape i0,
    (forall k, (k < List.length shape)%nat ->
               existsb (Z.eqb (i0 + Z.of_nat k)) mask = true -> nth k shape 0 <> 0) ->
    prodZ shape = 0 ->
    prodZ (shape_from_dim_mask shape mask keepdim i0) = 0.
Proof.
  intros Hm. induction shape as [|s rest IH]; intros i0 Hnz Hp; [discriminate|].
  assert (Hred : is_reduced mask i0 = existsb (Z.eqb i0) mask)
    by (destruct mask; [contradiction | reflexivity]).
  assert (Hrest : forall k, (k < List.length rest)%nat ->
                    existsb (Z.eqb (i0 + 1 + Z.of_nat k)) mask = true ->
                    nth k rest 0 <> 0).
  { intros k Hk He. apply (Hnz (S k)); [simpl; lia|].
    replace (i0 + Z.of_nat (S k)) with (i0 + 1 + Z.of_nat k) by lia. exact He. }
  simpl in Hp. cbn [shape_from_dim_mask]. rewrite Hred.
  destruct (existsb (Z.eqb i0) mask) eqn:E.
  - assert (Hs : s <> 0).
    { apply (Hnz 0%nat); [simpl; lia|]. now rewrite Z.add_0_r. }
    assert (Hp' : prodZ rest = 0) by nia.
    specialize (IH (i0 + 1) Hrest Hp').
    destruct keepdim; [simpl; rewrite IH; lia | exact IH].
  - simpl. destruct (Z.eq_dec s 0) as [->|Hs]; [reflexivity|].
    assert (Hp' : prodZ rest = 0) by nia.
    rewrite (IH (i0 + 1) Hrest Hp'). lia.
Qed.

Lemma maybe_wrap_dims_In dims ndim mask :
  maybe_wrap_dims dims ndim = Ok mask ->
  forall m, In m mask -> exists d, In d dims /\ maybe_wrap_dim d ndim = Ok m.
Proof.
  revert mask. induction dims as [|d dims IH]; intros mask H m Hm; simpl in H.
  - injection H as <-. contradiction.
  - apply bind_ok in H. destruct H as (d' & Hd & H).
    apply bind_ok in H. destruct H as (ds' & Hds & H).
    injection H as <-. destruct Hm as [<-|Hm].
    + exists d. split; [now left | exact Hd].
    + destruct (IH ds' Hds m Hm) as (d0 & Hin & Hw). exists d0. split; [now right | exact Hw].
Qed.

Lemma maybe_wrap_dims_nonempty dims ndim mask :
  maybe_wrap_dims dims ndim = Ok mask -> dims <> [] -> mask <> [].
Proof.
  destruct dims as [|d dims]; [contradiction|]. simpl. intros H _.
  apply bind_ok in H. destruct H as (d' & _ & H).
  apply bind_ok in H. destruct H as (ds' & _ & H). injection H as <-. discriminate.
Qed.

Lemma existsb_eqb_In i mask : existsb (Z.eqb i) mask = true -> In i mask.
Proof.
  intros H. apply existsb_exists in H. destruct H as (x & Hx & E).
  apply Z.eqb_eq in E. now subst.
Qed.

Lemma fold_checks_outcome {X} (c : X -> outcome unit) l :
  fold_left (fun acc d => acc ;;; c d) l (Ok tt) = Ok tt ->
  forall d, In d l -> c d = Ok tt.
Proof.
  assert (Hraise : forall l e, fold_left (fun acc d => acc ;;; c d) l (Raise e) = Raise e).
  { induction l0 as [|x l0 IH]; intros e; simpl; auto. }
  induction l as [|x l IH]; simpl; intros H d Hd; [contradiction|].
  destruct (c x) as [[]|e] eqn:E.
  - destruct Hd as [<-|Hd]; [exact E | apply IH; assumption].
  - rewrite Hraise in H. discriminate.
Qed.

Lemma fold_checks_outcome_iff {X} (c : X -> outcome unit) l :
  fold_left (fun acc d => acc ;;; c d) l (Ok tt) = Ok tt
  <-> forall d, In d l -> c d = Ok tt.
Proof.
  split; [apply fold_checks_outcome|].
  induction l as [|x l IH]; simpl; intros H; [reflexivity|].
  rewrite (H x (or_introl eq_refl)). apply IH. intros d Hd. apply H. now right.
Qed.

Lemma numel_rank0 {V} (t : Tensor V) : dim t = 0 -> numel t = 1.
Proof.
  unfold dim, numel. destruct (sizes t); simpl; [reflexivity | lia].
Qed.

Section OutputsWritten.
Variable uninitialized : Scalar.
Variable sizes_overrun : Z.
Variable self : TensorS.

Lemma argmax_argmin_written name stub dim_ keepdim r :
  (o <- (check_argmax_argmin name self dim_ ;;;
         resize_reduction None self (optional_to_arrayref dim_) keepdim kLong) ;;
   argmax_argmin_impl sizes_overrun self dim_ keepdim
     (empty uninitialized (fst o) (snd o)) stub) = Ok r ->
  written_by stub r \/ Forall (fun x => x = SInt 0) (data r).
Proof.
  intros H. apply bind_ok in H. destruct H as (o & Hmeta & Himpl).
  apply bind_ok in Hmeta. destruct Hmeta as ([] & Hchk & Hres).
  unfold resize_reduction in Hres. apply bind_ok in Hres.
  destruct Hres as (shape & Hshape & Hset). simpl in Hset. injection Hset as <-.
  cbn [fst snd] in Himpl.
  destruct dim_ as [d0|]; simpl in Hchk, Himpl, Hshape.
  - apply bind_ok in Hchk. destruct Hchk as (d & Hw & Hz).
    rewrite Hw in Himpl. simpl in Himpl.
    destruct (nth (Z.to_nat d) (sizes self) sizes_overrun =? 1).
    + injection Himpl as <-. right. apply fill_data_Forall.
    + rewrite meta_make_reduction_same in Himpl.
      change (iter_numel (mkIter (empty uninitialized shape (with_dtype (options self) kLong))
                            self [d] keepdim)) with (numel self) in Himpl.
      destruct (Z.eqb_spec (numel self) 0) as [En|En]; simpl in Himpl;
        injection Himpl as <-.
      * right. rewrite empty_no_element; [constructor|].
        assert (Hrank : dim self <> 0).
        { intros E. rewrite (numel_rank0 self E) in En. discriminate. }
        unfold zero_numel_check_dims in Hz.
        replace (dim self =? 0) with false in Hz by (symmetry; now apply Z.eqb_neq).
        unfold TORCH_CHECK_INDEX in Hz.
        destruct (Z.eqb_spec (size self d) 0) as [Es|Es]; [discriminate|].
        assert (Hdd : maybe_wrap_dim d (dim self) = Ok d).
        { pose proof (maybe_wrap_dim_range _ _ _ Hw) as Hr.
          rewrite maybe_wrap_dim_ok by lia.
          now replace (d <? 0) with false by (symmetry; apply Z.ltb_ge; lia). }
        unfold get_reduction_shape, make_dim_mask in Hshape. simpl in Hshape.
        rewrite Hw in Hshape. simpl in Hshape. injection Hshape as <-.
        apply reduced_shape_zero; [discriminate | | exact En].
        intros k Hk He. simpl in He. rewrite orb_false_r in He.
        apply Z.eqb_eq in He. simpl in He. subst d.
        unfold size in Es. now rewrite Nat2Z.id in Es.
      * left. eexists (mkIter _ self [d] keepdim). split; [exact En | reflexivity].
  - unfold TORCH_CHECK_INDEX in Hchk.
    destruct (Z.eqb_spec (numel self) 0) as [En|En]; [discriminate|].
    unfold meta_make_reduction in Himpl.
    change (scalar_type (reshape_flat self)) with (scalar_type self) in Himpl.
    rewrite ScalarType_eqb_refl in Himpl.
    assert (Hnum : iter_numel (mkIter (empty uninitialized shape (with_dtype (options self) kLong))
                                 (reshape_flat self) [] false) = numel self).
    { unfold iter_numel, numel, reshape_flat. simpl. fold (numel self). lia. }
    rewrite Hnum in Himpl.
    replace (numel self =? 0) with false in Himpl by (symmetry; now apply Z.eqb_neq).
    simpl in Himpl. injection Himpl as <-.
    left. eexists (mkIter _ (reshape_flat self) [] false).
    split; [rewrite Hnum; exact En | reflexivity].
Qed.

Lemma zero_numel_check_dims_list_sizes name dims mask :
  numel self = 0 ->
  zero_numel_check_dims_list self dims name = Ok tt ->
  maybe_wrap_dims dims (dim self) = Ok mask ->
  mask <> [] /\ forall m, In m mask -> size self m <> 0.
Proof.
  intros Hn Hz Hmask. unfold zero_numel_check_dims_list in Hz.
  apply bind_ok in Hz. destruct Hz as ([] & Hne & Hz).
  assert (Hdims : dims <> []).
  { intros E. rewrite E in Hne. discriminate. }
  split; [exact (maybe_wrap_dims_nonempty _ _ _ Hmask Hdims)|].
  intros m Hm.
  destruct (maybe_wrap_dims_In _ _ _ Hmask m Hm) as (d & Hd & Hw).
  pose proof (fold_checks_outcome _ _ Hz d Hd) as Hc. cbv beta in Hc.
  assert (Hrank : dim self <> 0).
  { intros E. rewrite (numel_rank0 self E) in Hn. discriminate. }
  replace (dim self =? 0) with false in Hc by (symmetry; now apply Z.eqb_neq).
  apply bind_ok in Hc. destruct Hc as (s & Hs & Hc).
  unfold size_at, maybe_wrap_dim_scalar in Hs.
  assert (Hpos : 0 <= dim self) by (unfold dim; lia).
  replace (dim self <=? 0) with false in Hs by (symmetry; apply Z.leb_gt; lia).
  simpl in Hs. rewrite Hw in Hs. simpl in Hs. injection Hs as <-.
  unfold TORCH_CHECK_INDEX in Hc.
  destruct (Z.eqb_spec (size self m) 0); [discriminate | assumption].
Qed.

Lemma amax_amin_written name stub dims keepdim r :
  (o <- ((if numel self =? 0 then zero_numel_check_dims_list self dims name else Ok tt) ;;;
         resize_reduction None self dims keepdim (scalar_type self)) ;;
   Ok (let iter := meta_make_reduction self (empty uninitialized (fst o) (snd o))
                     dims keepdim (scalar_type self) in
       if negb (iter_numel iter =? 0) then stub (iter_device_type iter) iter
       else empty uninitialized (fst o) (snd o))) = Ok r ->
  written_by stub r \/ data r = [].
Proof.
  intros H. apply bind_ok in H. destruct H as (o & Hmeta & Himpl).
  apply bind_ok in Hmeta. destruct Hmeta as ([] & Hchk & Hres).
  unfold resize_reduction in Hres. apply bind_ok in Hres.
  destruct Hres as (shape & Hshape & Hset). simpl in Hset. injection Hset as <-.
  cbn [fst snd] in Himpl. rewrite meta_make_reduction_same in Himpl.
  cbv zeta in Himpl.
  change (iter_numel (mkIter (empty uninitialized shape
                                (with_dtype (options self) (scalar_type self)))
                        self dims keepdim)) with (numel self) in Himpl.
  destruct (Z.eqb_spec (numel self) 0) as [En|En]; simpl in Himpl; injection Himpl as <-.
  - right. apply empty_no_element.
    unfold get_reduction_shape, make_dim_mask in Hshape.
    apply bind_ok in Hshape. destruct Hshape as (mask & Hmask & Hshape).
    apply bind_ok in Hmask. destruct Hmask as (ds & Hds & Hmask).
    apply bind_ok in Hmask. destruct Hmask as ([] & _ & Hmask).
    injection Hmask as <-. injection Hshape as <-.
    destruct (zero_numel_check_dims_list_sizes name dims ds En Hchk Hds) as [Hne Hsz].
    apply reduced_shape_zero; [exact Hne | | exact En].
    intros k Hk He. simpl in He. apply existsb_eqb_In in He.
    specialize (Hsz _ He). unfold size in Hsz. now rewrite Nat2Z.id in Hsz.
  - left. eexists (mkIter _ self dims keepdim). split; [exact En | reflexivity].
Qed.
End OutputsWritten.

(** X14.  no element of the output of [argmax], [argmin], [amax] or [amin] is
    left as [at::empty] allocated it.  The kernel is skipped only along a
    dimension of size 1, where the indices are filled with 0, and on an input
    without elements, where the checks of the meta function leave an output
    without elements. *)
Theorem extremum_outputs_written :
  forall (uninitialized : Scalar) (sizes_overrun : Z)
         (argmax_stub argmin_stub min_values_stub max_values_stub
            : DeviceType -> TensorIterator -> TensorS)
         (self : TensorS) (dim_ : option Z) (dims : list Z) (keepdim : bool)
         (r : TensorS),
    (at_argmax uninitialized sizes_overrun argmax_stub self dim_ keepdim = Ok r ->
     written_by argmax_stub r \/ Forall (fun x => x = SInt 0) (data r))
    /\ (at_argmin uninitialized sizes_overrun argmin_stub self dim_ keepdim = Ok r ->
        written_by argmin_stub r \/ Forall (fun x => x = SInt 0) (data r))
    /\ (at_amax uninitialized max_values_stub self dims keepdim = Ok r ->
        written_by max_values_stub r \/ data r = [])
    /\ (at_amin uninitialized min_values_stub self dims keepdim = Ok r ->
        written_by min_values_stub r \/ data r = []).
Proof.
  intros u so amax_s amin_s minv maxv self dim_ dims keepdim r.
  split; [|split; [|split]].
  - apply (argmax_argmin_written u so self "argmax()").
  - apply (argmax_argmin_written u so self "argmin()").
  - apply (amax_amin_written u self "amax()").
  - apply (amax_amin_written u self "amin()").
Qed.

(** On a tensor of shape [0 x 3], along the dimension of size 3. *)
Lemma extremum_outputs_written_witness :
  let self := mkTensor [0; 3] (mkOptions kDouble kCPU Strided) (@nil Scalar) in
  at_amax (SInt 7) idle_kernel self [1] false
  = Ok (mkTensor [0] (mkOptions kDouble kCPU Strided) [])
  /\ (written_by idle_kernel (mkTensor [0] (mkOptions kDouble kCPU Strided) [])
      \/ data (mkTensor [0] (mkOptions kDouble kCPU Strided) (@nil Scalar)) = []).
Proof.
  cbv zeta. split; [reflexivity|].
  destruct (extremum_outputs_written (SInt 7) 0 idle_kernel idle_kernel idle_kernel
              idle_kernel
              (mkTensor [0; 3] (mkOptions kDouble kCPU Strided) (@nil Scalar))
              None [1] false
              (mkTensor [0] (mkOptions kDouble kCPU Strided) []))
    as (_ & _ & H & _).
  apply H. reflexivity.
Defined.

(** X15.  along a dimension of size 1 [argmax] and [argmin] do not call their
    kernel: the result has the shape of the reduction, dtype [int64] and
    holds zeros only. *)
Theorem argmax_argmin_size_one :
  forall (uninitialized : Scalar) (sizes_overrun : Z)
         (argmax_stub argmin_stub : DeviceType -> TensorIterator -> TensorS)
         (self : TensorS) (d : Z) (keepdim : bool),
    1 <= dim self -> - dim self <= d < dim self ->
    size self (if d <? 0 then d + dim self else d) = 1 ->
    exists shape,
      get_reduction_shape self [d] keepdim = Ok shape
      /\ at_argmax uninitialized sizes_overrun argmax_stub self (Some d) keepdim
         = Ok (mkTensor shape (with_dtype (options self) kLong)
                 (repeat (SInt 0) (Z.to_nat (prodZ shape))))
      /\ at_argmin uninitialized sizes_overrun argmin_stub self (Some d) keepdim
         = Ok (mkTensor shape (with_dtype (options self) kLong)
                 (repeat (SInt 0) (Z.to_nat (prodZ shape)))).
Proof.
  intros u so smax smin self d keepdim Hrank Hd Hsz.
  destruct (get_reduction_shape_single self d keepdim ltac:(lia)) as (shape & Hshape).
  exists shape. split; [exact Hshape|].
  assert (Hw : maybe_wrap_dim d (dim self) = Ok (if d <? 0 then d + dim self else d)).
  { rewrite maybe_wrap_dim_ok by lia.
    now replace (Z.max 1 (dim self)) with (dim self) by lia. }
  set (d' := if d <? 0 then d + dim self else d) in *.
  assert (Hd' : 0 <= d' < dim self) by (unfold d'; destruct (Z.ltb_spec d 0); lia).
  assert (Hnth : nth (Z.to_nat d') (sizes self) so = 1).
  { unfold size in Hsz. rewrite (nth_indep _ so 0); [exact Hsz|]. unfold dim in Hd'. lia. }
  assert (Hgen : forall name stub,
             (o <- (check_argmax_argmin name self (Some d) ;;;
                    resize_reduction None self (optional_to_arrayref (Some d)) keepdim kLong) ;;
              argmax_argmin_impl so self (Some d) keepdim (empty u (fst o) (snd o)) stub)
             = Ok (mkTensor shape (with_dtype (options self) kLong)
                     (repeat (SInt 0) (Z.to_nat (prodZ shape))))).
  { intros name stub. unfold check_argmax_argmin. rewrite Hw. simpl bind.
    unfold zero_numel_check_dims.
    replace (dim self =? 0) with false by (symmetry; apply Z.eqb_neq; lia).
    rewrite Hsz. simpl bind.
    unfold resize_reduction. simpl optional_to_arrayref. rewrite Hshape. simpl bind.
    unfold argmax_argmin_impl. rewrite Hw. simpl bind. rewrite Hnth. simpl.
    now rewrite fill_empty. }
  split; [apply (Hgen "argmax()"%string) | apply (Hgen "argmin()"%string)].
Qed.

Lemma argmax_argmin_size_one_witness :
  let self := mkTensor [2; 1] (mkOptions kDouble kCPU Strided)
                [SDouble (d_of_int64 5); SDouble (d_of_int64 3)] in
  exists shape,
    get_reduction_shape self [-1] false = Ok shape
    /\ at_argmax (SInt 7) 0 idle_kernel self (Some (-1)) false
       = Ok (mkTensor shape (with_dtype (options self) kLong)
               (repeat (SInt 0) (Z.to_nat (prodZ shape))))
    /\ at_argmin (SInt 7) 0 idle_kernel self (Some (-1)) false
       = Ok (mkTensor shape (with_dtype (options self) kLong)
               (repeat (SInt 0) (Z.to_nat (prodZ shape)))).
Proof.
  cbv zeta.
  apply (argmax_argmin_size_one (SInt 7) 0 idle_kernel idle_kernel
           (mkTensor [2; 1] (mkOptions kDouble kCPU Strided)
              [SDouble (d_of_int64 5); SDouble (d_of_int64 3)]) (-1) false).
  - unfold dim; simpl; lia.
  - unfold dim; simpl; lia.
  - reflexivity.
Defined.

(** ** Reductions of a tensor without elements *)

Lemma make_reduction_from_out_ty_numel self result dims keepdim ty :
  iter_numel (make_reduction_from_out_ty self result dims keepdim ty) = numel self.
Proof.
  unfold make_reduction_from_out_ty, meta_make_reduction.
  destruct (ScalarType_eqb (scalar_type self) ty); reflexivity.
Qed.

(** X16.  the sum of no elements is 0 and their product is 1: on an input
    without elements [sum] and [prod] do not call their kernels, and the
    result of the reduction of all dimensions is a tensor of rank 0 that holds
    the neutral element, of dtype [int64] for an input of integers or
    booleans when the caller gives none. *)
Theorem sum_prod_of_nothing :
  forall (uninitialized : Scalar)
         (sum_stub prod_stub : DeviceType -> TensorIterator -> TensorS)
         (self : TensorS) (dtype : option ScalarType),
    numel self = 0 ->
    let out_dtype := get_dtype_from_self self dtype true in
    sum uninitialized sum_stub self dtype
    = Ok (mkTensor [] (with_dtype (options self) out_dtype) [SInt 0])
    /\ prod uninitialized prod_stub self dtype
       = Ok (mkTensor [] (with_dtype (options self) out_dtype) [SInt 1])
    /\ forall dims keepdim r,
         at_sum uninitialized sum_stub self dims keepdim dtype = Ok r ->
         Forall (fun x => x = SInt 0) (data r).
Proof.
  intros u ssum sprod self dtype Hn. cbv zeta. split; [|split].
  - unfold sum, at_sum, sum_dim_IntList_meta, resize_reduction.
    rewrite get_reduction_shape_all, shape_from_dim_mask_all. simpl bind.
    unfold sum_out_impl. rewrite make_reduction_from_out_ty_numel, Hn. reflexivity.
  - unfold prod. rewrite get_reduction_shape_all, shape_from_dim_mask_all. simpl bind.
    unfold impl_func_prod. rewrite make_reduction_from_out_ty_numel, Hn. reflexivity.
  - intros dims keepdim r H. unfold at_sum in H.
    apply bind_ok in H. destruct H as (o & _ & H). injection H as <-.
    unfold sum_out_impl. rewrite make_reduction_from_out_ty_numel, Hn.
    change (0 =? 0) with true. cbv iota. apply fill_data_Forall.
Qed.

Lemma sum_prod_of_nothing_witness :
  let self := mkTensor [0] (mkOptions kInt kCPU Strided) (@nil Scalar) in
  sum (SInt 7) idle_kernel self None
  = Ok (mkTensor [] (mkOptions kLong kCPU Strided) [SInt 0])
  /\ prod (SInt 7) idle_kernel self None
     = Ok (mkTensor [] (mkOptions kLong kCPU Strided) [SInt 1]).
Proof.
  cbv zeta.
  destruct (sum_prod_of_nothing (SInt 7) idle_kernel idle_kernel
              (mkTensor [0] (mkOptions kInt kCPU Strided) (@nil Scalar)) None eq_refl)
    as (H1 & H2 & _).
  split; [exact H1 | exact H2].
Defined.

Lemma Forall_repeat {X} (P : X -> Prop) x n : P x -> Forall P (repeat x n).
Proof. intros H. induction n; simpl; constructor; auto. Qed.

Lemma resize_output_sizes u t shape : sizes (resize_output u t shape) = shape.
Proof.
  unfold resize_output. destruct (list_Z_eqb (sizes t) shape) eqn:E; [|reflexivity].
  apply list_Z_eqb_eq. exact E.
Qed.

Section StdVarOfNothing.
Variable uninitialized : Scalar.
Variable mean_item : TensorS -> double.
Variable chunk : Z.
Variable std_var_stub : DeviceType -> TensorIterator -> Z -> bool -> TensorS.

(** The branch of [std_var_out] for real numbers, on an input without
    elements. *)
Lemma std_var_out_body_nothing self_call fname result self dim_ correction keepdim
  take_sqrt shape :
  numel self = 0 ->
  is_cpu self || is_cuda self = true ->
  layout (options self) = Strided ->
  isFloatingType (scalar_type self) = true ->
  get_reduction_shape self (value_or dim_ []) keepdim = Ok shape ->
  exists r,
    std_var_out_body uninitialized mean_item chunk std_var_stub self_call
      fname result self dim_ correction keepdim take_sqrt = Ok r
    /\ sizes r = shape
    /\ Forall (fun x => x = SDouble d_nan) (data r).
Proof.
  intros Hn Hdev Hlay Hfl Hshape. unfold std_var_out_body.
  rewrite Hdev, Hlay, Hfl. simpl bind.
  replace (isComplexType (scalar_type self)) with false
    by (destruct (scalar_type self); simpl in *; congruence).
  simpl bind. unfold make_reduction. rewrite ScalarType_eqb_refl. simpl bind.
  rewrite Hshape. simpl bind.
  assert (Hnum : iter_numel (meta_make_reduction self (resize_output uninitialized result shape)
                               (value_or dim_ []) keepdim (scalar_type result)) = 0).
  { unfold meta_make_reduction.
    destruct (ScalarType_eqb (scalar_type self) (scalar_type result)); exact Hn. }
  rewrite Hnum. simpl.
  eexists. split; [reflexivity|]. split.
  - unfold meta_make_reduction.
    destruct (ScalarType_eqb (scalar_type self) (scalar_type result)); simpl;
      apply resize_output_sizes.
  - apply fill_data_Forall.
Qed.
End StdVarOfNothing.

Lemma zip_nan_add (a b : list Scalar) :
  Forall (fun x => x = SDouble d_nan) a ->
  Forall (fun x => x = SDouble d_nan)
    (map (fun p => SDouble (d_add (as_double (fst p)) (as_double (snd p)))) (combine a b)).
Proof.
  intros Ha. revert b. induction Ha as [|x a Hx Ha IH]; intros [|y b]; simpl;
    try constructor.
  - subst x. reflexivity.
  - apply IH.
Qed.

Lemma sqrt_nan (a : list Scalar) :
  Forall (fun x => x = SDouble d_nan) a ->
  Forall (fun x => x = SDouble d_nan) (map (fun x => SDouble (d_sqrt (as_double x))) a).
Proof.
  intros Ha. induction Ha as [|x a Hx Ha IH]; simpl; constructor; [|exact IH].
  subst x. reflexivity.
Qed.

(** X17.  the variance and the standard deviation of no elements are NaN, for
    every correction: on an input without elements [var] and [std] raise no
    error and call no kernel, and every element of the result, which has the
    shape of the reduction, is a NaN; for a complex input the two NaNs of the
    real and the imaginary parts are added up. *)
Theorem var_std_of_nothing :
  forall (uninitialized : Scalar) (mean_item : TensorS -> double) (chunk : Z)
         (std_var_stub : DeviceType -> TensorIterator -> Z -> bool -> TensorS)
         (self : TensorS) (dim_ : option (list Z)) (correction : option Z)
         (keepdim : bool) (shape : list Z),
    numel self = 0 ->
    is_cpu self || is_cuda self = true ->
    layout (options self) = Strided ->
    isFloatingType (scalar_type self) || isComplexType (scalar_type self) = true ->
    get_reduction_shape self (value_or dim_ []) keepdim = Ok shape ->
    exists v s,
      var uninitialized mean_item chunk std_var_stub self dim_ correction keepdim = Ok v
      /\ std uninitialized mean_item chunk std_var_stub self dim_ correction keepdim = Ok s
      /\ sizes v = shape /\ sizes s = shape
      /\ Forall (fun x => x = SDouble d_nan) (data v)
      /\ Forall (fun x => x = SDouble d_nan) (data s).
Proof.
  intros u mean_item chunk stub self dim_ correction keepdim shape
    Hn Hdev Hlay Hty Hshape.
  assert (Hgen : forall fname take_sqrt,
             exists r,
               std_var_out u mean_item chunk stub fname
                 (empty u [0] (options_to_value_type (options self))) self dim_
                 correction keepdim take_sqrt = Ok r
               /\ sizes r = shape
               /\ Forall (fun x => x = SDouble d_nan) (data r)).
  { intros fname take_sqrt. unfold std_var_out.
    destruct (isFloatingType (scalar_type self)) eqn:Hfl.
    - apply std_var_out_body_nothing; assumption.
    - simpl in Hty.
      assert (Hreal : isFloatingType (toRealValueType (scalar_type self)) = true)
        by (destruct (scalar_type self); simpl in *; congruence).
      unfold std_var_out_body at 1. rewrite Hdev, Hlay, Hfl, Hty. simpl bind.
      set (dtype := toRealValueType
                      (scalar_type (empty u [0] (options_to_value_type (options self))))).
      assert (Hre : exists r,
                 std_var_out_body u mean_item chunk stub
                   (fun _ _ _ _ _ _ _ => Raise (Error_ "std and var: complex real part"))
                   fname (empty u [0] (with_dtype (options self) dtype)) (at_real self)
                   dim_ correction keepdim false = Ok r
                 /\ sizes r = shape /\ Forall (fun x => x = SDouble d_nan) (data r)).
      { apply std_var_out_body_nothing; auto. }
      assert (Him : exists r,
                 std_var_out_body u mean_item chunk stub
                   (fun _ _ _ _ _ _ _ => Raise (Error_ "std and var: complex real part"))
                   fname (empty u [0] (with_dtype (options self) dtype)) (at_imag self)
                   dim_ correction keepdim false = Ok r
                 /\ sizes r = shape /\ Forall (fun x => x = SDouble d_nan) (data r)).
      { apply std_var_out_body_nothing; auto. }
      destruct Hre as (re & Hre & Hres & Hred).
      destruct Him as (im & Him & Hims & Himd).
      rewrite Hre. simpl bind. rewrite Him. simpl bind.
      eexists. split; [reflexivity|].
      destruct take_sqrt; simpl; (split; [exact Hres|]).
      + apply sqrt_nan, zip_nan_add. exact Hred.
      + apply zip_nan_add. exact Hred. }
  destruct (Hgen "var"%string false) as (v & Hv & Hvs & Hvd).
  destruct (Hgen "std"%string true) as (s & Hs & Hss & Hsd).
  exists v, s. auto 10.
Qed.

Lemma var_std_of_nothing_witness :
  let self := mkTensor [0] (mkOptions kDouble kCPU Strided) (@nil Scalar) in
  exists v s,
    var (SInt 7) serial_mean_item 1 (fun _ it _ _ => it_output it) self None (Some 0) false
    = Ok v
    /\ std (SInt 7) serial_mean_item 1 (fun _ it _ _ => it_output it) self None (Some 0) false
       = Ok s
    /\ sizes v = [] /\ sizes s = []
    /\ Forall (fun x => x = SDouble d_nan) (data v)
    /\ Forall (fun x => x = SDouble d_nan) (data s).
Proof.
  cbv zeta.
  apply (var_std_of_nothing (SInt 7) serial_mean_item 1 (fun _ it _ _ => it_output it)
           (mkTensor [0] (mkOptions kDouble kCPU Strided) (@nil Scalar))
           None (Some 0) false []); reflexivity.
Defined.

(** ** mean: the divisor *)

Lemma prodZ_cons x l : prodZ (x :: l) = x * prodZ l.
Proof. reflexivity. Qed.

Lemma wrap_int64_mul_l a b : wrap_int64 (wrap_int64 a * b) = wrap_int64 (a * b).
Proof.
  unfold wrap_int64. f_equal.
  replace (((a + 2 ^ 63) mod 2 ^ 64 - 2 ^ 63) * b + 2 ^ 63)
    with ((a + 2 ^ 63) mod 2 ^ 64 * b + (2 ^ 63 - 2 ^ 63 * b)) by ring.
  replace (a * b + 2 ^ 63) with ((a + 2 ^ 63) * b + (2 ^ 63 - 2 ^ 63 * b)) by ring.
  rewrite (Z.add_mod ((a + 2 ^ 63) mod 2 ^ 64 * b)) by lia.
  rewrite (Z.add_mod ((a + 2 ^ 63) * b)) by lia.
  f_equal. f_equal. rewrite Z.mul_mod_idemp_l by lia. reflexivity.
Qed.

Lemma has_duplicate_NoDup ds : has_duplicate ds = false -> NoDup ds.
Proof.
  induction ds as [|d ds IH]; simpl; intros H; constructor.
  - apply orb_false_iff in H. destruct H as [H _].
    intros Hin. assert (existsb (Z.eqb d) ds = true); [|congruence].
    apply existsb_exists. exists d. split; [exact Hin | apply Z.eqb_refl].
  - apply IH. apply orb_false_iff in H. tauto.
Qed.

(** The product of the sizes at the positions of [mask], in the order of
    the positions. *)
Lemma prod_at_mask (f : Z -> Z) (mask : list Z) :
  NoDup mask ->
  forall shape i0,
    (forall m, In m mask -> i0 <= m < i0 + Z.of_nat (List.length shape)) ->
    (forall k, (k < List.length shape)%nat -> f (i0 + Z.of_nat k) = nth k shape 0) ->
    prodZ (map f mask)
    = prodZ (map (fun p => if existsb (Z.eqb (fst p)) mask then snd p else 1)
               (combine (map (fun k => i0 + Z.of_nat k) (seq 0 (List.length shape))) shape)).
Proof.
  intros Hnd shape. revert mask Hnd.
  induction shape as [|s rest IH]; intros mask Hnd i0 Hr Hf.
  - simpl. destruct mask as [|m mask]; [reflexivity|].
    specialize (Hr m (or_introl eq_refl)). simpl in Hr. lia.
  - cbn [List.length seq map combine fst snd]. rewrite Z.add_0_r.
    assert (Hshift : map (fun k => i0 + Z.of_nat k) (seq 1 (List.length rest))
                     = map (fun k => i0 + 1 + Z.of_nat k) (seq 0 (List.length rest))).
    { rewrite <- seq_shift, map_map. apply map_ext. intros k. lia. }
    rewrite Hshift.
    assert (Hf' : forall k, (k < List.length rest)%nat ->
                    f (i0 + 1 + Z.of_nat k) = nth k rest 0).
    { intros k Hk. replace (i0 + 1 + Z.of_nat k) with (i0 + Z.of_nat (S k)) by lia.
      apply (Hf (S k)). simpl. lia. }
    destruct (existsb (Z.eqb i0) mask) eqn:E.
    + apply existsb_eqb_In in E.
      destruct (in_split _ _ E) as (l1 & l2 & ->).
      apply NoDup_remove in Hnd. destruct Hnd as [Hnd Hnot].
      assert (Hr' : forall m, In m (l1 ++ l2) ->
                      i0 + 1 <= m < i0 + 1 + Z.of_nat (List.length rest)).
      { intros m Hm.
        assert (m <> i0) by (intros ->; contradiction).
        assert (In m (l1 ++ i0 :: l2)).
        { apply in_app_or in Hm. apply in_or_app. simpl. tauto. }
        specialize (Hr m H0). simpl in Hr. lia. }
      rewrite map_app. cbn [map]. rewrite prodZ_app, !prodZ_cons.
      specialize (IH (l1 ++ l2) Hnd (i0 + 1) Hr' Hf').
      rewrite map_app, prodZ_app in IH.
      assert (Hs : f i0 = s).
      { specialize (Hf 0%nat ltac:(simpl; lia)). now rewrite Z.add_0_r in Hf. }
      rewrite Hs.
      transitivity (s * (prodZ (map f l1) * prodZ (map f l2))); [ring|].
      rewrite IH. f_equal. f_equal. apply map_ext_in.
      intros [p v] Hp. simpl.
      assert (Hpi : p <> i0).
      { apply in_combine_l in Hp. apply in_map_iff in Hp.
        destruct Hp as (k & <- & _). lia. }
      rewrite !existsb_app. simpl.
      replace (p =? i0) with false by (symmetry; now apply Z.eqb_neq).
      reflexivity.
    + rewrite prodZ_cons, Z.mul_1_l.
      assert (Hr' : forall m, In m mask ->
                      i0 + 1 <= m < i0 + 1 + Z.of_nat (List.length rest)).
      { intros m Hm. specialize (Hr m Hm). simpl in Hr.
        assert (m <> i0).
        { intros ->. assert (existsb (Z.eqb i0) mask = true); [|congruence].
          apply existsb_exists. exists i0. split; [exact Hm | apply Z.eqb_refl]. }
        lia. }
      exact (IH mask Hnd (i0 + 1) Hr' Hf').
Qed.

Lemma reduced_times_kept (mask : list Z) keepdim :
  mask <> [] ->
  forall shape i0,
    prodZ (map (fun p => if existsb (Z.eqb (fst p)) mask then snd p else 1)
             (combine (map (fun k => i0 + Z.of_nat k) (seq 0 (List.length shape))) shape))
    * prodZ (shape_from_dim_mask shape mask keepdim i0)
    = prodZ shape.
Proof.
  intros Hm. induction shape as [|s rest IH]; intros i0; [reflexivity|].
  assert (Hred : is_reduced mask i0 = existsb (Z.eqb i0) mask)
    by (destruct mask; [contradiction | reflexivity]).
  cbn [List.length seq map combine fst snd shape_from_dim_mask]. rewrite Z.add_0_r.
  assert (Hshift : map (fun k => i0 + Z.of_nat k) (seq 1 (List.length rest))
                   = map (fun k => i0 + 1 + Z.of_nat k) (seq 0 (List.length rest))).
  { rewrite <- seq_shift, map_map. apply map_ext. intros k. lia. }
  rewrite Hshift, Hred. specialize (IH (i0 + 1)).
  destruct (existsb (Z.eqb i0) mask); [destruct keepdim|];
    rewrite ?prodZ_cons; rewrite ?prodZ_cons; nia.
Qed.

Lemma shape_all_reduced_prod shape keepdim i : prodZ (shape_from_dim_mask shape [] keepdim i) = 1.
Proof.
  revert i. induction shape as [|s shape IH]; intros i; [reflexivity|].
  cbn [shape_from_dim_mask is_reduced]. destruct keepdim; [|apply IH].
  rewrite prodZ_cons, IH. reflexivity.
Qed.

Lemma maybe_wrap_dims_each dims ndim mask :
  maybe_wrap_dims dims ndim = Ok mask ->
  Forall2 (fun d m => maybe_wrap_dim d ndim = Ok m) dims mask.
Proof.
  revert mask. induction dims as [|d dims IH]; intros mask H; simpl in H.
  - injection H as <-. constructor.
  - apply bind_ok in H. destruct H as (d' & Hd & H).
    apply bind_ok in H. destruct H as (ds' & Hds & H).
    injection H as <-. constructor; auto.
Qed.

Lemma size_at_wrapped {V} (self : Tensor V) d m :
  1 <= dim self -> maybe_wrap_dim d (dim self) = Ok m ->
  size_at self d = Ok (size self m).
Proof.
  intros Hr Hw. unfold size_at, maybe_wrap_dim_scalar.
  replace (dim self <=? 0) with false by (symmetry; apply Z.leb_gt; lia).
  simpl. now rewrite Hw.
Qed.

Lemma fold_dim_prod {V} (self : Tensor V) dims mask :
  1 <= dim self ->
  Forall2 (fun d m => maybe_wrap_dim d (dim self) = Ok m) dims mask ->
  dims <> [] ->
  forall a,
    fold_left
      (fun acc d => dim_prod <- acc ;; s <- size_at self d ;; Ok (int64_mul dim_prod s))
      dims (Ok a)
    = Ok (wrap_int64 (a * prodZ (map (size self) mask))).
Proof.
  intros Hr H. induction H as [|d m dims mask Hd H IH]; intros Hne a; [contradiction|].
  cbn [fold_left bind]. rewrite (size_at_wrapped self d m Hr Hd). cbn [bind].
  destruct dims as [|d2 dims].
  - inversion H. subst. simpl. unfold int64_mul. f_equal. f_equal. ring.
  - rewrite IH by discriminate. unfold int64_mul.
    rewrite wrap_int64_mul_l. f_equal. f_equal. cbn [map]. rewrite prodZ_cons. ring.
Qed.

(** X18.  on the CPU [mean] is the sum divided by the number of elements that
    are reduced into one element of the output: the divisor, as an 64-bit
    integer, is a count with [count * numel(output) = numel(input)]. *)
Theorem mean_out_divisor :
  forall (sum_stub mean_stub : DeviceType -> TensorIterator -> TensorS)
         (div_ : TensorS -> Z -> TensorS)
         (self : TensorS) (dims : list Z) (keepdim : bool)
         (opt_dtype : option ScalarType) (result : TensorS) (shape : list Z),
    is_cpu self = true ->
    nonneg_shape (sizes self) -> numel self < 2 ^ 63 ->
    get_reduction_shape self dims keepdim = Ok shape ->
    exists count,
      count * prodZ shape = numel self
      /\ mean_out sum_stub mean_stub div_ self dims keepdim opt_dtype result
         = (r <- at_sum_out sum_stub result self dims keepdim (Some (scalar_type result)) ;;
            Ok (div_ r (wrap_int64 count)))
      /\ (0 < numel self -> wrap_int64 count = count).
Proof.
  intros ssum smean div_ self dims keepdim opt_dtype result shape Hcpu Hnn Hlt Hshape.
  pose proof (prodZ_nonneg _ Hnn) as Hn0. fold (numel self) in Hn0.
  assert (Hrank0 : 0 <= dim self) by (unfold dim; lia).
  unfold mean_out. rewrite Hcpu.
  unfold get_reduction_shape, make_dim_mask in Hshape.
  apply bind_ok in Hshape. destruct Hshape as (mask & Hmask & Hshape).
  apply bind_ok in Hmask. destruct Hmask as (ds & Hds & Hmask).
  apply bind_ok in Hmask. destruct Hmask as ([] & Hdup & Hmask).
  injection Hmask as <-. injection Hshape as <-.
  destruct (Nat.eqb (List.length dims) 0 || (dim self =? 0)) eqn:E.
  - exists (numel self). split; [|split].
    + apply orb_true_iff in E. destruct E as [E|E].
      * apply Nat.eqb_eq in E. destruct dims; [|discriminate].
        simpl in Hds. injection Hds as <-. rewrite shape_all_reduced_prod. lia.
      * apply Z.eqb_eq in E. unfold dim in E.
        destruct (sizes self) eqn:Es; [|simpl in E; lia].
        simpl. lia.
    + simpl bind. now rewrite wrap_int64_small by lia.
    + intros _. apply wrap_int64_small. lia.
  - apply orb_false_iff in E. destruct E as [E1 E2].
    apply Nat.eqb_neq in E1. apply Z.eqb_neq in E2.
    assert (Hne : dims <> []) by (intros ->; simpl in E1; lia).
    assert (Hrank : 1 <= dim self) by lia.
    pose proof (maybe_wrap_dims_each _ _ _ Hds) as Heach.
    exists (prodZ (map (size self) ds)).
    assert (Hmne : ds <> []) by (apply (maybe_wrap_dims_nonempty _ _ _ Hds Hne)).
    assert (Hnd : NoDup ds).
    { apply has_duplicate_NoDup. unfold TORCH_CHECK in Hdup.
      destruct (has_duplicate ds); [discriminate | reflexivity]. }
    assert (Hcount : prodZ (map (size self) ds)
                     * prodZ (shape_from_dim_mask (sizes self) ds keepdim 0)
                     = numel self).
    { rewrite (prod_at_mask (size self) ds Hnd (sizes self) 0).
      - apply reduced_times_kept. exact Hmne.
      - intros m Hm. destruct (maybe_wrap_dims_In _ _ _ Hds m Hm) as (d & _ & Hw).
        pose proof (maybe_wrap_dim_range _ _ _ Hw). unfold dim in *. lia.
      - intros k Hk. unfold size. simpl. now rewrite Nat2Z.id. }
    split; [exact Hcount|]. split.
    + rewrite (fold_dim_prod self dims ds Hrank Heach Hne 1).
      rewrite Z.mul_1_l. reflexivity.
    + intros Hpos.
      assert (Hc0 : 0 <= prodZ (map (size self) ds)).
      { apply prodZ_nonneg. apply Forall_forall. intros x Hx.
        apply in_map_iff in Hx. destruct Hx as (m & <- & _). unfold size.
        destruct (Nat.lt_ge_cases (Z.to_nat m) (List.length (sizes self))) as [Hl|Hl].
        - apply (proj1 (Forall_forall _ _) Hnn). now apply nth_In.
        - rewrite nth_overflow by lia. lia. }
      set (c := prodZ (map (size self) ds)) in *.
      set (P := prodZ (shape_from_dim_mask (sizes self) ds keepdim 0)) in *.
      assert (HP : 1 <= P).
      { destruct (Z_le_gt_dec P 0) as [HP|HP]; [|lia].
        assert (c * P <= 0) by (apply Z.mul_nonneg_nonpos; lia). lia. }
      assert (c <= c * P) by nia.
      apply wrap_int64_small. lia.
Qed.

(** The mean over the rows of a [2 x 3] matrix divides by 2. *)
Lemma mean_out_divisor_witness :
  let self := mkTensor [2; 3] (mkOptions kDouble kCPU Strided) (repeat (SInt 1) 6) in
  let result := mkTensor [3] (mkOptions kDouble kCPU Strided) (repeat (SInt 0) 3) in
  exists count,
    count * prodZ [3] = numel self
    /\ mean_out idle_kernel idle_kernel (fun r _ => r) self [0] false None result
       = (r <- at_sum_out idle_kernel result self [0] false (Some (scalar_type result)) ;;
          Ok ((fun r _ => r) r (wrap_int64 count)))
    /\ (0 < numel self -> wrap_int64 count = count).
Proof.
  cbv zeta.
  apply (mean_out_divisor idle_kernel idle_kernel (fun r _ => r)
           (mkTensor [2; 3] (mkOptions kDouble kCPU Strided) (repeat (SInt 1) 6))
           [0] false None
           (mkTensor [3] (mkOptions kDouble kCPU Strided) (repeat (SInt 0) 3)) [3]).
  - reflexivity.
  - repeat constructor; lia.
  - unfold numel; simpl; lia.
  - reflexivity.
Defined.

(** ** mean, norm, aminmax: the meta functions *)

(** X19.  [mean] checks the dtype of its input, [norm] with a [dtype] argument
    checks that argument: an input of integers or booleans makes [mean] raise
    even when a floating-point [dtype] is asked for, while [norm] accepts it
    with such a [dtype]; without a [dtype] and without an output [norm] gives
    a complex input the dtype of its real values. *)
Theorem mean_norm_dtype_checks :
  forall (V : Type) (maybe_output : option (Tensor V)) (self : Tensor V)
         (p : option Scalar) (dims : list Z) (keepdim : bool)
         (opt_dtype : option ScalarType) (dtype : ScalarType),
    (isFloatingType (scalar_type self) || isComplexType (scalar_type self) = false ->
     is_ok (mean_dim_meta maybe_output self dims keepdim opt_dtype) = false
     /\ is_ok (norm_ScalarOpt_dim_meta maybe_output self p dims keepdim) = false)
    /\ (isFloatingType dtype || isComplexType dtype = true ->
        norm_ScalarOpt_dim_dtype_meta None self p dims keepdim dtype
        = resize_reduction None self dims keepdim dtype)
    /\ (isFloatingType dtype || isComplexType dtype = false ->
        is_ok (norm_ScalarOpt_dim_dtype_meta maybe_output self p dims keepdim dtype) = false)
    /\ (isFloatingType (scalar_type self) || isComplexType (scalar_type self) = true ->
        norm_ScalarOpt_dim_meta None self p dims keepdim
        = resize_reduction None self dims keepdim (toRealValueType (scalar_type self))
        /\ mean_dim_meta None self dims keepdim opt_dtype
           = resize_reduction None self dims keepdim
               (value_or opt_dtype (scalar_type self))).
Proof.
  intros V maybe_output self p dims keepdim opt_dtype dtype.
  unfold mean_dim_meta, norm_ScalarOpt_dim_meta, norm_ScalarOpt_dim_dtype_meta,
    check_floating_or_complex_dtype.
  split; [|split; [|split]].
  - intros H. rewrite H. simpl. auto.
  - intros H. rewrite H. reflexivity.
  - intros H. rewrite H. reflexivity.
  - intros H. rewrite H. simpl bind. split; [reflexivity|].
    unfold infer_dtype_from_optional, get_dtype_from_self.
    destruct opt_dtype as [t|]; [reflexivity|]. simpl.
    replace (isIntegralType (scalar_type self) true) with false
      by (destruct (scalar_type self); simpl in *; congruence).
    reflexivity.
Qed.

Lemma mean_norm_dtype_checks_witness :
  let self := mkTensor [2] (mkOptions kLong kCPU Strided) [SInt 1; SInt 2] in
  is_ok (mean_dim_meta None self [] false (Some kDouble)) = false
  /\ norm_ScalarOpt_dim_dtype_meta None self None [] false kDouble
     = resize_reduction None self [] false kDouble.
Proof.
  cbv zeta.
  destruct (mean_norm_dtype_checks Scalar None
              (mkTensor [2] (mkOptions kLong kCPU Strided) [SInt 1; SInt 2])
              None [] false (Some kDouble) kDouble) as (H1 & H2 & _).
  split; [exact (proj1 (H1 eq_refl)) | exact (H2 eq_refl)].
Defined.

Lemma shape_all_reduced_keepdim shape i :
  shape_from_dim_mask shape [] true i = repeat 1 (List.length shape).
Proof.
  revert i. induction shape as [|s shape IH]; intros i; [reflexivity|].
  cbn [shape_from_dim_mask is_reduced List.length repeat]. now rewrite IH.
Qed.

(** X20.  [aminmax] rejects exactly the inputs that [argmax] and [argmin]
    reject; on the others its two outputs have the options of the input and
    one shape, the shape of the reduction, which for a reduction over all
    dimensions the meta function builds by hand. *)
Theorem aminmax_meta_shape :
  forall (V : Type) (self : Tensor V) (dim_opt : option Z) (keepdim : bool),
    nonneg_shape (sizes self) ->
    (is_ok (aminmax_meta None None self dim_opt keepdim) = false
     <-> argmax_argmin_rejects self dim_opt)
    /\ forall o0 o1,
         aminmax_meta None None self dim_opt keepdim = Ok (o0, o1) ->
         o0 = o1
         /\ snd o0 = options self
         /\ get_reduction_shape self (optional_to_arrayref dim_opt) keepdim = Ok (fst o0).
Proof.
  intros V self dim_opt keepdim Hnn.
  pose proof (prodZ_nonneg _ Hnn) as Hn0. fold (numel self) in Hn0.
  pose proof (check_argmax_argmin_iff "aminmax" self dim_opt) as Hiff.
  unfold aminmax_meta. destruct dim_opt as [d0|].
  - unfold check_argmax_argmin in Hiff.
    destruct (maybe_wrap_dim d0 (dim self)) as [d|e] eqn:Hw; simpl bind in *.
    + assert (Hdd : maybe_wrap_dim d (dim self) = Ok d).
      { pose proof (maybe_wrap_dim_range _ _ _ Hw) as Hr.
        rewrite maybe_wrap_dim_ok by lia.
        now replace (d <? 0) with false by (symmetry; apply Z.ltb_ge; lia). }
      assert (Hshape : get_reduction_shape self [d] keepdim
                       = get_reduction_shape self [d0] keepdim).
      { unfold get_reduction_shape, make_dim_mask. simpl. now rewrite Hw, Hdd. }
      destruct (get_reduction_shape_single self d keepdim) as (shape & Hs).
      { pose proof (maybe_wrap_dim_range _ _ _ Hw). lia. }
      destruct (zero_numel_check_dims self d "aminmax") as [[]|e]; simpl bind in *.
      * rewrite Hs. simpl. split; [exact Hiff|].
        intros o0 o1 H. injection H as <- <-. simpl.
        split; [reflexivity|]. split; [reflexivity|]. now rewrite <- Hshape.
      * split; [exact Hiff | discriminate].
    + split; [exact Hiff | discriminate].
  - simpl in Hiff. unfold TORCH_CHECK_INDEX in Hiff. unfold TORCH_CHECK.
    destruct (Z.ltb_spec 0 (numel self)) as [Hp|Hp]; simpl.
    + replace (numel self =? 0) with false in Hiff by (symmetry; apply Z.eqb_neq; lia).
      split; [exact Hiff|].
      intros o0 o1 H. injection H as <- <-. simpl.
      split; [reflexivity|]. split; [reflexivity|].
      rewrite get_reduction_shape_all. f_equal.
      destruct keepdim.
      * rewrite shape_all_reduced_keepdim. unfold dim. now rewrite Nat2Z.id.
      * now rewrite shape_from_dim_mask_all.
    + replace (numel self =? 0) with true in Hiff by (symmetry; apply Z.eqb_eq; lia).
      split; [exact Hiff | discriminate].
Qed.

Lemma aminmax_meta_shape_witness :
  let self := mkTensor [2; 3] (mkOptions kDouble kCPU Strided) (repeat 0 6) in
  (is_ok (aminmax_meta None None self None true) = false
   <-> argmax_argmin_rejects self None)
  /\ forall o0 o1,
       aminmax_meta None None self None true = Ok (o0, o1) ->
       o0 = o1
       /\ snd o0 = options self
       /\ get_reduction_shape self (optional_to_arrayref None) true = Ok (fst o0).
Proof.
  cbv zeta.
  apply (aminmax_meta_shape Z
           (mkTensor [2; 3] (mkOptions kDouble kCPU Strided) (repeat 0 6)) None true).
  repeat constructor; lia.
Defined.

(** ** gradient: the checks *)

Lemma NoDup_has_duplicate ds : NoDup ds -> has_duplicate ds = false.
Proof.
  induction 1 as [|d ds Hn Hnd IH]; simpl; [reflexivity|].
  rewrite IH, orb_false_r.
  destruct (existsb (Z.eqb d) ds) eqn:E; [|reflexivity].
  apply existsb_eqb_In in E. contradiction.
Qed.

Lemma maybe_wrap_dims_Forall2 dims ndim mask :
  Forall2 (fun d m => maybe_wrap_dim d ndim = Ok m) dims mask ->
  maybe_wrap_dims dims ndim = Ok mask.
Proof.
  induction 1 as [|d m dims mask Hd H IH]; simpl; [reflexivity|].
  now rewrite Hd, IH.
Qed.

Lemma dim_list_to_bitset_iff dims ndim :
  (exists mask, dim_list_to_bitset dims ndim = Ok mask)
  <-> exists mask,
        Forall2 (fun d m => maybe_wrap_dim d ndim = Ok m) dims mask /\ NoDup mask.
Proof.
  unfold dim_list_to_bitset, make_dim_mask. split.
  - intros (mask & H). apply bind_ok in H. destruct H as (ds & Hds & H).
    apply bind_ok in H. destruct H as ([] & Hdup & H). injection H as <-.
    exists ds. split; [apply maybe_wrap_dims_each; exact Hds|].
    apply has_duplicate_NoDup. unfold TORCH_CHECK in Hdup.
    destruct (has_duplicate ds); [discriminate | reflexivity].
  - intros (mask & Hw & Hnd). exists mask.
    rewrite (maybe_wrap_dims_Forall2 _ _ _ Hw). simpl.
    now rewrite (NoDup_has_duplicate _ Hnd).
Qed.

Lemma Forall2_nth_l {X Y} (R : X -> Y -> Prop) l1 l2 dx dy i :
  Forall2 R l1 l2 -> (i < List.length l1)%nat -> R (nth i l1 dx) (nth i l2 dy).
Proof.
  intros H. revert i. induction H as [|x y l1 l2 Hxy H IH]; intros i Hi; simpl in *; [lia|].
  destruct i; [exact Hxy | apply IH; lia].
Qed.

Lemma Forall2_length {X Y} (R : X -> Y -> Prop) l1 l2 :
  Forall2 R l1 l2 -> List.length l1 = List.length l2.
Proof. induction 1; simpl; auto. Qed.

Lemma Forall_nth_iff {X} (P : X -> Prop) l dflt :
  Forall P l <-> forall i, (i < List.length l)%nat -> P (nth i l dflt).
Proof.
  split.
  - intros H i Hi. apply (proj1 (Forall_forall _ _) H). now apply nth_In.
  - intros H. apply Forall_forall. intros x Hx.
    destruct (In_nth _ _ dflt Hx) as (i & Hi & <-). now apply H.
Qed.

Lemma pre_check_gradient_accepts :
  forall (V : Type) (self : Tensor V) (spacing_size : option Z)
         (dim_ : option (list Z)) (edge_order : Z),
    pre_check_gradient self spacing_size dim_ edge_order = Ok tt
    <-> gradient_accepts self spacing_size dim_ edge_order.
Proof.
  intros V self ss dim_ eo. unfold pre_check_gradient, gradient_accepts.
  destruct (ScalarType_eqb_spec (scalar_type self) kByte) as [Eb|Eb]; simpl.
  { split; [discriminate | intros (H & _); contradiction]. }
  assert (Heo : (eo =? 1) || (eo =? 2) = true <-> eo = 1 \/ eo = 2).
  { rewrite orb_true_iff, !Z.eqb_eq. tauto. }
  destruct dim_ as [dims|].
  - (* dimensions are given *)
    assert (Hss : match ss with
                  | Some sz => TORCH_CHECK (sz =? Z.of_nat (List.length dims))
                                 "torch.gradient expected spacing to be unspecified, a scalar or it's spacing and dim arguments to have the same length"
                  | None => Ok tt
                  end = Ok tt
                  <-> match ss with
                      | Some sz => sz = Z.of_nat (List.length dims)
                      | None => True
                      end).
    { destruct ss as [sz|]; [|tauto]. unfold TORCH_CHECK.
      destruct (Z.eqb_spec sz (Z.of_nat (List.length dims))) as [E|E];
        [split; auto | split; [discriminate | intros; contradiction]]. }
    replace (match ss with Some _ => Ok tt | None => Ok tt end) with (Ok tt : outcome unit)
      by (now destruct ss).
    simpl bind.
    destruct (match ss with
              | Some sz => TORCH_CHECK (sz =? Z.of_nat (List.length dims)) _
              | None => Ok tt
              end) as [[]|e] eqn:Ess.
    2:{ simpl. split; [discriminate|]. intros (_ & _ & H & _).
        apply Hss in H. discriminate. }
    simpl bind. pose proof (proj1 Hss eq_refl) as Hsz.
    unfold TORCH_CHECK at 1.
    destruct ((eo =? 1) || (eo =? 2)) eqn:Ee.
    2:{ simpl. split; [discriminate|]. intros (_ & H & _).
        apply Heo in H. discriminate. }
    simpl bind. pose proof (proj1 Heo eq_refl) as Hedge.
    destruct (dim_list_to_bitset dims (dim self)) as [mask|e] eqn:Em.
    2:{ simpl. split; [discriminate|]. intros (_ & _ & _ & _ & mask & Hw & Hnd & _).
        destruct (proj2 (dim_list_to_bitset_iff dims (dim self))) as (m & Hm);
          [eauto | congruence]. }
    simpl bind.
    destruct (proj1 (dim_list_to_bitset_iff dims (dim self)) (ex_intro _ _ Em))
      as (mask' & Hw & Hnd).
    rewrite (fold_checks_outcome_iff
               (fun i => s <- size_at self (nth (Z.to_nat i) dims 0) ;;
                         TORCH_CHECK (eo + 1 <=? s)
                           "torch.gradient expected each dimension size to be at least edge_order+1")).
    split.
    + intros H. split; [exact Eb|]. split; [exact Hedge|]. split; [exact Hsz|].
      assert (Hrank : dims <> [] -> 1 <= dim self).
      { intros Hne. destruct dims as [|d0 dims]; [contradiction|].
        specialize (H 0). rewrite In_irange in H.
        specialize (H ltac:(simpl; lia)). cbv beta in H.
        apply bind_ok in H. destruct H as (s & Hs & _).
        unfold size_at in Hs. apply bind_ok in Hs. destruct Hs as (d1 & Hd1 & _).
        unfold maybe_wrap_dim_scalar in Hd1.
        destruct (Z.leb_spec (dim self) 0); [discriminate | lia]. }
      split; [exact Hrank|].
      exists mask'. split; [exact Hw|]. split; [exact Hnd|].
      apply (Forall_nth_iff _ _ 0). intros i Hi.
      rewrite <- (Forall2_length _ _ _ Hw) in Hi.
      assert (Hne : dims <> []) by (intros ->; simpl in Hi; lia).
      specialize (H (Z.of_nat i)). rewrite In_irange, Nat2Z.id in H.
      specialize (H ltac:(lia)). cbv beta in H.
      rewrite (size_at_wrapped self _ (nth i mask' 0) (Hrank Hne)
                 (Forall2_nth_l _ _ _ 0 0 i Hw Hi)) in H.
      simpl in H. unfold TORCH_CHECK in H.
      destruct (Z.leb_spec (eo + 1) (size self (nth i mask' 0))); [lia | discriminate].
    + intros (_ & _ & _ & Hrank & mask2 & Hw2 & _ & Hsizes) i Hi.
      apply In_irange in Hi. cbv beta.
      assert (Hne : dims <> []) by (intros ->; simpl in Hi; lia).
      assert (Hi' : (Z.to_nat i < List.length dims)%nat) by lia.
      rewrite (size_at_wrapped self _ (nth (Z.to_nat i) mask2 0) (Hrank Hne)
                 (Forall2_nth_l _ _ _ 0 0 _ Hw2 Hi')).
      simpl. unfold TORCH_CHECK.
      rewrite (Forall_nth_iff _ _ 0) in Hsizes.
      specialize (Hsizes (Z.to_nat i)).
      rewrite <- (Forall2_length _ _ _ Hw2) in Hsizes. specialize (Hsizes Hi').
      cbv beta in Hsizes.
      now replace (eo + 1 <=? size self (nth (Z.to_nat i) mask2 0)) with true
        by (symmetry; apply Z.leb_le; exact Hsizes).
  - (* every dimension *)
    assert (Hss : match ss with
                  | Some sz => TORCH_CHECK ((sz =? 1) || (sz =? dim self))
                                 "torch.gradient expected spacing to be unspecified, a scalar or a list of length self.dim()"
                  | None => Ok tt
                  end = Ok tt
                  <-> match ss with
                      | Some sz => sz = 1 \/ sz = dim self
                      | None => True
                      end).
    { destruct ss as [sz|]; [|tauto]. unfold TORCH_CHECK.
      destruct ((sz =? 1) || (sz =? dim self)) eqn:E.
      - apply orb_true_iff in E. rewrite !Z.eqb_eq in E. tauto.
      - apply orb_false_iff in E. rewrite !Z.eqb_neq in E.
        split; [discriminate | lia]. }
    destruct (match ss with
              | Some sz => TORCH_CHECK ((sz =? 1) || (sz =? dim self)) _
              | None => Ok tt
              end) as [[]|e] eqn:Ess.
    2:{ simpl. split; [discriminate|]. intros (_ & _ & H & _).
        apply Hss in H. discriminate. }
    simpl bind. pose proof (proj1 Hss eq_refl) as Hsz.
    replace (match ss with Some _ => Ok tt | None => Ok tt end) with (Ok tt : outcome unit)
      by (now destruct ss).
    simpl bind. unfold TORCH_CHECK at 1.
    destruct ((eo =? 1) || (eo =? 2)) eqn:Ee.
    2:{ simpl. split; [discriminate|]. intros (_ & H & _).
        apply Heo in H. discriminate. }
    simpl bind. pose proof (proj1 Heo eq_refl) as Hedge.
    rewrite fold_checks. rewrite (Forall_nth_iff _ _ 0).
    split.
    + intros H. split; [exact Eb|]. split; [exact Hedge|]. split; [exact Hsz|].
      intros i Hi. specialize (H (Z.of_nat i)). rewrite In_irange in H.
      unfold dim, size in H. rewrite Nat2Z.id in H.
      apply Z.leb_le. apply H. lia.
    + intros (_ & _ & _ & H) i Hi. apply In_irange in Hi.
      apply Z.leb_le. unfold size. apply H. unfold dim in Hi. lia.
Qed.

(** X21.  [gradient] accepts an input exactly when it does not hold unsigned
    bytes, [edge_order] is 1 or 2, the spacings are as many as the dimensions
    asked for (one, or one for each dimension of the input, when none is
    asked for), the dimensions asked for are in range and distinct, and each
    of them (every dimension of the input, when none is asked for) has at
    least [edge_order + 1] elements. *)
Theorem pre_check_gradient_iff :
  forall (V : Type) (self : Tensor V) (spacing_size : option Z)
         (dim_ : option (list Z)) (edge_order : Z),
    pre_check_gradient self spacing_size dim_ edge_order = Ok tt
    <-> gradient_accepts self spacing_size dim_ edge_order.
Proof. exact pre_check_gradient_accepts. Qed.

Lemma pre_check_gradient_iff_witness :
  let self := mkTensor [2; 3] (mkOptions kDouble kCPU Strided) (repeat 0 6) in
  pre_check_gradient self (Some 1) (Some [-1]) 2 = Ok tt
  <-> gradient_accepts self (Some 1) (Some [-1]) 2.
Proof.
  cbv zeta.
  apply (pre_check_gradient_iff Z
           (mkTensor [2; 3] (mkOptions kDouble kCPU Strided) (repeat 0 6))
           (Some 1) (Some [-1]) 2).
Defined.

(** ** gradient: the stencils *)

Lemma skipn_firstn_map {A} (dflt : A) (l : list A) (s e : nat) :
  (s <= e <= List.length l)%nat ->
  skipn s (firstn e l) = map (fun i => nth (s + i) l dflt) (seq 0 (e - s)).
Proof.
  intros H. apply (nth_ext _ _ dflt dflt).
  - rewrite length_skipn, length_firstn, length_map, length_seq. lia.
  - intros i Hi. rewrite length_skipn, length_firstn in Hi.
    rewrite nth_skipn, nth_firstn.
    replace (s + i <? e)%nat with true by (symmetry; apply Nat.ltb_lt; lia).
    rewrite nth_map_seq by lia. reflexivity.
Qed.

Lemma slice_bounds_range n start end_ :
  0 <= n ->
  0 <= fst (slice_bounds n start end_) <= snd (slice_bounds n start end_)
  /\ snd (slice_bounds n start end_) <= n.
Proof.
  intros Hn. unfold slice_bounds. cbv zeta. simpl fst. simpl snd.
  repeat match goal with
         | |- context [if ?c then _ else _] =>
             let E := fresh "E" in destruct c eqn:E
         end;
    rewrite ?Z.ltb_lt, ?Z.ltb_ge, ?Z.leb_le, ?Z.leb_gt in *; lia.
Qed.

Section GradientLanes.
Variable F : Type.
Variable zero : F.
Variable shape : list Z.
Variable d : Z.
Hypothesis Hnn : nonneg_shape shape.
Hypothesis Hne : shape <> [].
Hypothesis Hd : 0 <= d < Z.of_nat (List.length shape).

Local Abbreviation fn := (lanes_fn F zero shape d).

Lemma direction_wrapped : (if d <? 0 then d + Z.of_nat (List.length shape) else d) = d.
Proof. destruct (Z.ltb_spec d 0); [lia | reflexivity]. Qed.

Lemma direction_valid : valid_dim shape d.
Proof. unfold valid_dim. lia. Qed.

Lemma direction_range :
  - Z.of_nat (List.length shape) <= d < Z.of_nat (List.length shape).
Proof. lia. Qed.

Lemma at_slice_fn (t : Tensor F) n phi start end_ :
  lanes_are zero shape d n t phi ->
  let s := Z.to_nat (fst (slice_bounds (Z.of_nat n) start end_)) in
  let e := Z.to_nat (snd (slice_bounds (Z.of_nat n) start end_)) in
  exists t',
    at_slice zero t d start end_ = Ok t'
    /\ options t' = options t
    /\ fn (e - s) t' (fun j i => nth (s + i) (phi j) zero).
Proof.
  intros Lt. cbv zeta.
  pose proof (slice_bounds_range (Z.of_nat n) start end_ ltac:(lia)) as Hb.
  pose proof Lt as (Hs & _ & Hlen & _).
  destruct (wrap_dim_of shape d Hnn Hne direction_range t n) as [Hw _].
  { now rewrite direction_wrapped. }
  rewrite direction_wrapped in Hw.
  destruct (rank_set_dim shape d Hnn Hne direction_range n t) as [Hr _].
  { now rewrite direction_wrapped. }
  pose proof (nonempty_length _ Hne) as Hl.
  eexists. split; [|split].
  - unfold at_slice.
    replace (0 <? dim t) with true by (symmetry; apply Z.ltb_lt; lia).
    simpl bind. rewrite Hw. simpl bind. reflexivity.
  - reflexivity.
  - unfold lanes_fn.
    eapply lanes_are_change;
      [|apply (lanes_are_along_dim shape d Hnn direction_valid zero zero _ n
                 (Z.to_nat (snd (slice_bounds (Z.of_nat n) start end_))
                  - Z.to_nat (fst (slice_bounds (Z.of_nat n) start end_)))
                 t phi (or_introl Hne) (or_introl Hne)); [|exact Lt]].
    + intros j Hj.
      change (skipn (Z.to_nat (fst (slice_bounds (Z.of_nat (List.length (phi j))) start end_)))
                (firstn (Z.to_nat (snd (slice_bounds (Z.of_nat (List.length (phi j)))
                                          start end_)))
                   (phi j))
              = map (fun i => nth (Z.to_nat (fst (slice_bounds (Z.of_nat n) start end_)) + i)
                                (phi j) zero)
                  (seq 0 (Z.to_nat (snd (slice_bounds (Z.of_nat n) start end_))
                          - Z.to_nat (fst (slice_bounds (Z.of_nat n) start end_))))).
      rewrite (Hlen j Hj).
      apply skipn_firstn_map. rewrite (Hlen j Hj). lia.
    + intros l Hll.
      change (List.length
                (skipn (Z.to_nat (fst (slice_bounds (Z.of_nat (List.length l)) start end_)))
                   (firstn (Z.to_nat (snd (slice_bounds (Z.of_nat (List.length l))
                                             start end_))) l))
              = (Z.to_nat (snd (slice_bounds (Z.of_nat n) start end_))
                 - Z.to_nat (fst (slice_bounds (Z.of_nat n) start end_)))%nat).
      rewrite Hll, length_skipn, length_firstn. lia.
Qed.

Lemma tmap2_fn (f : F -> F -> F) m a b g1 g2 :
  fn m a g1 -> fn m b g2 ->
  fn m (tmap2 f a b) (fun j i => f (g1 j i) (g2 j i)).
Proof.
  intros La Lb. unfold lanes_fn in *.
  eapply lanes_are_change;
    [|apply (lanes_are_tmap2 shape d zero zero zero f m a b _ _ La Lb)].
  intros j _. cbv beta. apply zip_with_map_seq.
Qed.

Lemma tmap_fn (f : F -> F) m a g :
  fn m a g -> fn m (tmap f a) (fun j i => f (g j i)).
Proof.
  intros La. unfold lanes_fn in *.
  eapply lanes_are_change;
    [|apply (lanes_are_tmap shape d zero zero f m a _ La)].
  intros j _. cbv beta. apply map_map.
Qed.

Lemma at_cat2_fn m1 m2 a b g1 g2 :
  fn m1 a g1 -> fn m2 b g2 ->
  exists c,
    at_cat2 zero a b d = Ok c
    /\ options c = options a
    /\ fn (m1 + m2) c
         (fun j i => if (i <? m1)%nat then g1 j i else g2 j (i - m1)%nat).
Proof.
  intros La Lb. unfold lanes_fn in *.
  destruct (at_cat2_lanes zero shape d Hnn Hne direction_range a b _ _ _ _
              ltac:(rewrite direction_wrapped; exact La)
              ltac:(rewrite direction_wrapped; exact Lb)) as (c & Hc & Ho & Lc).
  rewrite direction_wrapped in Lc.
  exists c. split; [exact Hc|]. split; [exact Ho|].
  eapply lanes_are_change; [|exact Lc].
  intros j _. cbv beta. rewrite seq_app, map_app. f_equal.
  - apply map_ext_in. intros i Hi. apply in_seq in Hi.
    now replace (i <? m1)%nat with true by (symmetry; apply Nat.ltb_lt; lia).
  - simpl. apply (nth_ext _ _ zero zero); [now rewrite !length_map, !length_seq|].
    intros i Hi. rewrite length_map, length_seq in Hi.
    rewrite nth_map_seq by lia.
    rewrite (nth_indep _ zero ((fun i0 => if (i0 <? m1)%nat then g1 j i0
                                           else g2 j (i0 - m1)%nat) 0%nat))
      by (now rewrite length_map, length_seq).
    rewrite (map_nth (fun i0 => if (i0 <? m1)%nat then g1 j i0 else g2 j (i0 - m1)%nat)).
    rewrite seq_nth by lia.
    replace (m1 + i <? m1)%nat with false by (symmetry; apply Nat.ltb_ge; lia).
    f_equal. lia.
Qed.

Lemma lanes_fn_ext m t g g' :
  (forall j i, (i < m)%nat -> g j i = g' j i) ->
  fn m t g -> fn m t g'.
Proof.
  intros H. unfold lanes_fn. apply lanes_are_change.
  intros j _. apply map_ext_in. intros i Hi. apply in_seq in Hi. apply H. lia.
Qed.
End GradientLanes.

Lemma slice_bounds_at n start end_ (s e : nat) :
  (s <= e <= n)%nat ->
  (if start <? 0 then start + Z.of_nat n else start) = Z.of_nat s ->
  match end_ with
  | Some e0 => (if e0 <? 0 then e0 + Z.of_nat n else e0) = Z.of_nat e
  | None => e = n
  end ->
  slice_bounds (Z.of_nat n) start end_ = (Z.of_nat s, Z.of_nat e).
Proof.
  intros Hse Hs He. unfold slice_bounds. cbv zeta. rewrite Hs.
  assert (Hev : match end_ with
                | Some e0 => if e0 <? 0 then e0 + Z.of_nat n else e0
                | None => Z.of_nat n
                end = Z.of_nat e).
  { destruct end_; [exact He | now subst]. }
  rewrite Hev.
  replace (Z.of_nat s <? 0) with false by (symmetry; apply Z.ltb_ge; lia).
  destruct (Z.leb_spec (Z.of_nat n) (Z.of_nat s)) as [H1|H1].
  - assert (s = n) by lia. assert (e = n) by lia. subst s e.
    replace (Z.of_nat n <? Z.of_nat n) with false by (symmetry; apply Z.ltb_ge; lia).
    now replace (Z.of_nat n <=? Z.of_nat n) with true by (symmetry; apply Z.leb_le; lia).
  - replace (Z.of_nat e <? Z.of_nat s) with false by (symmetry; apply Z.ltb_ge; lia).
    destruct (Z.leb_spec (Z.of_nat n) (Z.of_nat e)); [f_equal; lia | reflexivity].
Qed.

Ltac slice_index :=
  lazy beta iota;
  match goal with
  | |- (if ?s <? 0 then _ else _) = _ =>
      let b := eval compute in (s <? 0) in
      change (s <? 0) with b; cbv iota; lia
  end.

Section GradientStencils.
Variable F : Type.
Variables (zero one : F) (add mul sub div : F -> F -> F) (opp inv : F -> F).
Variables (c2 c1_5 c0_5 : F).
Hypothesis Fth : field_theory zero one add mul sub opp div inv eq.
Hypothesis Hc2 : c2 = add one one.
Hypothesis Hc05 : mul c0_5 c2 = one.
Hypothesis Hc15 : c1_5 = add one c0_5.
Hypothesis H2nz : add one one <> zero.

Add Field Ffield3 : Fth.

Variable shape : list Z.
Variable d : Z.
Hypothesis Hnn : nonneg_shape shape.
Hypothesis Hne : shape <> [].
Hypothesis Hd : 0 <= d < Z.of_nat (List.length shape).

Variable self : Tensor F.
Variable n : nat.
Variable phi : nat -> list F.
Hypothesis Ls : lanes_are zero shape d n self phi.
Variable h : F.

Local Abbreviation x := (fun j k => nth k (phi j) zero).
Local Abbreviation fn := (lanes_fn F zero shape d).
Local Abbreviation body :=
  (gradient_helper_float_body F zero add sub mul div opp c2 c1_5 c0_5).

Lemma at_slice_known start end_ (s e : nat) :
  (s <= e <= n)%nat ->
  (if start <? 0 then start + Z.of_nat n else start) = Z.of_nat s ->
  match end_ with
  | Some e0 => (if e0 <? 0 then e0 + Z.of_nat n else e0) = Z.of_nat e
  | None => e = n
  end ->
  exists t',
    at_slice zero self d start end_ = Ok t'
    /\ options t' = options self
    /\ fn (e - s)%nat t' (fun j i => x j (s + i)%nat).
Proof.
  intros Hse Hs He.
  destruct (at_slice_fn F zero shape d Hnn Hne Hd self n phi start end_ Ls)
    as (t' & Ht & Ho & Lt).
  rewrite (slice_bounds_at n start end_ s e Hse Hs He) in Lt.
  simpl fst in Lt. simpl snd in Lt. rewrite !Nat2Z.id in Lt.
  exists t'. auto.
Qed.

Lemma self_direction : maybe_wrap_dim d (dim self) = Ok d.
Proof.
  pose proof Ls as (Hs & _).
  destruct (wrap_dim_of shape d Hnn Hne (direction_range shape d Hd) self n) as [Hw _].
  { now rewrite (direction_wrapped shape d Hd). }
  now rewrite (direction_wrapped shape d Hd) in Hw.
Qed.

(** The central differences, halved. *)
Lemma gradient_center :
  (2 <= n)%nat ->
  exists s_2 s_0_m2,
    at_slice zero self d 2 None = Ok s_2
    /\ at_slice zero self d 0 (Some (-2)) = Ok s_0_m2
    /\ fn (n - 2)%nat
         (tmap (fun v => div v c2) (tmap (fun v => div v h) (tmap2 sub s_2 s_0_m2)))
         (fun j i => div (div (sub (x j (2 + i)%nat) (x j i)) h) c2).
Proof.
  intros Hn.
  destruct (at_slice_known 2 None 2 n ltac:(lia) eq_refl eq_refl) as (s2 & H2 & _ & L2).
  destruct (at_slice_known 0 (Some (-2)) 0 (n - 2) ltac:(lia) eq_refl ltac:(slice_index))
    as (s0 & H0 & _ & L0).
  rewrite Nat.sub_0_r in L0.
  exists s2, s0. split; [exact H2|]. split; [exact H0|].
  exact (tmap_fn F zero shape d (fun v => div v c2) _ _ _
           (tmap_fn F zero shape d (fun v => div v h) _ _ _
              (tmap2_fn F zero shape d sub _ _ _ _ _ L2 L0))).
Qed.

(** [edge_order = 1]: one-sided differences at the two ends. *)
Lemma gradient_body_order1 :
  (2 <= n)%nat ->
  exists g,
    body self h d 1 = Ok g
    /\ fn n g
         (fun j k =>
            if (k <? 1)%nat then div (sub (x j 1%nat) (x j 0%nat)) h
            else if (k - 1 <? n - 2)%nat then
              div (div (sub (x j (k + 1)%nat) (x j (k - 1)%nat)) h) c2
            else div (sub (x j (n - 1)%nat) (x j (n - 2)%nat)) h).
Proof.
  intros Hn.
  destruct (gradient_center Hn) as (s2 & s0 & H2 & H0 & Lc).
  destruct (at_slice_known 1 (Some 2) 1 2 ltac:(lia) eq_refl eq_refl)
    as (s12 & H12 & _ & L12).
  destruct (at_slice_known 0 (Some 1) 0 1 ltac:(lia) eq_refl eq_refl)
    as (s01 & H01 & _ & L01).
  destruct (at_slice_known (-1) None (n - 1) n ltac:(lia) ltac:(slice_index) eq_refl)
    as (sm1 & Hm1 & _ & Lm1).
  destruct (at_slice_known (-2) (Some (-1)) (n - 2) (n - 1) ltac:(lia)
              ltac:(slice_index) ltac:(slice_index))
    as (sm2 & Hm2 & _ & Lm2).
  simpl (2 - 1)%nat in L12. simpl (1 - 0)%nat in L01.
  replace (n - (n - 1))%nat with 1%nat in Lm1 by lia.
  replace (n - 1 - (n - 2))%nat with 1%nat in Lm2 by lia.
  pose proof (tmap_fn F zero shape d (fun v => div v h) _ _ _
                (tmap2_fn F zero shape d sub _ _ _ _ _ L12 L01)) as LP.
  pose proof (tmap_fn F zero shape d (fun v => div v h) _ _ _
                (tmap2_fn F zero shape d sub _ _ _ _ _ Lm1 Lm2)) as LA.
  destruct (at_cat2_fn F zero shape d Hnn Hne Hd _ _ _ _ _ _ LP Lc)
    as (ps & Hps & _ & Lps).
  destruct (at_cat2_fn F zero shape d Hnn Hne Hd _ _ _ _ _ _ Lps LA)
    as (g & Hg & _ & Lg).
  exists g. split.
  - unfold gradient_helper_float_body. rewrite self_direction. simpl bind.
    rewrite H2. simpl bind. rewrite H0. simpl bind.
    change (1 =? 1) with true. cbv iota.
    rewrite H12. simpl bind. rewrite H01. simpl bind.
    rewrite Hm1. simpl bind. rewrite Hm2. simpl bind.
    unfold prepend_append_on_dim. cbn [fst snd]. rewrite Hps. simpl bind. exact Hg.
  - replace (1 + (n - 2) + 1)%nat with n in Lg by lia.
    eapply lanes_fn_ext; [|exact Lg].
    intros j k Hk. cbv beta.
    destruct (Nat.ltb_spec k 1) as [Hk1|Hk1].
    + replace (k <? 1 + (n - 2))%nat with true by (symmetry; apply Nat.ltb_lt; lia).
      replace k with 0%nat by lia. reflexivity.
    + destruct (Nat.ltb_spec (k - 1) (n - 2)) as [Hk2|Hk2].
      * replace (k <? 1 + (n - 2))%nat with true by (symmetry; apply Nat.ltb_lt; lia).
        replace (2 + (k - 1))%nat with (k + 1)%nat by lia. reflexivity.
      * replace (k <? 1 + (n - 2))%nat with false by (symmetry; apply Nat.ltb_ge; lia).
        replace (k - (1 + (n - 2)))%nat with 0%nat by lia.
        now rewrite !Nat.add_0_r.
Qed.

(** [edge_order = 2]: three-point stencils at the two ends. *)
Lemma gradient_body_order2 :
  (3 <= n)%nat ->
  exists g,
    body self h d 2 = Ok g
    /\ fn n g
         (fun j k =>
            if (k <? 1)%nat then
              div (sub (add (mul (opp c1_5) (x j 0%nat)) (mul c2 (x j 1%nat)))
                       (mul c0_5 (x j 2%nat))) h
            else if (k - 1 <? n - 2)%nat then
              div (div (sub (x j (k + 1)%nat) (x j (k - 1)%nat)) h) c2
            else
              div (add (sub (mul c0_5 (x j (n - 3)%nat)) (mul c2 (x j (n - 2)%nat)))
                       (mul c1_5 (x j (n - 1)%nat))) h).
Proof.
  intros Hn.
  destruct (gradient_center ltac:(lia)) as (s2 & s0 & H2 & H0 & Lc).
  destruct (at_slice_known 0 (Some 1) 0 1 ltac:(lia) eq_refl eq_refl)
    as (s01 & H01 & _ & L01).
  destruct (at_slice_known 1 (Some 2) 1 2 ltac:(lia) eq_refl eq_refl)
    as (s12 & H12 & _ & L12).
  destruct (at_slice_known 2 (Some 3) 2 3 ltac:(lia) eq_refl eq_refl)
    as (s23 & H23 & _ & L23).
  destruct (at_slice_known (-3) (Some (-2)) (n - 3) (n - 2) ltac:(lia)
              ltac:(slice_index) ltac:(slice_index))
    as (sm3 & Hm3 & _ & Lm3).
  destruct (at_slice_known (-2) (Some (-1)) (n - 2) (n - 1) ltac:(lia)
              ltac:(slice_index) ltac:(slice_index))
    as (sm2 & Hm2 & _ & Lm2).
  destruct (at_slice_known (-1) None (n - 1) n ltac:(lia) ltac:(slice_index) eq_refl)
    as (sm1 & Hm1 & _ & Lm1).
  simpl (1 - 0)%nat in L01. simpl (2 - 1)%nat in L12. simpl (3 - 2)%nat in L23.
  replace (n - 2 - (n - 3))%nat with 1%nat in Lm3 by lia.
  replace (n - 1 - (n - 2))%nat with 1%nat in Lm2 by lia.
  replace (n - (n - 1))%nat with 1%nat in Lm1 by lia.
  pose proof (tmap_fn F zero shape d (fun v => div v h) _ _ _
                (tmap2_fn F zero shape d sub _ _ _ _ _
                   (tmap2_fn F zero shape d add _ _ _ _ _
                      (tmap_fn F zero shape d (fun v => mul (opp c1_5) v) _ _ _ L01)
                      (tmap_fn F zero shape d (fun v => mul c2 v) _ _ _ L12))
                   (tmap_fn F zero shape d (fun v => mul c0_5 v) _ _ _ L23))) as LP.
  pose proof (tmap_fn F zero shape d (fun v => div v h) _ _ _
                (tmap2_fn F zero shape d add _ _ _ _ _
                   (tmap2_fn F zero shape d sub _ _ _ _ _
                      (tmap_fn F zero shape d (fun v => mul c0_5 v) _ _ _ Lm3)
                      (tmap_fn F zero shape d (fun v => mul c2 v) _ _ _ Lm2))
                   (tmap_fn F zero shape d (fun v => mul c1_5 v) _ _ _ Lm1))) as LA.
  destruct (at_cat2_fn F zero shape d Hnn Hne Hd _ _ _ _ _ _ LP Lc)
    as (ps & Hps & _ & Lps).
  destruct (at_cat2_fn F zero shape d Hnn Hne Hd _ _ _ _ _ _ Lps LA)
    as (g & Hg & _ & Lg).
  exists g. split.
  - unfold gradient_helper_float_body. rewrite self_direction. simpl bind.
    rewrite H2. simpl bind. rewrite H0. simpl bind.
    change (2 =? 1) with false. change (2 =? 2) with true. cbv iota.
    rewrite H01. simpl bind. rewrite H12. simpl bind. rewrite H23. simpl bind.
    rewrite Hm3. simpl bind. rewrite Hm2. simpl bind. rewrite Hm1. simpl bind.
    unfold prepend_append_on_dim. cbn [fst snd]. rewrite Hps. simpl bind. exact Hg.
  - replace (1 + (n - 2) + 1)%nat with n in Lg by lia.
    eapply lanes_fn_ext; [|exact Lg].
    intros j k Hk. cbv beta.
    destruct (Nat.ltb_spec k 1) as [Hk1|Hk1].
    + replace (k <? 1 + (n - 2))%nat with true by (symmetry; apply Nat.ltb_lt; lia).
      replace k with 0%nat by lia. reflexivity.
    + destruct (Nat.ltb_spec (k - 1) (n - 2)) as [Hk2|Hk2].
      * replace (k <? 1 + (n - 2))%nat with true by (symmetry; apply Nat.ltb_lt; lia).
        replace (2 + (k - 1))%nat with (k + 1)%nat by lia. reflexivity.
      * replace (k <? 1 + (n - 2))%nat with false by (symmetry; apply Nat.ltb_ge; lia).
        replace (k - (1 + (n - 2)))%nat with 0%nat by lia.
        now rewrite !Nat.add_0_r.
Qed.
End GradientStencils.

Section GradientExact.
Variable F : Type.
Variables (zero one : F) (add mul sub div : F -> F -> F) (opp inv : F -> F).
Variables (c2 c1_5 c0_5 : F).
Hypothesis Fth : field_theory zero one add mul sub opp div inv eq.
Hypothesis Hc2 : c2 = add one one.
Hypothesis Hc05 : mul c0_5 c2 = one.
Hypothesis Hc15 : c1_5 = add one c0_5.
Hypothesis H2nz : add one one <> zero.

Add Field Ffield4 : Fth.

Local Abbreviation N := (of_nat_in zero one add).
Local Abbreviation body :=
  (gradient_helper_float_body F zero add sub mul div opp c2 c1_5 c0_5).

Lemma half_is : c0_5 = div one (add one one).
Proof.
  assert (H : mul c0_5 (add one one) = one) by (rewrite <- Hc2; exact Hc05).
  transitivity (div (mul c0_5 (add one one)) (add one one)); [field; exact H2nz|].
  now rewrite H.
Qed.

Variable self : Tensor F.
Variable d : Z.
Hypothesis Hty : scalar_type self <> kByte.
Hypothesis Hnn : nonneg_shape (sizes self).
Hypothesis Hwf : well_formed self.
Hypothesis Hrank : 1 <= dim self.
Hypothesis Hd : - dim self <= d < dim self.
Variable h : F.
Hypothesis Hh : h <> zero.

Local Abbreviation d' := (if d <? 0 then d + dim self else d).
Local Abbreviation n := (dim_size_of (sizes self) d').
Local Abbreviation lanes_count :=
  (outer_size (sizes self) d' * inner_size (sizes self) d')%nat.
Local Abbreviation x := (fun j k => nth k (nth j (tensor_lanes zero self d') []) zero).

Lemma gradient_single (edge_order : Z) (g : Tensor F) c1 :
  (edge_order = 1 \/ edge_order = 2) ->
  edge_order + 1 <= size self d' ->
  body self h d' edge_order = Ok g ->
  gradient_scalarint F zero add sub mul div opp c2 c1_5 c0_5 c1 self (Some h) (Some d)
    edge_order = Ok [g].
Proof.
  intros Heo Hsz Hb. unfold gradient_scalarint. simpl gradient_dim_preprocess.
  assert (Hw : maybe_wrap_dim d (dim self) = Ok d').
  { rewrite maybe_wrap_dim_ok by lia.
    now replace (Z.max 1 (dim self)) with (dim self) by lia. }
  assert (Hacc : pre_check_gradient self (Some (Z.of_nat (List.length (repeat h 1))))
                   (Some [d]) edge_order = Ok tt).
  { apply pre_check_gradient_accepts. split; [exact Hty|]. split; [exact Heo|].
    split; [reflexivity|]. split; [intros _; exact Hrank|].
    exists [d']. split; [constructor; [exact Hw | constructor]|].
    split; [constructor; [intros [] | constructor]|].
    constructor; [exact Hsz | constructor]. }
  rewrite Hacc. simpl bind.
  unfold gradient_helper_float. simpl.
  assert (Hbody : body self h d edge_order = body self h d' edge_order).
  { unfold gradient_helper_float_body. rewrite Hw.
    assert (Hw' : maybe_wrap_dim d' (dim self) = Ok d').
    { pose proof (maybe_wrap_dim_range _ _ _ Hw) as Hr.
      rewrite maybe_wrap_dim_ok by lia.
      now replace (d' <? 0) with false by (symmetry; apply Z.ltb_ge; lia). }
    now rewrite Hw'. }
  rewrite Hbody, Hb. reflexivity.
Qed.

Lemma gradient_setting :
  sizes self <> []
  /\ 0 <= d' < Z.of_nat (List.length (sizes self))
  /\ size self d' = Z.of_nat n
  /\ lanes_are zero (sizes self) d' n self (fun j => nth j (tensor_lanes zero self d') []).
Proof.
  destruct (self_lanes zero self d Hnn Hwf Hrank Hd) as (Hne & Hd2 & Hvd & L0).
  split; [exact Hne|]. unfold dim in *.
  split; [destruct (Z.ltb_spec d 0); lia|].
  split; [|exact L0].
  destruct (rank_set_dim (sizes self) d Hnn Hne Hd2 n self) as [_ H];
    [symmetry; apply set_dim_size_same; auto | exact H].
Qed.

Lemma lanes_fn_values (g : Tensor F) (v : nat -> nat -> F) :
  lanes_fn F zero (sizes self) d' n g v ->
  sizes g = sizes self
  /\ forall j k, (j < lanes_count)%nat -> (k < n)%nat ->
                 nth k (nth j (tensor_lanes zero g d') []) zero = v j k.
Proof.
  intros Lg. destruct gradient_setting as (Hne & Hd2 & _ & _).
  pose proof (direction_valid (sizes self) d' Hd2) as Hvd.
  pose proof Lg as (Hs & _). split.
  - rewrite Hs. apply set_dim_size_same; auto.
  - intros j k Hj Hk.
    rewrite (lanes_are_tensor_lanes (sizes self) d' Hnn Hvd zero n g _ (or_introl Hne) Lg).
    rewrite (nth_indep _ [] ((fun j0 => map (v j0) (seq 0 n)) 0%nat))
      by (now rewrite length_map, length_seq).
    rewrite (map_nth (fun j0 => map (v j0) (seq 0 n))), seq_nth by lia.
    simpl. now rewrite nth_map_seq.
Qed.

(** [edge_order = 1] on data that is affine along the dimension. *)
Lemma gradient_order1_affine (a b : nat -> F) c1 :
  2 <= size self d' ->
  (forall j k, (j < lanes_count)%nat -> (k < n)%nat ->
               x j k = add (a j) (mul (b j) (mul (N k) h))) ->
  exists g,
    gradient_scalarint F zero add sub mul div opp c2 c1_5 c0_5 c1 self (Some h) (Some d) 1
    = Ok [g]
    /\ sizes g = sizes self
    /\ forall j k, (j < lanes_count)%nat -> (k < n)%nat ->
                   nth k (nth j (tensor_lanes zero g d') []) zero = b j.
Proof.
  intros Hsz Haff.
  destruct gradient_setting as (Hne & Hd2 & Hsize & L0).
  rewrite Hsize in Hsz.
  destruct (gradient_body_order1 F zero add mul sub div opp c2 c1_5 c0_5
              (sizes self) d' Hnn Hne Hd2 self n _ L0 h ltac:(lia))
    as (g & Hg & Lg).
  exists g. split; [apply gradient_single; [left; reflexivity | lia | exact Hg]|].
  destruct (lanes_fn_values g _ Lg) as [Hs Hv]. split; [exact Hs|].
  intros j k Hj Hk. rewrite (Hv j k Hj Hk).
  destruct (Nat.ltb_spec k 1) as [Hk1|Hk1].
  - rewrite !Haff by lia. simpl N. field; repeat split; assumption.
  - destruct (Nat.ltb_spec (k - 1) (n - 2)) as [Hk2|Hk2].
    + destruct k as [|m]; [lia|].
      replace (S m + 1)%nat with (S (S m)) by lia.
      replace (S m - 1)%nat with m in * by lia.
      rewrite !Haff by lia. simpl N. rewrite Hc2.
      field; repeat split; assumption.
    + rewrite !Haff by lia.
      replace (n - 1)%nat with (S (n - 2)) by lia. simpl N. field; repeat split; assumption.
Qed.

(** [edge_order = 2] on data that is quadratic along the dimension. *)
Lemma gradient_order2_quadratic (a b c : nat -> F) c1 :
  3 <= size self d' ->
  (forall j k, (j < lanes_count)%nat -> (k < n)%nat ->
               x j k = add (add (a j) (mul (b j) (mul (N k) h)))
                           (mul (c j) (mul (mul (N k) h) (mul (N k) h)))) ->
  exists g,
    gradient_scalarint F zero add sub mul div opp c2 c1_5 c0_5 c1 self (Some h) (Some d) 2
    = Ok [g]
    /\ sizes g = sizes self
    /\ forall j k, (j < lanes_count)%nat -> (k < n)%nat ->
                   nth k (nth j (tensor_lanes zero g d') []) zero
                   = add (b j) (mul (mul c2 (c j)) (mul (N k) h)).
Proof.
  intros Hsz Hq.
  destruct gradient_setting as (Hne & Hd2 & Hsize & L0).
  rewrite Hsize in Hsz.
  destruct (gradient_body_order2 F zero add mul sub div opp c2 c1_5 c0_5
              (sizes self) d' Hnn Hne Hd2 self n _ L0 h ltac:(lia))
    as (g & Hg & Lg).
  exists g. split; [apply gradient_single; [right; reflexivity | lia | exact Hg]|].
  destruct (lanes_fn_values g _ Lg) as [Hs Hv]. split; [exact Hs|].
  intros j k Hj Hk. rewrite (Hv j k Hj Hk).
  pose proof half_is as Hhalf.
  destruct (Nat.ltb_spec k 1) as [Hk1|Hk1].
  - rewrite !Hq by lia. replace k with 0%nat by lia. simpl N.
    rewrite Hc15, Hhalf, Hc2. field; repeat split; assumption.
  - destruct (Nat.ltb_spec (k - 1) (n - 2)) as [Hk2|Hk2].
    + destruct k as [|m]; [lia|].
      replace (S m + 1)%nat with (S (S m)) by lia.
      replace (S m - 1)%nat with m in * by lia.
      rewrite !Hq by lia. simpl N. rewrite Hc2.
      field; repeat split; assumption.
    + rewrite !Hq by lia.
      assert (Hkn : k = (n - 1)%nat) by lia. rewrite Hkn.
      replace (n - 1)%nat with (S (S (n - 3))) by lia.
      replace (n - 2)%nat with (S (n - 3)) by lia. simpl N.
      rewrite Hc15, Hhalf, Hc2. field; repeat split; assumption.
Qed.
End GradientExact.

(** X22.  in exact arithmetic (the element operations are those of a field,
    and the constant [2] of the source is [1 + 1]), [gradient] with one
    spacing [h <> 0], one dimension and [edge_order = 1] returns one tensor
    of the shape of the input, and where the input is affine along that
    dimension, [a + b * (k * h)] at index [k], every element of the result
    is the slope [b], at the two edges too. *)
Theorem gradient_order1_exact_on_affine :
  forall (F : Type) (zero one : F) (add mul sub div : F -> F -> F)
         (opp inv : F -> F) (c2 c1_5 c0_5 c1 : F)
         (self : Tensor F) (d : Z) (h : F) (a b : nat -> F),
    field_theory zero one add mul sub opp div inv eq ->
    c2 = add one one -> add one one <> zero ->
    scalar_type self <> kByte ->
    nonneg_shape (sizes self) -> well_formed self ->
    1 <= dim self -> - dim self <= d < dim self ->
    h <> zero ->
    let d' := if d <? 0 then d + dim self else d in
    let n := dim_size_of (sizes self) d' in
    let count := (outer_size (sizes self) d' * inner_size (sizes self) d')%nat in
    2 <= size self d' ->
    (forall j k, (j < count)%nat -> (k < n)%nat ->
                 nth k (nth j (tensor_lanes zero self d') []) zero
                 = add (a j) (mul (b j) (mul (of_nat_in zero one add k) h))) ->
    exists g,
      gradient_scalarint F zero add sub mul div opp c2 c1_5 c0_5 c1 self
        (Some h) (Some d) 1 = Ok [g]
      /\ sizes g = sizes self
      /\ forall j k, (j < count)%nat -> (k < n)%nat ->
                     nth k (nth j (tensor_lanes zero g d') []) zero = b j.
Proof.
  intros F zero one add mul sub div opp inv c2 c1_5 c0_5 c1 self d h a b
         Fth Hc2 H2nz Hty Hnn Hwf Hrank Hd Hh d' n count Hsz Haff.
  exact (gradient_order1_affine F zero one add mul sub div opp inv c2 c1_5 c0_5
           Fth Hc2 H2nz self d Hty Hnn Hwf Hrank Hd h Hh a b c1 Hsz Haff).
Qed.

(** Over the rationals, the rows [1, 3, 5] and [0, 10, 20] with spacing 2:
    the slopes 1 and 5. *)
Lemma gradient_order1_exact_on_affine_witness :
  let q := fun z : Z => Q2Qc (Qmake z 1) in
  let self := mkTensor [2; 3] (mkOptions kDouble kCPU Strided)
                (map q [1; 3; 5; 0; 10; 20]) in
  exists g,
    gradient_scalarint Qc (q 0) Qcplus Qcminus Qcmult Qcdiv Qcopp (q 2)
      (Q2Qc (Qmake 3 2)) (Q2Qc (Qmake 1 2)) (q 1) self (Some (q 2)) (Some (-1)) 1
    = Ok [g]
    /\ sizes g = [2; 3]
    /\ forall j k, (j < 2)%nat -> (k < 3)%nat ->
                   nth k (nth j (tensor_lanes (q 0) g 1) []) (q 0)
                   = nth j [q 1; q 5] (q 0).
Proof.
  cbv zeta.
  apply (gradient_order1_exact_on_affine Qc (Q2Qc (Qmake 0 1)) (Q2Qc (Qmake 1 1))
           Qcplus Qcmult Qcminus Qcdiv Qcopp Qcinv
           (Q2Qc (Qmake 2 1)) (Q2Qc (Qmake 3 2)) (Q2Qc (Qmake 1 2)) (Q2Qc (Qmake 1 1))
           (mkTensor [2; 3] (mkOptions kDouble kCPU Strided)
              (map (fun z : Z => Q2Qc (Qmake z 1)) [1; 3; 5; 0; 10; 20]))
           (-1) (Q2Qc (Qmake 2 1))
           (fun j => nth j [Q2Qc (Qmake 1 1); Q2Qc (Qmake 0 1)] (Q2Qc (Qmake 0 1)))
           (fun j => nth j [Q2Qc (Qmake 1 1); Q2Qc (Qmake 5 1)] (Q2Qc (Qmake 0 1)))).
  - exact Qcft.
  - apply Qc_is_canon. reflexivity.
  - intros H. apply (f_equal this) in H. discriminate H.
  - discriminate.
  - repeat constructor; lia.
  - reflexivity.
  - unfold dim; simpl; lia.
  - unfold dim; simpl; lia.
  - intros H. apply (f_equal this) in H. discriminate H.
  - unfold size, dim; simpl; lia.
  - intros j k Hj Hk. change (j < 2)%nat in Hj. change (k < 3)%nat in Hk.
    destruct j as [|[|j]]; [| |lia];
      (destruct k as [|[|[|k]]]; [| | |lia]); apply Qc_is_canon; reflexivity.
Defined.

(** X23.  in exact arithmetic (the element operations are those of a field,
    and the constants [2], [1.5] and [0.5] of the source are [1 + 1],
    [1 + 0.5] and the inverse of [2]), [gradient] with one spacing [h <> 0],
    one dimension of at least three elements and [edge_order = 2] returns
    one tensor of the shape of the input, and where the input is quadratic
    along that dimension, [a + b * x + c * x * x] at [x = k * h], the result
    at index [k] is the derivative [b + 2 * c * x], at the two edges too. *)
Theorem gradient_order2_exact_on_quadratic :
  forall (F : Type) (zero one : F) (add mul sub div : F -> F -> F)
         (opp inv : F -> F) (c2 c1_5 c0_5 c1 : F)
         (self : Tensor F) (d : Z) (h : F) (a b c : nat -> F),
    field_theory zero one add mul sub opp div inv eq ->
    c2 = add one one -> mul c0_5 c2 = one -> c1_5 = add one c0_5 ->
    add one one <> zero ->
    scalar_type self <> kByte ->
    nonneg_shape (sizes self) -> well_formed self ->
    1 <= dim self -> - dim self <= d < dim self ->
    h <> zero ->
    let d' := if d <? 0 then d + dim self else d in
    let n := dim_size_of (sizes self) d' in
    let count := (outer_size (sizes self) d' * inner_size (sizes self) d')%nat in
    let x := fun k => mul (of_nat_in zero one add k) h in
    3 <= size self d' ->
    (forall j k, (j < count)%nat -> (k < n)%nat ->
                 nth k (nth j (tensor_lanes zero self d') []) zero
                 = add (add (a j) (mul (b j) (x k))) (mul (c j) (mul (x k) (x k)))) ->
    exists g,
      gradient_scalarint F zero add sub mul div opp c2 c1_5 c0_5 c1 self
        (Some h) (Some d) 2 = Ok [g]
      /\ sizes g = sizes self
      /\ forall j k, (j < count)%nat -> (k < n)%nat ->
                     nth k (nth j (tensor_lanes zero g d') []) zero
                     = add (b j) (mul (mul c2 (c j)) (x k)).
Proof.
  intros F zero one add mul sub div opp inv c2 c1_5 c0_5 c1 self d h a b c
         Fth Hc2 Hc05 Hc15 H2nz Hty Hnn Hwf Hrank Hd Hh d' n count x Hsz Hq.
  exact (gradient_order2_quadratic F zero one add mul sub div opp inv c2 c1_5 c0_5
           Fth Hc2 Hc05 Hc15 H2nz self d Hty Hnn Hwf Hrank Hd h Hh a b c c1 Hsz Hq).
Qed.

(** Over the rationals, the squares [0, 1, 4, 9] with spacing 1: the
    derivative [0, 2, 4, 6]. *)
Lemma gradient_order2_exact_on_quadratic_witness :
  let q := fun z : Z => Q2Qc (Qmake z 1) in
  let self := mkTensor [4] (mkOptions kDouble kCPU Strided) (map q [0; 1; 4; 9]) in
  exists g,
    gradient_scalarint Qc (q 0) Qcplus Qcminus Qcmult Qcdiv Qcopp (q 2)
      (Q2Qc (Qmake 3 2)) (Q2Qc (Qmake 1 2)) (q 1) self (Some (q 1)) (Some 0) 2
    = Ok [g]
    /\ sizes g = [4]
    /\ forall j k, (j < 1)%nat -> (k < 4)%nat ->
                   nth k (nth j (tensor_lanes (q 0) g 0) []) (q 0)
                   = Qcplus (q 0) (Qcmult (Qcmult (q 2) (q 1))
                                     (Qcmult (of_nat_in (q 0) (q 1) Qcplus k) (q 1))).
Proof.
  cbv zeta.
  apply (gradient_order2_exact_on_quadratic Qc (Q2Qc (Qmake 0 1)) (Q2Qc (Qmake 1 1))
           Qcplus Qcmult Qcminus Qcdiv Qcopp Qcinv
           (Q2Qc (Qmake 2 1)) (Q2Qc (Qmake 3 2)) (Q2Qc (Qmake 1 2)) (Q2Qc (Qmake 1 1))
           (mkTensor [4] (mkOptions kDouble kCPU Strided)
              (map (fun z : Z => Q2Qc (Qmake z 1)) [0; 1; 4; 9]))
           0 (Q2Qc (Qmake 1 1))
           (fun _ => Q2Qc (Qmake 0 1)) (fun _ => Q2Qc (Qmake 0 1))
           (fun _ => Q2Qc (Qmake 1 1))).
  - exact Qcft.
  - apply Qc_is_canon. reflexivity.
  - apply Qc_is_canon. reflexivity.
  - apply Qc_is_canon. reflexivity.
  - intros H. apply (f_equal this) in H. discriminate H.
  - discriminate.
  - repeat constructor; lia.
  - reflexivity.
  - unfold dim; simpl; lia.
  - unfold dim; simpl; lia.
  - intros H. apply (f_equal this) in H. discriminate H.
  - unfold size, dim; simpl; lia.
  - intros j k Hj Hk. change (j < 1)%nat in Hj. change (k < 4)%nat in Hk.
    destruct j as [|j]; [|lia];
      (destruct k as [|[|[|[|k]]]]; [| | | |lia]); apply Qc_is_canon; reflexivity.
Defined.

(** ** squeeze_multiple *)

Lemma sizes_outside_not_keepdim (shape mask : list Z) (i : Z) :
  mask <> [] ->
  shape_from_dim_mask shape mask false i = sizes_outside shape mask i.
Proof.
  intros Hm. revert i. induction shape as [|s rest IH]; intros i; [reflexivity|].
  simpl. rewrite IH.
  unfold is_reduced, bitset_test. destruct mask; [contradiction | reflexivity].
Qed.

Lemma sizes_outside_keepdim (shape mask : list Z) (i : Z) :
  mask <> [] ->
  sizes_outside (shape_from_dim_mask shape mask true i) mask i
  = sizes_outside shape mask i.
Proof.
  intros Hm. revert i. induction shape as [|s rest IH]; intros i; [reflexivity|].
  simpl. assert (E : is_reduced mask i = bitset_test mask i).
  { unfold is_reduced, bitset_test. destruct mask; [contradiction | reflexivity]. }
  rewrite E. destruct (bitset_test mask i) eqn:Eb; simpl; rewrite Eb, IH; reflexivity.
Qed.

Lemma keepdim_length (shape mask : list Z) (i : Z) :
  List.length (shape_from_dim_mask shape mask true i) = List.length shape.
Proof.
  revert i. induction shape as [|s rest IH]; intros i; [reflexivity|].
  simpl. destruct (is_reduced mask i); simpl; now rewrite IH.
Qed.

Lemma keepdim_ones (shape mask : list Z) (i : Z) (k : nat) :
  mask <> [] ->
  (k < List.length shape)%nat ->
  bitset_test mask (i + Z.of_nat k) = true ->
  nth k (shape_from_dim_mask shape mask true i) 0 = 1.
Proof.
  intros Hm. revert i k. induction shape as [|s rest IH]; intros i k Hk Hb;
    [simpl in Hk; lia|].
  assert (E : is_reduced mask i = bitset_test mask i).
  { unfold is_reduced, bitset_test. destruct mask; [contradiction | reflexivity]. }
  simpl. rewrite E. destruct k as [|k].
  - replace (i + Z.of_nat 0) with i in Hb by lia. now rewrite Hb.
  - assert (Hn : nth k (shape_from_dim_mask rest mask true (i + 1)) 0 = 1).
    { apply IH; [simpl in Hk; lia|].
      now replace (i + 1 + Z.of_nat k) with (i + Z.of_nat (S k)) by lia. }
    destruct (bitset_test mask i); exact Hn.
Qed.

Lemma sizes_outside_skipn (S0 mask : list Z) (k : nat) :
  (k < List.length S0)%nat ->
  sizes_outside (skipn k S0) mask (Z.of_nat k)
  = if bitset_test mask (Z.of_nat k)
    then sizes_outside (skipn (S k) S0) mask (Z.of_nat (S k))
    else nth k S0 0 :: sizes_outside (skipn (S k) S0) mask (Z.of_nat (S k)).
Proof.
  intros Hk.
  assert (E : skipn k S0 = nth k S0 0 :: skipn (S k) S0).
  { revert k Hk. induction S0 as [|s r IH]; intros k Hk; [simpl in Hk; lia|].
    destruct k as [|k]; [reflexivity|]. simpl in Hk.
    change (skipn k r = nth k r 0 :: skipn (S k) r). apply IH. lia. }
  rewrite E. simpl sizes_outside.
  replace (Z.of_nat k + 1) with (Z.of_nat (S k)) by lia. reflexivity.
Qed.

Lemma firstn_snoc (l : list Z) (k : nat) :
  (k < List.length l)%nat -> firstn (S k) l = firstn k l ++ [nth k l 0].
Proof.
  revert k. induction l as [|s r IH]; intros k Hk; [simpl in Hk; lia|].
  destruct k as [|k]; [reflexivity|]. simpl in Hk.
  change (s :: firstn (S k) r = s :: (firstn k r ++ [nth k r 0])).
  f_equal. apply IH. lia.
Qed.

Lemma drop_middle (pre tl : list Z) (x : Z) (k : nat) :
  List.length pre = k ->
  firstn k ((pre ++ [x]) ++ tl) ++ skipn (S k) ((pre ++ [x]) ++ tl) = pre ++ tl.
Proof.
  intros <-. rewrite <- app_assoc.
  rewrite firstn_app, Nat.sub_diag, firstn_all, firstn_0, app_nil_r.
  f_equal. rewrite skipn_app, skipn_all2 by lia.
  replace (S (List.length pre) - List.length pre)%nat with 1%nat by lia. reflexivity.
Qed.

Section SqueezeMultiple.
Context {A : Type}.
Variable self : Tensor A.
Variable mask : list Z.
Hypothesis Hones :
  forall k, (k < List.length (sizes self))%nat ->
            bitset_test mask (Z.of_nat k) = true -> nth k (sizes self) 0 = 1.

Local Abbreviation step :=
  (fun (acc : outcome (Tensor A)) i =>
     result <- acc ;;
     if bitset_test mask i then at_squeeze result i else Ok result).

(** After the rounds for the dimensions [k], ..., [ndims - 1], taken from the
    last one down, the dimensions before [k] are as they were and those of
    [mask] behind are gone. *)
Lemma squeeze_multiple_loop (j : nat) :
  (j <= List.length (sizes self))%nat ->
  let k := (List.length (sizes self) - j)%nat in
  exists t,
    fold_left step (rev (map Z.of_nat (seq k j))) (Ok self) = Ok t
    /\ options t = options self /\ data t = data self
    /\ sizes t = firstn k (sizes self)
                 ++ sizes_outside (skipn k (sizes self)) mask (Z.of_nat k).
Proof.
  induction j as [|j IH]; intros Hj k.
  - exists self. subst k. rewrite Nat.sub_0_r, firstn_all, skipn_all.
    simpl. now rewrite app_nil_r.
  - destruct IH as (t & Ht & Ho & Hd & Hs); [lia|].
    subst k. set (k := (List.length (sizes self) - S j)%nat).
    replace (List.length (sizes self) - j)%nat with (S k) in * by (unfold k; lia).
    assert (Hk : (k < List.length (sizes self))%nat) by (unfold k; lia).
    rewrite <- cons_seq. simpl rev. rewrite fold_left_app, Ht. simpl fold_left.
    simpl bind. rewrite (sizes_outside_skipn _ _ _ Hk).
    pose proof (firstn_snoc (sizes self) k Hk) as Hfirst.
    assert (Hlt : List.length (firstn k (sizes self)) = k)
      by (rewrite length_firstn; lia).
    destruct (bitset_test mask (Z.of_nat k)) eqn:Eb.
    + unfold at_squeeze.
      assert (Hdim : (S k <= List.length (sizes t))%nat).
      { rewrite Hs, length_app, length_firstn. lia. }
      assert (Hw : maybe_wrap_dim (Z.of_nat k) (dim t) = Ok (Z.of_nat k)).
      { unfold dim. rewrite maybe_wrap_dim_ok by lia.
        replace (Z.of_nat k <? 0) with false by (symmetry; apply Z.ltb_ge; lia).
        reflexivity. }
      rewrite Hw. simpl bind.
      assert (Hsz : size t (Z.of_nat k) = 1).
      { unfold size. rewrite Nat2Z.id, Hs, app_nth1 by (rewrite length_firstn; lia).
        rewrite Hfirst, app_nth2 by lia. rewrite Hlt, Nat.sub_diag. simpl.
        apply Hones; assumption. }
      assert (Hd0 : (dim t =? 0) = false) by (apply Z.eqb_neq; unfold dim; lia).
      rewrite Hd0, Hsz. simpl.
      eexists. split; [reflexivity|]. cbn [options data sizes].
      split; [exact Ho|]. split; [exact Hd|].
      unfold drop_dim. rewrite Nat2Z.id, Hs, Hfirst.
      apply drop_middle. exact Hlt.
    + exists t. split; [reflexivity|]. split; [exact Ho|]. split; [exact Hd|].
      rewrite Hs, Hfirst, <- app_assoc. reflexivity.
Qed.
End SqueezeMultiple.

Lemma squeeze_multiple_keepdim {A} (maxes : Tensor A) (shape dims mask : list Z) :
  make_dim_mask dims (Z.of_nat (List.length shape)) = Ok mask ->
  sizes maxes = shape_from_dim_mask shape mask true 0 ->
  exists t,
    squeeze_multiple maxes dims = Ok t
    /\ options t = options maxes /\ data t = data maxes
    /\ sizes t = match dims with
                 | [] => sizes maxes
                 | _ => shape_from_dim_mask shape mask false 0
                 end.
Proof.
  intros Hmask Hs.
  assert (Hlen : List.length (sizes maxes) = List.length shape)
    by (rewrite Hs; apply keepdim_length).
  unfold squeeze_multiple, dim_list_to_bitset, dim. rewrite Hlen, Hmask. simpl bind.
  assert (Hm : dims = [] <-> mask = []).
  { unfold make_dim_mask in Hmask.
    destruct (maybe_wrap_dims dims _) as [ds|e] eqn:E; [|discriminate].
    simpl in Hmask. destruct (has_duplicate ds); [discriminate|].
    simpl in Hmask. injection Hmask as <-.
    destruct dims as [|d0 dims]; simpl in E.
    - injection E as <-. tauto.
    - destruct (maybe_wrap_dim d0 _); [|discriminate]. simpl in E.
      destruct (maybe_wrap_dims dims _); [|discriminate]. simpl in E.
      injection E as <-. split; discriminate. }
  assert (Hones : forall k, (k < List.length (sizes maxes))%nat ->
                            bitset_test mask (Z.of_nat k) = true ->
                            nth k (sizes maxes) 0 = 1).
  { intros k Hk Hb. rewrite Hs. destruct mask as [|m0 mask'] eqn:Em; [discriminate Hb|].
    apply keepdim_ones; [discriminate | lia | exact Hb]. }
  destruct (squeeze_multiple_loop maxes mask Hones (List.length (sizes maxes)) (le_n _))
    as (t & Ht & Ho & Hd & Hst).
  rewrite Nat.sub_diag in Ht, Hst. simpl in Hst.
  unfold irange. rewrite Nat2Z.id, <- Hlen.
  exists t. split; [exact Ht|]. split; [exact Ho|]. split; [exact Hd|].
  rewrite Hst. destruct dims as [|d0 dims'].
  - assert (mask = []) as -> by tauto.
    clear. generalize 0 as i. induction (sizes maxes) as [|s r IH]; intros i;
      [reflexivity|]. simpl. now rewrite IH.
  - assert (Hne : mask <> []) by (intros E; apply Hm in E; discriminate).
    rewrite Hs, sizes_outside_keepdim, sizes_outside_not_keepdim by exact Hne.
    reflexivity.
Qed.

(** X24.  [squeeze_multiple] undoes [keepdim]: on a tensor of the shape that a
    reduction of [self] over [dims] has with [keepdim = true], it returns the
    same elements in the shape that the reduction has with [keepdim = false],
    when [dims] names at least one dimension; for the empty list, which a
    reduction reads as every dimension, it removes nothing. *)
Theorem squeeze_multiple_undoes_keepdim :
  forall (A B : Type) (self : Tensor B) (maxes : Tensor A) (dims kept : list Z),
    get_reduction_shape self dims true = Ok kept ->
    sizes maxes = kept ->
    exists t,
      squeeze_multiple maxes dims = Ok t
      /\ options t = options maxes /\ data t = data maxes
      /\ match dims with
         | [] => sizes t = sizes maxes
         | _ => get_reduction_shape self dims false = Ok (sizes t)
         end.
Proof.
  intros A B self maxes dims kept Hk Hs.
  unfold get_reduction_shape in *. unfold dim in *.
  destruct (make_dim_mask dims (Z.of_nat (List.length (sizes self)))) as [mask|e] eqn:Em;
    [|discriminate].
  simpl in Hk. injection Hk as <-.
  destruct (squeeze_multiple_keepdim maxes (sizes self) dims mask Em Hs)
    as (t & Ht & Ho & Hd & Hst).
  exists t. split; [exact Ht|]. split; [exact Ho|]. split; [exact Hd|].
  destruct dims; [exact Hst|]. simpl. now rewrite Hst.
Qed.

(** A [2 x 3 x 4] tensor reduced over its first and last dimension: from
    [1 x 3 x 1] to [3]. *)
Lemma squeeze_multiple_undoes_keepdim_witness :
  let self := mkTensor [2; 3; 4] (mkOptions kDouble kCPU Strided) (repeat 0 24) in
  let maxes := mkTensor [1; 3; 1] (mkOptions kDouble kCPU Strided) [5; 6; 7] in
  exists t,
    squeeze_multiple maxes [0; -1] = Ok t
    /\ options t = options maxes /\ data t = [5; 6; 7]
    /\ get_reduction_shape self [0; -1] false = Ok (sizes t).
Proof.
  cbv zeta.
  apply (squeeze_multiple_undoes_keepdim Z Z
           (mkTensor [2; 3; 4] (mkOptions kDouble kCPU Strided) (repeat 0 24))
           (mkTensor [1; 3; 1] (mkOptions kDouble kCPU Strided) [5; 6; 7])
           [0; -1] [1; 3; 1]).
  - reflexivity.
  - reflexivity.
Defined.
